(** * Offline DNSSEC analysis core of DNSViz

    A shallow embedding of [dnsviz/analysis/offline.py]
    ([OfflineDomainNameAnalysis]) together with the properties of its
    status evaluator.

    Conventions of the embedding.
    - Python objects that are compared or hashed by identity carry a
      numeric id; analysis nodes live in an arena ([graph]) and refer to
      each other by index, so that cyclic dependency maps can be written
      down.  A reference that is [None], or that points outside the
      arena, denotes no object.
    - Python [dict]s that are only iterated are association lists in
      iteration order; [set]s of names and numbers are [gset]s; the
      mutable [set] and [dict] objects that the code shares between
      callers live in explicit heaps ([st_sets], [st_dicts]).
    - Functions return a [result]: a value, a raised exception, or
      exhaustion of the recursion fuel. *)

From Stdlib Require Import ZArith Lia.
From stdpp Require Import base decidable option list strings gmap.


(** ** Names, record types, provenance *)

Definition dname := string.
Definition rdtype := Z.
Definition server := string.
Definition client := string.
Definition node_id := nat.

(** Record type codes of [dns.rdatatype]. *)
Module rdatatype.
Definition A : rdtype := 1%Z.
Definition NS : rdtype := 2%Z.
Definition CNAME : rdtype := 5%Z.
Definition SOA : rdtype := 6%Z.
Definition MX : rdtype := 15%Z.
Definition AAAA : rdtype := 28%Z.
Definition DNAME : rdtype := 39%Z.
Definition DS : rdtype := 43%Z.
Definition NSEC : rdtype := 47%Z.
Definition DNSKEY : rdtype := 48%Z.
Definition NSEC3 : rdtype := 50%Z.
Definition DLV : rdtype := 32769%Z.
End rdatatype.

(** The exceptions the evaluator can raise. *)
Inductive exn :=
| ValueError (msg : string)
| KeyError
| NameError (name : string)
| AttributeError
| TypeError.

#[global] Instance exn_eq_dec : EqDecision exn.
Proof. solve_decision. Defined.

Inductive result (A : Type) :=
| Ok (a : A)
| Raise (e : exn)
| OutOfFuel.
Arguments Ok {A} a.
Arguments Raise {A} e.
Arguments OutOfFuel {A}.

#[global] Instance result_ret : MRet result := λ A a, Ok a.

#[global] Instance result_bind : MBind result := λ A B k m,
  match m with
  | Ok a => k a
  | Raise e => Raise e
  | OutOfFuel => OutOfFuel
  end.

(** A computation that needs no fuel. *)
Definition of_sum {A} (x : exn + A) : result A :=
  match x with inl e => Raise e | inr a => Ok a end.

(** Attribute access on a reference that may be [None]. *)
Definition deref {A} (o : option A) : result A :=
  match o with Some a => Ok a | None => Raise AttributeError end.

(** A [for] loop whose body may raise. *)
Definition for_each {A S} (body : S → A → result S) : list A → S → result S :=
  fix go l s :=
    match l with
    | [] => Ok s
    | x :: l' => s' ← body s x; go l' s'
    end.

(** Python [dict]s whose iteration order matters are association lists:
    [d[k]] / [d.get(k)], [d[k] = v] (an existing key keeps its place)
    and [del d[k]]. *)
Section alist.
Context {K V : Type} `{EqDecision K}.

Fixpoint alist_get (k : K) (d : list (K * V)) : option V :=
  match d with
  | [] => None
  | (k', v) :: d' => if decide (k' = k) then Some v else alist_get k d'
  end.

Fixpoint alist_set (k : K) (v : V) (d : list (K * V)) : list (K * V) :=
  match d with
  | [] => [(k, v)]
  | (k', v') :: d' =>
      if decide (k' = k) then (k, v) :: d' else (k', v') :: alist_set k v d'
  end.

Definition alist_del (k : K) (d : list (K * V)) : list (K * V) :=
  filter (λ p, p.1 ≠ k) d.

(** [d.update(other)] *)
Definition dict_update (d other : list (K * V)) : list (K * V) :=
  foldl (λ d kv, alist_set kv.1 kv.2 d) d other.
End alist.

(** A DNS response object.  [resp_id] is its identity. *)
Record response := Response {
  resp_id : nat;
  recursion_desired_and_available : bool;
  dnssec_requested : bool;
}.

#[global] Instance response_eq_dec : EqDecision response.
Proof. solve_decision. Defined.

#[global] Instance response_countable : Countable response.
Proof.
  refine (inj_countable'
    (λ r, (resp_id r, recursion_desired_and_available r, dnssec_requested r))
    (λ t, Response t.1.1 t.1.2 t.2) _).
  by intros [].
Defined.

(** [servers_clients]: (server, client) -> [response, ...] *)
Definition provenance := list ((server * client) * list response).
Definition triple := (server * client * response)%type.

(** All (server, client, response) of a provenance, in the order of
    the nested loops
    [for server, client in sc: for response in sc[(server, client)]]. *)
Definition triples (sc : provenance) : list triple :=
  p ← sc; (λ r, (p.1.1, p.1.2, r)) <$> p.2.

(** DNSKEY and DS record data ([dns.rdtypes.ANY.DNSKEY], [DS]). *)
Record DNSKEY := mkDNSKEY {
  flags : Z;
  protocol : Z;
  algorithm : Z;
  key : string;
}.

#[global] Instance DNSKEY_eq_dec : EqDecision DNSKEY.
Proof. solve_decision. Defined.

Record DS := mkDS {
  ds_key_tag : Z;
  ds_algorithm : Z;
  digest_type : Z;
  digest : string;
}.

#[global] Instance DS_eq_dec : EqDecision DS.
Proof. solve_decision. Defined.

Inductive rdata :=
| DNSKEY_rdata (k : DNSKEY)
| DS_rdata (d : DS)
| Other_rdata (text : string).

#[global] Instance rdata_eq_dec : EqDecision rdata.
Proof. solve_decision. Defined.

Record rrset := RRset {
  rrset_name : dname;
  rrset_rdtype : rdtype;
  rrset_ttl : Z;
  rrset_rdata : list rdata;
}.

#[global] Instance rrset_eq_dec : EqDecision rrset.
Proof. solve_decision. Defined.

Record rrsig := RRSIG {
  rrsig_signer : dname;
  rrsig_algorithm : Z;
  rrsig_key_tag : Z;
  rrsig_inception : Z;
  rrsig_expiration : Z;
  rrsig_signature : string;
}.

#[global] Instance rrsig_eq_dec : EqDecision rrsig.
Proof. solve_decision. Defined.

(** [Response.RRsetInfo], [Response.NegativeResponseInfo] and
    [Response.NSECSet] refer to one another; the first component of
    each is the identity of the object. *)
Unset Elimination Schemes.
Inductive rrset_info :=
| RRsetInfo (id : nat) (rrset_ : rrset) (servers_clients : provenance)
    (rrsig_info : list (rrsig * provenance))
    (dname_info : option rrset_info)
    (cname_info_from_dname : list rrset_info)
    (wildcard_info : list (dname * neg_response_info))
with neg_response_info :=
| NegativeResponseInfo (id : nat) (qname : dname) (rdtype_ : rdtype)
    (servers_clients : provenance)
    (soa_rrset_info : list rrset_info)
    (nsec_set_info : list nsec_set)
with nsec_set :=
| NSECSet (id : nat) (use_nsec3 : bool)
    (rrsets : list (dname * rrset_info))
    (servers_clients : provenance).
Set Elimination Schemes.

Module ri.
Definition id (i : rrset_info) := let 'RRsetInfo x _ _ _ _ _ _ := i in x.
Definition rrset (i : rrset_info) := let 'RRsetInfo _ x _ _ _ _ _ := i in x.
Definition servers_clients (i : rrset_info) := let 'RRsetInfo _ _ x _ _ _ _ := i in x.
Definition rrsig_info (i : rrset_info) := let 'RRsetInfo _ _ _ x _ _ _ := i in x.
Definition dname_info (i : rrset_info) := let 'RRsetInfo _ _ _ _ x _ _ := i in x.
Definition cname_info_from_dname (i : rrset_info) := let 'RRsetInfo _ _ _ _ _ x _ := i in x.
Definition wildcard_info (i : rrset_info) := let 'RRsetInfo _ _ _ _ _ _ x := i in x.
End ri.

Module neg.
Definition id (i : neg_response_info) := let 'NegativeResponseInfo x _ _ _ _ _ := i in x.
Definition qname (i : neg_response_info) := let 'NegativeResponseInfo _ x _ _ _ _ := i in x.
Definition rdtype (i : neg_response_info) := let 'NegativeResponseInfo _ _ x _ _ _ := i in x.
Definition servers_clients (i : neg_response_info) := let 'NegativeResponseInfo _ _ _ x _ _ := i in x.
Definition soa_rrset_info (i : neg_response_info) := let 'NegativeResponseInfo _ _ _ _ x _ := i in x.
Definition nsec_set_info (i : neg_response_info) := let 'NegativeResponseInfo _ _ _ _ _ x := i in x.
End neg.

Module nsec.
Definition id (i : nsec_set) := let 'NSECSet x _ _ _ := i in x.
Definition use_nsec3 (i : nsec_set) := let 'NSECSet _ x _ _ := i in x.
Definition rrsets (i : nsec_set) := let 'NSECSet _ _ x _ := i in x.
Definition servers_clients (i : nsec_set) := let 'NSECSet _ _ _ x := i in x.
End nsec.

(** One of the per-retry queries grouped by a query aggregate:
    [responses[server][client]]. *)
Record query1 := Query1 {
  responses : list (server * list (client * response));
}.

(** A query aggregate, the values of [self.queries]. *)
Record query := Query {
  q_qname : dname;
  q_rdtype : rdtype;
  answer_info : list rrset_info;
  nodata_info : list neg_response_info;
  nxdomain_info : list neg_response_info;
  q_queries : list query1;
}.

(** ** The name graph *)

Inductive analysis_type_t :=
| ANALYSIS_TYPE_AUTHORITATIVE
| ANALYSIS_TYPE_RECURSIVE
| ANALYSIS_TYPE_CACHE.

#[global] Instance analysis_type_eq_dec : EqDecision analysis_type_t.
Proof. solve_decision. Defined.

Record node := Node {
  name : dname;
  analysis_type : analysis_type_t;
  stub : bool;
  is_zone : bool;
  referral_rdtype : rdtype;
  parent : option node_id;
  dlv_parent : option node_id;
  dlv_name : option dname;
  zone : option node_id;
  (* the algorithms seen in the DNSKEY, DS and DLV responses while
     the responses were collected *)
  dnssec_algorithms_in_dnskey : gset Z;
  dnssec_algorithms_in_ds : gset Z;
  dnssec_algorithms_in_dlv : gset Z;
  (* timestamp of [analysis_end] *)
  analysis_end : Z;
  cname_targets : list (dname * list (dname * option node_id));
  mx_targets : list (dname * option node_id);
  external_signers : list (dname * option node_id);
  ns_dependencies : list (dname * option node_id);
  queries : list ((dname * rdtype) * query);
}.

Definition graph := list node.

(** The object behind a reference. *)
Definition obj (g : graph) (r : option node_id) : option node :=
  r ≫= λ i, g !! i.

(** ** Evaluator state *)

Inductive name_status :=
| NAME_STATUS_NOERROR
| NAME_STATUS_NXDOMAIN
| NAME_STATUS_INDETERMINATE.

#[global] Instance name_status_eq_dec : EqDecision name_status.
Proof. solve_decision. Defined.

Inductive rrset_status :=
| RRSET_STATUS_SECURE
| RRSET_STATUS_INSECURE
| RRSET_STATUS_BOGUS
| RRSET_STATUS_NON_EXISTENT.

#[global] Instance rrset_status_eq_dec : EqDecision rrset_status.
Proof. solve_decision. Defined.

(** Addresses of Python [set] and [dict] objects. *)
Definition loc := nat.

(** [Response.DNSKEYMeta]: a DNSKEY with its key tags and the RRsets
    that carried it. *)
Record DNSKEYMeta := mkDNSKEYMeta {
  dnskey_id : nat;
  dnskey_name : dname;
  dnskey_rdata : DNSKEY;
  dnskey_ttl : Z;
  key_tag : Z;
  key_tag_no_revoke : Z;
  dnskey_rrset_info : list rrset_info;
  dnskey_servers_clients : provenance;
}.

(** The response components that carry a status, and the key under
    which [response_component_status] holds it: the class of the
    object and its identity. *)
Inductive component :=
| DNSKEYMeta_obj (d : DNSKEYMeta)
| RRsetInfo_obj (i : rrset_info)
| NSECSet_obj (n : nsec_set)
| NegativeResponseInfo_obj (n : neg_response_info)
| other_obj (id : nat).

Inductive component_class := DNSKEYMeta_cls | RRsetInfo_cls | NSECSet_cls
                           | NegativeResponseInfo_cls | other_cls.

#[global] Instance component_class_eq_dec : EqDecision component_class.
Proof. solve_decision. Defined.

#[global] Instance component_class_countable : Countable component_class.
Proof.
  refine (inj_countable'
    (λ c, match c with
          | DNSKEYMeta_cls => 0 | RRsetInfo_cls => 1 | NSECSet_cls => 2
          | NegativeResponseInfo_cls => 3 | other_cls => 4
          end)
    (λ n, match n with
          | 0 => DNSKEYMeta_cls | 1 => RRsetInfo_cls | 2 => NSECSet_cls
          | 3 => NegativeResponseInfo_cls | _ => other_cls
          end) _).
  by intros [].
Defined.

Definition component_key := (component_class * nat)%type.

Definition rrset_info_key (i : rrset_info) : component_key := (RRsetInfo_cls, ri.id i).

Definition key_of (c : component) : component_key :=
  match c with
  | DNSKEYMeta_obj d => (DNSKEYMeta_cls, dnskey_id d)
  | RRsetInfo_obj i => rrset_info_key i
  | NSECSet_obj n => (NSECSet_cls, nsec.id n)
  | NegativeResponseInfo_obj n => (NegativeResponseInfo_cls, neg.id n)
  | other_obj id => (other_cls, id)
  end.

(** The result fields of one node, [None] until populated (see
    [__init__]).  The values computed by the per-RRset evaluators are
    kept abstract here (type [assessment]); fields that are assigned
    together are grouped:
    - [rrsig_status] stands for [rrset_warnings], [rrset_errors],
      [rrsig_status], [dname_status], [wildcard_status],
      [response_errors], [zsks] and [ksks];
    - [nodata_status] and [nxdomain_status] for the status, warnings
      and errors of the negative responses;
    - [published_keys] for [published_keys] and [revoked_keys];
    - [delegation_status] for [ds_status_by_ds], [ds_status_by_dnskey],
      [delegation_warnings], [delegation_errors], [delegation_status]
      and [dnskey_with_ds], apart from their entries of DLV;
    - [dlv_status] for the entries of DLV in these fields. *)
Record results {assessment : Type} := Results {
  status : option name_status;
  yxdomain : option (gset dname);
  yxrrset : option (gset (dname * rdtype));
  nxrrset : option (gset (dname * rdtype));
  dnskeys : option assessment;
  rrsig_status : option assessment;
  nodata_status : option assessment;
  nxdomain_status : option assessment;
  published_keys : option assessment;
  delegation_status : option assessment;
  dlv_status : option assessment;
  dnskey_status : option assessment;
  response_component_status : option loc;
}.
Arguments results : clear implicits.
Arguments Results {assessment}.

Definition empty_results {P} : results P :=
  Results None None None None None None None None None None None None None.

(** Messages passed to [_logger.debug]. *)
Inductive log_entry :=
| Assessing_status (n : dname)
| Assessing_RRSIG_status (n : dname)
| Assessing_NODATA_status (n : dname)
| Assessing_NXDOMAIN_status (n : dname)
| Assessing_delegation_status (n : dname).

Record state {assessment : Type} := State {
  st_nodes : gmap node_id (results assessment);
  st_sets : gmap loc (gset Z);
  st_dicts : gmap loc (gmap component_key rrset_status);
  st_log : list log_entry;
}.
Arguments state : clear implicits.
Arguments State {assessment}.

Section state_access.
Context {P : Type}.
Implicit Types (s : state P) (n : node_id).

Definition fields s n : results P := default empty_results (st_nodes s !! n).

Definition set_fields n (f : results P → results P) s : state P :=
  State (<[n := f (fields s n)]> (st_nodes s)) (st_sets s) (st_dicts s) (st_log s).

Definition log (e : log_entry) s : state P :=
  State (st_nodes s) (st_sets s) (st_dicts s) (st_log s ++ [e]).

Definition set_status v (r : results P) :=
  Results v (yxdomain r) (yxrrset r) (nxrrset r) (dnskeys r) (rrsig_status r)
    (nodata_status r) (nxdomain_status r) (published_keys r) (delegation_status r)
    (dlv_status r) (dnskey_status r) (response_component_status r).
Definition set_yxdomain v (r : results P) :=
  Results (status r) v (yxrrset r) (nxrrset r) (dnskeys r) (rrsig_status r)
    (nodata_status r) (nxdomain_status r) (published_keys r) (delegation_status r)
    (dlv_status r) (dnskey_status r) (response_component_status r).
Definition set_yxrrset v (r : results P) :=
  Results (status r) (yxdomain r) v (nxrrset r) (dnskeys r) (rrsig_status r)
    (nodata_status r) (nxdomain_status r) (published_keys r) (delegation_status r)
    (dlv_status r) (dnskey_status r) (response_component_status r).
Definition set_nxrrset v (r : results P) :=
  Results (status r) (yxdomain r) (yxrrset r) v (dnskeys r) (rrsig_status r)
    (nodata_status r) (nxdomain_status r) (published_keys r) (delegation_status r)
    (dlv_status r) (dnskey_status r) (response_component_status r).
Definition set_dnskeys v (r : results P) :=
  Results (status r) (yxdomain r) (yxrrset r) (nxrrset r) v (rrsig_status r)
    (nodata_status r) (nxdomain_status r) (published_keys r) (delegation_status r)
    (dlv_status r) (dnskey_status r) (response_component_status r).
Definition set_rrsig_status v (r : results P) :=
  Results (status r) (yxdomain r) (yxrrset r) (nxrrset r) (dnskeys r) v
    (nodata_status r) (nxdomain_status r) (published_keys r) (delegation_status r)
    (dlv_status r) (dnskey_status r) (response_component_status r).
Definition set_nodata_status v (r : results P) :=
  Results (status r) (yxdomain r) (yxrrset r) (nxrrset r) (dnskeys r) (rrsig_status r)
    v (nxdomain_status r) (published_keys r) (delegation_status r)
    (dlv_status r) (dnskey_status r) (response_component_status r).
Definition set_nxdomain_status v (r : results P) :=
  Results (status r) (yxdomain r) (yxrrset r) (nxrrset r) (dnskeys r) (rrsig_status r)
    (nodata_status r) v (published_keys r) (delegation_status r)
    (dlv_status r) (dnskey_status r) (response_component_status r).
Definition set_published_keys v (r : results P) :=
  Results (status r) (yxdomain r) (yxrrset r) (nxrrset r) (dnskeys r) (rrsig_status r)
    (nodata_status r) (nxdomain_status r) v (delegation_status r)
    (dlv_status r) (dnskey_status r) (response_component_status r).
Definition set_delegation_status v (r : results P) :=
  Results (status r) (yxdomain r) (yxrrset r) (nxrrset r) (dnskeys r) (rrsig_status r)
    (nodata_status r) (nxdomain_status r) (published_keys r) v
    (dlv_status r) (dnskey_status r) (response_component_status r).
Definition set_dlv_status v (r : results P) :=
  Results (status r) (yxdomain r) (yxrrset r) (nxrrset r) (dnskeys r) (rrsig_status r)
    (nodata_status r) (nxdomain_status r) (published_keys r) (delegation_status r)
    v (dnskey_status r) (response_component_status r).
Definition set_dnskey_status v (r : results P) :=
  Results (status r) (yxdomain r) (yxrrset r) (nxrrset r) (dnskeys r) (rrsig_status r)
    (nodata_status r) (nxdomain_status r) (published_keys r) (delegation_status r)
    (dlv_status r) v (response_component_status r).
Definition set_response_component_status v (r : results P) :=
  Results (status r) (yxdomain r) (yxrrset r) (nxrrset r) (dnskeys r) (rrsig_status r)
    (nodata_status r) (nxdomain_status r) (published_keys r) (delegation_status r)
    (dlv_status r) (dnskey_status r) v.
End state_access.

(** ** The collected analysis

    The parts of [online.py] and [response.py] that the evaluator
    consults: name lookup in the tree, the bailiwick map, and the
    referral predicates of a response. *)
Class Collector := {
  get_name : graph → node_id → dname → option node_id;
  get_bailiwick_mapping : graph → node_id → list (server * dname) * option dname;
  is_upward_referral : response → dname → bool;
  (* [response.is_referral(qname, rdtype, bailiwick, proper=True)] *)
  is_referral_proper : response → dname → rdtype → option dname → bool;
}.

(** ** Name-status evaluator: [_populate_name_status] *)
Section name_status.
Context `{Collector} {P : Type} (g : graph).
Implicit Types (s : state P) (self : node_id).

(** [yxdomain], [yxrrset], [nxrrset] while the queries are scanned. *)
Definition name_sets := (gset dname * gset (dname * rdtype) * gset (dname * rdtype))%type.

Definition rrset_key (i : rrset_info) : dname * rdtype :=
  (rrset_name (ri.rrset i), rrset_rdtype (ri.rrset i)).

(** [qname_obj.zone.name] *)
Definition zone_name (qname_obj : option node_id) : result dname :=
  o ← deref (obj g qname_obj);
  z ← deref (obj g (zone o));
  Ok (name z).

(** The object whose zone is consulted for a query. *)
Definition name_status_qname_obj self (qname : dname) (rdtype_ : rdtype)
    : result (option node_id) :=
  let qname_obj := get_name g self qname in
  if decide (rdtype_ = rdatatype.DS) then
    o ← deref (obj g qname_obj); Ok (parent o)
  else if decide (rdtype_ = rdatatype.DLV) then
    o ← deref (obj g qname_obj);
    if decide (Some qname = dlv_name o) then Ok (dlv_parent o) else Ok qname_obj
  else Ok qname_obj.

(** Loop body over [query.answer_info]. *)
Definition name_status_answer (acc : name_sets) (rrset_info_ : rrset_info)
    : result name_sets :=
  let '(yxd, yxr, nxr) := acc in
  let yxd := yxd ∪ {[rrset_name (ri.rrset rrset_info_)]} in
  let yxr := yxr ∪ {[rrset_key rrset_info_]} in
  let yxr :=
    match ri.dname_info rrset_info_ with
    | Some d => yxr ∪ {[rrset_key d]}
    | None => yxr
    end in
  yxr ← for_each (λ yxr cname_rrset_info,
           d ← deref (ri.dname_info cname_rrset_info);
           Ok (yxr ∪ {[rrset_key d]} ∪ {[rrset_key cname_rrset_info]}))
         (ri.cname_info_from_dname rrset_info_) yxr;
  Ok (yxd, yxr, nxr).

(** Loop body over [query.nodata_info]. *)
Definition name_status_nodata (qname : dname) (qname_obj : option node_id)
    (acc : name_sets) (neg_response_info_ : neg_response_info) : result name_sets :=
  for_each (λ acc (t : triple),
      let '(yxd, yxr, nxr) := acc in
      let response_ := t.2 in
      if bool_decide (neg.qname neg_response_info_ = qname)
         || recursion_desired_and_available response_ then
        zn ← zone_name qname_obj;
        let yxd := if is_upward_referral response_ zn then yxd
                   else yxd ∪ {[neg.qname neg_response_info_]} in
        Ok (yxd, yxr, nxr ∪ {[(neg.qname neg_response_info_, neg.rdtype neg_response_info_)]})
      else Ok acc)
    (triples (neg.servers_clients neg_response_info_)) acc.

(** Loop body over [query.nxdomain_info]. *)
Definition name_status_nxdomain (qname : dname)
    (acc : name_sets) (neg_response_info_ : neg_response_info) : name_sets :=
  foldl (λ acc (t : triple),
      let '(yxd, yxr, nxr) := acc in
      if bool_decide (neg.qname neg_response_info_ = qname)
         || recursion_desired_and_available t.2 then
        (yxd, yxr, nxr ∪ {[(neg.qname neg_response_info_, neg.rdtype neg_response_info_)]})
      else acc)
    acc (triples (neg.servers_clients neg_response_info_)).

(** Does some response to the query carry a proper referral?  (The
    loop that is left through [FoundYXDOMAIN].) *)
Definition found_referral self (nd : node) (rdtype_ : rdtype) (query_ : query) : bool :=
  let '(bailiwick_map, default_bailiwick) := get_bailiwick_mapping g self in
  existsb (λ query1_,
    existsb (λ sr : server * list (client * response),
      let bailiwick :=
        match alist_get sr.1 bailiwick_map with
        | Some b => Some b
        | None => default_bailiwick
        end in
      existsb (λ cr : client * response,
        is_referral_proper cr.2 (name nd) rdtype_ bailiwick) sr.2)
    (responses query1_))
  (q_queries query_).

(** Body of the first loop over [self.queries.items()]. *)
Definition name_status_query self (nd : node) (acc : name_sets)
    (item : (dname * rdtype) * query) : result name_sets :=
  let '((qname, rdtype_), query_) := item in
  qname_obj ← name_status_qname_obj self qname rdtype_;
  acc ← for_each name_status_answer (answer_info query_) acc;
  acc ← for_each (name_status_nodata qname qname_obj) (nodata_info query_) acc;
  let acc := foldl (name_status_nxdomain qname) acc (nxdomain_info query_) in
  let '(yxd, yxr, nxr) := acc in
  if bool_decide (name nd = qname) && bool_decide (name nd ∉ yxd) then
    if bool_decide (rdtype_ ≠ referral_rdtype nd) && bool_decide (rdtype_ ≠ rdatatype.NS)
    then Ok acc
    else if found_referral self nd rdtype_ query_
    then Ok (yxd ∪ {[name nd]}, yxr, nxr)
    else Ok acc
  else Ok acc.

(** [cname_targets] flattened in the order of the two nested loops:
    (cname, target, cname_obj). *)
Definition cname_items (nd : node) : list (dname * dname * option node_id) :=
  ct ← cname_targets nd; (λ tc, (ct.1, tc.1, tc.2)) <$> ct.2.

(** The second loop over the queries: is there a query, other than
    for DS, with an NXDOMAIN response for the name that was asked? *)
Definition nxdomain_for_qname (nd : node) : bool :=
  existsb (λ item : (dname * rdtype) * query,
    let '((qname, rdtype_), query_) := item in
    bool_decide (rdtype_ ≠ rdatatype.DS)
    && bool_decide (filter (λ x, neg.qname x = qname) (nxdomain_info query_) ≠ []))
  (queries nd).

(** The last two statements of [_populate_name_status]. *)
Definition final_name_status (nd : node) (yxd : gset dname) : name_status :=
  let status_ :=
    if bool_decide (name nd ∈ yxd) then NAME_STATUS_NOERROR
    else NAME_STATUS_INDETERMINATE in
  if decide (status_ = NAME_STATUS_INDETERMINATE) then
    if nxdomain_for_qname nd then NAME_STATUS_NXDOMAIN else status_
  else status_.

(** The body of the loop over the CNAME targets; [recurse] is
    [cname_obj._populate_name_status(trace=trace + [self])]. *)
Definition name_status_cname (recurse : node_id → state P → result (state P)) self s
    (item : dname * dname * option node_id) : result (state P) :=
  let '(cname, target, cname_obj) := item in
  match cname_obj with
  | None => Ok s
  | Some c =>
    if decide (c = self) then Ok s else
    s ← (if yxrrset (fields s c) is None then recurse c s else Ok s);
    match yxrrset (fields s c) with
    | None => Raise TypeError
    | Some cyx =>
      let add : gset (dname * rdtype) :=
        set_map (λ p : dname * rdtype, (cname, p.2))
                (filter (λ p : dname * rdtype, p.1 = target) cyx) in
      Ok (set_fields self (λ r, set_yxrrset (Some (default ∅ (yxrrset r) ∪ add)) r) s)
    end
  end.

Fixpoint _populate_name_status_fuel (fuel : nat) self (trace : list node_id) s
    : result (state P) :=
  match fuel with
  | 0 => OutOfFuel
  | S fuel =>
    (* avoid loops *)
    if decide (self ∈ trace) then Ok s else
    match g !! self with
    | None => Ok s
    | Some nd =>
      let s := set_fields self (λ r,
                 set_nxrrset (Some ∅) (set_yxrrset (Some ∅) (set_yxdomain (Some ∅)
                   (set_status (Some NAME_STATUS_INDETERMINATE) r)))) s in
      acc ← for_each (name_status_query self nd) (queries nd) (∅, ∅, ∅);
      let '(yxd, yxr, nxr) := acc in
      let s := set_fields self (λ r,
                 set_nxrrset (Some nxr) (set_yxrrset (Some yxr)
                   (set_yxdomain (Some yxd) r))) s in
      (* now add the values of CNAMEs *)
      s ← for_each (name_status_cname
                      (λ c s, _populate_name_status_fuel fuel c (trace ++ [self]) s) self)
           (cname_items nd) s;
      let yxd := default ∅ (yxdomain (fields s self)) in
      Ok (set_fields self (set_status (Some (final_name_status nd yxd))) s)
    end
  end.

(** The trace bounds the depth of the recursion by the number of
    nodes. *)
Definition _populate_name_status self (trace : list node_id) s : result (state P) :=
  _populate_name_status_fuel (S (length g)) self trace s.
End name_status.

(** The reading of the final status in which an NXDOMAIN response
    counts when it is about the node's own name, whatever name the
    query asked for. *)
Section name_status_by_own_name.
Definition nxdomain_for_own_name (nd : node) : bool :=
  existsb (λ item : (dname * rdtype) * query,
    bool_decide (item.1.2 ≠ rdatatype.DS)
    && bool_decide (filter (λ x, neg.qname x = name nd) (nxdomain_info item.2) ≠ []))
  (queries nd).

Definition name_status_by_own_name (nd : node) (yxd : gset dname) : name_status :=
  if bool_decide (name nd ∈ yxd) then NAME_STATUS_NOERROR
  else if nxdomain_for_own_name nd then NAME_STATUS_NXDOMAIN
  else NAME_STATUS_INDETERMINATE.
End name_status_by_own_name.

(** ** Status population: [populate_status]

    The per-RRset evaluators are embedded one by one further below
    ([_populate_rrsig_status], [_populate_negative_response_status],
    [_populate_ds_status], ...).  For the traversal of the name graph
    only their interface matters: each reads the graph, the fields
    populated so far and the supported algorithms, and yields the value
    of the fields it assigns on [self], or raises.  They are loops over
    the collected responses: they return. *)
Class Evaluators (P : Type) := {
  (* [_dnskey_sets], [_dnskeys] *)
  index_dnskeys : graph → node_id → P;
  (* the loop of [_populate_rrsig_status_all] *)
  assess_rrsig : graph → gmap node_id (results P) → node_id → gset Z → exn + P;
  (* the loops of [_populate_nodata_status] and [_populate_nxdomain_status] *)
  assess_nodata : graph → gmap node_id (results P) → node_id → gset Z → exn + P;
  assess_nxdomain : graph → gmap node_id (results P) → node_id → gset Z → exn + P;
  (* [published_keys], [revoked_keys] *)
  key_roles : graph → gmap node_id (results P) → node_id → P;
  (* the fields that [_populate_delegation_status] creates: empty
     [dict]s and an empty [set] *)
  new_delegation : P;
  (* what [_populate_ds_status] does after its log record, for DS and
     for DLV *)
  assess_delegation :
    graph → gmap node_id (results P) → node_id → gset Z → gset Z → exn + P;
  assess_dlv :
    graph → gmap node_id (results P) → node_id → gset Z → gset Z → exn + P;
  (* [_populate_ns_status], [_populate_server_status] *)
  assess_servers : graph → gmap node_id (results P) → node_id → exn + P;
  assess_dnskey :
    graph → gmap node_id (results P) → node_id → list (dname * rdata) → exn + P;
}.

(** The sets of the [crypto] module, [crypto._supported_algs] and
    [crypto._supported_digest_algs], are objects of the heap. *)
Definition crypto_supported_algs : loc := 0.
Definition crypto_supported_digest_algs : loc := 1.

Section populate_status.
Context `{Collector} {P : Type} `{Evaluators P} (g : graph).
Implicit Types (s : state P) (self : node_id).

(** The contents of a [set] object. *)
Definition set_at s (l : loc) : gset Z := default ∅ (st_sets s !! l).

(** [a.intersection_update(b)]: mutates [a] in place. *)
Definition intersection_update (a b : loc) s : state P :=
  State (st_nodes s) (<[a := set_at s a ∩ set_at s b]> (st_sets s)) (st_dicts s) (st_log s).

(** [if obj is not None: obj.method(...)] *)
Definition when_present (r : option node_id) (f : node_id → state P → result (state P)) s
    : result (state P) :=
  match r with
  | Some o => f o s
  | None => Ok s
  end.

Definition _index_dnskeys self s : state P :=
  set_fields self (set_dnskeys (Some (index_dnskeys g self))) s.

Definition _populate_rrsig_status_all self (supported_algs : loc) s : result (state P) :=
  let s := log (Assessing_RRSIG_status (default "" (name <$> g !! self))) s in
  v ← of_sum (assess_rrsig g (st_nodes s) self (set_at s supported_algs));
  Ok (set_fields self (set_rrsig_status (Some v)) s).

Definition _populate_nodata_status self (supported_algs : loc) s : result (state P) :=
  let s := log (Assessing_NODATA_status (default "" (name <$> g !! self))) s in
  v ← of_sum (assess_nodata g (st_nodes s) self (set_at s supported_algs));
  Ok (set_fields self (set_nodata_status (Some v)) s).

Definition _populate_nxdomain_status self (supported_algs : loc) s : result (state P) :=
  let s := log (Assessing_NXDOMAIN_status (default "" (name <$> g !! self))) s in
  v ← of_sum (assess_nxdomain g (st_nodes s) self (set_at s supported_algs));
  Ok (set_fields self (set_nxdomain_status (Some v)) s).

Definition _finalize_key_roles self (nd : node) s : state P :=
  if is_zone nd
  then set_fields self (set_published_keys (Some (key_roles g (st_nodes s) self))) s
  else s.

(** [self._populate_ds_status(dns.rdatatype.DS, ...)]: a name
    without parent has no delegation to assess, and nothing is logged
    for it.  The result field [delegation_status] stands for the
    fields of the delegation apart from their entries of DLV, for
    which [dlv_status] stands. *)
Definition _populate_ds_status_ds self (nd : node)
    (supported_algs supported_digest_algs : loc) s : result (state P) :=
  if parent nd is None then Ok s else
  let s := log (Assessing_delegation_status (name nd)) s in
  v ← of_sum (assess_delegation g (st_nodes s) self
        (set_at s supported_algs) (set_at s supported_digest_algs));
  Ok (set_fields self (set_delegation_status (Some v)) s).

(** [self._populate_ds_status(dns.rdatatype.DLV, ...)] *)
Definition _populate_ds_status_dlv self (nd : node)
    (supported_algs supported_digest_algs : loc) s : result (state P) :=
  if parent nd is None then Ok s else
  if dlv_name nd is None
  then Raise (ValueError "No DLV specified for DomainNameAnalysis object.") else
  let s := log (Assessing_delegation_status (name nd)) s in
  v ← of_sum (assess_dlv g (st_nodes s) self
        (set_at s supported_algs) (set_at s supported_digest_algs));
  Ok (set_fields self (set_dlv_status (Some v)) s).

Definition _populate_delegation_status self (nd : node)
    (supported_algs supported_digest_algs : loc) s : result (state P) :=
  let s := set_fields self
             (λ r, set_dlv_status None (set_delegation_status (Some new_delegation) r)) s in
  s ← _populate_ds_status_ds self nd supported_algs supported_digest_algs s;
  s ← (if dlv_parent nd is Some _
       then _populate_ds_status_dlv self nd supported_algs supported_digest_algs s
       else Ok s);
  (* [self._populate_ns_status()], [self._populate_server_status()] *)
  v ← of_sum (assess_servers g (st_nodes s) self);
  Ok (set_fields self (set_delegation_status (Some v)) s).

Definition _populate_dnskey_status self (trusted_keys : list (dname * rdata)) s
    : result (state P) :=
  v ← of_sum (assess_dnskey g (st_nodes s) self trusted_keys);
  Ok (set_fields self (set_dnskey_status (Some v)) s).

(** The part of [populate_status] that follows the three early
    returns and the choice of the supported algorithms; [recurse] is
    [populate_status] itself, called with [trace + [self]]. *)
Definition evaluate_node
    (recurse : node_id → option loc → option loc → bool → bool → state P → result (state P))
    self (nd : node) (trusted_keys : list (dname * rdata))
    (supported_algs supported_digest_algs : loc) (is_dlv follow_mx : bool) s
    : result (state P) :=
  (* populate status of dependencies *)
  s ← for_each (λ s (item : dname * dname * option node_id),
         when_present item.2 (λ cname_obj, recurse cname_obj None None false true) s)
       (cname_items nd) s;
  s ← (if follow_mx then
         for_each (λ s (item : dname * option node_id),
           when_present item.2 (λ mx_obj, recurse mx_obj None None false false) s)
         (mx_targets nd) s
       else Ok s);
  s ← for_each (λ s (item : dname * option node_id),
         when_present item.2 (λ signer_obj, recurse signer_obj None None false true) s)
       (external_signers nd) s;
  s ← for_each (λ s (item : dname * option node_id),
         when_present item.2 (λ ns_obj, recurse ns_obj None None false true) s)
       (ns_dependencies nd) s;
  (* populate status of ancestry *)
  s ← when_present (parent nd) (λ p,
         recurse p (Some supported_algs) (Some supported_digest_algs) false true) s;
  s ← when_present (dlv_parent nd) (λ p,
         recurse p (Some supported_algs) (Some supported_digest_algs) true true) s;
  let s := log (Assessing_status (name nd)) s in
  s ← _populate_name_status g self [] s;
  let s := _index_dnskeys self s in
  s ← _populate_rrsig_status_all self supported_algs s;
  s ← _populate_nodata_status self supported_algs s;
  s ← _populate_nxdomain_status self supported_algs s;
  let s := _finalize_key_roles self nd s in
  s ← (if is_dlv then Ok s
       else _populate_delegation_status self nd supported_algs supported_digest_algs s);
  s ← (if dlv_parent nd is Some _
       then _populate_ds_status_dlv self nd supported_algs supported_digest_algs s
       else Ok s);
  _populate_dnskey_status self trusted_keys s.

(** [supported_algs] as the evaluators see it, and the state after the
    update of a set that the caller supplied. *)
Definition choose_supported (supplied : option loc) (software : loc) s : loc * state P :=
  match supplied with
  | Some a => (a, intersection_update a software s)
  | None => (software, s)
  end.

Fixpoint populate_status_fuel (fuel : nat) self (trusted_keys : list (dname * rdata))
    (supported_algs supported_digest_algs : option loc) (is_dlv : bool)
    (trace : list node_id) (follow_mx : bool) s : result (state P) :=
  match fuel with
  | 0 => OutOfFuel
  | S fuel =>
    match g !! self with
    | None => Ok s
    | Some nd =>
      (* avoid loops *)
      if decide (self ∈ trace) then _populate_name_status g self [] s
      (* if status has already been populated, then don't reevaluate *)
      else if rrsig_status (fields s self) is Some _ then Ok s
      (* if we're a stub, there's nothing to evaluate *)
      else if stub nd then Ok s
      else
        (* identify supported algorithms as intersection of explicitly
           supported and software supported *)
        let '(supported_algs, s) :=
          choose_supported supported_algs crypto_supported_algs s in
        let '(supported_digest_algs, s) :=
          choose_supported supported_digest_algs crypto_supported_digest_algs s in
        evaluate_node
          (λ o a d dlv mx, populate_status_fuel fuel o trusted_keys a d dlv
                             (trace ++ [self]) mx)
          self nd trusted_keys supported_algs supported_digest_algs is_dlv follow_mx s
    end
  end.

(** Every recursive call extends the trace by a node that is not yet
    in it, so the recursion is never deeper than the number of nodes. *)
Definition populate_status self (trusted_keys : list (dname * rdata))
    (supported_algs supported_digest_algs : option loc) (is_dlv : bool)
    (trace : list node_id) (follow_mx : bool) s : result (state P) :=
  populate_status_fuel (S (length g)) self trusted_keys
    supported_algs supported_digest_algs is_dlv trace follow_mx s.
End populate_status.

(** The nodes of the arena that a traversal with this trace may still
    enter: the measure that bounds the recursions through the
    dependency maps. *)
Definition unvisited (g : graph) (trace : list node_id) : nat :=
  length (filter (λ i, i ∉ trace) (seq 0 (length g))).

(** The fields that [_populate_name_status] does not assign. *)
Definition evaluation {P} (r : results P) :=
  (dnskeys r, rrsig_status r, nodata_status r, nxdomain_status r, published_keys r,
   delegation_status r, dlv_status r, dnskey_status r, response_component_status r).

(** What [_populate_name_status] leaves alone: the heaps, the log and
    every field of every node other than the four it assigns. *)
Definition name_frame {P} (s s' : state P) : Prop :=
  st_sets s' = st_sets s ∧ st_dicts s' = st_dicts s ∧ st_log s' = st_log s
  ∧ ∀ m, evaluation (fields s' m) = evaluation (fields s m).

(** [recurse] changes no node whose [yxrrset] is assigned, other than
    the node it is called on. *)
Definition stable {P} (recurse : node_id → state P → result (state P)) : Prop :=
  ∀ c s s' m, recurse c s = Ok s' → m ≠ c → is_Some (yxrrset (fields s m)) →
              st_nodes s' !! m = st_nodes s !! m.

(** The [supported_algs] argument [a], when it is a set, is one of the
    sets [W]. *)
Definition passes (W : loc → Prop) (a : option loc) : Prop := ∀ x, a = Some x → W x.

(** [populate_status] takes none of its early returns: the node is
    not in the trace, its status has not been populated yet, and it is
    not a stub. *)
Definition evaluated {P} (g : graph) (s : state P) (self : node_id) (trace : list node_id)
    : Prop :=
  ∃ nd, (g !! self = Some nd) ∧ (self ∉ trace)
        ∧ rrsig_status (fields s self) = None ∧ stub nd = false.

(** ** Component-status propagation:
       [populate_response_component_status]

    [G] is the trust graph built by the caller (not part of this
    file): its index of response components and the status it computed
    for each of its nodes. *)
Record trust_graph := TrustGraph {
  (* obj -> node_str, in iteration order *)
  node_reverse_mapping : list (component * string);
  (* [status_for_node(node_str, port=None)]; the port of an NSEC is
     the text of its owner name *)
  status_for_node : string → option dname → rrset_status;
  (* ids of the RRsetInfo objects in the set *)
  secure_dnskey_rrsets : gset nat;
  is_invis : string → bool;
  secure_nsec_nodes_covering_node : string → list string;
  secure_nsec3_optout_nodes_covering_node : string → list string;
}.

(** [G.node_reverse_mapping[obj]] *)
Definition node_str_of (G : trust_graph) (k : component_key) : result string :=
  match alist_get k ((λ p : component * string, (key_of p.1, p.2))
                       <$> node_reverse_mapping G) with
  | Some node_str => Ok node_str
  | None => Raise KeyError
  end.

(** [d[k]] on a [dict] *)
Definition dict_get {K V} `{Countable K} (d : gmap K V) (k : K) : result V :=
  match d !! k with
  | Some v => Ok v
  | None => Raise KeyError
  end.

Abbreviation rcs_dict := (gmap component_key rrset_status).

(** The branch for [Response.NegativeResponseInfo]. *)
Definition negative_response_component_status (G : trust_graph)
    (obj_ : neg_response_info) (node_str : string) (status_ : rrset_status)
    (rcs : rcs_dict) : result rcs_dict :=
  let key := key_of (NegativeResponseInfo_obj obj_) in
  (* the following two cases are only for zones *)
  rcs ← (if is_invis G node_str then
           if decide (neg.rdtype obj_ = rdatatype.DS) then
             if decide (status_ = RRSET_STATUS_INSECURE) then
               if bool_decide (secure_nsec_nodes_covering_node G node_str ≠ [])
               then Ok (<[key := RRSET_STATUS_SECURE]> rcs)
               else Ok rcs
             else Ok rcs
           else if decide (neg.rdtype obj_ = rdatatype.DNSKEY) then
             let rcs := if decide (status_ = RRSET_STATUS_SECURE)
                        then <[key := RRSET_STATUS_BOGUS]> rcs else rcs in
             for_each (λ rcs soa_rrset,
                 v ← dict_get rcs key; Ok (<[rrset_info_key soa_rrset := v]> rcs))
               (neg.soa_rrset_info obj_) rcs
           else Ok rcs
         else Ok rcs);
  (* for non-DNSKEY responses, verify that the negative response is
     secure by checking that the SOA is also secure *)
  if decide (neg.rdtype obj_ ≠ rdatatype.DNSKEY) then
    let opt_out_secure :=
      bool_decide (secure_nsec3_optout_nodes_covering_node G node_str ≠ []) in
    if bool_decide (status_ = RRSET_STATUS_SECURE)
       || (bool_decide (status_ = RRSET_STATUS_INSECURE) && opt_out_secure) then
      soa_secure ← for_each (λ soa_secure soa_rrset,
          soa_node ← node_str_of G (rrset_info_key soa_rrset);
          if decide (status_for_node G soa_node None = RRSET_STATUS_SECURE)
          then Ok true else Ok soa_secure)
        (neg.soa_rrset_info obj_) false;
      if soa_secure : bool then Ok rcs else Ok (<[key := RRSET_STATUS_BOGUS]> rcs)
    else Ok rcs
  else Ok rcs.

(** Body of the loop over [G.node_reverse_mapping]. *)
Definition component_status_step (G : trust_graph) (rcs : rcs_dict)
    (item : component * string) : result rcs_dict :=
  let '(obj_, _) := item in
  match obj_ with
  | other_obj _ => Ok rcs
  | _ =>
    node_str ← node_str_of G (key_of obj_);
    let status_ := status_for_node G node_str None in
    let rcs := <[key_of obj_ := status_]> rcs in
    match obj_ with
    | DNSKEYMeta_obj d =>
        Ok (foldl (λ rcs rrset_info_,
                     <[rrset_info_key rrset_info_ :=
                         if decide (ri.id rrset_info_ ∈ secure_dnskey_rrsets G)
                         then RRSET_STATUS_SECURE else status_]> rcs)
                  rcs (dnskey_rrset_info d))
    (* Mark each individual NSEC in the set *)
    | NSECSet_obj n =>
        Ok (foldl (λ rcs (e : dname * rrset_info),
                     <[rrset_info_key e.2 := status_for_node G node_str (Some e.1)]> rcs)
                  rcs (nsec.rrsets n))
    | NegativeResponseInfo_obj n =>
        negative_response_component_status G n node_str status_ rcs
    | _ => Ok rcs
    end
  end.

Section response_component_status.
Context {P : Type} (g : graph).
Implicit Types (s : state P) (self : node_id).

Fixpoint _set_response_component_status_fuel (fuel : nat) self
    (response_component_status_ : loc) (is_dlv : bool) (trace : list node_id)
    (follow_mx : bool) s : result (state P) :=
  match fuel with
  | 0 => OutOfFuel
  | S fuel =>
    (* avoid loops *)
    if decide (self ∈ trace) then Ok s else
    match g !! self with
    | None => Ok s
    | Some nd =>
      let recurse o dlv mx :=
        _set_response_component_status_fuel fuel o response_component_status_ dlv
          (trace ++ [self]) mx in
      (* populate status of dependencies *)
      s ← for_each (λ s (item : dname * dname * option node_id),
             match item.2 with
             | Some cname_obj => recurse cname_obj false true s
             | None => Ok s
             end)
           (cname_items nd) s;
      s ← (if follow_mx then
             for_each (λ s (item : dname * option node_id),
               match item.2 with
               | Some mx_obj => recurse mx_obj false false s
               | None => Ok s
               end)
             (mx_targets nd) s
           else Ok s);
      s ← for_each (λ s (item : dname * option node_id),
             match item.2 with
             | Some signer_obj => recurse signer_obj false true s
             | None => Ok s
             end)
           (external_signers nd) s;
      s ← for_each (λ s (item : dname * option node_id),
             match item.2 with
             | Some ns_obj => recurse ns_obj false true s
             | None => Ok s
             end)
           (ns_dependencies nd) s;
      (* populate status of ancestry *)
      s ← match parent nd with
          | Some p => recurse p false true s
          | None => Ok s
          end;
      s ← match dlv_parent nd with
          | Some p => recurse p true true s
          | None => Ok s
          end;
      Ok (set_fields self (set_response_component_status (Some response_component_status_)) s)
    end
  end.

Definition _set_response_component_status self (response_component_status_ : loc)
    (is_dlv : bool) (trace : list node_id) (follow_mx : bool) s : result (state P) :=
  _set_response_component_status_fuel (S (length g)) self response_component_status_
    is_dlv trace follow_mx s.

(** The mapping is a new [dict] object; the nodes hold its address. *)
Definition populate_response_component_status (G : trust_graph) self s
    : result (state P) :=
  response_component_status_ ← for_each (component_status_step G)
                                 (node_reverse_mapping G) ∅;
  let l := fresh (dom (st_dicts s)) in
  let s := State (st_nodes s) (st_sets s)
             (<[l := response_component_status_]> (st_dicts s)) (st_log s) in
  s ← _set_response_component_status self l false [] true s;
  Ok s.

(** The dependency and ancestry links of the name graph. *)
Inductive link_kind := cname_link | mx_link | signer_link | ns_link | parent_link
                     | dlv_parent_link.

#[global] Instance link_kind_eq_dec : EqDecision link_kind.
Proof. solve_decision. Defined.

Definition links (nd : node) : list (link_kind * node_id) :=
  omap (λ item : dname * dname * option node_id, (cname_link,.) <$> item.2) (cname_items nd)
  ++ omap (λ item : dname * option node_id, (mx_link,.) <$> item.2) (mx_targets nd)
  ++ omap (λ item : dname * option node_id, (signer_link,.) <$> item.2) (external_signers nd)
  ++ omap (λ item : dname * option node_id, (ns_link,.) <$> item.2) (ns_dependencies nd)
  ++ option_list ((parent_link,.) <$> parent nd)
  ++ option_list ((dlv_parent_link,.) <$> dlv_parent nd).

(** One iteration of the loops over the dependencies and the ancestry
    of a node, by the kind of link: MX targets are visited only if
    [follow_mx], and visited with [follow_mx=False]; the DLV parent is
    visited with [is_dlv=True]. *)
Definition link_step (recurse : node_id → bool → bool → state P → result (state P))
    (follow_mx : bool) s (ko : link_kind * node_id) : result (state P) :=
  if bool_decide (ko.1 = mx_link) && negb follow_mx then Ok s
  else recurse ko.2 (bool_decide (ko.1 = dlv_parent_link))
         (negb (bool_decide (ko.1 = mx_link))) s.

(** [m] is reachable from [n] through the links of the graph. *)
Inductive reachable : node_id → node_id → Prop :=
| reachable_refl n nd : g !! n = Some nd → reachable n n
| reachable_step n nd k o m :
    g !! n = Some nd → (k, o) ∈ links nd → reachable o m → reachable n m.

(** [m] is reachable from [n] along a path that enters no node of
    [trace] and no node twice, and that never leaves through an MX
    link a node that it entered through an MX link ([follow_mx] tells
    whether [n] may be left through its MX links). *)
Inductive visits : list node_id → bool → node_id → node_id → Prop :=
| visits_here trace follow_mx n nd :
    g !! n = Some nd → n ∉ trace → visits trace follow_mx n n
| visits_link trace follow_mx n nd k o m :
    g !! n = Some nd → n ∉ trace → (k, o) ∈ links nd →
    (k = mx_link → follow_mx = true) →
    visits (trace ++ [n]) (negb (bool_decide (k = mx_link))) o m →
    visits trace follow_mx n m.
End response_component_status.

(** ** Status serializer: [serialize_status]

    The output is a nested ordered map.  The serializers of the leaves
    (one query, the DNSKEYs, one delegation) and the text forms of
    names and types belong to [status.py], [response.py] and
    dnspython; each leaf serializer reads the evaluator state. *)
Unset Elimination Schemes.
Inductive json :=
| JString (text : string)
| JList (items : list json)
| JObject (members : list (string * json)).
Set Elimination Schemes.

(** Python truth value of a serialized value. *)
Definition truthy (j : json) : bool :=
  match j with
  | JString text => negb (bool_decide (text = ""))
  | JList items => negb (bool_decide (length items = 0))
  | JObject members => negb (bool_decide (length members = 0))
  end.

Module logging.
Definition DEBUG : Z := 10.
Definition INFO : Z := 20.
Definition WARNING : Z := 30.
Definition ERROR : Z := 40.
End logging.

Definition RDTYPES_ALL : Z := 0.
Definition RDTYPES_ALL_SAME_NAME : Z := 1.
Definition RDTYPES_NS_TARGET : Z := 2.
Definition RDTYPES_SECURE_DELEGATION : Z := 3.
Definition RDTYPES_DELEGATION : Z := 4.

Class Serializer (P : Type) := {
  (* [name.canonicalize().to_text()] *)
  canonical_text : dname → string;
  (* [dns.rdatatype.to_text] *)
  rdatatype_to_text : rdtype → string;
  (* [query_keys.sort()] *)
  sort_query_keys : list (dname * rdtype) → list (dname * rdtype);
  single_client : graph → node_id → bool;
  (* arguments: consolidate_clients, loglevel, html_format *)
  _serialize_query_status :
    graph → state P → node_id → query → bool → Z → bool → exn + json;
  _serialize_dnskey_status :
    graph → state P → node_id → bool → Z → bool → exn + json;
  _serialize_delegation_status :
    graph → state P → node_id → rdtype → bool → Z → bool → exn + json;
}.

(** [Status.name_status_mapping] *)
Definition name_status_mapping (st : option name_status) : result string :=
  match st with
  | Some NAME_STATUS_NOERROR => Ok "NOERROR"
  | Some NAME_STATUS_NXDOMAIN => Ok "NXDOMAIN"
  | Some NAME_STATUS_INDETERMINATE => Ok "INDETERMINATE"
  | None => Raise KeyError
  end.

(** [_rdtypes_for_analysis_level]; [None] stands for "all types". *)
Definition _rdtypes_for_analysis_level (nd : node) (level : Z) : option (gset rdtype) :=
  let rdtypes : gset rdtype := {[referral_rdtype nd; rdatatype.NS]} in
  if decide (level = RDTYPES_DELEGATION) then Some rdtypes else
  let rdtypes := rdtypes ∪ {[rdatatype.DNSKEY; rdatatype.DS; rdatatype.DLV]} in
  if decide (level = RDTYPES_SECURE_DELEGATION) then Some rdtypes else
  let rdtypes := rdtypes ∪ {[rdatatype.A; rdatatype.AAAA]} in
  if decide (level = RDTYPES_NS_TARGET) then Some rdtypes else
  None.

Section serialize_status.
Context {P : Type} `{Serializer P} (g : graph).
Implicit Types (s : state P) (self : node_id) (d : list (string * json)).

(** The entry [d[name_str]] of one node. *)
Definition serialize_node self (nd : node) (is_dlv : bool) (loglevel level : Z)
    (html_format : bool) s : result (list (string * json)) :=
  let consolidate_clients := single_client g self in
  let r := fields s self in
  entry ← (if bool_decide (loglevel ≤ logging.INFO)%Z
              || negb (bool_decide (status r = Some NAME_STATUS_NOERROR)
                       || bool_decide (status r = Some NAME_STATUS_NXDOMAIN))
           then text ← name_status_mapping (status r); Ok [("status", JString text)]
           else Ok []);
  required_rdtypes ←
    (let required := _rdtypes_for_analysis_level nd level in
     if bool_decide (RDTYPES_SECURE_DELEGATION ≤ level)%Z then
       rdtypes ← deref required;
       Ok (Some (rdtypes ∖ {[referral_rdtype nd; rdatatype.NS]}))
     else Ok required);
  queries_ ← for_each (λ acc (key : dname * rdtype),
      let '(qname, rdtype_) := key in
      if bool_decide (RDTYPES_ALL < level)%Z
         && negb (bool_decide (qname = name nd) || bool_decide (Some qname = dlv_name nd))
      then Ok acc
      else if (if required_rdtypes is Some rdtypes
               then bool_decide (rdtype_ ∉ rdtypes) else false)
      then Ok acc
      else
        query_ ← match alist_get key (queries nd) with
                 | Some q => Ok q
                 | None => Raise KeyError
                 end;
        query_serialized ← of_sum (_serialize_query_status g s self query_
                                     consolidate_clients loglevel html_format);
        if truthy query_serialized
        then Ok (alist_set
                   (canonical_text qname +:+ "/IN/" +:+ rdatatype_to_text rdtype_)
                   query_serialized acc)
        else Ok acc)
    (sort_query_keys (fst <$> queries nd)) [];
  let entry := if bool_decide (queries_ = []) then entry
               else entry ++ [("queries", JObject queries_)] in
  entry ← (if bool_decide (level ≤ RDTYPES_SECURE_DELEGATION)%Z
              && bool_decide (is_Some (alist_get (name nd, rdatatype.DNSKEY) (queries nd)))
           then
             dnskey_serialized ← of_sum (_serialize_dnskey_status g s self
                                           consolidate_clients loglevel html_format);
             if truthy dnskey_serialized
             then Ok (entry ++ [("dnskey", dnskey_serialized)]) else Ok entry
           else Ok entry);
  if is_zone nd then
    entry ← (if bool_decide (is_Some (parent nd)) && negb is_dlv then
               delegation_serialized ← of_sum (_serialize_delegation_status g s self
                   rdatatype.DS consolidate_clients loglevel html_format);
               if truthy delegation_serialized
               then Ok (entry ++ [("delegation", delegation_serialized)]) else Ok entry
             else Ok entry);
    if bool_decide (is_Some (dlv_parent nd))
       && (if dlv_name nd is Some dlv
           then bool_decide (is_Some (alist_get (dlv, rdatatype.DLV) (queries nd)))
           else false)
    then
      delegation_serialized ← of_sum (_serialize_delegation_status g s self
          rdatatype.DLV consolidate_clients loglevel html_format);
      if truthy delegation_serialized
      then Ok (entry ++ [("dlv", delegation_serialized)]) else Ok entry
    else Ok entry
  else Ok entry.

Fixpoint serialize_status_fuel (fuel : nat) self d (is_dlv : bool) (loglevel : Z)
    (ancestry_only : bool) (level : Z) (trace : list node_id) (follow_mx : bool)
    (html_format : bool) s : result (list (string * json)) :=
  match fuel with
  | 0 => OutOfFuel
  | S fuel =>
    match g !! self with
    | None => Ok d
    | Some nd =>
      (* avoid loops *)
      if decide (self ∈ trace) then Ok d
      (* if we're a stub, there's no status to serialize *)
      else if stub nd then Ok d
      else
        let name_str := canonical_text (name nd) in
        if alist_get name_str d is Some _ then Ok d else
        let cname_ancestry_only :=
          bool_decide (analysis_type nd = ANALYSIS_TYPE_RECURSIVE) in
        (* serialize status of dependencies first *)
        d ← (if bool_decide (level ≤ RDTYPES_NS_TARGET)%Z then
               d ← for_each (λ d (item : dname * dname * option node_id),
                      match item.2 with
                      | Some cname_obj =>
                          serialize_status_fuel fuel cname_obj d false loglevel
                            cname_ancestry_only (RDTYPES_ALL_SAME_NAME `max` level)%Z
                            (trace ++ [self]) true html_format s
                      | None => Ok d
                      end)
                    (cname_items nd) d;
               if follow_mx then
                 for_each (λ d (item : dname * option node_id),
                      match item.2 with
                      | Some mx_obj =>
                          serialize_status_fuel fuel mx_obj d false loglevel
                            false (RDTYPES_ALL_SAME_NAME `max` level)%Z
                            (trace ++ [self]) false html_format s
                      | None => Ok d
                      end)
                    (mx_targets nd) d
               else Ok d
             else Ok d);
        d ← (if bool_decide (level ≤ RDTYPES_SECURE_DELEGATION)%Z then
               d ← for_each (λ d (item : dname * option node_id),
                      signer_obj ← deref item.2;
                      serialize_status_fuel fuel signer_obj d false loglevel
                        false RDTYPES_SECURE_DELEGATION
                        (trace ++ [self]) true html_format s)
                    (external_signers nd) d;
               for_each (λ d (item : dname * option node_id),
                      match item.2 with
                      | Some ns_obj =>
                          serialize_status_fuel fuel ns_obj d false loglevel
                            false RDTYPES_NS_TARGET
                            (trace ++ [self]) true html_format s
                      | None => Ok d
                      end)
                    (ns_dependencies nd) d
             else Ok d);
        (* serialize status of ancestry *)
        d ← (if bool_decide (level ≤ RDTYPES_SECURE_DELEGATION)%Z then
               d ← match parent nd with
                   | Some p =>
                       serialize_status_fuel fuel p d false loglevel
                         false RDTYPES_SECURE_DELEGATION
                         (trace ++ [self]) true html_format s
                   | None => Ok d
                   end;
               match dlv_parent nd with
               | Some p =>
                   serialize_status_fuel fuel p d true loglevel
                     false RDTYPES_SECURE_DELEGATION
                     (trace ++ [self]) true html_format s
               | None => Ok d
               end
             else Ok d);
        if ancestry_only && negb (is_zone nd) then Ok d else
        let level := if ancestry_only then RDTYPES_SECURE_DELEGATION else level in
        entry ← serialize_node self nd is_dlv loglevel level html_format s;
        if bool_decide (entry = []) then Ok (alist_del name_str d)
        else Ok (alist_set name_str (JObject entry) d)
    end
  end.

Definition serialize_status self d (is_dlv : bool) (loglevel : Z)
    (ancestry_only : bool) (level : Z) (trace : list node_id) (follow_mx : bool)
    (html_format : bool) s : result (list (string * json)) :=
  serialize_status_fuel (S (length g)) self d is_dlv loglevel ancestry_only level
    trace follow_mx html_format s.
End serialize_status.

(** ** Diagnostics

    Modelled from the spec: [errors.py] is not among the sources.  A
    diagnostic carries a code with kind-specific fields and the
    (server, client, response) tuples that exhibited it; diagnostics
    are accumulated in lists.  From the way [offline.py] uses them:
    two diagnostics are equal when code and fields are
    ([errors.index(upward_referral_error_cls())]);
    [insert_into_list(error, list, server, client, response)] returns
    the equal diagnostic of the list, appended if there was none, after
    adding the tuple to it unless server and client are [None]; and
    [add_server_client] adds one tuple. *)
Inductive error :=
| MissingRRSIG
| UnableToRetrieveDNSSECRecords
| MissingRRSIGForAlgDNSKEY (algorithm_ : Z)
| MissingRRSIGForAlgDS (algorithm_ : Z)
| MissingRRSIGForAlgDLV (algorithm_ : Z)
| MissingNSECForWildcard
| SOAOwnerNotZoneForNXDOMAIN (soa_owner_name zone_name_ : dname)
| SOAOwnerNotZoneForNODATA (soa_owner_name zone_name_ : dname)
| MissingSOAForNXDOMAIN
| MissingSOAForNODATA
| UpwardReferral
| MissingNSECForNXDOMAIN
| MissingNSECForNODATA
| NotAuthoritative
| InconsistentNXDOMAIN (qname : dname) (rdtype_nxdomain rdtype_noerror : rdtype)
| NoSEP (source : rdtype)
| MissingSEPForAlg (algorithm_ : Z) (source : rdtype)
| NoNSInParent (parent_ : dname)
| ResponseError (code : string).

#[global] Instance error_eq_dec : EqDecision error.
Proof. solve_decision. Defined.

(** A list of diagnostics: each code with its [servers_clients]. *)
Definition diagnostics := list (error * provenance).

Definition add_server_client (t : triple) (sc : provenance) : provenance :=
  let '(server_, client_, response_) := t in
  let responses_ := default [] (alist_get (server_, client_) sc) in
  if decide (response_ ∈ responses_) then alist_set (server_, client_) responses_ sc
  else alist_set (server_, client_) (responses_ ++ [response_]) sc.

(** The list after [insert_into_list(error, list, None, None, None)];
    the diagnostic it returns is the entry of [e]. *)
Definition insert_error (e : error) (l : diagnostics) : diagnostics :=
  if alist_get e l is Some _ then l else l ++ [(e, [])].

(** Mutation of the diagnostic [e] of the list. *)
Definition update_error (e : error) (f : provenance → provenance) (l : diagnostics)
    : diagnostics :=
  (λ p : error * provenance, if decide (p.1 = e) then (p.1, f p.2) else p) <$> l.

Definition insert_into_list (e : error) (l : diagnostics) (t : triple) : diagnostics :=
  update_error e (add_server_client t) (insert_error e l).

(** All tuples of a diagnostic of the list. *)
Definition error_triples (e : error) (l : diagnostics) : list triple :=
  triples (default [] (alist_get e l)).

(** ** Validation verdicts

    The classes of [status.py] and [response.py] and the [crypto]
    module are not among the sources; each status object records the
    arguments of its constructor and the verdicts computed from them,
    and the verdicts are taken from this interface. *)
Inductive RRSIG_STATUS :=
| RRSIG_STATUS_VALID
| RRSIG_STATUS_INDETERMINATE_NO_DNSKEY
| RRSIG_STATUS_INDETERMINATE_MATCH_PRE_REVOKE
| RRSIG_STATUS_INDETERMINATE_UNKNOWN_ALGORITHM
| RRSIG_STATUS_ALGORITHM_IGNORED
| RRSIG_STATUS_EXPIRED
| RRSIG_STATUS_PREMATURE
| RRSIG_STATUS_INVALID_SIG
| RRSIG_STATUS_INVALID.

#[global] Instance RRSIG_STATUS_eq_dec : EqDecision RRSIG_STATUS.
Proof. solve_decision. Defined.

Inductive NSEC_STATUS := NSEC_STATUS_VALID | NSEC_STATUS_INVALID.

#[global] Instance NSEC_STATUS_eq_dec : EqDecision NSEC_STATUS.
Proof. solve_decision. Defined.

Inductive DS_STATUS :=
| DS_STATUS_VALID
| DS_STATUS_INDETERMINATE_NO_DNSKEY
| DS_STATUS_INDETERMINATE_MATCH_PRE_REVOKE
| DS_STATUS_INDETERMINATE_UNKNOWN_ALGORITHM
| DS_STATUS_ALGORITHM_IGNORED
| DS_STATUS_INVALID_DIGEST
| DS_STATUS_INVALID.

#[global] Instance DS_STATUS_eq_dec : EqDecision DS_STATUS.
Proof. solve_decision. Defined.

(** The classes of NSEC status objects. *)
Inductive nsec_status_cls :=
| NSECStatusWildcard | NSEC3StatusWildcard
| NSECStatusNXDOMAIN | NSEC3StatusNXDOMAIN
| NSECStatusNoAnswer | NSEC3StatusNoAnswer.

#[global] Instance nsec_status_cls_eq_dec : EqDecision nsec_status_cls.
Proof. solve_decision. Defined.

Class Validator := {
  (* [Response.DNSKEYMeta]: the key tag, and the key tag with the
     revoke bit cleared *)
  calc_key_tag : DNSKEY → Z;
  calc_key_tag_no_revoke : DNSKEY → Z;
  (* [Status.RRSIGStatus(rrset, rrsig, dnskey, zone_name, reference_ts,
     supported_algs)]: [signature_valid] and [validation_status] *)
  rrsig_verdict :
    rrset_info → rrsig → option DNSKEYMeta → option dname → Z → gset Z
    → option bool * RRSIG_STATUS;
  (* [cls(qname, [wildcard_name,] rdtype, origin, nsec_set_info)]:
     [validation_status] *)
  nsec_verdict :
    nsec_status_cls → dname → option dname → rdtype → dname → nsec_set → NSEC_STATUS;
  (* [Status.DSStatus(ds, ds_meta, dnskey, supported_digest_algs)]:
     [digest_valid] and [validation_status] *)
  ds_verdict : DS → rrset_info → option DNSKEYMeta → gset Z → option bool * DS_STATUS;
  (* [_populate_response_errors(qname_obj, response, server, client,
     warnings, errors)], lines 689-857: the lists after the call *)
  _populate_response_errors :
    graph → option node_id → triple → diagnostics → diagnostics
    → exn + (diagnostics * diagnostics);
  (* [zone.server_responsive_with_do(server, client, tcp)] *)
  server_responsive_with_do : graph → node_id → server → client → response → bool;
}.

Record RRSIGStatus := mkRRSIGStatus {
  rrsig_status_rrset : rrset_info;
  rrsig_status_rrsig : rrsig;
  rrsig_status_dnskey : option DNSKEYMeta;
  signature_valid : option bool;
  rrsig_validation_status : RRSIG_STATUS;
}.

Record NSECStatus := mkNSECStatus {
  nsec_status_class : nsec_status_cls;
  nsec_status_qname : dname;
  nsec_status_wildcard_name : option dname;
  nsec_status_rdtype : rdtype;
  nsec_status_origin : dname;
  (* identity of [nsec_set_info] *)
  nsec_status_nsec_set_info : nat;
  nsec_validation_status : NSEC_STATUS;
}.

(** Two NSEC status objects are the same when they are of the same
    class, about the same names and built from the same NSEC set. *)
#[global] Instance NSECStatus_eq_dec : EqDecision NSECStatus.
Proof. solve_decision. Defined.

Record DSStatus := mkDSStatus {
  ds_status_ds : DS;
  ds_status_dnskey : option DNSKEYMeta;
  digest_valid : option bool;
  ds_validation_status : DS_STATUS;
}.

(** A DNSKEYMeta object as a key of [dict]s and member of [set]s: there
    is one object for each DNSKEY of a name. *)
Definition dnskey_key := (dname * DNSKEY)%type.

Definition key_of_dnskey (d : DNSKEYMeta) : dnskey_key := (dnskey_name d, dnskey_rdata d).

(** [self.signed] *)
Definition signed (nd : node) : bool :=
  negb (bool_decide (dnssec_algorithms_in_dnskey nd = ∅)
        && bool_decide (dnssec_algorithms_in_ds nd = ∅)
        && bool_decide (dnssec_algorithms_in_dlv nd = ∅)).

(** ** DNSKEY index: [_index_dnskeys] *)
Section index_dnskeys.
Context `{Validator}.

(** [self._dnskeys] maps DNSKEY rdata to the DNSKEYMeta object;
    [self._dnskey_sets] holds, per DNSKEY RRset, the keys of the
    objects of the set together with the RRset. *)
Definition dnskey_index := (list (list DNSKEY * rrset_info) * list (DNSKEY * DNSKEYMeta))%type.

Definition dnskeys_of (r : rrset) : list DNSKEY :=
  omap (λ d, if d is DNSKEY_rdata k then Some k else None) (rrset_rdata r).

Definition index_dnskey_rdata (dnskey_info : rrset_info)
    (dnskeys_ : list (DNSKEY * DNSKEYMeta)) (dnskey_rdata_ : DNSKEY)
    : list (DNSKEY * DNSKEYMeta) :=
  let meta :=
    match alist_get dnskey_rdata_ dnskeys_ with
    | Some m => m
    | None =>
        mkDNSKEYMeta (length dnskeys_) (rrset_name (ri.rrset dnskey_info)) dnskey_rdata_
          (rrset_ttl (ri.rrset dnskey_info)) (calc_key_tag dnskey_rdata_)
          (calc_key_tag_no_revoke dnskey_rdata_) [] []
    end in
  alist_set dnskey_rdata_
    (mkDNSKEYMeta (dnskey_id meta) (dnskey_name meta) (dnskey_rdata meta) (dnskey_ttl meta)
       (key_tag meta) (key_tag_no_revoke meta)
       (dnskey_rrset_info meta ++ [dnskey_info])
       (dict_update (dnskey_servers_clients meta) (ri.servers_clients dnskey_info)))
    dnskeys_.

Definition _index_dnskeys_of (nd : node) : dnskey_index :=
  match alist_get (name nd, rdatatype.DNSKEY) (queries nd) with
  | None => ([], [])
  | Some query_ =>
    foldl (λ (acc : dnskey_index) dnskey_info,
        (* there are CNAMEs that show up here... *)
        if negb (bool_decide (rrset_name (ri.rrset dnskey_info) = name nd)
                 && bool_decide (rrset_rdtype (ri.rrset dnskey_info) = rdatatype.DNSKEY))
        then acc
        else
          let keys := dnskeys_of (ri.rrset dnskey_info) in
          (acc.1 ++ [(remove_dups keys, dnskey_info)],
           foldl (index_dnskey_rdata dnskey_info) acc.2 keys))
      ([], []) (answer_info query_)
  end.

(** [get_dnskey_sets()]: each set with its objects looked up. *)
Definition get_dnskey_sets (nd : node) : list (list DNSKEYMeta * rrset_info) :=
  let '(sets, dnskeys_) := _index_dnskeys_of nd in
  (λ p : list DNSKEY * rrset_info, (omap (λ k, alist_get k dnskeys_) p.1, p.2)) <$> sets.

(** [get_dnskeys()] *)
Definition get_dnskeys (nd : node) : list DNSKEYMeta := snd <$> (_index_dnskeys_of nd).2.
End index_dnskeys.

(** ** RRSIG validator: [_populate_rrsig_status] and
       [_populate_wildcard_status] *)

(** [Status.CNAMEFromDNAMEStatus(synthesized_cname, included_cname)] *)
Record CNAMEFromDNAMEStatus := mkCNAMEFromDNAMEStatus {
  synthesized_cname : rrset_info;
  included_cname : option rrset_info;
}.

(** The fields of a node that the RRSIG validator assigns.  The
    [dict]s are keyed by the identity of the RRsetInfo (or, for
    [wildcard_status], of the wildcard bundle); the inner [dict]s of
    [rrsig_status] by RRSIG and by DNSKEYMeta, [None] standing for "no
    DNSKEY". *)
Module ev.
Record t := mk {
  rrset_warnings : gmap nat diagnostics;
  rrset_errors : gmap nat diagnostics;
  rrsig_status : gmap nat (list (rrsig * list (option dnskey_key * RRSIGStatus)));
  dname_status : gmap nat (list CNAMEFromDNAMEStatus);
  wildcard_status : gmap nat (list NSECStatus);
  zsks : list dnskey_key;
  ksks : list dnskey_key;
}.

Definition empty : t := mk ∅ ∅ ∅ ∅ ∅ [] [].

Definition set_rrset_warnings v (e : t) :=
  mk v (rrset_errors e) (rrsig_status e) (dname_status e) (wildcard_status e) (zsks e) (ksks e).
Definition set_rrset_errors v (e : t) :=
  mk (rrset_warnings e) v (rrsig_status e) (dname_status e) (wildcard_status e) (zsks e) (ksks e).
Definition set_rrsig_status v (e : t) :=
  mk (rrset_warnings e) (rrset_errors e) v (dname_status e) (wildcard_status e) (zsks e) (ksks e).
Definition set_dname_status v (e : t) :=
  mk (rrset_warnings e) (rrset_errors e) (rrsig_status e) v (wildcard_status e) (zsks e) (ksks e).
Definition set_wildcard_status v (e : t) :=
  mk (rrset_warnings e) (rrset_errors e) (rrsig_status e) (dname_status e) v (zsks e) (ksks e).
Definition set_zsks v (e : t) :=
  mk (rrset_warnings e) (rrset_errors e) (rrsig_status e) (dname_status e) (wildcard_status e) v (ksks e).
Definition set_ksks v (e : t) :=
  mk (rrset_warnings e) (rrset_errors e) (rrsig_status e) (dname_status e) (wildcard_status e) (zsks e) v.
End ev.

(** [s.add(x)] on a set kept in insertion order. *)
Definition set_add {A} `{EqDecision A} (x : A) (l : list A) : list A :=
  if decide (x ∈ l) then l else l ++ [x].

(** [validation_status_mapping]: the candidates by [signature_valid]. *)
Record validation_status_mapping := mkVSM {
  vsm_True : list RRSIGStatus;
  vsm_False : list RRSIGStatus;
  vsm_None : list RRSIGStatus;
}.

Definition vsm_add (st : RRSIGStatus) (m : validation_status_mapping)
    : validation_status_mapping :=
  match signature_valid st with
  | Some true => mkVSM (vsm_True m ++ [st]) (vsm_False m) (vsm_None m)
  | Some false => mkVSM (vsm_True m) (vsm_False m ++ [st]) (vsm_None m)
  | None => mkVSM (vsm_True m) (vsm_False m) (vsm_None m ++ [st])
  end.

(** [for status in True, False, None: if vsm[status]: ... break] *)
Definition vsm_selected (m : validation_status_mapping) : list RRSIGStatus :=
  if bool_decide (vsm_True m ≠ []) then vsm_True m
  else if bool_decide (vsm_False m ≠ []) then vsm_False m
  else vsm_None m.

Section rrsig_status.
Context `{Collector} `{Validator} (g : graph).
Implicit Types (st : ev.t) (self : node_id).

Definition new_RRSIGStatus (rrset_info_ : rrset_info) (rrsig_ : rrsig)
    (dnskey : option DNSKEYMeta) (zone_name_ : option dname) (reference_ts : Z)
    (supported_algs : gset Z) : RRSIGStatus :=
  let v := rrsig_verdict rrset_info_ rrsig_ dnskey zone_name_ reference_ts supported_algs in
  mkRRSIGStatus rrset_info_ rrsig_ dnskey v.1 v.2.

Definition new_NSECStatus (cls : nsec_status_cls) (qname : dname)
    (wildcard_name : option dname) (rdtype_ : rdtype) (origin : dname)
    (nsec_set_info_ : nsec_set) : NSECStatus :=
  mkNSECStatus cls qname wildcard_name rdtype_ origin (nsec.id nsec_set_info_)
    (nsec_verdict cls qname wildcard_name rdtype_ origin nsec_set_info_).

Definition _initialize_rrset_status (rrset_info_ : rrset_info) st : ev.t :=
  let i := ri.id rrset_info_ in
  ev.set_rrsig_status (<[i := []]> (ev.rrsig_status st))
    (ev.set_rrset_errors (<[i := []]> (ev.rrset_errors st))
       (ev.set_rrset_warnings (<[i := []]> (ev.rrset_warnings st)) st)).

(** [self.rrsig_status[rrset][rrsig][dnskey] = rrsig_status] *)
Definition record_rrsig_status (rs : RRSIGStatus) st : result ev.t :=
  let i := ri.id (rrsig_status_rrset rs) in
  by_rrsig ← dict_get (ev.rrsig_status st) i;
  match alist_get (rrsig_status_rrsig rs) by_rrsig with
  | None => Raise KeyError
  | Some by_dnskey =>
    let by_dnskey :=
      alist_set (key_of_dnskey <$> rrsig_status_dnskey rs) rs by_dnskey in
    Ok (ev.set_rrsig_status
          (<[i := alist_set (rrsig_status_rrsig rs) by_dnskey by_rrsig]> (ev.rrsig_status st))
          st)
  end.

(** [self.rrsig_status[rrset_info][rrsig]] *)
Definition rrsig_status_of (rrset_info_ : rrset_info) (rrsig_ : rrsig) st
    : result (list (option dnskey_key * RRSIGStatus)) :=
  by_rrsig ← dict_get (ev.rrsig_status st) (ri.id rrset_info_);
  match alist_get rrsig_ by_rrsig with
  | None => Raise KeyError
  | Some by_dnskey => Ok by_dnskey
  end.

(** The condition under which a DNSKEY is tried for an RRSIG. *)
Definition rrsig_matches_dnskey (rrsig_ : rrsig) (dnskey : DNSKEYMeta) : bool :=
  bool_decide (protocol (dnskey_rdata dnskey) = 3%Z)
  && (bool_decide (rrsig_key_tag rrsig_ = key_tag dnskey)
      || bool_decide (rrsig_key_tag rrsig_ = key_tag_no_revoke dnskey))
  && bool_decide (rrsig_algorithm rrsig_ = algorithm (dnskey_rdata dnskey)).

(** The loop over the DNSKEYs of one DNSKEY set. *)
Definition rrsig_try_dnskey (nd : node) (rrset_info_ : rrset_info) (rrsig_ : rrsig)
    (self_sig : bool) (zone_name_ : option dname) (supported_algs : gset Z)
    (acc : list dnskey_key * validation_status_mapping) (dnskey : DNSKEYMeta)
    : list dnskey_key * validation_status_mapping :=
  let '(checked_keys, vsm) := acc in
  (* if we've already checked this key (i.e., in another DNSKEY RRset)
     then continue *)
  if bool_decide (key_of_dnskey dnskey ∈ checked_keys) then acc
  (* if this is a RRSIG over DNSKEY RRset, then make sure we're
     validating with a DNSKEY that is actually in the set *)
  else if self_sig
          && negb (bool_decide (DNSKEY_rdata (dnskey_rdata dnskey)
                                ∈ rrset_rdata (ri.rrset rrset_info_)))
  then acc
  else
    let checked_keys := set_add (key_of_dnskey dnskey) checked_keys in
    if negb (rrsig_matches_dnskey rrsig_ dnskey) then (checked_keys, vsm)
    else
      let rrsig_status_ :=
        new_RRSIGStatus rrset_info_ rrsig_ (Some dnskey) zone_name_ (analysis_end nd)
          supported_algs in
      (checked_keys, vsm_add rrsig_status_ vsm).

(** Recording of one selected status, with the role of its DNSKEY. *)
Definition rrsig_record_selected (nd : node) (rrset_info_ : rrset_info) st
    (rrsig_status_ : RRSIGStatus) : result ev.t :=
  st ← record_rrsig_status rrsig_status_ st;
  if is_zone nd && bool_decide (rrset_name (ri.rrset rrset_info_) = name nd)
     && bool_decide (rrset_rdtype (ri.rrset rrset_info_) ≠ rdatatype.DS)
  then
    match rrsig_status_dnskey rrsig_status_ with
    | Some dnskey =>
      if decide (rrset_rdtype (ri.rrset rrset_info_) = rdatatype.DNSKEY)
      then Ok (ev.set_ksks (set_add (key_of_dnskey dnskey) (ev.ksks st)) st)
      else Ok (ev.set_zsks (set_add (key_of_dnskey dnskey) (ev.zsks st)) st)
    | None => Ok st
    end
  else Ok st.

(** The loop over [signer.get_dnskey_sets()]. *)
Definition rrsig_try_dnskey_set (nd : node) (rrset_info_ : rrset_info) (rrsig_ : rrsig)
    (self_sig : bool) (zone_name_ : option dname) (supported_algs : gset Z)
    (acc : list dnskey_key * ev.t) (item : list DNSKEYMeta * rrset_info)
    : result (list dnskey_key * ev.t) :=
  let '(checked_keys, st) := acc in
  let '(checked_keys, vsm) :=
    foldl (rrsig_try_dnskey nd rrset_info_ rrsig_ self_sig zone_name_ supported_algs)
      (checked_keys, mkVSM [] [] []) item.1 in
  (* if we got results for multiple keys, then just select the one
     that validates *)
  st ← for_each (rrsig_record_selected nd rrset_info_) (vsm_selected vsm) st;
  Ok (checked_keys, st).

(** [algs_signing_rrset]: per response, the algorithms of the RRSIGs
    seen with it, until all the algorithms of the zone are covered. *)
Definition algs_signing := list (triple * gset Z).

Definition algs_note_rrsig (in_dnskey in_ds in_dlv : gset Z) (rrsig_ : rrsig)
    (algs : algs_signing) (t : triple) : algs_signing :=
  match alist_get t algs with
  | None => algs
  | Some seen =>
    let seen := seen ∪ {[rrsig_algorithm rrsig_]} in
    if bool_decide (in_dnskey ∖ seen = ∅) && bool_decide (in_ds ∖ seen = ∅)
       && bool_decide (in_dlv ∖ seen = ∅)
    then alist_del t algs
    else alist_set t seen algs
  end.

(** [if not self.rrsig_status[rrset_info][rrsig]:] the entry "no
    corresponding DNSKEY". *)
Definition rrsig_no_dnskey (nd : node) (rrset_info_ : rrset_info) (rrsig_ : rrsig)
    (supported_algs : gset Z) st : result ev.t :=
  by_dnskey ← rrsig_status_of rrset_info_ rrsig_ st;
  if bool_decide (by_dnskey = []) then
    z ← deref (obj g (zone nd));
    record_rrsig_status
      (new_RRSIGStatus rrset_info_ rrsig_ None (Some (name z)) (analysis_end nd)
         supported_algs) st
  else Ok st.

(** Body of the loop over [rrset_info.rrsig_info]. *)
Definition rrsig_status_step self (nd : node) (rrset_info_ : rrset_info)
    (zone_name_ : option dname) (in_dnskey in_ds in_dlv : gset Z)
    (supported_algs : gset Z) (acc : algs_signing * ev.t)
    (item : rrsig * provenance) : result (algs_signing * ev.t) :=
  let '(algs, st) := acc in
  let '(rrsig_, rrsig_servers_clients) := item in
  by_rrsig ← dict_get (ev.rrsig_status st) (ri.id rrset_info_);
  let st := ev.set_rrsig_status
              (<[ri.id rrset_info_ := alist_set rrsig_ [] by_rrsig]> (ev.rrsig_status st))
              st in
  match obj g (get_name g self (rrsig_signer rrsig_)) with
  | None =>
    st ← rrsig_no_dnskey nd rrset_info_ rrsig_ supported_algs st;
    Ok (algs, st)
  | Some signer =>
    if stub signer then Ok (algs, st) else
    let algs := foldl (algs_note_rrsig in_dnskey in_ds in_dlv rrsig_) algs
                  (triples rrsig_servers_clients) in
    (* define self-signature *)
    let self_sig :=
      bool_decide (rrset_rdtype (ri.rrset rrset_info_) = rdatatype.DNSKEY)
      && bool_decide (rrsig_signer rrsig_ = rrset_name (ri.rrset rrset_info_)) in
    r ← for_each (rrsig_try_dnskey_set nd rrset_info_ rrsig_ self_sig zone_name_
                    supported_algs)
          (get_dnskey_sets signer) ([], st);
    st ← rrsig_no_dnskey nd rrset_info_ rrsig_ supported_algs r.2;
    Ok (algs, st)
  end.
End rrsig_status.

Section populate_rrsig_status.
Context `{Collector} `{Validator} (g : graph).
Implicit Types (st : ev.t) (self : node_id).

(** [self.rrset_errors[rrset_info]] after an [insert_into_list]. *)
Definition rrset_error (rrset_info_ : rrset_info) (e : error) (t : triple) st
    : result ev.t :=
  errors ← dict_get (ev.rrset_errors st) (ri.id rrset_info_);
  Ok (ev.set_rrset_errors
        (<[ri.id rrset_info_ := insert_into_list e errors t]> (ev.rrset_errors st)) st).

(** The part of [_populate_wildcard_status] and of
    [_populate_negative_response_status] that follows the validation
    of the RRsets of one NSEC set: [statuses], [status_by_response]
    and [servers_missing_nsec]. *)
Record nsec_tracking := mkTracking {
  statuses : list NSECStatus;
  status_by_response : list (triple * NSECStatus);
  servers_missing_nsec : list triple;
}.

(** The body of the loops over the responses that came with an NSEC
    set; [retained t] is always true for a wildcard bundle. *)
Definition track_response (retained : triple → bool) (status_ : NSECStatus)
    (tr : nsec_tracking) (t : triple) : nsec_tracking :=
  let missing := filter (λ t', t' ≠ t) (servers_missing_nsec tr) in
  let by_response :=
    if decide (nsec_validation_status status_ = NSEC_STATUS_VALID)
    then alist_del t (status_by_response tr)
    else if retained t then alist_set t status_ (status_by_response tr)
    else status_by_response tr in
  mkTracking (statuses tr) by_response missing.

(** One NSEC set. *)
Definition track_nsec_set (retained : triple → bool) (status_ : NSECStatus)
    (nsec_set_info_ : nsec_set) (tr : nsec_tracking) : nsec_tracking :=
  let statuses_ :=
    if decide (nsec_validation_status status_ = NSEC_STATUS_VALID)
    then set_add status_ (statuses tr) else statuses tr in
  foldl (track_response retained status_)
    (mkTracking statuses_ (status_by_response tr) (servers_missing_nsec tr))
    (triples (nsec.servers_clients nsec_set_info_)).

(** [for (server,client,response), status in status_by_response.items():
       if status not in statuses: statuses.append(status)] *)
Definition final_statuses (tr : nsec_tracking) : list NSECStatus :=
  foldl (λ l (p : triple * NSECStatus), set_add p.2 l) (statuses tr) (status_by_response tr).

(** [_populate_wildcard_status]; [validate] is [_populate_rrsig_status]
    on the RRsets of the NSEC sets. *)
Definition _populate_wildcard_status
    (validate : rrset_info → ev.t → result ev.t)
    (rrset_info_ : rrset_info) (qname_obj : option node_id) st : result ev.t :=
  for_each (λ st (item : dname * neg_response_info),
      let '(wildcard_name, wildcard_info_) := item in
      zone_name_ ← (if qname_obj is None
                    then Raise (NameError "wildcard_info")
                    else zone_name g qname_obj);
      let servers_missing := remove_dups (triples (neg.servers_clients wildcard_info_)) in
      r ← for_each (λ (acc : nsec_tracking * ev.t) nsec_set_info_,
             let '(tr, st) := acc in
             let status_ :=
               new_NSECStatus
                 (if nsec.use_nsec3 nsec_set_info_
                  then NSEC3StatusWildcard else NSECStatusWildcard)
                 (rrset_name (ri.rrset rrset_info_)) (Some wildcard_name)
                 (rrset_rdtype (ri.rrset rrset_info_)) zone_name_ nsec_set_info_ in
             st ← for_each (λ st (e : dname * rrset_info), validate e.2 st)
                    (nsec.rrsets nsec_set_info_) st;
             Ok (track_nsec_set (λ _, true) status_ nsec_set_info_ tr, st))
           (neg.nsec_set_info wildcard_info_) (mkTracking [] [] servers_missing, st);
      let '(tr, st) := r in
      let st := ev.set_wildcard_status
                  (<[neg.id wildcard_info_ := final_statuses tr]> (ev.wildcard_status st))
                  st in
      (* by definition, DNSSEC was requested, so no need to check for
         DO bit in request *)
      for_each (λ st t, rrset_error rrset_info_ MissingNSECForWildcard t st)
        (servers_missing_nsec tr) st)
    (ri.wildcard_info rrset_info_) st.

(** The DNAMEs from which a CNAME was synthesized:
    ([dname_info_list], [dname_status]). *)
Definition dname_info_list_of (rrset_info_ : rrset_info)
    : result (list rrset_info * option CNAMEFromDNAMEStatus) :=
  match ri.dname_info rrset_info_ with
  | Some d => Ok ([d], Some (mkCNAMEFromDNAMEStatus rrset_info_ None))
  | None =>
    match ri.cname_info_from_dname rrset_info_ with
    | [] => Ok ([], None)
    | c0 :: _ =>
      l ← for_each (λ l c, d ← deref (ri.dname_info c); Ok (l ++ [d]))
            (ri.cname_info_from_dname rrset_info_) [];
      Ok (l, Some (mkCNAMEFromDNAMEStatus c0 (Some rrset_info_)))
    end
  end.

(** The errors for RRsets with which no RRSIGs were returned or not
    all algorithms were accounted for. *)
Definition missing_rrsig_errors (rrset_info_ : rrset_info) (qname_obj : option node_id)
    (in_dnskey in_ds in_dlv : gset Z) (algs : algs_signing) st : result ev.t :=
  for_each (λ st (item : triple * gset Z),
      let '(t, seen) := item in
      if bool_decide (seen = ∅) then
        (* report an error if all RRSIGs are missing *)
        if dnssec_requested t.2 then rrset_error rrset_info_ MissingRRSIG t st
        else
          match qname_obj with
          | None => Ok st
          | Some o =>
            nd ← deref (g !! o);
            z ← deref (zone nd);
            if server_responsive_with_do g z t.1.1 t.1.2 t.2
            then rrset_error rrset_info_ UnableToRetrieveDNSSECRecords t st
            else Ok st
          end
      else
        (* report an error if RRSIGs for one or more algorithms are
           missing *)
        st ← for_each (λ st alg, rrset_error rrset_info_ (MissingRRSIGForAlgDNSKEY alg) t st)
               (elements (in_dnskey ∖ seen)) st;
        st ← for_each (λ st alg, rrset_error rrset_info_ (MissingRRSIGForAlgDS alg) t st)
               (elements (in_ds ∖ seen)) st;
        for_each (λ st alg, rrset_error rrset_info_ (MissingRRSIGForAlgDLV alg) t st)
          (elements (in_dlv ∖ seen)) st)
    algs st.

(** [self._populate_response_errors] for every response that returned
    the RRset. *)
Definition rrset_response_errors (rrset_info_ : rrset_info) (qname_obj : option node_id) st
    : result ev.t :=
  for_each (λ st t,
      warnings ← dict_get (ev.rrset_warnings st) (ri.id rrset_info_);
      errors ← dict_get (ev.rrset_errors st) (ri.id rrset_info_);
      r ← of_sum (_populate_response_errors g qname_obj t warnings errors);
      Ok (ev.set_rrset_errors (<[ri.id rrset_info_ := r.2]> (ev.rrset_errors st))
            (ev.set_rrset_warnings (<[ri.id rrset_info_ := r.1]> (ev.rrset_warnings st)) st)))
    (triples (ri.servers_clients rrset_info_)) st.

(** The body of [_populate_rrsig_status]; [validate] is the function
    itself, as [_populate_wildcard_status] calls it on the RRsets of an
    NSEC set. *)
Definition _populate_rrsig_status_with (validate : rrset_info → ev.t → result ev.t)
    self (nd : node) (query_ : query)
    (rrset_info_ : rrset_info) (qname_obj : option node_id) (supported_algs : gset Z)
    (populate_response_errors : bool) st : result ev.t :=
  let st := _initialize_rrset_status rrset_info_ st in
  zone_name_ ← (if qname_obj is None then Ok None
                else z ← zone_name g qname_obj; Ok (Some z));
  algs_in ←
    match qname_obj with
    | None => Ok (∅, ∅, ∅)
    | Some o =>
      nd' ← deref (g !! o);
      z ← deref (obj g (zone nd'));
      if decide (q_rdtype query_ = rdatatype.DLV)
      then Ok (dnssec_algorithms_in_dnskey z, ∅, ∅)
      else Ok (dnssec_algorithms_in_dnskey z, dnssec_algorithms_in_ds z,
               dnssec_algorithms_in_dlv z)
    end;
  let '(in_dnskey, in_ds, in_dlv) := algs_in : gset Z * gset Z * gset Z in
  (* handle DNAMEs *)
  r ← (if decide (rrset_rdtype (ri.rrset rrset_info_) = rdatatype.CNAME) then
         dl ← dname_info_list_of rrset_info_;
         match dl with
         | ([], _) | (_, None) => Ok ([], st)
         | (dname_info_list, Some dname_status_) =>
           Ok (dname_info_list ≫= (λ d, triples (ri.servers_clients d)),
               ev.set_dname_status
                 (<[ri.id rrset_info_ :=
                      default [] (ev.dname_status st !! ri.id rrset_info_)
                      ++ [dname_status_]]> (ev.dname_status st)) st)
         end
       else Ok ([], st));
  let '(has_dname, st) := r : list triple * ev.t in
  let algs : algs_signing :=
    if bool_decide (in_dnskey = ∅) && bool_decide (in_ds = ∅) && bool_decide (in_dlv = ∅)
    then []
    else foldl (λ algs t, if decide (t ∈ has_dname) then algs else alist_set t ∅ algs)
           [] (triples (ri.servers_clients rrset_info_)) in
  r ← for_each (rrsig_status_step g self nd rrset_info_ zone_name_ in_dnskey in_ds in_dlv
                  supported_algs)
        (ri.rrsig_info rrset_info_) (algs, st);
  let '(algs, st) := r in
  st ← missing_rrsig_errors rrset_info_ qname_obj in_dnskey in_ds in_dlv algs st;
  st ← _populate_wildcard_status validate rrset_info_ qname_obj st;
  if populate_response_errors then rrset_response_errors rrset_info_ qname_obj st
  else Ok st.

Fixpoint _populate_rrsig_status self (nd : node) (query_ : query)
    (rrset_info_ : rrset_info) (qname_obj : option node_id) (supported_algs : gset Z)
    (populate_response_errors : bool) st {struct rrset_info_} : result ev.t :=
  _populate_rrsig_status_with
    (λ nsec_rrset_info st,
       _populate_rrsig_status self nd query_ nsec_rrset_info qname_obj
         supported_algs true st)
    self nd query_ rrset_info_ qname_obj supported_algs populate_response_errors st.

(** The depth of the nesting of RRsets in the NSEC sets of wildcard
    bundles. *)
Fixpoint wildcard_depth (rrset_info_ : rrset_info) : nat :=
  S (max_list
       ((λ w : dname * neg_response_info,
           max_list ((λ n : nsec_set,
                        max_list ((λ e : dname * rrset_info, wildcard_depth e.2)
                                    <$> nsec.rrsets n))
                       <$> neg.nsec_set_info w.2))
          <$> ri.wildcard_info rrset_info_)).
End populate_rrsig_status.

(** An RRset of an NSEC set of a wildcard bundle of the RRset. *)
Definition nested_in (inner outer : rrset_info) : Prop :=
  ∃ w n e, w ∈ ri.wildcard_info outer ∧ n ∈ neg.nsec_set_info w.2
           ∧ e ∈ nsec.rrsets n ∧ e.2 = inner.

(** ** What the RRSIG validator records *)
Section rrsig_bindings.
Context `{Validator}.

(** A DNSKEYMeta whose key tags are those of its DNSKEY, as
    [_index_dnskeys] builds them. *)
Definition indexed (d : DNSKEYMeta) : Prop :=
  key_tag d = calc_key_tag (dnskey_rdata d)
  ∧ key_tag_no_revoke d = calc_key_tag_no_revoke (dnskey_rdata d).

(** The entry [by_dnskey[k] = rs] of [rrsig_status[rrset][rrsig]] is
    either the entry "no DNSKEY", or the entry of a DNSKEY with
    protocol 3, the algorithm of the RRSIG and one of its two key
    tags equal to the key tag of the RRSIG. *)
Definition binding_ok (rrsig_ : rrsig) (k : option dnskey_key) (rs : RRSIGStatus) : Prop :=
  match rrsig_status_dnskey rs with
  | None => k = None
  | Some d =>
      k = Some (key_of_dnskey d) ∧ indexed d
      ∧ protocol (dnskey_rdata d) = 3%Z
      ∧ rrsig_algorithm rrsig_ = algorithm (dnskey_rdata d)
      ∧ (rrsig_key_tag rrsig_ = key_tag d ∨ rrsig_key_tag rrsig_ = key_tag_no_revoke d)
  end.

(** Every entry of [rrsig_status] for the RRsets [P] is such an entry. *)
Definition bindings_match (P : nat → Prop)
    (m : gmap nat (list (rrsig * list (option dnskey_key * RRSIGStatus)))) : Prop :=
  ∀ i by_rrsig rrsig_ by_dnskey k rs,
    P i → m !! i = Some by_rrsig → alist_get rrsig_ by_rrsig = Some by_dnskey →
    alist_get k by_dnskey = Some rs → binding_ok rrsig_ k rs.

(** A status object as [rrsig_try_dnskey] and the "no DNSKEY" branch
    build them for the RRSIG. *)
Definition built_for (rrsig_ : rrsig) (rs : RRSIGStatus) : Prop :=
  rrsig_status_rrsig rs = rrsig_
  ∧ binding_ok rrsig_ (key_of_dnskey <$> rrsig_status_dnskey rs) rs.
End rrsig_bindings.

(** ** Negative responses: [_populate_negative_response_status],
       [_populate_nodata_status], [_populate_nxdomain_status] *)

(** The loop variables [server], [client] and [response] of
    [_populate_negative_response_status]: they keep the values of the
    last iteration of any of its loops and are read when the status
    object of an NSEC set is built. *)
Record loop_vars := mkLoopVars {
  lv_server_client : option (server * client);
  lv_response : option response;
}.

(** After [for server, client in sc:
             for response in sc[(server, client)]: ...] *)
Definition after_loops (sc : provenance) (lv : loop_vars) : loop_vars :=
  foldl (λ lv (p : (server * client) * list response),
           mkLoopVars (Some p.1) (if last p.2 is Some r then Some r else lv_response lv))
    lv sc.

(** After [for server, client, response in s: ...] *)
Definition after_loop_triples (l : list triple) (lv : loop_vars) : loop_vars :=
  if last l is Some t then mkLoopVars (Some (t.1.1, t.1.2)) (Some t.2) else lv.

(** [(server, client, response)] *)
Definition lv_triple (lv : loop_vars) : result triple :=
  match lv_server_client lv, lv_response lv with
  | Some (s, c), Some r => Ok (s, c, r)
  | None, _ => Raise (NameError "server")
  | Some _, None => Raise (NameError "response")
  end.

(** Modelled from the spec: [notice.remove_server_client(server,
    client, response)] of [errors.py] takes the response away from the
    responses of (server, client), and the pair with its last
    response. *)
Definition remove_server_client (t : triple) (sc : provenance) : provenance :=
  match alist_get (t.1.1, t.1.2) sc with
  | None => sc
  | Some responses_ =>
    let responses_ := filter (λ r, r ≠ t.2) responses_ in
    if bool_decide (responses_ = []) then alist_del (t.1.1, t.1.2) sc
    else alist_set (t.1.1, t.1.2) responses_ sc
  end.

(** The [NotAuthoritative] notice of a list without the responses of
    the upward referral; the notice is taken off the list when no
    response is left. *)
Definition suppress_not_authoritative (upward_referral_sc : provenance)
    (notices : diagnostics) : diagnostics :=
  match alist_get NotAuthoritative notices with
  | None => notices
  | Some sc =>
    let sc := foldl (λ sc t, remove_server_client t sc) sc (triples upward_referral_sc) in
    if bool_decide (sc = []) then alist_del NotAuthoritative notices
    else alist_set NotAuthoritative sc notices
  end.

(** The statuses of the NSEC sets in the order of the loop, each with
    its NSEC set, and what the loop retains of them. *)
Definition track_all (retained : triple → bool) (computed : list (NSECStatus * nsec_set))
    (tr : nsec_tracking) : nsec_tracking :=
  foldl (λ tr (p : NSECStatus * nsec_set), track_nsec_set retained p.1 p.2 tr) tr computed.

(** The status of the last NSEC set that came with the response. *)
Definition last_status_for (t : triple) (computed : list (NSECStatus * nsec_set))
    : option NSECStatus :=
  foldl (λ o (p : NSECStatus * nsec_set),
           if decide (t ∈ triples (nsec.servers_clients p.2)) then Some p.1 else o)
    None computed.

(** The valid statuses, each once, in the order of the loop. *)
Definition valid_statuses (computed : list (NSECStatus * nsec_set)) : list NSECStatus :=
  foldl (λ l (p : NSECStatus * nsec_set),
           if decide (nsec_validation_status p.1 = NSEC_STATUS_VALID)
           then set_add p.1 l else l)
    [] computed.

(** What the loop retains for a response: the status of the last
    NSEC set that came with it, when this status is not valid and the
    response is one of those that are [retained]. *)
Definition retained_status (retained : triple → bool) (t : triple)
    (computed : list (NSECStatus * nsec_set)) : option NSECStatus :=
  s ← last_status_for t computed;
  if decide (nsec_validation_status s = NSEC_STATUS_VALID) then None
  else if retained t then Some s else None.

(** The reading of the specification: the first valid status of the
    NSEC sets that came with the response, or else the latest invalid
    one. *)
Definition status_by_first_valid (t : triple) (computed : list (NSECStatus * nsec_set))
    : option NSECStatus :=
  match filter (λ p : NSECStatus * nsec_set,
                  t ∈ triples (nsec.servers_clients p.2)
                  ∧ nsec_validation_status p.1 = NSEC_STATUS_VALID) computed with
  | p :: _ => Some p.1
  | [] => last_status_for t computed
  end.

(** An NSEC set with a valid status came with the response. *)
Definition has_valid (t : triple) (computed : list (NSECStatus * nsec_set)) : Prop :=
  ∃ p, p ∈ computed ∧ t ∈ triples (nsec.servers_clients p.2)
       ∧ nsec_validation_status p.1 = NSEC_STATUS_VALID.

(** An NSEC set gave the response a status that is not valid after
    an earlier one had given it a valid status. *)
Definition invalid_after_valid (t : triple) (computed : list (NSECStatus * nsec_set))
    : Prop :=
  ∃ l1 p l2 q, computed = l1 ++ p :: l2 ∧ q ∈ l2
    ∧ t ∈ triples (nsec.servers_clients p.2)
    ∧ nsec_validation_status p.1 = NSEC_STATUS_VALID
    ∧ t ∈ triples (nsec.servers_clients q.2)
    ∧ nsec_validation_status q.1 ≠ NSEC_STATUS_VALID.

Section negative_response_status.
Context `{Collector} `{Validator} (g : graph).
Implicit Types (st : ev.t) (self : node_id).

(** [neg_response_info.qname == query.qname or
     response.recursion_desired_and_available()] *)
Definition for_query_name (query_ : query) (neg_response_info_ : neg_response_info)
    (t : triple) : bool :=
  bool_decide (neg.qname neg_response_info_ = q_qname query_)
  || recursion_desired_and_available t.2.

(** The loop over [neg_response_info.soa_rrset_info]. *)
Record soa_acc := mkSoaAcc {
  soa_owner_name_for_servers : list (triple * dname);
  servers_without_soa : list triple;
  soa_errors : diagnostics;
  soa_st : ev.t;
  soa_vars : loop_vars;
}.

Definition soa_step self (nd : node) (query_ : query) (neg_response_info_ : neg_response_info)
    (bad_soa_error_cls : dname → dname → error) (qname_obj : option node_id)
    (supported_algs : gset Z) (acc : soa_acc) (soa_rrset_info : rrset_info)
    : result soa_acc :=
  let soa_owner_name := rrset_name (ri.rrset soa_rrset_info) in
  r ← for_each (λ (p : list triple * list (triple * dname)) t,
         (* [servers_without_soa.remove] *)
         if decide (t ∈ p.1)
         then Ok (filter (λ t', t' ≠ t) p.1, alist_set t soa_owner_name p.2)
         else Raise KeyError)
       (triples (ri.servers_clients soa_rrset_info))
       (servers_without_soa acc, soa_owner_name_for_servers acc);
  let vars := after_loops (ri.servers_clients soa_rrset_info) (soa_vars acc) in
  zone_name_ ← zone_name g qname_obj;
  let '(errors, vars) :=
    if decide (soa_owner_name ≠ zone_name_) then
      let e := bad_soa_error_cls soa_owner_name zone_name_ in
      let errors := insert_error e (soa_errors acc) in
      if decide (neg.qname neg_response_info_ = q_qname query_) then
        (update_error e (λ sc, dict_update sc (ri.servers_clients soa_rrset_info)) errors,
         vars)
      else
        (foldl (λ errors (t : triple),
                  if recursion_desired_and_available t.2
                  then update_error e (add_server_client t) errors else errors)
           errors (triples (ri.servers_clients soa_rrset_info)),
         after_loops (ri.servers_clients soa_rrset_info) vars)
    else (soa_errors acc, vars) in
  st ← _populate_rrsig_status g self nd query_ soa_rrset_info
         (get_name g self soa_owner_name) supported_algs false (soa_st acc);
  Ok (mkSoaAcc r.2 r.1 errors st vars).

(** The loop over [servers_without_soa]. *)
Definition missing_soa_errors (query_ : query) (neg_response_info_ : neg_response_info)
    (missing_soa_error_cls : error) (upward_referral_error_cls : option error)
    (qname_obj : option node_id) (servers_without_soa_ : list triple) (errors : diagnostics)
    : result diagnostics :=
  for_each (λ errors (t : triple),
      if for_query_name query_ neg_response_info_ t then
        (* check for an upward referral *)
        match upward_referral_error_cls with
        | Some upward_referral_error =>
          zone_name_ ← zone_name g qname_obj;
          if is_upward_referral t.2 zone_name_
          then Ok (insert_into_list upward_referral_error errors t)
          else Ok (insert_into_list missing_soa_error_cls errors t)
        | None => Ok (insert_into_list missing_soa_error_cls errors t)
        end
      else Ok errors)
    servers_without_soa_ errors.

(** The loop over [neg_response_info.nsec_set_info]. *)
Definition nsec_set_status (query_ : query) (neg_response_info_ : neg_response_info)
    (nsec_status_cls_ nsec3_status_cls_ : nsec_status_cls) (origin : dname)
    (nsec_set_info_ : nsec_set) : NSECStatus :=
  new_NSECStatus (if nsec.use_nsec3 nsec_set_info_ then nsec3_status_cls_ else nsec_status_cls_)
    (neg.qname neg_response_info_) None (q_rdtype query_) origin nsec_set_info_.

Definition nsec_set_step self (nd : node) (query_ : query)
    (neg_response_info_ : neg_response_info) (nsec_status_cls_ nsec3_status_cls_ : nsec_status_cls)
    (qname_obj : option node_id) (soa_owner_name_for_servers_ : list (triple * dname))
    (supported_algs : gset Z) (acc : nsec_tracking * ev.t * loop_vars)
    (nsec_set_info_ : nsec_set) : result (nsec_tracking * ev.t * loop_vars) :=
  let '(tr, st, vars) := acc in
  t ← lv_triple vars;
  zone_name_ ← zone_name g qname_obj;
  let status_ :=
    nsec_set_status query_ neg_response_info_ nsec_status_cls_ nsec3_status_cls_
      (default zone_name_ (alist_get t soa_owner_name_for_servers_)) nsec_set_info_ in
  st ← for_each (λ st (e : dname * rrset_info),
           _populate_rrsig_status g self nd query_ e.2 qname_obj supported_algs false st)
         (nsec.rrsets nsec_set_info_) st;
  Ok (track_nsec_set (for_query_name query_ neg_response_info_) status_ nsec_set_info_ tr, st,
      after_loops (nsec.servers_clients nsec_set_info_) vars).

(** The loop over [servers_missing_nsec]. *)
Definition missing_nsec_errors (query_ : query) (neg_response_info_ : neg_response_info)
    (missing_nsec_error_cls : error) (qname_obj : option node_id)
    (servers_missing_nsec_ : list triple) (errors : diagnostics) : result diagnostics :=
  for_each (λ errors (t : triple),
      (* report that no NSEC(3) records were returned *)
      o ← deref (obj g qname_obj);
      z ← deref (obj g (zone o));
      if signed z && for_query_name query_ neg_response_info_ t then
        if dnssec_requested t.2 then Ok (insert_into_list missing_nsec_error_cls errors t)
        else
          zone_ ← deref (zone o);
          if server_responsive_with_do g zone_ t.1.1 t.1.2 t.2
          then Ok (insert_into_list UnableToRetrieveDNSSECRecords errors t)
          else Ok errors
      else Ok errors)
    servers_missing_nsec_ errors.

(** [_populate_negative_response_status]: the statuses it returns,
    with the lists [warnings] and [errors] and the fields of the RRSIG
    validator after the call.  A [set] is iterated in the order in
    which its members were added. *)
Definition _populate_negative_response_status self (nd : node) (query_ : query)
    (neg_response_info_ : neg_response_info)
    (bad_soa_error_cls : dname → dname → error) (missing_soa_error_cls : error)
    (upward_referral_error_cls : option error) (missing_nsec_error_cls : error)
    (nsec_status_cls_ nsec3_status_cls_ : nsec_status_cls)
    (warnings errors : diagnostics) (supported_algs : gset Z) st
    : result (list NSECStatus * diagnostics * diagnostics * ev.t) :=
  qname_obj ← (let qname_obj := get_name g self (neg.qname neg_response_info_) in
               if decide (q_rdtype query_ = rdatatype.DS)
               then o ← deref (obj g qname_obj); Ok (parent o)
               else Ok qname_obj);
  let all := triples (neg.servers_clients neg_response_info_) in
  notices ← for_each (λ (notices : diagnostics * diagnostics) t,
                of_sum (_populate_response_errors g qname_obj t notices.1 notices.2))
              all (warnings, errors);
  let '(warnings, errors) := notices in
  let vars := after_loops (neg.servers_clients neg_response_info_) (mkLoopVars None None) in
  acc ← for_each (soa_step self nd query_ neg_response_info_ bad_soa_error_cls qname_obj
                    supported_algs)
          (neg.soa_rrset_info neg_response_info_)
          (mkSoaAcc [] (remove_dups all) errors st vars);
  errors ← missing_soa_errors query_ neg_response_info_ missing_soa_error_cls
             upward_referral_error_cls qname_obj (servers_without_soa acc) (soa_errors acc);
  let vars := after_loop_triples (servers_without_soa acc) (soa_vars acc) in
  let '(warnings, errors, vars) :=
    match upward_referral_error_cls ≫= λ e, alist_get e errors with
    | None => (warnings, errors, vars)
    | Some upward_referral_sc =>
      let errors' := suppress_not_authoritative upward_referral_sc errors in
      (suppress_not_authoritative upward_referral_sc warnings, errors',
       if bool_decide (alist_get NotAuthoritative errors = None
                       ∧ alist_get NotAuthoritative warnings = None)
       then vars else after_loops upward_referral_sc vars)
    end in
  r ← for_each (nsec_set_step self nd query_ neg_response_info_ nsec_status_cls_
                  nsec3_status_cls_ qname_obj (soa_owner_name_for_servers acc) supported_algs)
        (neg.nsec_set_info neg_response_info_)
        (mkTracking [] [] (remove_dups all), soa_st acc, vars);
  let '(tr, st, _) := r in
  errors ← missing_nsec_errors query_ neg_response_info_ missing_nsec_error_cls qname_obj
             (servers_missing_nsec tr) errors;
  Ok (final_statuses tr, warnings, errors, st).
End negative_response_status.

(** The fields of a node that [_populate_nodata_status] and
    [_populate_nxdomain_status] assign, next to those of the RRSIG
    validator; the [dict]s are keyed by the identity of the negative
    response and are [None] until the evaluator has run. *)
Record negative_t := mkNegative {
  neg_ev : ev.t;
  nodata_status_ : option (gmap nat (list NSECStatus));
  nodata_warnings : option (gmap nat diagnostics);
  nodata_errors : option (gmap nat diagnostics);
  nxdomain_status_ : option (gmap nat (list NSECStatus));
  nxdomain_warnings : option (gmap nat diagnostics);
  nxdomain_errors : option (gmap nat diagnostics);
  neg_log : list log_entry;
}.

(** [d[k]] on a field that holds a [dict] or [None]. *)
Definition field_get {K V} `{Countable K} (d : option (gmap K V)) (k : K) : result V :=
  match d with
  | None => Raise TypeError
  | Some d => dict_get d k
  end.

(** [d[k] = v] *)
Definition field_set {K V} `{Countable K} (d : option (gmap K V)) (k : K) (v : V)
    : result (option (gmap K V)) :=
  match d with
  | None => Raise TypeError
  | Some d => Ok (Some (<[k := v]> d))
  end.

(** The diagnostics that a field holds for a component, none when
    there is no entry. *)
Definition warnings_at (d : option (gmap nat diagnostics)) (i : nat) : diagnostics :=
  default [] (d ≫= λ d, d !! i).

(** [for server, client in shared_servers_clients:
       for response in neg_response_info.servers_clients[(server, client)]: ...]:
    the tuples that both diagnostics receive. *)
Definition shared_servers_clients (other : provenance) (neg_response_info_ : neg_response_info)
    : list (server * client) :=
  filter (λ sc, sc ∈ (neg.servers_clients neg_response_info_).*1) (remove_dups other.*1).

Definition shared_triples (other : provenance) (neg_response_info_ : neg_response_info)
    : list triple :=
  sc ← shared_servers_clients other neg_response_info_;
  (λ r, (sc.1, sc.2, r))
    <$> default [] (alist_get sc (neg.servers_clients neg_response_info_)).

(** [err = insert_into_list(e, l, None, None, None)] followed by
    [err.add_server_client] for the tuples. *)
Definition record_inconsistency (e : error) (ts : list triple) (l : diagnostics) : diagnostics :=
  foldl (λ l t, update_error e (add_server_client t) l) (insert_error e l) ts.

(** The check for NOERROR/NXDOMAIN inconsistencies of one NXDOMAIN
    response, found with the query for [rdtype_]. *)
Definition nxdomain_inconsistencies (nd : node) (yxdomain_ : option (gset dname))
    (rdtype_ : rdtype) (neg_response_info_ : neg_response_info) (s : negative_t)
    : result negative_t :=
  yx ← (if yxdomain_ is Some yx then Ok yx else Raise TypeError);
  if negb (bool_decide (neg.qname neg_response_info_ ∈ yx)
           && negb (bool_decide (rdtype_ = rdatatype.DS))
           && negb (bool_decide (rdtype_ = rdatatype.DLV)))
  then Ok s else
  for_each (λ s (item : (dname * rdtype) * query),
      let '((_, rdtype2), query2) := item in
      if bool_decide (rdtype2 = rdatatype.DS) || bool_decide (rdtype2 = rdatatype.DLV)
      then Ok s else
      let e := InconsistentNXDOMAIN (neg.qname neg_response_info_) rdtype_ (q_rdtype query2) in
      s ← for_each (λ s rrset_info_,
             let ts := shared_triples (ri.servers_clients rrset_info_) neg_response_info_ in
             if bool_decide (shared_servers_clients (ri.servers_clients rrset_info_)
                               neg_response_info_ = [])
             then Ok s else
             w1 ← field_get (nxdomain_warnings s) (neg.id neg_response_info_);
             nxw ← field_set (nxdomain_warnings s) (neg.id neg_response_info_)
                     (record_inconsistency e ts w1);
             w2 ← dict_get (ev.rrset_warnings (neg_ev s)) (ri.id rrset_info_);
             Ok (mkNegative
                   (ev.set_rrset_warnings
                      (<[ri.id rrset_info_ := record_inconsistency e ts w2]>
                         (ev.rrset_warnings (neg_ev s))) (neg_ev s))
                   (nodata_status_ s) (nodata_warnings s) (nodata_errors s)
                   (nxdomain_status_ s) nxw (nxdomain_errors s) (neg_log s)))
           (filter (λ x, rrset_name (ri.rrset x) = neg.qname neg_response_info_)
              (answer_info query2)) s;
      for_each (λ s neg_response_info2,
          let ts := shared_triples (neg.servers_clients neg_response_info2)
                      neg_response_info_ in
          if bool_decide (shared_servers_clients (neg.servers_clients neg_response_info2)
                            neg_response_info_ = [])
          then Ok s else
          w1 ← field_get (nxdomain_warnings s) (neg.id neg_response_info_);
          nxw ← field_set (nxdomain_warnings s) (neg.id neg_response_info_)
                  (record_inconsistency e ts w1);
          w2 ← field_get (nodata_warnings s) (neg.id neg_response_info2);
          ndw ← field_set (nodata_warnings s) (neg.id neg_response_info2)
                  (record_inconsistency e ts w2);
          Ok (mkNegative (neg_ev s) (nodata_status_ s) ndw (nodata_errors s)
                (nxdomain_status_ s) nxw (nxdomain_errors s) (neg_log s)))
        (filter (λ x, neg.qname x = neg.qname neg_response_info_) (nodata_info query2)) s)
    (queries nd) s.


Section attributed.
Context (nd : node) (rdtype_ : rdtype) (neg_response_info_ : neg_response_info).
Implicit Types (s : negative_t).

(** What the check has added to the diagnostics since [s0]: responses
    of the NXDOMAIN response, from servers and clients that the other
    component has a response from as well. *)
Definition attributed s0 s : Prop :=
  ∀ i e t,
    (t ∈ error_triples e (default [] (ev.rrset_warnings (neg_ev s) !! i)) →
       t ∈ error_triples e (default [] (ev.rrset_warnings (neg_ev s0) !! i))
       ∨ (t ∈ triples (neg.servers_clients neg_response_info_)
          ∧ ∃ item rrset_info_,
              item ∈ queries nd ∧ rrset_info_ ∈ answer_info item.2
              ∧ ri.id rrset_info_ = i
              ∧ (t.1.1, t.1.2) ∈ (ri.servers_clients rrset_info_).*1))
    ∧ (t ∈ error_triples e (warnings_at (nodata_warnings s) i) →
       t ∈ error_triples e (warnings_at (nodata_warnings s0) i)
       ∨ (t ∈ triples (neg.servers_clients neg_response_info_)
          ∧ ∃ item neg_response_info2,
              item ∈ queries nd ∧ neg_response_info2 ∈ nodata_info item.2
              ∧ neg.id neg_response_info2 = i
              ∧ (t.1.1, t.1.2) ∈ (neg.servers_clients neg_response_info2).*1))
    ∧ (t ∈ error_triples e (warnings_at (nxdomain_warnings s) i) →
       t ∈ error_triples e (warnings_at (nxdomain_warnings s0) i)
       ∨ (i = neg.id neg_response_info_
          ∧ t ∈ triples (neg.servers_clients neg_response_info_))).
End attributed.

Module negative.
Section negative.
Context `{Collector} `{Validator} (g : graph).

(** [_populate_nxdomain_status]; [yxdomain_] is [self.yxdomain]. *)
Definition _populate_nxdomain_status self (nd : node) (yxdomain_ : option (gset dname))
    (supported_algs : gset Z) (s : negative_t) : result negative_t :=
  let s := mkNegative (neg_ev s) (nodata_status_ s) (nodata_warnings s) (nodata_errors s)
             (Some ∅) (Some ∅) (Some ∅)
             (neg_log s ++ [Assessing_NXDOMAIN_status (name nd)]) in
  for_each (λ s (item : (dname * rdtype) * query),
      let '((_, rdtype_), query_) := item in
      for_each (λ s neg_response_info_,
          r ← _populate_negative_response_status g self nd query_ neg_response_info_
                SOAOwnerNotZoneForNXDOMAIN MissingSOAForNXDOMAIN None
                MissingNSECForNXDOMAIN NSECStatusNXDOMAIN NSEC3StatusNXDOMAIN
                [] [] supported_algs (neg_ev s);
          let '(statuses_, warnings, errors, st) := r in
          nxw ← field_set (nxdomain_warnings s) (neg.id neg_response_info_) warnings;
          nxe ← field_set (nxdomain_errors s) (neg.id neg_response_info_) errors;
          nxs ← field_set (nxdomain_status_ s) (neg.id neg_response_info_) statuses_;
          (* check for NOERROR/NXDOMAIN inconsistencies *)
          nxdomain_inconsistencies nd yxdomain_ rdtype_ neg_response_info_
            (mkNegative st (nodata_status_ s) (nodata_warnings s) (nodata_errors s)
               nxs nxw nxe (neg_log s)))
        (nxdomain_info query_) s)
    (queries nd) s.

(** [_populate_nodata_status] *)
Definition _populate_nodata_status self (nd : node) (supported_algs : gset Z)
    (s : negative_t) : result negative_t :=
  let s := mkNegative (neg_ev s) (Some ∅) (Some ∅) (Some ∅)
             (nxdomain_status_ s) (nxdomain_warnings s) (nxdomain_errors s)
             (neg_log s ++ [Assessing_NODATA_status (name nd)]) in
  for_each (λ s (item : (dname * rdtype) * query),
      for_each (λ s neg_response_info_,
          r ← _populate_negative_response_status g self nd item.2 neg_response_info_
                SOAOwnerNotZoneForNODATA MissingSOAForNODATA (Some UpwardReferral)
                MissingNSECForNODATA NSECStatusNoAnswer NSEC3StatusNoAnswer
                [] [] supported_algs (neg_ev s);
          let '(statuses_, warnings, errors, st) := r in
          ndw ← field_set (nodata_warnings s) (neg.id neg_response_info_) warnings;
          nde ← field_set (nodata_errors s) (neg.id neg_response_info_) errors;
          nds ← field_set (nodata_status_ s) (neg.id neg_response_info_) statuses_;
          Ok (mkNegative st nds ndw nde (nxdomain_status_ s) (nxdomain_warnings s)
                (nxdomain_errors s) (neg_log s)))
        (nodata_info item.2) s)
    (queries nd) s.
End negative.
End negative.

(** ** Delegation: [_populate_ds_status] *)

Inductive DELEGATION_STATUS :=
| DELEGATION_STATUS_SECURE
| DELEGATION_STATUS_INSECURE
| DELEGATION_STATUS_BOGUS
| DELEGATION_STATUS_INCOMPLETE
| DELEGATION_STATUS_LAME.

#[global] Instance DELEGATION_STATUS_eq_dec : EqDecision DELEGATION_STATUS.
Proof. solve_decision. Defined.

(** The fields of a node that [_populate_delegation_status] creates
    and [_populate_ds_status] fills, keyed by [rdtype] (DS or DLV);
    they are [None] until [_populate_delegation_status] has run.  The
    inner [dict]s are keyed by DS record and by DNSKEYMeta, [None]
    standing for "no DNSKEY". *)
Module ds.
Record t := mk {
  ds_status_by_ds : option (gmap Z (list (DS * list (option dnskey_key * DSStatus))));
  ds_status_by_dnskey : option (gmap Z (list (option dnskey_key * list (DS * DSStatus))));
  delegation_warnings : option (gmap Z diagnostics);
  delegation_errors : option (gmap Z diagnostics);
  delegation_status : option (gmap Z (option DELEGATION_STATUS));
  dnskey_with_ds : option (list dnskey_key);
  log : list log_entry;
}.
End ds.

(** What the name analysis knows of the servers of a name and of their
    responses ([online.py] and [response.py], which are not among the
    sources). *)
Class Servers := {
  (* [response.is_valid_response() and response.is_complete_response()] *)
  is_valid_complete_response : response → bool;
  (* [response.is_referral(qname, rdtype, bailiwick)] *)
  is_referral : response → dname → rdtype → option dname → bool;
  get_auth_or_designated_servers : graph → node_id → list server;
  get_responsive_auth_or_designated_servers : graph → node_id → list server;
  get_valid_auth_or_designated_servers : graph → node_id → list server;
  _auth_servers_clients : graph → node_id → list (server * client);
  parent_name : graph → node_id → dname;
}.

(** [validation_status_mapping] of the DS statuses. *)
Record ds_validation_status_mapping := mkDSVSM {
  ds_vsm_True : list DSStatus;
  ds_vsm_False : list DSStatus;
  ds_vsm_None : list DSStatus;
}.

Definition ds_vsm_add (st : DSStatus) (m : ds_validation_status_mapping)
    : ds_validation_status_mapping :=
  match digest_valid st with
  | Some true => mkDSVSM (ds_vsm_True m ++ [st]) (ds_vsm_False m) (ds_vsm_None m)
  | Some false => mkDSVSM (ds_vsm_True m) (ds_vsm_False m ++ [st]) (ds_vsm_None m)
  | None => mkDSVSM (ds_vsm_True m) (ds_vsm_False m) (ds_vsm_None m ++ [st])
  end.

Definition ds_vsm_selected (m : ds_validation_status_mapping) : list DSStatus :=
  if bool_decide (ds_vsm_True m ≠ []) then ds_vsm_True m
  else if bool_decide (ds_vsm_False m ≠ []) then ds_vsm_False m
  else ds_vsm_None m.

(** The DS records of an RRset. *)
Definition dss_of (r : rrset) : list DS :=
  omap (λ d, if d is DS_rdata k then Some k else None) (rrset_rdata r).

(** [algs_signing_sep] and [algs_validating_sep]: per response, the
    algorithms seen, until all those of the DS RRset are covered. *)
Definition sep_algs := list (triple * gset Z).

Definition sep_note (ds_algs : gset Z) (alg : Z) (t : triple) (m : sep_algs) : sep_algs :=
  match alist_get t m with
  | None => m
  | Some seen =>
    let seen := seen ∪ {[alg]} in
    if bool_decide (ds_algs ∖ seen = ∅) then alist_del t m else alist_set t seen m
  end.

(** The entries of [rdtype] in the fields, and the local variables
    that the loops of [_populate_ds_status] update. *)
Record ds_acc := mkDsAcc {
  by_ds : list (DS * list (option dnskey_key * DSStatus));
  by_dnskey : list (option dnskey_key * list (DS * DSStatus));
  deleg_errors : diagnostics;
  deleg_status : option DELEGATION_STATUS;
  with_ds : option (list dnskey_key);
  secure_path : bool;
}.

(** The computation does not end with a [ValueError]. *)
Definition no_value_error {A} (m : result A) : Prop := ∀ msg, m ≠ Raise (ValueError msg).

Section populate_ds_status.
Context `{Collector} `{Validator} `{Servers} (g : graph).
Implicit Types (st : ev.t) (self : node_id).

Definition new_DSStatus (ds_ : DS) (ds_meta : rrset_info) (dnskey : option DNSKEYMeta)
    (supported_digest_algs : gset Z) : DSStatus :=
  let v := ds_verdict ds_ ds_meta dnskey supported_digest_algs in
  mkDSStatus ds_ dnskey v.1 v.2.

(** All the servers queried for DNSKEYs that gave a valid and
    complete response. *)
Definition dnskey_server_client_responses self (nd : node) (dnskey_multiquery : query)
    : list triple :=
  let '(bailiwick_map, default_bailiwick) := get_bailiwick_mapping g self in
  remove_dups
    (dnskey_query ← q_queries dnskey_multiquery;
     sr ← responses dnskey_query;
     let bailiwick :=
       if alist_get sr.1 bailiwick_map is Some b then Some b else default_bailiwick in
     cr ← sr.2;
     if is_valid_complete_response cr.2
        && negb (is_referral cr.2 (name nd) rdatatype.DNSKEY bailiwick)
     then [(sr.1, cr.1, cr.2)] else []).

(** The loop over [dnskey_info.rrsig_info] for a DNSKEY that matches
    the DS record. *)
Definition sep_step st (ds_algs : gset Z) (dnskey_info : rrset_info) (dnskey : DNSKEYMeta)
    (ds_status_ : DSStatus) (acc : sep_algs * sep_algs) (item : rrsig * provenance)
    : result (sep_algs * sep_algs) :=
  let '(rrsig_, rrsig_servers_clients) := item in
  by_dnskey_ ← rrsig_status_of dnskey_info rrsig_ st;
  match alist_get (Some (key_of_dnskey dnskey)) by_dnskey_ with
  | None =>
    (* move along if DNSKEY is not self-signing *)
    Ok acc
  | Some rrsig_status_ =>
    (* move along if key tag is not the same (i.e., revoke) *)
    if bool_decide (key_tag dnskey ≠ rrsig_key_tag rrsig_) then Ok acc else
    Ok (foldl (λ (acc : sep_algs * sep_algs) t,
          (* note that this algorithm is part of a self-signing DNSKEY *)
          (sep_note ds_algs (rrsig_algorithm rrsig_) t acc.1,
           (* if the DS digest and the RRSIG are both valid, then mark
              it as a SEP *)
           if bool_decide (ds_validation_status ds_status_ = DS_STATUS_VALID)
              && bool_decide (rrsig_validation_status rrsig_status_ = RRSIG_STATUS_VALID)
           then sep_note ds_algs (rrsig_algorithm rrsig_) t acc.2
           else acc.2))
        acc (triples rrsig_servers_clients))
  end.

(** The loop over the DNSKEYs of one DNSKEY RRset. *)
Record dnskey_acc := mkDnskeyAcc {
  da_vsm : ds_validation_status_mapping;
  da_by_dnskey : list (option dnskey_key * list (DS * DSStatus));
  da_with_ds : option (list dnskey_key);
  da_sep : sep_algs * sep_algs;
}.

Definition try_dnskey st (nd : node) (ds_rdata_ : DS) (ds_rrset_info dnskey_info : rrset_info)
    (ds_algs supported_digest_algs : gset Z) (acc : dnskey_acc) (dnskey_rdata_ : DNSKEY)
    : result dnskey_acc :=
  dnskey ← (if alist_get dnskey_rdata_ (_index_dnskeys_of nd).2 is Some d
            then Ok d else Raise KeyError);
  let k := Some (key_of_dnskey dnskey) in
  let by_dnskey_ :=
    if alist_get k (da_by_dnskey acc) is Some _ then da_by_dnskey acc
    else alist_set k [] (da_by_dnskey acc) in
  (* if the key tag doesn't match, then go any farther *)
  if negb ((bool_decide (ds_key_tag ds_rdata_ = key_tag dnskey)
            || bool_decide (ds_key_tag ds_rdata_ = key_tag_no_revoke dnskey))
           && bool_decide (ds_algorithm ds_rdata_ = algorithm (dnskey_rdata dnskey)))
  then Ok (mkDnskeyAcc (da_vsm acc) by_dnskey_ (da_with_ds acc) (da_sep acc)) else
  (* check if the digest is a match *)
  let ds_status_ := new_DSStatus ds_rdata_ ds_rrset_info (Some dnskey) supported_digest_algs in
  (* if dnskey exists, then add to dnskey_with_ds *)
  with_ds_ ← (if bool_decide (ds_validation_status ds_status_
                                = DS_STATUS_INDETERMINATE_NO_DNSKEY)
                 || bool_decide (ds_validation_status ds_status_
                                   = DS_STATUS_INDETERMINATE_MATCH_PRE_REVOKE)
              then Ok (da_with_ds acc)
              else l ← deref (da_with_ds acc); Ok (Some (set_add (key_of_dnskey dnskey) l)));
  sep ← for_each (sep_step st ds_algs dnskey_info dnskey ds_status_)
          (ri.rrsig_info dnskey_info) (da_sep acc);
  Ok (mkDnskeyAcc (ds_vsm_add ds_status_ (da_vsm acc)) by_dnskey_ with_ds_ sep).

(** [self.ds_status_by_ds[rdtype][ds_status.ds][ds_status.dnskey] = ds_status]
    and [self.ds_status_by_dnskey[rdtype][ds_status.dnskey][ds_status.ds] = ds_status] *)
Definition record_ds_status
    (acc : list (DS * list (option dnskey_key * DSStatus))
           * list (option dnskey_key * list (DS * DSStatus)))
    (ds_status_ : DSStatus)
    : result (list (DS * list (option dnskey_key * DSStatus))
              * list (option dnskey_key * list (DS * DSStatus))) :=
  let k := key_of_dnskey <$> ds_status_dnskey ds_status_ in
  of_ds ← (if alist_get (ds_status_ds ds_status_) acc.1 is Some d then Ok d else Raise KeyError);
  of_dnskey ← (if alist_get k acc.2 is Some d then Ok d else Raise KeyError);
  Ok (alist_set (ds_status_ds ds_status_) (alist_set k ds_status_ of_ds) acc.1,
      alist_set k (alist_set (ds_status_ds ds_status_) ds_status_ of_dnskey) acc.2).

(** The loop over the DS records of one DS RRset. *)
Record rdata_acc := mkRdataAcc {
  ra_by_ds : list (DS * list (option dnskey_key * DSStatus));
  ra_by_dnskey : list (option dnskey_key * list (DS * DSStatus));
  ra_with_ds : option (list dnskey_key);
  ra_sep : sep_algs * sep_algs;
}.

Definition ds_rdata_step st (nd : node) (ds_rrset_info : rrset_info)
    (dnskey_multiquery : query) (ds_algs supported_digest_algs : gset Z)
    (acc : rdata_acc) (ds_rdata_ : DS) : result rdata_acc :=
  let acc := mkRdataAcc (alist_set ds_rdata_ [] (ra_by_ds acc)) (ra_by_dnskey acc)
               (ra_with_ds acc) (ra_sep acc) in
  acc ← for_each (λ (acc : rdata_acc) dnskey_info,
      (* there are CNAMEs that show up here... *)
      if negb (bool_decide (rrset_name (ri.rrset dnskey_info) = name nd)
               && bool_decide (rrset_rdtype (ri.rrset dnskey_info) = rdatatype.DNSKEY))
      then Ok acc else
      da ← for_each (try_dnskey st nd ds_rdata_ ds_rrset_info dnskey_info ds_algs
                       supported_digest_algs)
             (dnskeys_of (ri.rrset dnskey_info))
             (mkDnskeyAcc (mkDSVSM [] [] []) (ra_by_dnskey acc) (ra_with_ds acc) (ra_sep acc));
      (* if we got results for multiple keys, then just select the one
         that validates *)
      r ← for_each record_ds_status (ds_vsm_selected (da_vsm da)) (ra_by_ds acc, da_by_dnskey da);
      Ok (mkRdataAcc r.1 r.2 (da_with_ds da) (da_sep da)))
    (answer_info dnskey_multiquery) acc;
  (* no corresponding DNSKEY *)
  of_ds ← (if alist_get ds_rdata_ (ra_by_ds acc) is Some d then Ok d else Raise KeyError);
  if bool_decide (of_ds = []) then
    let ds_status_ := new_DSStatus ds_rdata_ ds_rrset_info None supported_digest_algs in
    let by_dnskey_ :=
      if alist_get None (ra_by_dnskey acc) is Some _ then ra_by_dnskey acc
      else alist_set None [] (ra_by_dnskey acc) in
    Ok (mkRdataAcc (alist_set ds_rdata_ (alist_set None ds_status_ of_ds) (ra_by_ds acc))
          (alist_set None
             (alist_set ds_rdata_ ds_status_ (default [] (alist_get None by_dnskey_)))
             by_dnskey_)
          (ra_with_ds acc) (ra_sep acc))
  else Ok acc.

(** The status and the errors that follow from the SEPs found for
    one DS RRset. *)
Definition sep_outcome (rdtype_ : rdtype) (responses_ : list triple)
    (ds_algs supported_ds_algs : gset Z) (sep : sep_algs * sep_algs)
    (status_ : option DELEGATION_STATUS) (errors : diagnostics)
    : option DELEGATION_STATUS * diagnostics :=
  if bool_decide (responses_ = []) then (status_, insert_error (NoSEP rdtype_) errors) else
  let '(status_, errors) :=
    if bool_decide (sep.2 = []) then (Some DELEGATION_STATUS_SECURE, errors)
    else
      foldl (λ (acc : option DELEGATION_STATUS * diagnostics) t,
          match alist_get t sep.2 with
          | None => (Some DELEGATION_STATUS_SECURE, acc.2)
          | Some validating =>
            if bool_decide (supported_ds_algs ∩ validating ≠ ∅)
            then (Some DELEGATION_STATUS_SECURE, acc.2)
            else if bool_decide (supported_ds_algs ≠ ∅)
            then (acc.1, insert_into_list (NoSEP rdtype_) acc.2 t)
            else acc
          end)
        (status_, errors) responses_ in
  (* report an error if one or more algorithms are incorrectly
     validated *)
  (status_,
   foldl (λ errors (item : triple * gset Z),
       foldl (λ errors alg, insert_into_list (MissingSEPForAlg alg rdtype_) errors item.1)
         errors (elements (ds_algs ∖ item.2)))
     errors sep.1).

(** The loop over [ds_rrset_answer_info]. *)
Definition ds_rrset_step st (nd : node) (rdtype_ : rdtype) (name_ : dname)
    (dnskey_multiquery : query) (responses_ : list triple)
    (supported_algs supported_digest_algs : gset Z) (acc : ds_acc) (ds_rrset_info : rrset_info)
    : result ds_acc :=
  (* there are CNAMEs that show up here... *)
  if negb (bool_decide (rrset_name (ri.rrset ds_rrset_info) = name_)
           && bool_decide (rrset_rdtype (ri.rrset ds_rrset_info) = rdtype_))
  then Ok acc else
  (* for each set of DS records provided by one or more servers,
     identify the set of DNSSEC algorithms and the set of digest
     algorithms per algorithm/key tag combination *)
  let dss := dss_of (ri.rrset ds_rrset_info) in
  let ds_algs : gset Z := list_to_set (ds_algorithm <$> dss) in
  let supported_ds_algs : gset Z :=
    list_to_set (ds_algorithm <$>
                   filter (λ d, ds_algorithm d ∈ supported_algs
                                ∧ digest_type d ∈ supported_digest_algs) dss) in
  let secure_path_ := secure_path acc || bool_decide (supported_ds_algs ≠ ∅) in
  let sep0 : sep_algs := (λ t, (t, ∅)) <$> responses_ in
  ra ← for_each (ds_rdata_step st nd ds_rrset_info dnskey_multiquery ds_algs
                   supported_digest_algs)
         dss (mkRdataAcc (by_ds acc) (by_dnskey acc) (with_ds acc) (sep0, sep0));
  let '(status_, errors) :=
    sep_outcome rdtype_ responses_ ds_algs supported_ds_algs (ra_sep ra)
      (deleg_status acc) (deleg_errors acc) in
  Ok (mkDsAcc (ra_by_ds ra) (ra_by_dnskey ra) errors status_ (ra_with_ds ra) secure_path_).

(** [[self.nxdomain_status[n] for n in self.nxdomain_status
       if n.qname == name and n.rdtype == dns.rdatatype.DS]]; the keys
    of the [dict] are negative responses of the queries of the
    node. *)
Definition ds_nsec_status_lists (name_ : dname) (infos : list neg_response_info)
    (field : option (gmap nat (list NSECStatus))) : result (list (list NSECStatus)) :=
  match field with
  | None => Raise TypeError
  | Some d =>
    Ok (omap (λ n, if bool_decide (neg.qname n = name_)
                      && bool_decide (neg.rdtype n = rdatatype.DS)
                   then d !! neg.id n else None) infos)
  end.

(** [if self.delegation_status[rdtype] == Status.DELEGATION_STATUS_INSECURE:
       self.delegation_status[rdtype] = status] *)
Definition if_insecure (status_ : DELEGATION_STATUS) (current : option DELEGATION_STATUS)
    : option DELEGATION_STATUS :=
  if bool_decide (current = Some DELEGATION_STATUS_INSECURE) then Some status_ else current.

(** [_populate_ds_status]; [st] and [ns] hold the fields of the RRSIG
    validator and of the evaluators of the negative responses. *)
Definition _populate_ds_status self (nd : node) (rdtype_ : rdtype)
    (supported_algs supported_digest_algs : gset Z) st (ns : negative_t) (s : ds.t)
    : result ds.t :=
  if negb (bool_decide (rdtype_ = rdatatype.DS) || bool_decide (rdtype_ = rdatatype.DLV))
  then Raise (ValueError "Type can only be DS or DLV.") else
  match parent nd with
  | None => Ok s
  | Some parent_ =>
    name_ ← (if decide (rdtype_ = rdatatype.DLV) then
               match dlv_name nd with
               | None => Raise (ValueError "No DLV specified for DomainNameAnalysis object.")
               | Some n => Ok n
               end
             else Ok (name nd));
    let log_ := ds.log s ++ [Assessing_delegation_status (name nd)] in
    f_by_ds ← field_set (ds.ds_status_by_ds s) rdtype_ [];
    f_by_dnskey ← field_set (ds.ds_status_by_dnskey s) rdtype_ [];
    f_warnings ← field_set (ds.delegation_warnings s) rdtype_ [];
    f_errors ← field_set (ds.delegation_errors s) rdtype_ [];
    f_status ← field_set (ds.delegation_status s) rdtype_ None;
    match alist_get (name_, rdtype_) (queries nd) with
    | None =>
      (* zones should have DS queries *)
      if is_zone nd then Raise KeyError
      else Ok (ds.mk f_by_ds f_by_dnskey f_warnings f_errors f_status (ds.dnskey_with_ds s)
                 log_)
    | Some ds_query =>
      let ds_rrset_answer_info := answer_info ds_query in
      let dnskey_multiquery :=
        default (Query (name nd) rdatatype.DNSKEY [] [] [] [])
          (alist_get (name nd, rdatatype.DNSKEY) (queries nd)) in
      (* populate all the servers queried for DNSKEYs to determine
         what problems there were with regard to DS records and if
         there is at least one match *)
      let responses_ := dnskey_server_client_responses self nd dnskey_multiquery in
      acc ← for_each (ds_rrset_step st nd rdtype_ name_ dnskey_multiquery responses_
                        supported_algs supported_digest_algs)
              ds_rrset_answer_info (mkDsAcc [] [] [] None (ds.dnskey_with_ds s) false);
      status_ ←
        match deleg_status acc with
        | Some status_ => Ok (Some status_)
        | None =>
          if negb (bool_decide (ds_rrset_answer_info = [])) then
            Ok (Some (if secure_path acc then DELEGATION_STATUS_BOGUS
                      else DELEGATION_STATUS_INSECURE))
          else
            p ← deref (g !! parent_);
            if signed p then
              nx ← ds_nsec_status_lists name_ (item ← queries nd; nxdomain_info item.2)
                     (nxdomain_status_ ns);
              nodata ← ds_nsec_status_lists name_ (item ← queries nd; nodata_info item.2)
                         (nodata_status_ ns);
              if bool_decide (Exists (λ l, Exists (λ x : NSECStatus,
                                 nsec_validation_status x = NSEC_STATUS_VALID) l)
                                (nx ++ nodata))
              then Ok (Some DELEGATION_STATUS_INSECURE)
              else Ok (Some DELEGATION_STATUS_BOGUS)
            else Ok (Some DELEGATION_STATUS_INSECURE)
        end;
      (* if no servers (designated or stealth authoritative) respond or
         none respond authoritatively, then make the delegation as
         lame *)
      let status_ :=
        if bool_decide (get_auth_or_designated_servers g self = [])
        then if_insecure DELEGATION_STATUS_LAME status_
        else if bool_decide (get_responsive_auth_or_designated_servers g self = [])
        then if_insecure DELEGATION_STATUS_LAME status_
        else if bool_decide (get_valid_auth_or_designated_servers g self = [])
        then if_insecure DELEGATION_STATUS_LAME status_
        else if (if analysis_type nd is ANALYSIS_TYPE_AUTHORITATIVE then true else false)
                && bool_decide (_auth_servers_clients g self = [])
        then if_insecure DELEGATION_STATUS_LAME status_
        else status_ in
      let '(status_, errors) :=
        if decide (rdtype_ = rdatatype.DS) then
          match filter (λ x, neg.qname x = name_ ∧ neg.rdtype x = rdatatype.DS)
                  (nxdomain_info ds_query) with
          | [] => (status_, deleg_errors acc)
          | ds_nxdomain_info :: _ =>
            (if_insecure DELEGATION_STATUS_INCOMPLETE status_,
             deleg_errors acc
             ++ [(NoNSInParent (parent_name g self),
                  dict_update [] (neg.servers_clients ds_nxdomain_info))])
          end
        else (status_, deleg_errors acc) in
      f_by_ds ← field_set f_by_ds rdtype_ (by_ds acc);
      f_by_dnskey ← field_set f_by_dnskey rdtype_ (by_dnskey acc);
      f_errors ← field_set f_errors rdtype_ errors;
      f_status ← field_set f_status rdtype_ status_;
      Ok (ds.mk f_by_ds f_by_dnskey f_warnings f_errors f_status (with_ds acc) log_)
    end
  end.
End populate_ds_status.

(** ** Responsiveness of a server: [_server_responsive_with_condition]
       and the tests built on it *)

(** The attributes of a response that the evaluators read
    ([response.py], which is not among the sources). *)
Class ResponseAttributes := {
  effective_tcp : response → bool;
  tcp_responsive : response → bool;
  udp_responsive : response → bool;
  effective_edns : response → Z;
  effective_edns_flags : response → Z;
  is_valid_response : response → bool;
  msg_size : response → Z;
  (* [response.message.rcode()] *)
  message_rcode : response → Z;
  (* [response.history]: the action of each retry *)
  history_actions : response → list Z;
}.

(** [dns.flags.DO] *)
Definition DO : Z := 32768.

Module responsive.
Section responsive.
Context `{ResponseAttributes}.

(** [tcp] is [None], [True] or [False]; [client], when it is [None],
    stands for all the clients of the server.  The keys of
    [query1.responses[server]] are clients, so that
    [query1.responses[server][client]] raises [KeyError] when [client]
    is [None]. *)
Definition _server_responsive_with_condition (nd : node) (server_ : server)
    (client_ : option client) (tcp : option bool) (response_test : response → bool) : bool :=
  existsb (λ item : (dname * rdtype) * query,
    existsb (λ query1_,
      (* [clients]; [None] when [query1.responses[server]] raises
         [KeyError] *)
      let clients : option (list client) :=
        match client_ with
        | None => (λ by_client : list (client * response), by_client.*1)
                    <$> alist_get server_ (responses query1_)
        | Some c => Some [c]
        end in
      match clients with
      | None => false
      | Some clients =>
        existsb (λ c : client,
          match by_client ← alist_get server_ (responses query1_);
                client' ← client_;
                alist_get client' by_client with
          | None => false
          | Some response_ =>
            (* if tcp is specified, then only follow through if the
               query was ultimately issued according to that value *)
            if (if tcp is Some tcp_
                then (tcp_ && negb (effective_tcp response_))
                     || (negb tcp_ && effective_tcp response_)
                else false)
            then false
            else response_test response_
          end) clients
      end) (q_queries item.2)) (queries nd).

(** [(x.effective_tcp and x.tcp_responsive) or
     (not x.effective_tcp and x.udp_responsive)] *)
Definition transport_responsive (x : response) : bool :=
  (effective_tcp x && tcp_responsive x) || (negb (effective_tcp x) && udp_responsive x).

Definition server_responsive_with_edns_flag (nd : node) (server_ : server)
    (client_ : option client) (tcp : option bool) (f : Z) : bool :=
  _server_responsive_with_condition nd server_ client_ tcp
    (λ x, transport_responsive x && bool_decide (0 ≤ effective_edns x)%Z
          && bool_decide (Z.land (effective_edns_flags x) f ≠ 0%Z)).

Definition server_responsive_valid_with_edns_flag (nd : node) (server_ : server)
    (client_ : option client) (tcp : option bool) (f : Z) : bool :=
  _server_responsive_with_condition nd server_ client_ tcp
    (λ x, transport_responsive x && is_valid_response x
          && bool_decide (0 ≤ effective_edns x)%Z
          && bool_decide (Z.land (effective_edns_flags x) f ≠ 0%Z)).

Definition server_responsive_with_do (nd : node) (server_ : server)
    (client_ : option client) (tcp : option bool) : bool :=
  server_responsive_with_edns_flag nd server_ client_ tcp DO.

Definition server_responsive_valid_with_do (nd : node) (server_ : server)
    (client_ : option client) (tcp : option bool) : bool :=
  server_responsive_valid_with_edns_flag nd server_ client_ tcp DO.

Definition server_responsive_with_edns (nd : node) (server_ : server)
    (client_ : option client) (tcp : option bool) : bool :=
  _server_responsive_with_condition nd server_ client_ tcp
    (λ x, transport_responsive x && bool_decide (0 ≤ effective_edns x)%Z).

Definition server_responsive_valid_with_edns (nd : node) (server_ : server)
    (client_ : option client) (tcp : option bool) : bool :=
  _server_responsive_with_condition nd server_ client_ tcp
    (λ x, transport_responsive x && is_valid_response x
          && bool_decide (0 ≤ effective_edns x)%Z).

(** The response that the tests look at: the last response of
    [server] to [client] in the retry [query1_]. *)
Definition response_of (query1_ : query1) (server_ : server) (client_ : client)
    : option response :=
  by_client ← alist_get server_ (responses query1_); alist_get client_ by_client.

(** [tcp] does not exclude the response. *)
Definition transport_selected (tcp : option bool) (x : response) : Prop :=
  ∀ b, tcp = Some b → effective_tcp x = b.
End responsive.
End responsive.

(** ** Collection of the answers: [_handle_soa_response],
       [_handle_dnskey_response], [_handle_ds_response],
       [_process_response_answer_rrset] *)

(** The fields of a SOA record that the analysis keeps. *)
Record SOA := mkSOA {
  soa_serial : Z;
  soa_rname : dname;
  soa_mname : dname;
}.

(** Attribute access on record data: [rdata.algorithm] exists on
    DNSKEY and on DS (and DLV) records, [rdata.digest_type] on DS
    records only. *)
Definition rdata_algorithm (d : rdata) : option Z :=
  match d with
  | DNSKEY_rdata k => Some (algorithm k)
  | DS_rdata d => Some (ds_algorithm d)
  | Other_rdata _ => None
  end.

Definition rdata_digest_type (d : rdata) : option Z :=
  match d with
  | DS_rdata d => Some (digest_type d)
  | _ => None
  end.

Module collect.
(** What the handlers can raise: [rrset[0]] on an empty RRset, and the
    access to an attribute that the record does not have. *)
Inductive exn := IndexError | NoSuchAttribute.

(** The node with the fields that the handlers assign next to the
    three sets of algorithms of [node]. *)
Record t := mk {
  nd : node;
  has_soa : bool;
  serial : option Z;
  rname : option dname;
  mname : option dname;
  dnssec_algorithms_digest_in_ds : gset (Z * Z);
  dnssec_algorithms_digest_in_dlv : gset (Z * Z);
}.

(** The node with other sets of algorithms. *)
Definition with_algorithms (in_dnskey in_ds in_dlv : gset Z) (n : node) : node :=
  {| name := name n; analysis_type := analysis_type n; stub := stub n;
     is_zone := is_zone n; referral_rdtype := referral_rdtype n; parent := parent n;
     dlv_parent := dlv_parent n; dlv_name := dlv_name n; zone := zone n;
     dnssec_algorithms_in_dnskey := in_dnskey; dnssec_algorithms_in_ds := in_ds;
     dnssec_algorithms_in_dlv := in_dlv; analysis_end := analysis_end n;
     cname_targets := cname_targets n; mx_targets := mx_targets n;
     external_signers := external_signers n; ns_dependencies := ns_dependencies n;
     queries := queries n |}.

(** The part of the analysis that [response.py] and [online.py]
    provide: the SOA fields of a record ([None] when the record has
    none), and [_process_response_answer_rrset] of the base class. *)
Class Online := {
  soa_of : rdata → option SOA;
  super_process_response_answer_rrset : t → rrset → query → response → t;
}.

Section collect.
Context `{Online}.

(** The fields as [__init__] sets them. *)
Definition init (c : t) : t :=
  mk (with_algorithms ∅ ∅ ∅ (nd c)) (has_soa c) None None None ∅ ∅.

(** Indicate that there exists an SOA record for the name which is
    the subject of this analysis, and save the relevant parts. *)
Definition _handle_soa_response (rrset_ : rrset) (c : t) : exn + t :=
  match rrset_rdata rrset_ with
  | [] => inl IndexError
  | r0 :: _ =>
    match soa_of r0 with
    | None => inl NoSuchAttribute
    | Some soa =>
      if (if serial c is Some s then bool_decide (s < soa_serial soa)%Z else true)
      then inr (mk (nd c) true (Some (soa_serial soa)) (Some (soa_rname soa))
                  (Some (soa_mname soa)) (dnssec_algorithms_digest_in_ds c)
                  (dnssec_algorithms_digest_in_dlv c))
      else inr (mk (nd c) true (serial c) (rname c) (mname c)
                  (dnssec_algorithms_digest_in_ds c) (dnssec_algorithms_digest_in_dlv c))
    end
  end.

(** [for x in rrset: ...] where the body reads attributes of [x]. *)
Definition for_records {A} (body : A → rdata → option A) : list rdata → A → exn + A :=
  fix go l a :=
    match l with
    | [] => inr a
    | x :: l' =>
      match body a x with
      | None => inl NoSuchAttribute
      | Some a' => go l' a'
      end
    end.

Definition _handle_dnskey_response (rrset_ : rrset) (c : t) : exn + t :=
  match for_records (λ algs dnskey, alg ← rdata_algorithm dnskey; Some (algs ∪ {[alg]}))
          (rrset_rdata rrset_) (dnssec_algorithms_in_dnskey (nd c)) with
  | inl e => inl e
  | inr algs =>
    inr (mk (with_algorithms algs (dnssec_algorithms_in_ds (nd c))
               (dnssec_algorithms_in_dlv (nd c)) (nd c))
           (has_soa c) (serial c) (rname c) (mname c)
           (dnssec_algorithms_digest_in_ds c) (dnssec_algorithms_digest_in_dlv c))
  end.

(** The loop of [_handle_ds_response] on the two sets it has chosen. *)
Definition ds_records (rrset_ : rrset) (dnssec_algs : gset Z) (digest_algs : gset (Z * Z))
    : exn + (gset Z * gset (Z * Z)) :=
  for_records (λ (acc : gset Z * gset (Z * Z)) ds_,
      alg ← rdata_algorithm ds_;
      digest_type_ ← rdata_digest_type ds_;
      Some (acc.1 ∪ {[alg]}, acc.2 ∪ {[(alg, digest_type_)]}))
    (rrset_rdata rrset_) (dnssec_algs, digest_algs).

Definition _handle_ds_response (rrset_ : rrset) (c : t) : exn + t :=
  if decide (rrset_rdtype rrset_ = rdatatype.DS) then
    match ds_records rrset_ (dnssec_algorithms_in_ds (nd c))
            (dnssec_algorithms_digest_in_ds c) with
    | inl e => inl e
    | inr (dnssec_algs, digest_algs) =>
      inr (mk (with_algorithms (dnssec_algorithms_in_dnskey (nd c)) dnssec_algs
                 (dnssec_algorithms_in_dlv (nd c)) (nd c))
             (has_soa c) (serial c) (rname c) (mname c)
             digest_algs (dnssec_algorithms_digest_in_dlv c))
    end
  else
    match ds_records rrset_ (dnssec_algorithms_in_dlv (nd c))
            (dnssec_algorithms_digest_in_dlv c) with
    | inl e => inl e
    | inr (dnssec_algs, digest_algs) =>
      inr (mk (with_algorithms (dnssec_algorithms_in_dnskey (nd c))
                 (dnssec_algorithms_in_ds (nd c)) dnssec_algs (nd c))
             (has_soa c) (serial c) (rname c) (mname c)
             (dnssec_algorithms_digest_in_ds c) digest_algs)
    end.

Definition _process_response_answer_rrset (rrset_ : rrset) (query_ : query)
    (response_ : response) (c : t) : exn + t :=
  let c := super_process_response_answer_rrset c rrset_ query_ response_ in
  if bool_decide (q_qname query_ = name (nd c))
     || bool_decide (Some (q_qname query_) = dlv_name (nd c)) then
    if decide (rrset_rdtype rrset_ = rdatatype.SOA) then _handle_soa_response rrset_ c
    else if decide (rrset_rdtype rrset_ = rdatatype.DNSKEY)
    then _handle_dnskey_response rrset_ c
    else if bool_decide (rrset_rdtype rrset_ = rdatatype.DS)
            || bool_decide (rrset_rdtype rrset_ = rdatatype.DLV)
    then _handle_ds_response rrset_ c
    else inr c
  else inr c.

(** Successive calls of a handler, one per RRset. *)
Definition handle_each (handler : rrset → t → exn + t) : list rrset → t → exn + t :=
  fix go l c :=
    match l with
    | [] => inr c
    | r :: l' =>
      match handler r c with
      | inl e => inl e
      | inr c' => go l' c'
      end
    end.

(** The SOA record that stands first in the RRset. *)
Definition first_soa (rrset_ : rrset) : option SOA := head (rrset_rdata rrset_) ≫= soa_of.

(** Every algorithm of a set comes with a digest type, and the other
    way round. *)
Definition digests_match (algs : gset Z) (digest_algs : gset (Z * Z)) : Prop :=
  ∀ alg, alg ∈ algs ↔ ∃ digest_type_, (alg, digest_type_) ∈ digest_algs.
(** What holds of the SOA fields after the RRsets [seen] have been
    handled. *)
Definition soa_latest (seen : list rrset) (c : t) : Prop :=
  match serial c with
  | None => seen = []
  | Some v =>
    (∃ r soa, r ∈ seen ∧ first_soa r = Some soa
              ∧ v = soa_serial soa ∧ rname c = Some (soa_rname soa)
              ∧ mname c = Some (soa_mname soa))
    ∧ has_soa c = true
    ∧ ∀ r soa, r ∈ seen → first_soa r = Some soa → (soa_serial soa ≤ v)%Z
  end.

End collect.
End collect.

(** ** Key roles: [_finalize_key_roles], [potential_trusted_keys],
       [_populate_dnskey_status] *)

(** Modelled from the spec: [fmt.DNSKEY_FLAGS['revoke']] of
    [format.py], which is not among the sources, is the REVOKE bit of
    the flags of a DNSKEY. *)
Definition DNSKEY_FLAGS_revoke : Z := 128.

(** The diagnostics that [_populate_dnskey_status] attaches to a
    DNSKEY. *)
Inductive dnskey_notice :=
| RevokedNotSigning
| DNSKEYNotAtZoneApex (zone_ name_ : dname)
| DNSKEYMissingFromServers
| TrustAnchorNotSigning.

#[global] Instance dnskey_notice_eq_dec : EqDecision dnskey_notice.
Proof. solve_decision. Defined.

(** What the name analysis knows of a query ([query.py], which is not
    among the sources). *)
Record error_info_t := ErrorInfo {
  error_code : Z;
  error_arg : Z;
  error_servers_clients : provenance;
}.

Class QueryAttributes := {
  (* [query.servers_with_valid_complete_response(bailiwick_map,
     default_bailiwick)] *)
  servers_with_valid_complete_response :
    query1 → list (server * dname) → option dname → list (server * client);
  (* [query.error_info] *)
  error_info : query → list error_info_t;
}.

Module keys.
(** The sets of DNSKEYMeta objects of a node, [None] until they are
    assigned, and the [warnings] and [errors] of the DNSKEYMeta
    objects.  A [set] is kept in the order in which its members were
    added. *)
Record t := mk {
  zsks : option (list dnskey_key);
  ksks : option (list dnskey_key);
  published_keys : option (list dnskey_key);
  revoked_keys : option (list dnskey_key);
  dnskey_with_ds : option (list dnskey_key);
  dnskey_warnings : list (dnskey_key * list (dnskey_notice * provenance));
  dnskey_errors : list (dnskey_key * list (dnskey_notice * provenance));
}.

(** [x in s] and the argument [s] of [difference] and [union], where
    [s] may be [None]. *)
Definition member (x : dnskey_key) (s : option (list dnskey_key)) : result bool :=
  match s with
  | None => Raise TypeError
  | Some l => Ok (bool_decide (x ∈ l))
  end.

Definition iterable (s : option (list dnskey_key)) : result (list dnskey_key) :=
  match s with
  | None => Raise TypeError
  | Some l => Ok l
  end.

Definition potential_trusted_keys (k : t) : result (list dnskey_key) :=
  ksks_ ← deref (ksks k);
  zsks_ ← iterable (zsks k);
  revoked ← iterable (revoked_keys k);
  let active_ksks := list_difference (list_difference ksks_ zsks_) revoked in
  if bool_decide (active_ksks ≠ []) then Ok active_ksks
  else Ok (list_difference ksks_ revoked).

(** [x.rdata.flags & fmt.DNSKEY_FLAGS['revoke']] *)
Definition revoke_flag (d : DNSKEY) : bool :=
  bool_decide (Z.land (flags d) DNSKEY_FLAGS_revoke ≠ 0%Z).

(** [dnskey.errors.append(err)] with [err.servers_clients = sc], and
    the same for [dnskey.warnings]. *)
Definition append_notice (key : dnskey_key) (e : dnskey_notice) (sc : provenance)
    (l : list (dnskey_key * list (dnskey_notice * provenance)))
    : list (dnskey_key * list (dnskey_notice * provenance)) :=
  alist_set key (default [] (alist_get key l) ++ [(e, sc)]) l.

Definition add_error (key : dnskey_key) (e : dnskey_notice) (sc : provenance) (k : t) : t :=
  mk (zsks k) (ksks k) (published_keys k) (revoked_keys k) (dnskey_with_ds k)
    (dnskey_warnings k) (append_notice key e sc (dnskey_errors k)).

Definition add_warning (key : dnskey_key) (e : dnskey_notice) (sc : provenance) (k : t) : t :=
  mk (zsks k) (ksks k) (published_keys k) (revoked_keys k) (dnskey_with_ds k)
    (append_notice key e sc (dnskey_warnings k)) (dnskey_errors k).

(** The diagnostics of a DNSKEY. *)
Definition errors_of (key : dnskey_key) (k : t) : list (dnskey_notice * provenance) :=
  default [] (alist_get key (dnskey_errors k)).

Definition warnings_of (key : dnskey_key) (k : t) : list (dnskey_notice * provenance) :=
  default [] (alist_get key (dnskey_warnings k)).

Section keys.
Context `{Collector} `{Validator} `{QueryAttributes} (g : graph).

(** The DNSKEYMeta objects of the node as members of the sets. *)
Definition dnskey_keys (nd : node) : list dnskey_key :=
  remove_dups (key_of_dnskey <$> get_dnskeys nd).

Definition _finalize_key_roles (nd : node) (k : t) : result t :=
  if is_zone nd then
    zsks_ ← deref (zsks k);
    ksks_ ← iterable (ksks k);
    let published := list_difference (dnskey_keys nd) (list_union zsks_ ksks_) in
    let revoked := filter (λ key : dnskey_key, revoke_flag key.2) (dnskey_keys nd) in
    Ok (mk (zsks k) (ksks k) (Some published) (Some revoked) (dnskey_with_ds k)
          (dnskey_warnings k) (dnskey_errors k))
  else Ok k.

(** The servers that gave a valid and complete response to the DNSKEY
    query, each with the response. *)
Definition servers_responsive_of self (dnskey_multiquery : query) : result (list triple) :=
  let '(bailiwick_map, default_bailiwick) := get_bailiwick_mapping g self in
  for_each (λ (acc : list triple) query1_,
      new ← for_each (λ (l : list triple) (sc : server * client),
               match by_client ← alist_get sc.1 (responses query1_);
                     alist_get sc.2 by_client with
               | None => Raise KeyError
               | Some response_ => Ok (l ++ [(sc.1, sc.2, response_)])
               end)
             (servers_with_valid_complete_response query1_ bailiwick_map default_bailiwick)
             [];
      Ok (list_union acc new))
    (q_queries dnskey_multiquery) [].

(** The sets [trusted_keys_existing] and
    [trusted_keys_not_self_signing] with the fields. *)
Definition dnskey_status_acc := (list dnskey_key * list DNSKEYMeta * t)%type.

(** [dnskey in self.zsks or dnskey in self.dnskey_with_ds or
     dnskey in trusted_keys_existing] *)
Definition signing_or_anchored (key : dnskey_key) (trusted_keys_existing : list dnskey_key)
    (k : t) : result bool :=
  in_zsks ← member key (zsks k);
  if in_zsks : bool then Ok true
  else
    with_ds ← member key (dnskey_with_ds k);
    if with_ds : bool then Ok true
    else Ok (bool_decide (key ∈ trusted_keys_existing)).

(** The four statements of the body of the loop over
    [self.get_dnskeys()]: the trust anchors among the DNSKEYs, *)
Definition note_trusted (nd : node) (trusted_keys_rdata : list rdata) (k : t)
    (acc : list dnskey_key * list DNSKEYMeta) (dnskey : DNSKEYMeta)
    : result (list dnskey_key * list DNSKEYMeta) :=
  let '(trusted_keys_existing, trusted_keys_not_self_signing) := acc in
  let key := key_of_dnskey dnskey in
  if bool_decide (DNSKEY_rdata (dnskey_rdata dnskey) ∈ trusted_keys_rdata) then
    in_ksks ← member key (ksks k);
    Ok (set_add key trusted_keys_existing,
        if in_ksks : bool then trusted_keys_not_self_signing
        else if bool_decide (key ∈ key_of_dnskey <$> trusted_keys_not_self_signing)
        then trusted_keys_not_self_signing
        else trusted_keys_not_self_signing ++ [dnskey])
  else Ok acc.

(** the revoked keys that do not sign the DNSKEY RRset, *)
Definition note_revoked (dnskey : DNSKEYMeta) (k : t) : result t :=
  let key := key_of_dnskey dnskey in
  revoked ← member key (revoked_keys k);
  if revoked : bool then
    in_ksks ← member key (ksks k);
    if in_ksks : bool then Ok k
    else Ok (add_error key RevokedNotSigning (dnskey_servers_clients dnskey) k)
  else Ok k.

(** the DNSKEYs of a name that is not a zone, *)
Definition note_not_at_zone_apex (nd : node) (dnskey : DNSKEYMeta) (k : t) : result t :=
  if is_zone nd then Ok k
  else
    z ← deref (obj g (zone nd));
    Ok (add_error (key_of_dnskey dnskey) (DNSKEYNotAtZoneApex (name z) (name nd))
          (dnskey_servers_clients dnskey) k).

(** and the servers that were responsive for the query but did not
    return the DNSKEY. *)
Definition note_missing_from_servers (servers_responsive : list triple)
    (trusted_keys_existing : list dnskey_key) (dnskey : DNSKEYMeta) (k : t) : result t :=
  let key := key_of_dnskey dnskey in
  let servers_with_dnskey := triples (dnskey_servers_clients dnskey) in
  let servers_clients_without := list_difference servers_responsive servers_with_dnskey in
  if bool_decide (servers_clients_without ≠ []) then
    let sc := foldl (λ sc t, add_server_client t sc) [] servers_clients_without in
    (* if the key is shown to be signing anything other than the
       DNSKEY RRset, or if it associated with a DS or trust anchor,
       then mark it as an error; otherwise, mark it as a warning. *)
    as_error ← signing_or_anchored key trusted_keys_existing k;
    if as_error : bool then Ok (add_error key DNSKEYMissingFromServers sc k)
    else Ok (add_warning key DNSKEYMissingFromServers sc k)
  else Ok k.

(** Body of the loop over [self.get_dnskeys()]. *)
Definition dnskey_status_step (nd : node) (trusted_keys_rdata : list rdata)
    (servers_responsive : list triple) (acc : dnskey_status_acc) (dnskey : DNSKEYMeta)
    : result dnskey_status_acc :=
  let '(trusted_keys_existing, trusted_keys_not_self_signing, k) := acc in
  r ← note_trusted nd trusted_keys_rdata k
        (trusted_keys_existing, trusted_keys_not_self_signing) dnskey;
  k ← note_revoked dnskey k;
  k ← note_not_at_zone_apex nd dnskey k;
  k ← note_missing_from_servers servers_responsive r.1 dnskey k;
  Ok (r.1, r.2, k).

Definition _populate_dnskey_status self (nd : node) (trusted_keys : list (dname * rdata))
    (k : t) : result t :=
  match alist_get (name nd, rdatatype.DNSKEY) (queries nd) with
  | None => Ok k
  | Some dnskey_multiquery =>
    let trusted_keys_rdata :=
      omap (λ zk : dname * rdata, if decide (zk.1 = name nd) then Some zk.2 else None)
        trusted_keys in
    (* buid a list of responsive servers *)
    servers_responsive ← servers_responsive_of self dnskey_multiquery;
    (* any errors point to their own servers_clients value *)
    r ← for_each (dnskey_status_step nd trusted_keys_rdata servers_responsive)
          (get_dnskeys nd) ([], [], k);
    let '(trusted_keys_existing, trusted_keys_not_self_signing, k) := r in
    if bool_decide (list_difference trusted_keys_existing
                      (key_of_dnskey <$> trusted_keys_not_self_signing) = [])
    then
      Ok (foldl (λ k dnskey,
                   add_error (key_of_dnskey dnskey) TrustAnchorNotSigning
                     (dnskey_servers_clients dnskey) k)
            k trusted_keys_not_self_signing)
    else Ok k
  end.

(** *** What [_populate_dnskey_status] reports

    [k] holds the fields before the call. *)
Section reported.
Context (nd : node) (trusted_keys : list (dname * rdata))
  (servers_responsive : list triple) (k : t).

(** The DNSKEY is a trust anchor of the node. *)
Definition trusted_key (d : DNSKEYMeta) : Prop :=
  (name nd, DNSKEY_rdata (dnskey_rdata d)) ∈ trusted_keys.

Definition in_set (field : option (list dnskey_key)) (d : DNSKEYMeta) : Prop :=
  ∃ l, field = Some l ∧ key_of_dnskey d ∈ l.

Definition not_in_set (field : option (list dnskey_key)) (d : DNSKEYMeta) : Prop :=
  ∃ l, field = Some l ∧ key_of_dnskey d ∉ l.

(** The responsive servers that did not return the DNSKEY, and the
    [servers_clients] made of them. *)
Definition missing_from (d : DNSKEYMeta) : list triple :=
  list_difference servers_responsive (triples (dnskey_servers_clients d)).

Definition missing_servers_clients (d : DNSKEYMeta) : provenance :=
  foldl (λ sc t, add_server_client t sc) [] (missing_from d).

(** The key signs something other than the DNSKEY RRset, or has a DS
    record, or is a trust anchor. *)
Definition signing_or_anchor (d : DNSKEYMeta) : Prop :=
  in_set (zsks k) d ∨ in_set (dnskey_with_ds k) d ∨ trusted_key d.

(** The errors and the warnings that the loop over the DNSKEYs
    attaches to a DNSKEY. *)
Definition loop_error (d : DNSKEYMeta) (e : dnskey_notice) (sc : provenance) : Prop :=
  (e = RevokedNotSigning ∧ sc = dnskey_servers_clients d
   ∧ in_set (revoked_keys k) d ∧ not_in_set (ksks k) d)
  ∨ (is_zone nd = false ∧ sc = dnskey_servers_clients d
     ∧ ∃ z, obj g (zone nd) = Some z ∧ e = DNSKEYNotAtZoneApex (name z) (name nd))
  ∨ (e = DNSKEYMissingFromServers ∧ missing_from d ≠ []
     ∧ sc = missing_servers_clients d ∧ signing_or_anchor d).

Definition loop_warning (d : DNSKEYMeta) (e : dnskey_notice) (sc : provenance) : Prop :=
  e = DNSKEYMissingFromServers ∧ missing_from d ≠ []
  ∧ sc = missing_servers_clients d ∧ ¬ signing_or_anchor d.

(** The state of the loop after the DNSKEYs [done_]. *)
Definition dnskey_loop_inv (done_ : list DNSKEYMeta) (acc : dnskey_status_acc) : Prop :=
  let '(trusted_keys_existing, trusted_keys_not_self_signing, k') := acc in
  (zsks k' = zsks k ∧ ksks k' = ksks k ∧ published_keys k' = published_keys k
   ∧ revoked_keys k' = revoked_keys k ∧ dnskey_with_ds k' = dnskey_with_ds k)
  ∧ (∀ key, key ∈ trusted_keys_existing
            ↔ ∃ d, d ∈ done_ ∧ key = key_of_dnskey d ∧ trusted_key d)
  ∧ (∀ d, d ∈ trusted_keys_not_self_signing
          ↔ d ∈ done_ ∧ trusted_key d ∧ not_in_set (ksks k) d)
  ∧ (∀ key e sc, (e, sc) ∈ errors_of key k'
                 ↔ (e, sc) ∈ errors_of key k
                   ∨ ∃ d, d ∈ done_ ∧ key = key_of_dnskey d ∧ loop_error d e sc)
  ∧ (∀ key e sc, (e, sc) ∈ warnings_of key k'
                 ↔ (e, sc) ∈ warnings_of key k
                   ∨ ∃ d, d ∈ done_ ∧ key = key_of_dnskey d ∧ loop_warning d e sc).
End reported.
End keys.
End keys.

(** ** What [_index_dnskeys] indexes *)

(** The RRsets of the answers to the DNSKEY query of the node that
    [_index_dnskeys] does not skip: DNSKEY RRsets at the name of the
    node. *)
Definition indexed_rrset (nd : node) (info : rrset_info) : Prop :=
  ∃ query_, alist_get (name nd, rdatatype.DNSKEY) (queries nd) = Some query_
            ∧ info ∈ answer_info query_
            ∧ rrset_name (ri.rrset info) = name nd
            ∧ rrset_rdtype (ri.rrset info) = rdatatype.DNSKEY.

(** [self._dnskeys] while the records [carried] have been indexed:
    one object per record, which lists the RRsets that carried the
    record. *)
Definition index_inv (nd : node) (carried : rrset_info → DNSKEY → Prop)
    (dnskeys_ : list (DNSKEY * DNSKEYMeta)) : Prop :=
  NoDup dnskeys_.*1
  ∧ ∀ k, match alist_get k dnskeys_ with
         | Some m =>
           dnskey_rdata m = k ∧ dnskey_name m = name nd
           ∧ ∀ i, i ∈ dnskey_rrset_info m ↔ carried i k
         | None => ∀ i, ¬ carried i k
         end.

(** ** Concrete analyses *)
Module examples.
(** A collector that resolves every name to the node itself and sees
    no referrals. *)
Definition collector : Collector := {|
  get_name := λ _ self _, Some self;
  get_bailiwick_mapping := λ _ _, ([], None);
  is_upward_referral := λ _ _, false;
  is_referral_proper := λ _ _ _ _, false;
|}.

Definition initial : state unit := State ∅ ∅ ∅ [].

Definition response1 : response := Response 1 false true.
Definition response2 : response := Response 2 false true.

Definition leaf (name_ : dname) (queries_ : list ((dname * rdtype) * query)) : node :=
  {| name := name_; analysis_type := ANALYSIS_TYPE_AUTHORITATIVE; stub := false;
   is_zone := true; referral_rdtype := rdatatype.NS; parent := None;
   dlv_parent := None; dlv_name := None; zone := Some 0;
   dnssec_algorithms_in_dnskey := ∅; dnssec_algorithms_in_ds := ∅;
   dnssec_algorithms_in_dlv := ∅; analysis_end := 0; cname_targets := [];
   mx_targets := []; external_signers := []; ns_dependencies := [];
   queries := queries_ |}.

(** The zone [example.] was asked for the A record of
    [nx.example.], which one server denied with NXDOMAIN; nothing
    was asked about [example.] itself. *)
Definition nx_info : neg_response_info :=
  NegativeResponseInfo 1 "nx.example." rdatatype.A
    [(("192.0.2.1", "192.0.2.100"), [response1])] [] [].

Definition nx_graph : graph :=
  [leaf "example."
     [(("nx.example.", rdatatype.A),
       Query "nx.example." rdatatype.A [] [] [nx_info] [])]].

(** [example.] answered its own SOA query. *)
Definition soa_info : rrset_info :=
  RRsetInfo 2 (RRset "example." rdatatype.SOA 3600 [Other_rdata "ns. admin. 1 2 3 4 5"])
    [(("192.0.2.1", "192.0.2.100"), [response2])] [] None [] [].

Definition soa_graph : graph :=
  [leaf "example."
     [(("example.", rdatatype.SOA),
       Query "example." rdatatype.SOA [soa_info] [] [] [])]].
(** Evaluators and leaf serializers that find nothing to report. *)
Definition evaluators : Evaluators unit := {|
  index_dnskeys := λ _ _, tt;
  assess_rrsig := λ _ _ _ _, inr tt;
  assess_nodata := λ _ _ _ _, inr tt;
  assess_nxdomain := λ _ _ _ _, inr tt;
  key_roles := λ _ _ _, tt;
  new_delegation := tt;
  assess_delegation := λ _ _ _ _ _, inr tt;
  assess_dlv := λ _ _ _ _ _, inr tt;
  assess_servers := λ _ _ _, inr tt;
  assess_dnskey := λ _ _ _ _, inr tt;
|}.

Definition serializer : Serializer unit := {|
  canonical_text := λ n, n;
  rdatatype_to_text := λ _, "TYPE";
  sort_query_keys := λ l, l;
  single_client := λ _ _, true;
  _serialize_query_status := λ _ _ _ _ _ _ _, inr (JObject []);
  _serialize_dnskey_status := λ _ _ _ _ _ _, inr (JList []);
  _serialize_delegation_status := λ _ _ _ _ _ _ _, inr (JObject []);
|}.

(** [a.example.] is an alias of [b.example.], which is an alias of
    [a.example.]. *)
Definition alias (name_ target : dname) (target_obj : node_id) : node :=
  {| name := name_; analysis_type := ANALYSIS_TYPE_AUTHORITATIVE; stub := false;
     is_zone := false; referral_rdtype := rdatatype.NS; parent := None;
     dlv_parent := None; dlv_name := None; zone := None;
     dnssec_algorithms_in_dnskey := ∅; dnssec_algorithms_in_ds := ∅;
     dnssec_algorithms_in_dlv := ∅; analysis_end := 0;
     cname_targets := [(name_, [(target, Some target_obj)])];
     mx_targets := []; external_signers := []; ns_dependencies := [];
     queries := [] |}.

Definition cname_loop : graph :=
  [alias "a.example." "b.example." 1; alias "b.example." "a.example." 0].

(** The software supports algorithm 8 and digest type 2; the caller
    supports algorithms 8 and 13 and digest types 2 and 4, in sets of
    its own at addresses 5 and 6. *)
Definition with_sets : state unit :=
  State ∅ {[ crypto_supported_algs := {[8%Z]};
             crypto_supported_digest_algs := {[2%Z]};
             5 := {[8%Z; 13%Z]};
             6 := {[2%Z; 4%Z]} ]} ∅ [].
(** Mail for [example.] goes to [mail.example.], whose own mail goes
    to [relay.example.]. *)
Definition mail (name_ : dname) (mx : list (dname * option node_id)) : node :=
  {| name := name_; analysis_type := ANALYSIS_TYPE_AUTHORITATIVE; stub := false;
     is_zone := false; referral_rdtype := rdatatype.NS; parent := None;
     dlv_parent := None; dlv_name := None; zone := None;
     dnssec_algorithms_in_dnskey := ∅; dnssec_algorithms_in_ds := ∅;
     dnssec_algorithms_in_dlv := ∅; analysis_end := 0; cname_targets := [];
     mx_targets := mx; external_signers := []; ns_dependencies := [];
     queries := [] |}.

Definition mx_chain : graph :=
  [mail "example." [("mail.example.", Some 1)];
   mail "mail.example." [("relay.example.", Some 2)];
   mail "relay.example." []].

(** A trust graph that indexes the SOA RRset of [example.] and finds
    it secure. *)
Definition trust : trust_graph := {|
  node_reverse_mapping := [(RRsetInfo_obj soa_info, "RRset-2")];
  status_for_node := λ _ _, RRSET_STATUS_SECURE;
  secure_dnskey_rrsets := ∅;
  is_invis := λ _, false;
  secure_nsec_nodes_covering_node := λ _, [];
  secure_nsec3_optout_nodes_covering_node := λ _, [];
|}.

(** Verdicts that accept every signature made with a DNSKEY and every
    proof with at least one NSEC record; the key tag of a DNSKEY is taken to be the sum of its flags
    and of the length of its key. *)
Definition validator : Validator := {|
  calc_key_tag := λ k, (flags k + Z.of_nat (String.length (key k)))%Z;
  calc_key_tag_no_revoke := λ k,
    (Z.land (flags k) (Z.lnot 128) + Z.of_nat (String.length (key k)))%Z;
  rrsig_verdict := λ _ _ d _ _ _,
    if d is Some _ then (Some true, RRSIG_STATUS_VALID)
    else (None, RRSIG_STATUS_INDETERMINATE_NO_DNSKEY);
  nsec_verdict := λ _ _ _ _ _ n,
    if nsec.rrsets n is [] then NSEC_STATUS_INVALID else NSEC_STATUS_VALID;
  ds_verdict := λ _ _ d _,
    if d is Some _ then (Some true, DS_STATUS_VALID)
    else (None, DS_STATUS_INDETERMINATE_NO_DNSKEY);
  _populate_response_errors := λ _ _ _ warnings errors, inr (warnings, errors);
  server_responsive_with_do := λ _ _ _ _ _, true;
|}.

(** [example.] publishes two DNSKEYs, of algorithms 8 and 13, with
    key tags 260 and 261; its A RRset carries one RRSIG of algorithm 8
    with key tag 260. *)
Definition zsk8 : DNSKEY := mkDNSKEY 256 3 8 "AwEA".
Definition zsk13 : DNSKEY := mkDNSKEY 256 3 13 "mdssw".

Definition dnskey_info : rrset_info :=
  RRsetInfo 3 (RRset "example." rdatatype.DNSKEY 3600 [DNSKEY_rdata zsk8; DNSKEY_rdata zsk13])
    [(("192.0.2.1", "192.0.2.100"), [response1])] [] None [] [].

Definition sig8 : rrsig := RRSIG "example." 8 260 0 100 "c2ln".

Definition a_info : rrset_info :=
  RRsetInfo 4 (RRset "example." rdatatype.A 3600 [Other_rdata "192.0.2.7"])
    [(("192.0.2.1", "192.0.2.100"), [response2])]
    [(sig8, [(("192.0.2.1", "192.0.2.100"), [response2])])] None [] [].

Definition a_query : query := Query "example." rdatatype.A [a_info] [] [] [].

Definition signed_zone : node :=
  {| name := "example."; analysis_type := ANALYSIS_TYPE_AUTHORITATIVE; stub := false;
     is_zone := true; referral_rdtype := rdatatype.NS; parent := None;
     dlv_parent := None; dlv_name := None; zone := Some 0;
     dnssec_algorithms_in_dnskey := {[8%Z; 13%Z]}; dnssec_algorithms_in_ds := ∅;
     dnssec_algorithms_in_dlv := ∅; analysis_end := 50; cname_targets := [];
     mx_targets := []; external_signers := []; ns_dependencies := [];
     queries := [(("example.", rdatatype.DNSKEY),
                  Query "example." rdatatype.DNSKEY [dnskey_info] [] [] []);
                 (("example.", rdatatype.A), a_query)] |}.

Definition signed_graph : graph := [signed_zone].

(** The A RRset of [w.example.] was synthesized from the wildcard
    [*.example.]. *)
Definition wildcard_a_info : rrset_info :=
  RRsetInfo 5 (RRset "w.example." rdatatype.A 3600 [Other_rdata "192.0.2.8"])
    [(("192.0.2.1", "192.0.2.100"), [response2])] [] None []
    [("*.example.",
      NegativeResponseInfo 6 "w.example." rdatatype.A
        [(("192.0.2.1", "192.0.2.100"), [response2])] [] [])].

(** [www.example.] is an alias of [nx.example.], which does not
    exist: the query for the A record of [www.example.] was answered
    with an NXDOMAIN response for [nx.example.], whose NSEC set holds
    no record.  [nx_query] is the query for [nx.example.] itself with
    the same response. *)
Definition empty_nsec_set : nsec_set :=
  NSECSet 7 false [] [(("192.0.2.1", "192.0.2.100"), [response1])].

Definition nx_target_info : neg_response_info :=
  NegativeResponseInfo 8 "nx.example." rdatatype.A
    [(("192.0.2.1", "192.0.2.100"), [response1])] [] [empty_nsec_set].

Definition www_query : query := Query "www.example." rdatatype.A [] [] [nx_target_info] [].
Definition nx_query : query := Query "nx.example." rdatatype.A [] [] [nx_target_info] [].

(** The server denied [nx.example.] in two responses.  An NSEC set
    without records came with both; an NSEC set with an NSEC record
    came with response 1 only. *)
Definition nsec_rrset_info : rrset_info :=
  RRsetInfo 20 (RRset "example." rdatatype.NSEC 3600 [Other_rdata "z.example. A NSEC"])
    [(("192.0.2.1", "192.0.2.100"), [response1])] [] None [] [].

Definition bare_nsec_set : nsec_set :=
  NSECSet 21 false [] [(("192.0.2.1", "192.0.2.100"), [response1; response2])].

Definition covering_nsec_set : nsec_set :=
  NSECSet 22 false [("example.", nsec_rrset_info)]
    [(("192.0.2.1", "192.0.2.100"), [response1])].

Definition nx_two_sets_info : neg_response_info :=
  NegativeResponseInfo 23 "nx.example." rdatatype.A
    [(("192.0.2.1", "192.0.2.100"), [response1; response2])] []
    [bare_nsec_set; covering_nsec_set].

Definition nx_two_sets_query : query :=
  Query "nx.example." rdatatype.A [] [] [nx_two_sets_info] [].

(** One server answered the A query for [example.] (response 2) and
    denied the name in its response to the AAAA query (response 1). *)
Definition own_a_info : rrset_info :=
  RRsetInfo 10 (RRset "example." rdatatype.A 3600 [Other_rdata "192.0.2.9"])
    [(("192.0.2.1", "192.0.2.100"), [response2])] [] None [] [].

Definition own_nx_info : neg_response_info :=
  NegativeResponseInfo 11 "example." rdatatype.AAAA
    [(("192.0.2.1", "192.0.2.100"), [response1])] [] [].

Definition inconsistent_zone : node :=
  leaf "example."
    [(("example.", rdatatype.A), Query "example." rdatatype.A [own_a_info] [] [] []);
     (("example.", rdatatype.AAAA),
      Query "example." rdatatype.AAAA [] [] [own_nx_info] [])].

(** The evaluator after the RRSIG validator has found nothing to
    report for the A RRset. *)
Definition before_nxdomain : negative_t :=
  mkNegative (ev.mk {[10 := []]} {[10 := []]} {[10 := []]} ∅ ∅ [] [])
    (Some ∅) (Some ∅) (Some ∅) None None None [].

(** Every response is valid and complete and none is a referral; one
    server is authoritative for every name. *)
Definition servers : Servers := {|
  is_valid_complete_response := λ _, true;
  is_referral := λ _ _ _ _, false;
  get_auth_or_designated_servers := λ _ _, ["192.0.2.1"];
  get_responsive_auth_or_designated_servers := λ _ _, ["192.0.2.1"];
  get_valid_auth_or_designated_servers := λ _ _, ["192.0.2.1"];
  _auth_servers_clients := λ _ _, [("192.0.2.1", "192.0.2.100")];
  parent_name := λ _ _, ".";
|}.

(** The fields of the delegation before [_populate_delegation_status]
    has run. *)
Definition no_delegation : ds.t := ds.mk None None None None None None [].
End examples.

(** ** Further concrete analyses *)
Module samples.
(** Response 1 came over UDP with EDNS and the DO flag; response 2 came
    over TCP without EDNS.  Both are valid. *)
Definition attributes : ResponseAttributes := {|
  effective_tcp := λ r, bool_decide (resp_id r = 2);
  tcp_responsive := λ _, true;
  udp_responsive := λ _, true;
  effective_edns := λ r, if decide (resp_id r = 2) then (-1)%Z else 0%Z;
  effective_edns_flags := λ r, if decide (resp_id r = 2) then 0%Z else DO;
  is_valid_response := λ _, true;
  msg_size := λ _, 512%Z;
  message_rcode := λ _, 0%Z;
  history_actions := λ _, [];
|}.

(** [example.] asked one server for its SOA record, from one client. *)
Definition queried : node :=
  examples.leaf "example."
    [(("example.", rdatatype.SOA),
      Query "example." rdatatype.SOA [examples.soa_info] [] []
        [Query1 [("192.0.2.1", [("192.0.2.100", examples.response1)])]])].

(** A base class that leaves the fields alone; the serial of a SOA
    record is taken to be the length of its text. *)
Definition online : collect.Online := {|
  collect.soa_of := λ d,
    if d is Other_rdata text
    then Some (mkSOA (Z.of_nat (String.length text)) "admin.example." "ns.example.")
    else None;
  collect.super_process_response_answer_rrset := λ c _ _ _, c;
|}.

(** [example.] as the collection of its responses starts. *)
Definition collecting : collect.t :=
  collect.mk (examples.leaf "example." []) false None None None ∅ ∅.

Definition soa_rrset_old : rrset :=
  RRset "example." rdatatype.SOA 3600 [Other_rdata "ns. admin. 1 2 3 4 5"].
Definition soa_rrset_new : rrset :=
  RRset "example." rdatatype.SOA 3600 [Other_rdata "ns. admin. 10 2 3 4 5"].

Definition ds_rrset : rrset :=
  RRset "example." rdatatype.DS 3600 [DS_rdata (mkDS 260 8 2 "c2hh")].

(** Two servers answered the DNSKEY query of [example.]; the DNSKEY
    RRset came with the response of the first one only. *)
Definition keyed_zone : node :=
  examples.leaf "example."
    [(("example.", rdatatype.DNSKEY),
      Query "example." rdatatype.DNSKEY [examples.dnskey_info] [] []
        [Query1 [("192.0.2.1", [("192.0.2.100", examples.response1)]);
                 ("192.0.2.2", [("192.0.2.100", examples.response2)])]])].

(** The same answers for a name that is not a zone. *)
Definition keyed_name_with_query : node :=
  collect.with_algorithms ∅ ∅ ∅
    {| name := "example."; analysis_type := ANALYSIS_TYPE_AUTHORITATIVE; stub := false;
       is_zone := false; referral_rdtype := rdatatype.NS; parent := None;
       dlv_parent := None; dlv_name := None; zone := Some 0;
       dnssec_algorithms_in_dnskey := ∅; dnssec_algorithms_in_ds := ∅;
       dnssec_algorithms_in_dlv := ∅; analysis_end := 0; cname_targets := [];
       mx_targets := []; external_signers := []; ns_dependencies := [];
       queries := queries keyed_zone |}.

(** Every server that responded gave a valid and complete response. *)
Definition query_attributes : QueryAttributes := {|
  servers_with_valid_complete_response := λ query1_ _ _,
    sr ← responses query1_; (λ cr : client * response, (sr.1, cr.1)) <$> sr.2;
  error_info := λ _, [];
|}.

(** The key of algorithm 8 signs the zone data, the key of algorithm
    13 signs the DNSKEY RRset. *)
Definition key8 : dnskey_key := ("example.", examples.zsk8).
Definition key13 : dnskey_key := ("example.", examples.zsk13).

Definition roles : keys.t :=
  keys.mk (Some [key8]) (Some [key13]) None None (Some []) [] [].

(** The fields that [__init__] leaves. *)
Definition no_roles : keys.t := keys.mk None None None None None [] [].

(** The DNSKEYMeta object of the key of algorithm 8. *)
Definition meta8 : DNSKEYMeta :=
  default (mkDNSKEYMeta 0 "" examples.zsk8 0 0 0 [] [])
    (head (@get_dnskeys examples.validator keyed_zone)).
End samples.

(** * Properties *)

(** ** The [result] monad and loops *)

Lemma bind_Ok {A B} (m : result A) (k : A → result B) (b : B) :
  m ≫= k = Ok b ↔ ∃ a, m = Ok a ∧ k a = Ok b.
Proof.
  destruct m; simpl; split; try (intros (? & [=] & ?)); try discriminate; eauto.
  by subst.
Qed.

Lemma bind_fuel {A B} (m : result A) (k : A → result B) :
  m ≠ OutOfFuel → (∀ a, k a ≠ OutOfFuel) → m ≫= k ≠ OutOfFuel.
Proof. destruct m; simpl; eauto. Qed.

(** A loop invariant for [for_each]. *)
Lemma for_each_inv {A S} (I : S → Prop) (body : S → A → result S) l s s' :
  (∀ s x s', x ∈ l → I s → body s x = Ok s' → I s') →
  I s → for_each body l s = Ok s' → I s'.
Proof.
  revert s. induction l as [|x l IH]; simpl; intros s Hbody Hs Hrun.
  - by injection Hrun as <-.
  - apply bind_Ok in Hrun as (s1 & H1 & H2).
    apply (IH s1); [|by eapply Hbody; [left|..]|done].
    intros ???? ; apply Hbody. by right.
Qed.

Lemma for_each_fuel {A S} (body : S → A → result S) l s :
  (∀ s x, x ∈ l → body s x ≠ OutOfFuel) → for_each body l s ≠ OutOfFuel.
Proof.
  revert s. induction l as [|x l IH]; simpl; intros s Hbody; [done|].
  apply bind_fuel; [apply Hbody; by left|].
  intros s1. apply IH. intros ???. apply Hbody. by right.
Qed.

(** ** Reading and writing result fields *)
Section state_lemmas.
Context {P : Type}.
Implicit Types (s : state P) (n m : node_id).

Lemma fields_set_fields_eq n f s : fields (set_fields n f s) n = f (fields s n).
Proof. unfold fields at 1, set_fields; simpl. by rewrite lookup_insert_eq. Qed.

Lemma fields_set_fields_ne n m f s :
  n ≠ m → fields (set_fields n f s) m = fields s m.
Proof. intros. unfold fields, set_fields; simpl. by rewrite lookup_insert_ne. Qed.

Lemma fields_set_fields n m f s :
  fields (set_fields n f s) m = if decide (n = m) then f (fields s n) else fields s m.
Proof.
  case_decide; subst; auto using fields_set_fields_eq, fields_set_fields_ne.
Qed.

Lemma st_sets_set_fields n f s : st_sets (set_fields n f s) = st_sets s.
Proof. done. Qed.

Lemma st_log_set_fields n f s : st_log (set_fields n f s) = st_log s.
Proof. done. Qed.
End state_lemmas.

(** What one iteration establishes and the others keep holds after
    the loop. *)
Lemma for_each_establish {A S} (I : S → Prop) (body : S → A → result S) l x s s' :
  x ∈ l →
  (∀ s s', body s x = Ok s' → I s') →
  (∀ s y s', y ∈ l → I s → body s y = Ok s' → I s') →
  for_each body l s = Ok s' → I s'.
Proof.
  revert s. induction l as [|y l IH]; intros s Hx Hest Hkeep Hrun.
  - by apply not_elem_of_nil in Hx.
  - simpl in Hrun. apply bind_Ok in Hrun as (s1 & H1 & H2).
    apply elem_of_cons in Hx as [->|Hx].
    + apply (for_each_inv I) in H2; [done| |by eapply Hest].
      intros ???? ; apply Hkeep. by right.
    + apply (IH s1); [done|done| |done].
      intros ???? ; apply Hkeep. by right.
Qed.

Lemma for_each_Ok {A S} (body : S → A → result S) l s :
  (∀ s x, x ∈ l → ∃ s', body s x = Ok s') → ∃ s', for_each body l s = Ok s'.
Proof.
  revert s. induction l as [|x l IH]; intros s Hbody; simpl; [eauto|].
  destruct (Hbody s x) as [s1 ->]; [by left|]. simpl.
  apply IH. intros ???. apply Hbody. by right.
Qed.

Lemma bind_assoc {A B C} (m : result A) (f : A → result B) (h : B → result C) :
  (m ≫= f) ≫= h = m ≫= (λ a, f a ≫= h).
Proof. by destruct m. Qed.

Lemma bind_ext {A B} (m : result A) (f h : A → result B) :
  (∀ a, f a = h a) → m ≫= f = m ≫= h.
Proof. intros Hfh. destruct m; simpl; auto. Qed.

Lemma bind_ret {A} (m : result A) : m ≫= Ok = m.
Proof. by destruct m. Qed.

Lemma for_each_app {A S} (body : S → A → result S) l1 l2 s :
  for_each body (l1 ++ l2) s = for_each body l1 s ≫= for_each body l2.
Proof.
  revert s. induction l1 as [|x l1 IH]; intros s; simpl; [done|].
  rewrite bind_assoc. apply bind_ext. intros s1. apply IH.
Qed.

Lemma for_each_ext {A S} (body body' : S → A → result S) l s :
  (∀ s x, x ∈ l → body s x = body' s x) → for_each body l s = for_each body' l s.
Proof.
  revert s. induction l as [|x l IH]; intros s Hb; simpl; [done|].
  rewrite Hb by left. apply bind_ext. intros s1. apply IH.
  intros ???. apply Hb. by right.
Qed.

Lemma for_each_skip {A S} (body : S → A → result S) l s :
  (∀ s x, x ∈ l → body s x = Ok s) → for_each body l s = Ok s.
Proof.
  revert s. induction l as [|x l IH]; intros s Hb; simpl; [done|].
  rewrite Hb by left. simpl. apply IH. intros ???. apply Hb. by right.
Qed.

(** A loop over the objects that are not [None]. *)
Lemma for_each_omap {A B S} (body : S → B → result S) (f : A → option B) l s :
  for_each body (omap f l) s
  = for_each (λ s x, match f x with Some y => body s y | None => Ok s end) l s.
Proof.
  revert s. induction l as [|x l IH]; intros s; simpl; [done|].
  destruct (f x); simpl; [|apply IH]. apply bind_ext. intros s1. apply IH.
Qed.

Lemma bind_cong {A B} (m m' : result A) (f h : A → result B) :
  m = m' → (∀ a, f a = h a) → m ≫= f = m' ≫= h.
Proof. intros <-. apply bind_ext. Qed.

(** ** Name status *)
Section name_status_lemmas.
Context `{Collector} {P : Type} (g : graph).
Implicit Types (s : state P) (self m : node_id).

(** Once [yxdomain] is a set it stays one: the evaluator never
    assigns [None]. *)
Lemma name_status_keeps_yxdomain fuel self trace s s' m :
  _populate_name_status_fuel g fuel self trace s = Ok s' →
  is_Some (yxdomain (fields s m)) → is_Some (yxdomain (fields s' m)).
Proof.
  revert self trace s s'.
  induction fuel as [|fuel IH]; intros self trace s s'; simpl; [done|].
  case_decide; [by intros [= <-]|].
  destruct (g !! self) as [nd|]; [|by intros [= <-]].
  intros Hrun Hm.
  apply bind_Ok in Hrun as ([[yxd yxr] nxr] & _ & Hrun).
  apply bind_Ok in Hrun as (s2 & Hloop & [= <-]).
  assert (is_Some (yxdomain (fields s2 m))) as Hs2.
  { eapply (for_each_inv (λ s, is_Some (yxdomain (fields s m)))) in Hloop; [done| |].
    - intros s1 [[cname target] [c|]] s1' _ Hs1; unfold name_status_cname;
      [|by intros [= <-]].
      case_decide; [by intros [= <-]|]. intros Hb.
      apply bind_Ok in Hb as (s3 & Hrec & Hb).
      assert (is_Some (yxdomain (fields s3 m))) as Hs3.
      { destruct (yxrrset (fields s1 c)); [by injection Hrec as <-|by eapply IH]. }
      destruct (yxrrset (fields s3 c)); [|done]. injection Hb as <-.
      rewrite fields_set_fields. by case_decide; subst.
    - rewrite !fields_set_fields. repeat case_decide; subst; simpl; eauto. }
  rewrite fields_set_fields. by case_decide; subst.
Qed.

(** [_populate_name_status] ends by assigning the status computed
    by [final_name_status] from the node's [yxdomain]. *)
Lemma name_status_final fuel self nd trace s s' :
  g !! self = Some nd → self ∉ trace →
  _populate_name_status_fuel g fuel self trace s = Ok s' →
  ∃ yxd, yxdomain (fields s' self) = Some yxd
       ∧ status (fields s' self) = Some (final_name_status nd yxd).
Proof.
  intros Hnd Htrace. destruct fuel as [|fuel]; simpl; [done|].
  rewrite decide_False by done. rewrite Hnd. intros Hrun.
  apply bind_Ok in Hrun as ([[yxd yxr] nxr] & _ & Hrun).
  apply bind_Ok in Hrun as (s2 & Hloop & [= <-]).
  rewrite fields_set_fields_eq; simpl.
  eapply (for_each_inv (λ s, is_Some (yxdomain (fields s self)))) in Hloop as [y Hy].
  - exists y. by rewrite Hy.
  - intros s1 [[cname target] [c|]] s1' _ Hs1; unfold name_status_cname;
      [|by intros [= <-]].
    case_decide; [by intros [= <-]|]. intros Hb.
    apply bind_Ok in Hb as (s3 & Hrec & Hb).
    assert (is_Some (yxdomain (fields s3 self))) as Hs3.
    { destruct (yxrrset (fields s1 c)); [by injection Hrec as <-|].
      by eapply name_status_keeps_yxdomain. }
    destruct (yxrrset (fields s3 c)); [|done]. injection Hb as <-.
    by rewrite fields_set_fields_eq.
  - rewrite !fields_set_fields_eq; simpl; eauto.
Qed.
End name_status_lemmas.

Section name_status_theorems.
Context `{Collector} {P : Type} (g : graph).
Implicit Types (s : state P) (self : node_id).

Lemma nxdomain_for_qname_spec (nd : node) :
  nxdomain_for_qname nd = true ↔
  ∃ qname rdtype_ query_ x,
    ((qname, rdtype_), query_) ∈ queries nd ∧ rdtype_ ≠ rdatatype.DS
    ∧ x ∈ nxdomain_info query_ ∧ neg.qname x = qname.
Proof.
  unfold nxdomain_for_qname. rewrite existsb_exists. split.
  - intros ([[qname rdtype_] query_] & Hin & Hb).
    apply andb_true_iff in Hb as [Hds Hne].
    apply bool_decide_eq_true in Hds, Hne.
    destruct (filter _ _) as [|x l] eqn:Hf; [done|].
    assert (x ∈ filter (λ x, neg.qname x = qname) (nxdomain_info query_)) as Hx
      by (rewrite Hf; left).
    apply list_elem_of_filter in Hx as [??].
    exists qname, rdtype_, query_, x. by rewrite list_elem_of_In.
  - intros (qname & rdtype_ & query_ & x & Hin & Hds & Hx & Hq).
    exists ((qname, rdtype_), query_). split; [by apply list_elem_of_In|].
    apply andb_true_iff. split; apply bool_decide_eq_true; [done|].
    intros Hf.
    assert (x ∈ filter (λ x, neg.qname x = qname) (nxdomain_info query_)) as Hx'
      by (by apply list_elem_of_filter).
    rewrite Hf in Hx'. by apply not_elem_of_nil in Hx'.
Qed.

(** C1 (as the code has it).  After [_populate_name_status] has run on
    a node, its status is NOERROR if its own name is in its
    [yxdomain]; otherwise NXDOMAIN if some query whose rdtype is not
    DS has an NXDOMAIN response whose qname is the name that query
    asked for; otherwise INDETERMINATE. *)
Theorem name_status_after_populate self nd s s' :
  g !! self = Some nd →
  _populate_name_status g self [] s = Ok s' →
  ∃ yxd,
    yxdomain (fields s' self) = Some yxd ∧
    let nx := ∃ qname rdtype_ query_ x,
                ((qname, rdtype_), query_) ∈ queries nd ∧ rdtype_ ≠ rdatatype.DS
                ∧ x ∈ nxdomain_info query_ ∧ neg.qname x = qname in
    (name nd ∈ yxd → status (fields s' self) = Some NAME_STATUS_NOERROR) ∧
    (name nd ∉ yxd → nx → status (fields s' self) = Some NAME_STATUS_NXDOMAIN) ∧
    (name nd ∉ yxd → ¬ nx → status (fields s' self) = Some NAME_STATUS_INDETERMINATE).
Proof.
  intros Hnd Hrun.
  apply (name_status_final g _ _ nd) in Hrun as (yxd & Hyx & Hst);
    [|done|by apply not_elem_of_nil].
  exists yxd. split; [done|]. simpl. rewrite Hst. unfold final_name_status.
  pose proof (nxdomain_for_qname_spec nd) as Hnx.
  repeat split.
  - intros Hin. by rewrite bool_decide_eq_true_2.
  - intros Hin Hq. rewrite bool_decide_eq_false_2 by done. simpl.
    apply Hnx in Hq. by rewrite Hq.
  - intros Hin Hq. rewrite bool_decide_eq_false_2 by done. simpl.
    destruct (nxdomain_for_qname nd); [|done]. destruct Hq. by apply Hnx.
Qed.
End name_status_theorems.

(** The status of [example.] after its SOA query was answered. *)
Lemma name_status_after_populate_soa :
  let run := @_populate_name_status examples.collector unit examples.soa_graph 0 []
               examples.initial in
  ∃ s', run = Ok s' ∧ status (fields s' 0) = Some NAME_STATUS_NOERROR.
Proof.
  set (s' := match @_populate_name_status examples.collector unit examples.soa_graph 0 []
                     examples.initial with Ok s => s | _ => examples.initial end).
  exists s'. split; [by vm_compute|].
  destruct (@name_status_after_populate examples.collector unit examples.soa_graph 0
              (examples.leaf "example."
                 [(("example.", rdatatype.SOA),
                   Query "example." rdatatype.SOA [examples.soa_info] [] [] [])])
              examples.initial s' eq_refl)
    as (yxd & Hyx & Hyes & _); [by vm_compute|].
  apply Hyes.
  assert (Some yxd = Some {["example."]}) as [= ->] by (rewrite <-Hyx; by vm_compute).
  by apply elem_of_singleton.
Defined.

(** C1 (as specified) fails: [example.] is found NXDOMAIN because of an
    NXDOMAIN response about [nx.example.], not about its own name. *)
Lemma name_status_by_own_name_fails :
  ¬ ∀ (C : Collector) (g : graph) (self : node_id) (nd : node) (s s' : state unit),
      g !! self = Some nd → stub nd = false →
      _populate_name_status g self [] s = Ok s' →
      ∃ yxd, yxdomain (fields s' self) = Some yxd
           ∧ status (fields s' self) = Some (name_status_by_own_name nd yxd).
Proof.
  intros Hclaim.
  set (s' := match @_populate_name_status examples.collector unit examples.nx_graph 0 []
                     examples.initial with Ok s => s | _ => examples.initial end).
  destruct (Hclaim examples.collector examples.nx_graph 0 _ examples.initial s'
              eq_refl eq_refl) as (yxd & Hyx & Hst); [by vm_compute|].
  assert (Some yxd = Some ∅) as [= ->] by (rewrite <-Hyx; by vm_compute).
  revert Hst. by vm_compute.
Qed.

(** ** Termination of the traversals *)

Lemma filter_length_lt {A} (Q R : A → Prop) `{∀ x, Decision (Q x)} `{∀ x, Decision (R x)}
    (l : list A) (x : A) :
  (∀ y, R y → Q y) → x ∈ l → Q x → ¬ R x →
  length (filter R l) < length (filter Q l).
Proof.
  intros HRQ Hx HQ HR.
  assert (∀ l', length (filter R l') ≤ length (filter Q l')) as Hle.
  { induction l' as [|y l' IH]; simpl; [done|].
    rewrite !filter_cons. repeat case_decide; simpl; try lia.
    exfalso; eauto. }
  induction l as [|y l IH]; [by apply not_elem_of_nil in Hx|].
  rewrite !filter_cons.
  apply elem_of_cons in Hx as [<-|Hx].
  - specialize (Hle l). repeat case_decide; simpl; try done; lia.
  - specialize (IH Hx). repeat case_decide; simpl; try lia. exfalso; eauto.
Qed.

Lemma unvisited_le g trace : unvisited g trace ≤ length g.
Proof.
  unfold unvisited. etrans; [apply length_filter|]. by rewrite length_seq.
Qed.

Lemma unvisited_extend g trace self nd :
  g !! self = Some nd → self ∉ trace →
  unvisited g (trace ++ [self]) < unvisited g trace.
Proof.
  intros Hnd Hself. unfold unvisited.
  apply (filter_length_lt _ _ _ self).
  - intros y Hy Hin. apply Hy. apply elem_of_app. by left.
  - apply elem_of_seq. apply lookup_lt_Some in Hnd. lia.
  - done.
  - intros Hn. apply Hn. apply elem_of_app. right. by left.
Qed.

(** Goals of the form [_ ≠ OutOfFuel] for code without recursion. *)
Ltac fuel_step :=
  lazymatch goal with
  | |- Ok _ ≠ OutOfFuel => discriminate
  | |- Raise _ ≠ OutOfFuel => discriminate
  | |- of_sum ?x ≠ OutOfFuel => by destruct x
  | |- deref ?x ≠ OutOfFuel => by destruct x
  | |- mbind _ _ ≠ OutOfFuel => apply bind_fuel; [|intros ?]
  | |- for_each _ _ _ ≠ OutOfFuel => apply for_each_fuel; intros ? ? ?
  | |- when_present ?r _ _ ≠ OutOfFuel => destruct r; simpl
  | |- (match ?x with _ => _ end) ≠ OutOfFuel => destruct x
  end.

Section termination.
Context `{Collector} {P : Type} `{Evaluators P} (g : graph).
Implicit Types (s : state P) (self : node_id).

Lemma zone_name_fuel o : zone_name g o ≠ OutOfFuel.
Proof. unfold zone_name. repeat fuel_step. Qed.

Lemma name_status_query_fuel self nd acc item :
  name_status_query g self nd acc item ≠ OutOfFuel.
Proof.
  unfold name_status_query, name_status_qname_obj, name_status_answer,
    name_status_nodata.
  destruct item as [[qname rdtype_] query_].
  repeat first [apply zone_name_fuel | fuel_step].
Qed.

Lemma name_status_terminates fuel self trace s :
  unvisited g trace < fuel →
  _populate_name_status_fuel g fuel self trace s ≠ OutOfFuel.
Proof.
  revert self trace s. induction fuel as [|fuel IH]; intros self trace s Hfuel; [lia|].
  simpl. case_decide; [done|].
  destruct (g !! self) as [nd|] eqn:Hnd; [|done].
  pose proof (unvisited_extend g trace self nd Hnd ltac:(done)).
  apply bind_fuel; [apply for_each_fuel; intros; apply name_status_query_fuel|].
  intros [[yxd yxr] nxr].
  apply bind_fuel; [|done].
  apply for_each_fuel. intros s1 [[cname target] [c|]] _; unfold name_status_cname; [|done].
  case_decide; [done|].
  apply bind_fuel; [destruct (yxrrset _); [done|apply IH; lia]|].
  intros s2. by destruct (yxrrset _).
Qed.

Lemma _populate_name_status_terminates self trace s :
  _populate_name_status g self trace s ≠ OutOfFuel.
Proof.
  apply name_status_terminates. pose proof (unvisited_le g trace). lia.
Qed.

Lemma populate_status_fuel_terminates fuel self tk algs dalgs is_dlv trace follow_mx s :
  unvisited g trace < fuel →
  populate_status_fuel g fuel self tk algs dalgs is_dlv trace follow_mx s ≠ OutOfFuel.
Proof.
  revert self algs dalgs is_dlv trace follow_mx s.
  induction fuel as [|fuel IH]; intros self algs dalgs is_dlv trace follow_mx s Hfuel;
    [lia|].
  simpl. destruct (g !! self) as [nd|] eqn:Hnd; [|done].
  case_decide as Htrace; [apply _populate_name_status_terminates|].
  destruct (rrsig_status _); [done|]. destruct (stub nd); [done|].
  pose proof (unvisited_extend g trace self nd Hnd Htrace).
  assert (∀ c a d i f s, populate_status_fuel g fuel c tk a d i (trace ++ [self]) f s
                         ≠ OutOfFuel) as Hrec by (intros; apply IH; lia).
  destruct (choose_supported _ _ s) as [a s1].
  destruct (choose_supported _ _ s1) as [d s2].
  unfold evaluate_node.
  repeat first
    [ apply Hrec | apply _populate_name_status_terminates
    | progress unfold _populate_rrsig_status_all, _populate_nodata_status,
        _populate_nxdomain_status, _populate_delegation_status,
        _populate_ds_status_ds, _populate_ds_status_dlv, _populate_dnskey_status
    | fuel_step ].
Qed.
End termination.

(** ** The traversal of [populate_status] *)
Section name_frame.
Context `{Collector} {P : Type} (g : graph).
Implicit Types (s : state P) (self : node_id).

Lemma name_frame_refl s : name_frame s s.
Proof. by do 3 (split; [done|]). Qed.

Lemma name_frame_trans s1 s2 s3 : name_frame s1 s2 → name_frame s2 s3 → name_frame s1 s3.
Proof.
  intros (?&?&?&?) (?&?&?&?). do 3 (split; [congruence|]).
  intros m. etrans; eauto.
Qed.

Lemma name_frame_set_fields n (f : results P → results P) s :
  (∀ r, evaluation (f r) = evaluation r) → name_frame s (set_fields n f s).
Proof.
  intros Hf. do 3 (split; [done|]). intros m. rewrite fields_set_fields.
  by case_decide; subst.
Qed.

Lemma name_status_fuel_frame fuel self trace s s' :
  _populate_name_status_fuel g fuel self trace s = Ok s' → name_frame s s'.
Proof.
  revert self trace s s'.
  induction fuel as [|fuel IH]; intros self trace s s'; simpl; [done|].
  case_decide; [intros [= <-]; apply name_frame_refl|].
  destruct (g !! self) as [nd|]; [|intros [= <-]; apply name_frame_refl].
  intros Hrun.
  apply bind_Ok in Hrun as ([[yxd yxr] nxr] & _ & Hrun).
  apply bind_Ok in Hrun as (s2 & Hloop & [= <-]).
  eapply name_frame_trans; [|by apply name_frame_set_fields].
  eapply (for_each_inv (name_frame s)) in Hloop; [done| |].
  - intros s1 [[cname target] [c|]] s1' _ Hs1; unfold name_status_cname;
      [|by intros [= <-]].
    case_decide; [by intros [= <-]|]. intros Hb.
    apply bind_Ok in Hb as (s3 & Hrec & Hb).
    assert (name_frame s s3) as Hs3.
    { destruct (yxrrset (fields s1 c)); [by injection Hrec as <-|].
      eapply name_frame_trans; [done|by eapply IH]. }
    destruct (yxrrset (fields s3 c)); [|done]. injection Hb as <-.
    eapply name_frame_trans; [done|by apply name_frame_set_fields].
  - eapply name_frame_trans; by apply name_frame_set_fields.
Qed.

Lemma _populate_name_status_frame self trace s s' :
  _populate_name_status g self trace s = Ok s' → name_frame s s'.
Proof. apply name_status_fuel_frame. Qed.
End name_frame.

(** The evaluators that follow [_populate_rrsig_status_all] assign other
    fields. *)
Ltac evaluator_step H :=
  apply bind_Ok in H as (? & _ & [= <-]);
  unfold log; rewrite fields_set_fields; case_decide; subst; simpl; done.

Section evaluator_steps.
Context {P : Type} `{Evaluators P} (g : graph).
Implicit Types (s : state P) (self m : node_id).

Lemma rrsig_status_all_populates self a s s' :
  _populate_rrsig_status_all g self a s = Ok s' →
  is_Some (rrsig_status (fields s' self)).
Proof.
  intros Hrun. apply bind_Ok in Hrun as (v & _ & [= <-]).
  rewrite fields_set_fields_eq. simpl. eauto.
Qed.

Lemma nodata_status_keeps self a s s' m :
  _populate_nodata_status g self a s = Ok s' →
  rrsig_status (fields s' m) = rrsig_status (fields s m).
Proof. intros Hrun. evaluator_step Hrun. Qed.

Lemma nxdomain_status_keeps self a s s' m :
  _populate_nxdomain_status g self a s = Ok s' →
  rrsig_status (fields s' m) = rrsig_status (fields s m).
Proof. intros Hrun. evaluator_step Hrun. Qed.

Lemma finalize_key_roles_keeps self nd s m :
  rrsig_status (fields (_finalize_key_roles g self nd s) m) = rrsig_status (fields s m).
Proof.
  unfold _finalize_key_roles. destruct (is_zone nd); [|done].
  rewrite fields_set_fields. by case_decide; subst.
Qed.

Lemma ds_status_ds_keeps self nd a d s s' m :
  _populate_ds_status_ds g self nd a d s = Ok s' →
  rrsig_status (fields s' m) = rrsig_status (fields s m).
Proof.
  unfold _populate_ds_status_ds. destruct (parent nd); [|by intros [= <-]].
  intros Hrun. evaluator_step Hrun.
Qed.

Lemma ds_status_dlv_keeps self nd a d s s' m :
  _populate_ds_status_dlv g self nd a d s = Ok s' →
  rrsig_status (fields s' m) = rrsig_status (fields s m).
Proof.
  unfold _populate_ds_status_dlv. destruct (parent nd); [|by intros [= <-]].
  destruct (dlv_name nd); [|done]. intros Hrun. evaluator_step Hrun.
Qed.

Lemma delegation_status_keeps self nd a d s s' m :
  _populate_delegation_status g self nd a d s = Ok s' →
  rrsig_status (fields s' m) = rrsig_status (fields s m).
Proof.
  unfold _populate_delegation_status. intros Hrun.
  apply bind_Ok in Hrun as (s1 & H1%(ds_status_ds_keeps _ _ _ _ _ _ m) & Hrun).
  apply bind_Ok in Hrun as (s2 & H2 & Hrun).
  assert (rrsig_status (fields s2 m) = rrsig_status (fields s1 m)) as H2'
    by (destruct (dlv_parent nd); [by eapply ds_status_dlv_keeps|by injection H2 as <-]).
  apply bind_Ok in Hrun as (v & _ & [= <-]).
  rewrite fields_set_fields. case_decide; subst; simpl; rewrite H2', H1.
  all: rewrite fields_set_fields; by case_decide; subst.
Qed.

Lemma dnskey_status_keeps self tk s s' m :
  _populate_dnskey_status g self tk s = Ok s' →
  rrsig_status (fields s' m) = rrsig_status (fields s m).
Proof. intros Hrun. evaluator_step Hrun. Qed.
End evaluator_steps.

Section populate_status_theorems.
Context `{Collector} {P : Type} `{Evaluators P} (g : graph).
Implicit Types (s : state P) (self : node_id).

(** C5.  Whatever the shape of the graph (cycles through CNAME, MX,
    NS-dependency, signer, parent or DLV links included),
    [populate_status] terminates: it returns or raises, it never
    exhausts the recursion.  On a node that is already in the trace it
    is [_populate_name_status] and nothing else: the name status of
    the node is populated, nothing is logged by the RRSIG,
    negative-response or delegation evaluators, and no field other
    than the name-status fields changes on any node. *)
Theorem populate_status_cycle_safe self tk algs dalgs is_dlv trace follow_mx s :
  populate_status g self tk algs dalgs is_dlv trace follow_mx s ≠ OutOfFuel
  ∧ (self ∈ trace →
     populate_status g self tk algs dalgs is_dlv trace follow_mx s
       = _populate_name_status g self [] s
     ∧ ∀ s', populate_status g self tk algs dalgs is_dlv trace follow_mx s = Ok s' →
         (∀ nd, g !! self = Some nd → is_Some (status (fields s' self)))
         ∧ st_log s' = st_log s
         ∧ st_sets s' = st_sets s
         ∧ ∀ m, evaluation (fields s' m) = evaluation (fields s m)).
Proof.
  split.
  { apply populate_status_fuel_terminates. pose proof (unvisited_le g trace). lia. }
  intros Htrace.
  assert (populate_status g self tk algs dalgs is_dlv trace follow_mx s
          = _populate_name_status g self [] s) as Heq.
  { unfold populate_status; simpl. destruct (g !! self) as [nd|] eqn:Hnd.
    - by rewrite decide_True.
    - unfold _populate_name_status; simpl. by rewrite Hnd. }
  split; [done|]. intros s'. rewrite Heq. intros Hrun.
  pose proof (_populate_name_status_frame g _ _ _ _ Hrun) as (?&?&?&?).
  repeat split; try done.
  intros nd Hnd.
  apply (name_status_final g _ _ nd) in Hrun as (yxd & _ & ->);
    [done|done|apply not_elem_of_nil].
Qed.
(** A node that [populate_status] evaluates ends with its
    [rrsig_status] assigned. *)
Lemma populate_status_populates fuel self nd tk algs dalgs is_dlv trace follow_mx s s' :
  g !! self = Some nd → self ∉ trace →
  rrsig_status (fields s self) = None → stub nd = false →
  populate_status_fuel g (S fuel) self tk algs dalgs is_dlv trace follow_mx s = Ok s' →
  is_Some (rrsig_status (fields s' self)).
Proof.
  intros Hnd Htrace Hnone Hstub. simpl.
  rewrite Hnd, decide_False, Hnone, Hstub by done.
  destruct (choose_supported _ _ s) as [a sa].
  destruct (choose_supported _ _ sa) as [d sd].
  unfold evaluate_node. intros Hrun.
  all: do 7 (apply bind_Ok in Hrun as (? & _ & Hrun)).
  all: apply bind_Ok in Hrun as (s1 & Hrrsig%rrsig_status_all_populates & Hrun).
  all: apply bind_Ok in Hrun as (s2 & H2 & Hrun).
  all: apply bind_Ok in Hrun as (s3 & H3 & Hrun).
  all: apply bind_Ok in Hrun as (s4 & H4 & Hrun).
  all: apply bind_Ok in Hrun as (s5 & H5 & Hrun).
  all: rewrite (dnskey_status_keeps g _ _ _ _ self Hrun).
  all: assert (rrsig_status (fields s5 self) = rrsig_status (fields s4 self)) as ->
    by (destruct (dlv_parent nd); [by eapply ds_status_dlv_keeps|by injection H5 as <-]).
  all: assert (rrsig_status (fields s4 self)
               = rrsig_status (fields (_finalize_key_roles g self nd s3) self)) as ->
    by (destruct is_dlv; [by injection H4 as <-|by eapply delegation_status_keeps]).
  all: rewrite finalize_key_roles_keeps.
  all: rewrite (nxdomain_status_keeps g _ _ _ _ self H3).
  all: by rewrite (nodata_status_keeps g _ _ _ _ self H2).
Qed.

End populate_status_theorems.

(** [populate_status] on a CNAME loop: both names are assessed once,
    the loop-back visit of [a.example.] logs nothing. *)
Lemma populate_status_cycle_safe_cname_loop :
  let run := @populate_status examples.collector unit examples.evaluators
               examples.cname_loop 0 [] None None false [] true examples.initial in
  run ≠ OutOfFuel
  ∧ ∃ s', run = Ok s'
      ∧ st_log s' = [Assessing_status "b.example."; Assessing_RRSIG_status "b.example.";
                     Assessing_NODATA_status "b.example.";
                     Assessing_NXDOMAIN_status "b.example.";
                     Assessing_status "a.example."; Assessing_RRSIG_status "a.example.";
                     Assessing_NODATA_status "a.example.";
                     Assessing_NXDOMAIN_status "a.example."]
      ∧ status (fields s' 0) = Some NAME_STATUS_INDETERMINATE
      ∧ status (fields s' 1) = Some NAME_STATUS_INDETERMINATE.
Proof.
  split.
  - apply (@populate_status_cycle_safe examples.collector unit examples.evaluators).
  - eexists. split; [by vm_compute|]. by vm_compute.
Defined.


(** ** A second [_populate_name_status], a second [populate_status] *)
Section name_status_idempotent.
Context `{Collector} {P : Type} (g : graph).
Implicit Types (s t : state P) (self m : node_id) (r : results P).

Lemma lookup_fields s s' m :
  st_nodes s' !! m = st_nodes s !! m → fields s' m = fields s m.
Proof. unfold fields. by intros ->. Qed.

Lemma lookup_set_fields_ne n m (f : results P → results P) s :
  n ≠ m → st_nodes (set_fields n f s) !! m = st_nodes s !! m.
Proof. intros. unfold set_fields; simpl. by rewrite lookup_insert_ne. Qed.

Lemma lookup_set_fields_eq n (f : results P → results P) s :
  st_nodes (set_fields n f s) !! n = Some (f (fields s n)).
Proof. unfold set_fields; simpl. by rewrite lookup_insert_eq. Qed.

Lemma yxrrset_assigned s m :
  is_Some (yxrrset (fields s m)) → st_nodes s !! m = Some (fields s m).
Proof. unfold fields. destruct (st_nodes s !! m); [done|]. by intros [? ?]. Qed.

(** The loop over the CNAME targets changes no other node whose
    [yxrrset] is assigned. *)
Lemma name_status_cname_stable recurse self l s s' m :
  stable recurse →
  for_each (name_status_cname recurse self) l s = Ok s' →
  m ≠ self → is_Some (yxrrset (fields s m)) →
  st_nodes s' !! m = st_nodes s !! m.
Proof.
  intros Hrec Hloop Hm Hs.
  eapply (for_each_inv (λ t, st_nodes t !! m = st_nodes s !! m)) in Hloop; [done| |done].
  clear Hloop. intros s1 [[cname target] [c|]] s1' _ Hs1; unfold name_status_cname;
    [|by intros [= <-]].
  case_decide; [by intros [= <-]|]. intros Hb.
  apply bind_Ok in Hb as (s3 & Hrecurse & Hb).
  assert (st_nodes s3 !! m = st_nodes s !! m) as Hs3.
  { destruct (yxrrset (fields s1 c)) eqn:Hc; [by injection Hrecurse as <-|].
    rewrite <- Hs1. eapply Hrec; [done| |by rewrite (lookup_fields _ _ _ Hs1)].
    intros ->. rewrite <- (lookup_fields _ _ _ Hs1), Hc in Hs. by destruct Hs. }
  destruct (yxrrset (fields s3 c)); [|done]. injection Hb as <-.
  by rewrite lookup_set_fields_ne.
Qed.

Lemma name_status_fuel_stable fuel trace :
  stable (λ c s, _populate_name_status_fuel g fuel c trace s).
Proof.
  revert trace. induction fuel as [|fuel IH]; intros trace c s s' m; simpl; [done|].
  case_decide; [by intros [= <-]|].
  destruct (g !! c) as [nd|]; [|by intros [= <-]].
  intros Hrun Hm Hs.
  apply bind_Ok in Hrun as ([[yxd yxr] nxr] & _ & Hrun).
  apply bind_Ok in Hrun as (s2 & Hloop & [= <-]).
  rewrite lookup_set_fields_ne by done.
  eapply name_status_cname_stable in Hloop; [|apply IH|done|].
  - by rewrite Hloop, !lookup_set_fields_ne.
  - by rewrite !fields_set_fields_ne.
Qed.

Lemma set_yxrrset_same r Y : yxrrset r = Some Y → set_yxrrset (Some Y) r = r.
Proof. destruct r; simpl. by intros ->. Qed.

Lemma set_yxrrset_twice r Y Y' : set_yxrrset Y' (set_yxrrset Y r) = set_yxrrset Y' r.
Proof. done. Qed.

Lemma for_each_cons {A S} (body : S → A → result S) x l (a : S) :
  for_each body (x :: l) a = body a x ≫= for_each body l.
Proof. done. Qed.

Lemma name_status_cname_skip recurse self s cname target cname_obj :
  cname_obj = None ∨ cname_obj = Some self →
  name_status_cname recurse self s (cname, target, cname_obj) = Ok s.
Proof. intros [->| ->]; simpl; [done|]. by rewrite decide_True. Qed.

Lemma name_status_cname_target recurse self s cname target c :
  c ≠ self →
  name_status_cname recurse self s (cname, target, Some c) =
  s ← (if yxrrset (fields s c) is None then recurse c s else Ok s);
  match yxrrset (fields s c) with
  | None => Raise TypeError
  | Some cyx =>
    Ok (set_fields self
          (λ r, set_yxrrset
                  (Some (default ∅ (yxrrset r)
                         ∪ set_map (λ p : dname * rdtype, (cname, p.2))
                             (filter (λ p : dname * rdtype, p.1 = target) cyx))) r) s)
  end.
Proof. intros. simpl. by rewrite decide_False. Qed.

(** The loop over the CNAME targets, run again from a state [t] in
    which the other nodes are what they are after the first run:
    nothing is evaluated again, and the node gets the same
    [yxrrset]. *)
Lemma name_status_cname_replay recurse recurse' self l s s' t :
  stable recurse →
  for_each (name_status_cname recurse self) l s = Ok s' →
  is_Some (yxrrset (fields s self)) →
  (∀ m, m ≠ self → st_nodes t !! m = st_nodes s' !! m) →
  yxrrset (fields t self) = yxrrset (fields s self) →
  ∃ t' Y,
    for_each (name_status_cname recurse' self) l t = Ok t'
    ∧ (∀ m, m ≠ self → st_nodes t' !! m = st_nodes s' !! m)
    ∧ fields s' self = set_yxrrset (Some Y) (fields s self)
    ∧ fields t' self = set_yxrrset (Some Y) (fields t self).
Proof.
  intros Hrec. revert s t. induction l as [|[[cname target] cname_obj] l IH];
    intros s t Hloop [Y HY] Ht Hself.
  { injection Hloop as <-. exists t, Y. split; [done|]. split; [done|].
    rewrite !set_yxrrset_same; [done|congruence|done]. }
  rewrite for_each_cons in Hloop |- *.
  apply bind_Ok in Hloop as (s4 & Hitem & Hloop).
  destruct (decide (cname_obj = None ∨ cname_obj = Some self)) as [Hskip|Hc].
  { rewrite name_status_cname_skip in Hitem |- * by done. injection Hitem as <-.
    simpl. by apply IH; eauto. }
  destruct cname_obj as [c|]; [|by destruct Hc; left].
  assert (c ≠ self) as Hne by (intros ->; destruct Hc; by right). clear Hc.
  rewrite name_status_cname_target in Hitem |- * by done.
  apply bind_Ok in Hitem as (s3 & Hrecurse & Hitem).
  assert (st_nodes s3 !! self = st_nodes s !! self) as Hs3.
  { destruct (yxrrset (fields s c)); [by injection Hrecurse as <-|].
    eapply Hrec; eauto. }
  destruct (yxrrset (fields s3 c)) as [cyx|] eqn:Hcyx; [|done]. injection Hitem as <-.
  set (f := λ r : results P, set_yxrrset (Some (default ∅ (yxrrset r) ∪ _)) r) in *.
  assert (st_nodes s' !! c = st_nodes s3 !! c) as Hstable.
  { erewrite (name_status_cname_stable recurse self l _ s' c Hrec Hloop); [|done|].
    - by rewrite lookup_set_fields_ne.
    - rewrite fields_set_fields_ne by done. by rewrite Hcyx. }
  assert (yxrrset (fields t c) = Some cyx) as Htc.
  { rewrite <- Hcyx. f_equal. apply lookup_fields. by rewrite Ht, Hstable. }
  destruct (IH (set_fields self f s3) (set_fields self f t) Hloop)
    as (t' & Y' & Hreplay & Ht' & Hs' & Hfields).
  - rewrite fields_set_fields_eq. unfold f. simpl. eauto.
  - intros m Hm. rewrite lookup_set_fields_ne by done. by apply Ht.
  - rewrite !fields_set_fields_eq. unfold f. simpl.
    by rewrite (lookup_fields _ _ _ Hs3), Hself.
  - exists t', Y'. rewrite Htc. simpl. rewrite Htc. fold f.
    split; [done|]. split; [done|].
    rewrite Hs', Hfields, !fields_set_fields_eq, (lookup_fields _ _ _ Hs3). by unfold f.
Qed.

Lemma name_status_cname_frame fuel trace self l s s' :
  for_each (name_status_cname
              (λ c s, _populate_name_status_fuel g fuel c trace s) self) l s = Ok s' →
  name_frame s s'.
Proof.
  intros Hloop.
  eapply (for_each_inv (name_frame s)) in Hloop; [done| |apply name_frame_refl].
  intros s1 [[cname target] [c|]] s1' _ Hs1; unfold name_status_cname;
    [|by intros [= <-]].
  case_decide; [by intros [= <-]|]. intros Hb.
  apply bind_Ok in Hb as (s3 & Hrec & Hb).
  assert (name_frame s s3) as Hs3.
  { destruct (yxrrset (fields s1 c)); [by injection Hrec as <-|].
    eapply name_frame_trans; [done|by eapply name_status_fuel_frame]. }
  destruct (yxrrset (fields s3 c)); [|done]. injection Hb as <-.
  eapply name_frame_trans; [done|by apply name_frame_set_fields].
Qed.

Lemma state_eq s t :
  st_nodes s = st_nodes t → st_sets s = st_sets t → st_dicts s = st_dicts t →
  st_log s = st_log t → s = t.
Proof. destruct s, t. simpl. by intros -> -> -> ->. Qed.

(** [_populate_name_status] run a second time gives the state it left
    the first time. *)
Lemma _populate_name_status_idempotent self s s1 :
  _populate_name_status g self [] s = Ok s1 →
  _populate_name_status g self [] s1 = Ok s1.
Proof.
  unfold _populate_name_status. simpl.
  destruct (g !! self) as [nd|] eqn:Hnd; [|by intros [= <-]].
  intros Hrun.
  apply bind_Ok in Hrun as ([[yxd yxr] nxr] & Hacc & Hrun).
  apply bind_Ok in Hrun as (s2 & Hloop & Hs1).
  rewrite Hacc. simpl.
  set (F1 := λ r : results P,
         set_nxrrset (Some ∅) (set_yxrrset (Some ∅) (set_yxdomain (Some ∅)
           (set_status (Some NAME_STATUS_INDETERMINATE) r)))) in *.
  set (F2 := λ r : results P,
         set_nxrrset (Some nxr) (set_yxrrset (Some yxr) (set_yxdomain (Some yxd) r))) in *.
  destruct (name_status_cname_replay _
              (λ c s, _populate_name_status_fuel g (length g) c [self] s) self _ _ _
              (set_fields self F2 (set_fields self F1 s1))
              (name_status_fuel_stable (length g) [self]) Hloop)
    as (t' & Y & Hreplay & Ht' & Hs2 & Hfields).
  { rewrite fields_set_fields_eq. simpl. eauto. }
  { intros m Hm. rewrite !lookup_set_fields_ne by done.
    injection Hs1 as <-. by rewrite lookup_set_fields_ne. }
  { by rewrite !fields_set_fields_eq. }
  rewrite Hreplay. simpl. f_equal.
  pose proof (name_status_cname_frame _ _ _ _ _ _ Hreplay) as (Hsets & Hdicts & Hlog & _).
  injection Hs1 as <-.
  rewrite !fields_set_fields_eq in Hfields. rewrite Hs2, !fields_set_fields_eq in Hfields.
  rewrite !fields_set_fields_eq in Hs2.
  apply state_eq; [|done..].
  apply map_eq. intros m. destruct (decide (m = self)) as [->|Hm].
  - rewrite !lookup_set_fields_eq. f_equal. rewrite Hfields, Hs2.
    by destruct (fields s self).
  - rewrite !lookup_set_fields_ne by done. by apply Ht'.
Qed.
End name_status_idempotent.

Section populate_status_twice.
Context `{Collector} {P : Type} `{Evaluators P} (g : graph).
Implicit Types (s : state P) (self : node_id).

(** C4.  A second [populate_status] on the same node with the same
    arguments, whatever they are, returns the state that the first
    left - no field of any node, no set and no log entry changes - and
    so [serialize_status] gives the same output after the second
    invocation as after the first.  (On a node of the trace the second
    invocation computes the name status again, with the same result;
    otherwise it returns at once, the status being populated.) *)
Theorem populate_status_idempotent `{Serializer P}
    self tk algs dalgs is_dlv trace follow_mx s s1 :
  populate_status g self tk algs dalgs is_dlv trace follow_mx s = Ok s1 →
  populate_status g self tk algs dalgs is_dlv trace follow_mx s1 = Ok s1
  ∧ ∀ s2, populate_status g self tk algs dalgs is_dlv trace follow_mx s1 = Ok s2 →
      s2 = s1
      ∧ ∀ d dlv loglevel ancestry_only level trace' fmx html_format,
          serialize_status g self d dlv loglevel ancestry_only level trace' fmx html_format s2
          = serialize_status g self d dlv loglevel ancestry_only level trace' fmx html_format
              s1.
Proof.
  intros Hrun.
  assert (populate_status g self tk algs dalgs is_dlv trace follow_mx s1 = Ok s1) as Hagain.
  { unfold populate_status in *.
    destruct (g !! self) as [nd|] eqn:Hnd; [|by simpl; rewrite Hnd].
    destruct (decide (self ∈ trace)) as [Htrace|Htrace].
    { revert Hrun. simpl. rewrite Hnd, !decide_True by done.
      apply _populate_name_status_idempotent. }
    destruct (rrsig_status (fields s self)) as [v|] eqn:Hv.
    { revert Hrun. simpl. rewrite Hnd, !decide_False, Hv by done.
      intros [= <-]. by rewrite Hv. }
    destruct (stub nd) eqn:Hstub.
    { revert Hrun. simpl. rewrite Hnd, !decide_False, Hv, Hstub by done.
      intros [= <-]. by rewrite Hv. }
    eapply populate_status_populates in Hrun as [v Hv1]; [|done..].
    simpl. by rewrite Hnd, decide_False, Hv1. }
  split; [done|]. intros s2. rewrite Hagain. by intros [= <-].
Qed.
End populate_status_twice.

(** A second [populate_status] on the CNAME loop. *)
Lemma populate_status_idempotent_cname_loop :
  ∃ s1, @populate_status examples.collector unit examples.evaluators
          examples.cname_loop 0 [] None None false [] true examples.initial = Ok s1
      ∧ @populate_status examples.collector unit examples.evaluators
          examples.cname_loop 0 [] None None false [] true s1 = Ok s1.
Proof.
  set (run := @populate_status examples.collector unit examples.evaluators
                examples.cname_loop 0 [] None None false [] true examples.initial).
  set (s1 := match run with Ok s => s | _ => examples.initial end).
  assert (run = Ok s1) as Hrun by (by vm_compute).
  exists s1. split; [done|].
  apply (@populate_status_idempotent examples.collector unit examples.evaluators
           examples.cname_loop examples.serializer 0 [] None None false [] true
           examples.initial s1 Hrun).
Defined.

(** ** The supported-algorithm sets *)
Section delegation_sets.
Context {P : Type} `{Evaluators P} (g : graph).
Implicit Types (s : state P) (self : node_id).

Lemma ds_status_ds_sets self nd a d s s' :
  _populate_ds_status_ds g self nd a d s = Ok s' → st_sets s' = st_sets s.
Proof.
  unfold _populate_ds_status_ds. destruct (parent nd); [|by intros [= <-]].
  intros Hrun. by apply bind_Ok in Hrun as (? & _ & [= <-]).
Qed.

Lemma ds_status_dlv_sets self nd a d s s' :
  _populate_ds_status_dlv g self nd a d s = Ok s' → st_sets s' = st_sets s.
Proof.
  unfold _populate_ds_status_dlv. destruct (parent nd); [|by intros [= <-]].
  destruct (dlv_name nd); [|done].
  intros Hrun. by apply bind_Ok in Hrun as (? & _ & [= <-]).
Qed.

Lemma delegation_status_sets self nd a d s s' :
  _populate_delegation_status g self nd a d s = Ok s' → st_sets s' = st_sets s.
Proof.
  unfold _populate_delegation_status. intros Hrun.
  apply bind_Ok in Hrun as (s1 & H1%ds_status_ds_sets & Hrun).
  apply bind_Ok in Hrun as (s2 & H2 & Hrun).
  apply bind_Ok in Hrun as (v & _ & [= <-]). simpl.
  assert (st_sets s2 = st_sets s1) as ->
    by (destruct (dlv_parent nd); [by eapply ds_status_dlv_sets|by injection H2 as <-]).
  by rewrite H1.
Qed.
End delegation_sets.

Section sets_invariant.
Context `{Collector} {P : Type} `{Evaluators P} (g : graph).
Implicit Types (s : state P) (self : node_id).

(** A property [Q] of the heap of sets that every
    [intersection_update] which the traversal can perform preserves:
    [Wa] and [Wd] are the sets that can be passed as [supported_algs]
    and [supported_digest_algs]. *)
Variables (Q : gmap loc (gset Z) → Prop) (Wa Wd : loc → Prop).
Hypothesis Wa_software : Wa crypto_supported_algs.
Hypothesis Wd_software : Wd crypto_supported_digest_algs.
Hypothesis Q_algs : ∀ s a,
  Wa a → Q (st_sets s) → Q (st_sets (intersection_update a crypto_supported_algs s)).
Hypothesis Q_digest_algs : ∀ s a,
  Wd a → Q (st_sets s) → Q (st_sets (intersection_update a crypto_supported_digest_algs s)).

Lemma choose_supported_algs_inv a s :
  passes Wa a → Q (st_sets s) →
  Wa (choose_supported a crypto_supported_algs s).1
  ∧ Q (st_sets (choose_supported a crypto_supported_algs s).2).
Proof.
  destruct a as [x|]; simpl; intros Ha HQ; [|by split].
  specialize (Ha x eq_refl). split; [done|by apply Q_algs].
Qed.

Lemma choose_supported_digest_algs_inv a s :
  passes Wd a → Q (st_sets s) →
  Wd (choose_supported a crypto_supported_digest_algs s).1
  ∧ Q (st_sets (choose_supported a crypto_supported_digest_algs s).2).
Proof.
  destruct a as [x|]; simpl; intros Ha HQ; [|by split].
  specialize (Ha x eq_refl). split; [done|by apply Q_digest_algs].
Qed.

Lemma evaluate_node_sets_inv recurse self nd tk a d is_dlv follow_mx s s' :
  (∀ o a' d' dlv mx t t',
     passes Wa a' → passes Wd d' → Q (st_sets t) →
     recurse o a' d' dlv mx t = Ok t' → Q (st_sets t')) →
  Wa a → Wd d → Q (st_sets s) →
  evaluate_node g recurse self nd tk a d is_dlv follow_mx s = Ok s' →
  Q (st_sets s').
Proof.
  intros Hrec Ha Hd HQ. unfold evaluate_node. intros Hrun.
  assert (∀ (r : option node_id) dlv mx t t',
            Q (st_sets t) →
            when_present r (λ o, recurse o None None dlv mx) t = Ok t' →
            Q (st_sets t')) as Hdep.
  { intros [o|] dlv mx t t' Ht; simpl; [|by intros [= <-]].
    by apply Hrec. }
  assert (∀ (r : option node_id) dlv mx t t',
            Q (st_sets t) →
            when_present r (λ o, recurse o (Some a) (Some d) dlv mx) t = Ok t' →
            Q (st_sets t')) as Hanc.
  { intros [o|] dlv mx t t' Ht; simpl; [|by intros [= <-]].
    apply Hrec; [by intros ? [= <-]|by intros ? [= <-]|done]. }
  apply bind_Ok in Hrun as (s1 & H1 & Hrun).
  apply (for_each_inv (λ s, Q (st_sets s))) in H1; [|by eauto|done].
  apply bind_Ok in Hrun as (s2 & H2 & Hrun).
  assert (Q (st_sets s2)) as HQ2.
  { destruct follow_mx; [|by injection H2 as <-].
    apply (for_each_inv (λ s, Q (st_sets s))) in H2; by eauto. }
  apply bind_Ok in Hrun as (s3 & H3 & Hrun).
  apply (for_each_inv (λ s, Q (st_sets s))) in H3; [|by eauto|done].
  apply bind_Ok in Hrun as (s4 & H4 & Hrun).
  apply (for_each_inv (λ s, Q (st_sets s))) in H4; [|by eauto|done].
  apply bind_Ok in Hrun as (s5 & H5%Hanc & Hrun); [|done].
  apply bind_Ok in Hrun as (s6 & H6%Hanc & Hrun); [|done].
  apply bind_Ok in Hrun as (s7 & H7 & Hrun).
  apply _populate_name_status_frame in H7 as (H7 & _). simpl in H7.
  apply bind_Ok in Hrun as (s8 & H8 & Hrun).
  apply bind_Ok in H8 as (? & _ & [= <-]).
  apply bind_Ok in Hrun as (s9 & H9 & Hrun).
  apply bind_Ok in H9 as (? & _ & [= <-]).
  apply bind_Ok in Hrun as (s10 & H10 & Hrun).
  apply bind_Ok in H10 as (? & _ & [= <-]).
  apply bind_Ok in Hrun as (s11 & H11 & Hrun).
  apply bind_Ok in Hrun as (s12 & H12 & Hrun).
  apply bind_Ok in Hrun as (? & _ & [= <-]). simpl.
  assert (st_sets s12 = st_sets s11) as ->.
  { destruct (dlv_parent nd); [|by injection H12 as <-].
    by eapply ds_status_dlv_sets. }
  assert (st_sets s11 = st_sets s7) as ->.
  { destruct is_dlv; [injection H11 as <-|apply delegation_status_sets in H11 as ->].
    all: unfold _finalize_key_roles; by destruct (is_zone nd). }
  by rewrite H7.
Qed.

Lemma populate_status_fuel_sets_inv fuel self tk algs dalgs is_dlv trace follow_mx s s' :
  passes Wa algs → passes Wd dalgs → Q (st_sets s) →
  populate_status_fuel g fuel self tk algs dalgs is_dlv trace follow_mx s = Ok s' →
  Q (st_sets s').
Proof.
  revert self algs dalgs is_dlv trace follow_mx s s'.
  induction fuel as [|fuel IH];
    intros self algs dalgs is_dlv trace follow_mx s s' Ha Hd HQ; simpl; [done|].
  destruct (g !! self) as [nd|]; [|by intros [= <-]].
  case_decide.
  { intros Hs. apply _populate_name_status_frame in Hs as (Hs & _). by rewrite Hs. }
  destruct (rrsig_status _); [by intros [= <-]|].
  destruct (stub nd); [by intros [= <-]|].
  destruct (choose_supported_algs_inv algs s Ha HQ) as [Ha1 HQ1].
  destruct (choose_supported algs _ s) as [a s1]; simpl in *.
  destruct (choose_supported_digest_algs_inv dalgs s1 Hd HQ1) as [Hd2 HQ2].
  destruct (choose_supported dalgs _ s1) as [d s2]; simpl in *.
  apply evaluate_node_sets_inv; [|done..].
  intros o a' d' dlv mx t t' ???. by apply IH.
Qed.
End sets_invariant.

Section supported_sets.
Context `{Collector} {P : Type} `{Evaluators P} (g : graph).
Implicit Types (s : state P) (self : node_id).

Lemma set_at_intersection_update (a b l : loc) s :
  set_at (intersection_update a b s) l
  = if decide (a = l) then set_at s a ∩ set_at s b else set_at s l.
Proof.
  unfold set_at at 1, intersection_update; simpl.
  case_decide; subst; [by rewrite lookup_insert_eq|by rewrite lookup_insert_ne].
Qed.

(** C9 (as the code has it).  [populate_status] updates the sets it is
    given in place.  After it has returned, every set object other
    than the ones passed as [supported_algs] and
    [supported_digest_algs] holds what it held before, and no set has
    gained an element; if [populate_status] returned early (the node
    is in the trace, already populated or a stub) no set has changed
    at all.  If the node was evaluated and the caller supplied two set
    objects of its own (distinct from each other and from the two sets
    of [crypto]), each supplied set holds the intersection of its
    former contents with the corresponding set of [crypto]. *)
Theorem populate_status_supported_sets self tk algs dalgs is_dlv trace follow_mx s s' :
  populate_status g self tk algs dalgs is_dlv trace follow_mx s = Ok s' →
  (∀ l, algs ≠ Some l → dalgs ≠ Some l → set_at s' l = set_at s l)
  ∧ (∀ l, set_at s' l ⊆ set_at s l)
  ∧ (¬ evaluated g s self trace → ∀ l, set_at s' l = set_at s l)
  ∧ (∀ a d, algs = Some a → dalgs = Some d → a ≠ d →
       a ≠ crypto_supported_algs → a ≠ crypto_supported_digest_algs →
       d ≠ crypto_supported_algs → d ≠ crypto_supported_digest_algs →
       evaluated g s self trace →
       set_at s' a = set_at s a ∩ set_at s crypto_supported_algs
       ∧ set_at s' d = set_at s d ∩ set_at s crypto_supported_digest_algs).
Proof.
  intros Hrun.
  assert (∀ t : state P, st_sets t = st_sets s → ∀ l, set_at t l = set_at s l) as Hsame
    by (intros t Ht l; unfold set_at; by rewrite Ht).
  split; [|split; [|split]].
  - (* the sets that were not supplied *)
    set (Q := λ m : gmap loc (gset Z),
           ∀ l, algs ≠ Some l → dalgs ≠ Some l → default ∅ (m !! l) = set_at s l).
    set (Wa := λ x : loc, algs = Some x ∨ x = crypto_supported_algs).
    set (Wd := λ x : loc, dalgs = Some x ∨ x = crypto_supported_digest_algs).
    apply (populate_status_fuel_sets_inv g Q Wa Wd) in Hrun; [done|by right|by right|..].
    + intros t x Hx Ht l Hla Hld.
      fold (set_at (intersection_update x crypto_supported_algs t) l).
      rewrite set_at_intersection_update. case_decide as Hxl; [|by apply Ht].
      subst l. destruct Hx as [?| ->]; [done|].
      unfold set_at at 1 2. rewrite Ht by done. set_solver.
    + intros t x Hx Ht l Hla Hld.
      fold (set_at (intersection_update x crypto_supported_digest_algs t) l).
      rewrite set_at_intersection_update. case_decide as Hxl; [|by apply Ht].
      subst l. destruct Hx as [?| ->]; [done|].
      unfold set_at at 1 2. rewrite Ht by done. set_solver.
    + intros x ->. by left.
    + intros x ->. by left.
    + by intros l _ _.
  - (* no set grows *)
    set (Q := λ m : gmap loc (gset Z), ∀ l, default ∅ (m !! l) ⊆ set_at s l).
    apply (populate_status_fuel_sets_inv g Q (λ _, True) (λ _, True)) in Hrun;
      [done|done|done|..|done|done|by intros l].
    + intros t x _ Ht l. fold (set_at (intersection_update x crypto_supported_algs t) l).
      rewrite set_at_intersection_update. case_decide as Hxl; [|by apply Ht].
      subst l. pose proof (Ht x) as Hx. fold (set_at t x) in Hx. set_solver.
    + intros t x _ Ht l.
      fold (set_at (intersection_update x crypto_supported_digest_algs t) l).
      rewrite set_at_intersection_update. case_decide as Hxl; [|by apply Ht].
      subst l. pose proof (Ht x) as Hx. fold (set_at t x) in Hx. set_solver.
  - (* the early returns *)
    revert Hrun. unfold populate_status, evaluated. simpl.
    destruct (g !! self) as [nd|] eqn:Hnd; [|by intros [= <-]].
    case_decide as Htrace.
    { intros Hrun _. apply _populate_name_status_frame in Hrun as (Hs & _).
      by apply Hsame. }
    destruct (rrsig_status (fields s self)) as [v|] eqn:Hv; [by intros [= <-]|].
    destruct (stub nd) eqn:Hstub; [by intros [= <-]|].
    intros _ Hne. destruct Hne. by exists nd.
  - (* two sets of the caller's own *)
    intros a d -> -> Had Ha0 Ha1 Hd0 Hd1 (nd & Hnd & Htrace & Hv & Hstub).
    revert Hrun. unfold populate_status. simpl.
    rewrite Hnd, decide_False, Hv, Hstub by done.
    set (target := λ l : loc,
           if decide (l = a) then set_at s a ∩ set_at s crypto_supported_algs
           else if decide (l = d) then set_at s d ∩ set_at s crypto_supported_digest_algs
           else set_at s l).
    set (Q := λ m : gmap loc (gset Z), ∀ l, default ∅ (m !! l) = target l).
    set (Wa := λ x : loc, x = a ∨ x = crypto_supported_algs).
    set (Wd := λ x : loc, x = d ∨ x = crypto_supported_digest_algs).
    assert (∀ (t : state P) x, Wa x → Q (st_sets t) →
              Q (st_sets (intersection_update x crypto_supported_algs t))) as HQa.
    { intros t x Hx Ht l. fold (set_at (intersection_update x crypto_supported_algs t) l).
      rewrite set_at_intersection_update. unfold set_at. rewrite !Ht.
      case_decide; [|done]. subst l. unfold target.
      destruct Hx as [->| ->]; repeat case_decide; try done;
        apply set_eq; intros z; rewrite !elem_of_intersection; tauto. }
    assert (∀ (t : state P) x, Wd x → Q (st_sets t) →
              Q (st_sets (intersection_update x crypto_supported_digest_algs t))) as HQd.
    { intros t x Hx Ht l.
      fold (set_at (intersection_update x crypto_supported_digest_algs t) l).
      rewrite set_at_intersection_update. unfold set_at. rewrite !Ht.
      case_decide; [|done]. subst l. unfold target.
      destruct Hx as [->| ->]; repeat case_decide; try done;
        apply set_eq; intros z; rewrite !elem_of_intersection; tauto. }
    intros Hrun.
    apply (evaluate_node_sets_inv g Q Wa Wd) in Hrun.
    + assert (∀ l, set_at s' l = target l) as Hfin by (intros l; apply Hrun).
      rewrite !Hfin. unfold target. by repeat case_decide; subst.
    + intros o a' d' dlv mx t t' Ha' Hd' Ht.
      apply (populate_status_fuel_sets_inv g Q Wa Wd); try done; by right.
    + by left.
    + by left.
    + intros l. fold (set_at (intersection_update d crypto_supported_digest_algs
                                (intersection_update a crypto_supported_algs s)) l).
      rewrite !set_at_intersection_update. unfold target.
      by repeat case_decide; subst.
Qed.
End supported_sets.

(** The caller's sets after [example.] was evaluated: each has lost
    what the software does not support; the sets of [crypto] are as
    before. *)
Lemma populate_status_supported_sets_example :
  ∃ s', @populate_status examples.collector unit examples.evaluators examples.soa_graph
          0 [] (Some 5) (Some 6) false [] true examples.with_sets = Ok s'
        ∧ set_at s' 5 = {[8%Z]} ∧ set_at s' 6 = {[2%Z]}
        ∧ set_at s' crypto_supported_algs = {[8%Z]}
        ∧ set_at s' crypto_supported_digest_algs = {[2%Z]}.
Proof.
  set (run := @populate_status examples.collector unit examples.evaluators
                examples.soa_graph 0 [] (Some 5) (Some 6) false [] true examples.with_sets).
  set (s' := match run with Ok s => s | _ => examples.with_sets end).
  assert (run = Ok s') as Hrun by (by vm_compute).
  exists s'. split; [done|].
  destruct (@populate_status_supported_sets examples.collector unit examples.evaluators
              examples.soa_graph 0 [] (Some 5) (Some 6) false [] true examples.with_sets s'
              Hrun) as (Hother & _ & _ & Heval).
  destruct (Heval 5 6) as [-> ->]; [done..| |].
  { eexists. split; [reflexivity|]. split; [apply not_elem_of_nil|]. by vm_compute. }
  rewrite !Hother by done. by vm_compute.
Defined.

(** C9 (as specified) fails: the caller's sets are changed. *)
Lemma populate_status_changes_supplied_sets :
  ¬ ∀ (C : Collector) (E : Evaluators unit) (g : graph) self tk (a d : loc)
      is_dlv trace follow_mx (s s' : state unit),
      a ≠ d →
      a ≠ crypto_supported_algs → a ≠ crypto_supported_digest_algs →
      d ≠ crypto_supported_algs → d ≠ crypto_supported_digest_algs →
      populate_status g self tk (Some a) (Some d) is_dlv trace follow_mx s = Ok s' →
      set_at s' a = set_at s a ∧ set_at s' d = set_at s d.
Proof.
  intros Hclaim.
  set (run := @populate_status examples.collector unit examples.evaluators
                examples.soa_graph 0 [] (Some 5) (Some 6) false [] true examples.with_sets).
  set (s' := match run with Ok s => s | _ => examples.with_sets end).
  destruct (Hclaim examples.collector examples.evaluators examples.soa_graph 0 []
              5 6 false [] true examples.with_sets s') as [Ha _]; [done..|by vm_compute|].
  revert Ha. by vm_compute.
Qed.

(** ** Component-status propagation *)
Section component_status.
Implicit Types (G : trust_graph) (rcs : rcs_dict) (k : component_key).

Lemma foldl_insert_keeps {A} (key : A → component_key) (val : A → rrset_status)
    (l : list A) rcs k :
  is_Some (rcs !! k) →
  is_Some (foldl (λ rcs x, <[key x := val x]> rcs) rcs l !! k).
Proof.
  revert rcs. induction l as [|x l IH]; intros rcs Hk; simpl; [done|].
  apply IH. rewrite lookup_insert. by case_decide.
Qed.

Lemma insert_keeps rcs k k' v : is_Some (rcs !! k) → is_Some (<[k' := v]> rcs !! k).
Proof. intros. rewrite lookup_insert. by case_decide. Qed.

Lemma negative_response_keeps G obj_ node_str status_ rcs rcs' k :
  negative_response_component_status G obj_ node_str status_ rcs = Ok rcs' →
  is_Some (rcs !! k) → is_Some (rcs' !! k).
Proof.
  unfold negative_response_component_status. intros Hrun Hk.
  apply bind_Ok in Hrun as (rcs1 & H1 & Hrun).
  assert (is_Some (rcs1 !! k)) as Hk1.
  { clear Hrun. revert H1. destruct (is_invis G node_str); [|by intros; simplify_eq].
    destruct (decide (neg.rdtype obj_ = rdatatype.DS)).
    { destruct (decide (status_ = RRSET_STATUS_INSECURE)); [|by intros; simplify_eq].
      case_bool_decide; intros; simplify_eq; [by apply insert_keeps|done]. }
    destruct (decide (neg.rdtype obj_ = rdatatype.DNSKEY)); [|by intros; simplify_eq].
    intros H1.
    eapply (for_each_inv (λ rcs, is_Some (rcs !! k))) in H1; [done| |].
    - intros r x r' _ Hr Hb. apply bind_Ok in Hb as (v & _ & [= <-]).
      by apply insert_keeps.
    - destruct (decide (status_ = RRSET_STATUS_SECURE)); [by apply insert_keeps|done]. }
  revert Hrun.
  destruct (decide (neg.rdtype obj_ ≠ rdatatype.DNSKEY)); [|by intros; simplify_eq].
  destruct (_ || _); [|by intros; simplify_eq].
  intros Hrun.
  apply bind_Ok in Hrun as ([] & _ & [= <-]); [done|by apply insert_keeps].
Qed.

Lemma component_status_step_keeps G rcs item rcs' k :
  component_status_step G rcs item = Ok rcs' →
  is_Some (rcs !! k) → is_Some (rcs' !! k).
Proof.
  destruct item as [obj_ str]. unfold component_status_step.
  destruct obj_ as [d|i|n|n|id]; intros Hrun Hk.
  5: by injection Hrun as <-.
  all: apply bind_Ok in Hrun as (node_str & _ & Hrun).
  - injection Hrun as <-. apply foldl_insert_keeps. by apply insert_keeps.
  - injection Hrun as <-. by apply insert_keeps.
  - injection Hrun as <-.
    apply (foldl_insert_keeps (λ e : dname * rrset_info, rrset_info_key e.2)
             (λ e, status_for_node G node_str (Some e.1))).
    by apply insert_keeps.
  - eapply negative_response_keeps; [done|]. by apply insert_keeps.
Qed.

Lemma component_status_step_records G rcs obj_ str rcs' :
  component_status_step G rcs (obj_, str) = Ok rcs' →
  (∀ id, obj_ ≠ other_obj id) →
  is_Some (rcs' !! key_of obj_).
Proof.
  intros Hrun Hobj. unfold component_status_step in Hrun.
  destruct obj_ as [d|i|n|n|id]; [..|by destruct (Hobj id)].
  all: apply bind_Ok in Hrun as (node_str & _ & Hrun).
  - injection Hrun as <-. apply foldl_insert_keeps. rewrite lookup_insert_eq. eauto.
  - injection Hrun as <-. rewrite lookup_insert_eq. eauto.
  - injection Hrun as <-.
    apply (foldl_insert_keeps (λ e : dname * rrset_info, rrset_info_key e.2)
             (λ e, status_for_node G node_str (Some e.1))).
    rewrite lookup_insert_eq. eauto.
  - eapply negative_response_keeps; [done|]. rewrite lookup_insert_eq. eauto.
Qed.

(** The mapping holds a status for every component that [G] indexes. *)
Lemma component_status_complete G rcs obj_ str :
  for_each (component_status_step G) (node_reverse_mapping G) ∅ = Ok rcs →
  (obj_, str) ∈ node_reverse_mapping G → (∀ id, obj_ ≠ other_obj id) →
  is_Some (rcs !! key_of obj_).
Proof.
  intros Hrun Hin Hobj.
  eapply (for_each_establish (λ rcs, is_Some (rcs !! key_of obj_))) in Hrun; [done..| |].
  - intros r r' Hstep. by eapply component_status_step_records.
  - intros r y r' _ Hr Hstep. by eapply component_status_step_keeps.
Qed.
End component_status.

Section set_response_component_status.
Context {P : Type} (g : graph).
Implicit Types (s : state P) (self m : node_id) (l : loc).

(** The six loops of [_set_response_component_status] are one loop
    over the links of the node. *)
Lemma set_response_component_status_links fuel self l is_dlv trace follow_mx s :
  _set_response_component_status_fuel g (S fuel) self l is_dlv trace follow_mx s
  = if decide (self ∈ trace) then Ok s else
    match g !! self with
    | None => Ok s
    | Some nd =>
      s ← for_each
            (link_step (λ o dlv mx,
               _set_response_component_status_fuel g fuel o l dlv (trace ++ [self]) mx)
               follow_mx)
            (links nd) s;
      Ok (set_fields self (set_response_component_status (Some l)) s)
    end.
Proof.
  simpl. case_decide; [done|]. destruct (g !! self) as [nd|]; [|done].
  unfold links. symmetry.
  rewrite for_each_app, bind_assoc. apply bind_cong.
  { rewrite for_each_omap. apply for_each_ext. by intros ? [[??] [?|]] _. }
  intros s1. rewrite for_each_app, bind_assoc. apply bind_cong.
  { rewrite for_each_omap. destruct follow_mx.
    - apply for_each_ext. by intros ? [? [?|]] _.
    - apply for_each_skip. by intros ? [? [?|]] _. }
  intros s2. rewrite for_each_app, bind_assoc. apply bind_cong.
  { rewrite for_each_omap. apply for_each_ext. by intros ? [? [?|]] _. }
  intros s3. rewrite for_each_app, bind_assoc. apply bind_cong.
  { rewrite for_each_omap. apply for_each_ext. by intros ? [? [?|]] _. }
  intros s4. rewrite for_each_app, bind_assoc. apply bind_cong.
  { destruct (parent nd); simpl; [by rewrite bind_ret|done]. }
  intros s5. apply bind_cong; [|done].
  destruct (dlv_parent nd); simpl; [by rewrite bind_ret|done].
Qed.
Lemma set_response_component_status_total fuel self l is_dlv trace follow_mx s :
  unvisited g trace < fuel →
  ∃ s', _set_response_component_status_fuel g fuel self l is_dlv trace follow_mx s = Ok s'.
Proof.
  revert self is_dlv trace follow_mx s.
  induction fuel as [|fuel IH]; intros self is_dlv trace follow_mx s Hfuel; [lia|].
  rewrite set_response_component_status_links.
  case_decide as Htrace; [eauto|]. destruct (g !! self) as [nd|] eqn:Hnd; [|eauto].
  pose proof (unvisited_extend g trace self nd Hnd Htrace).
  edestruct (for_each_Ok (link_step (λ o dlv mx,
               _set_response_component_status_fuel g fuel o l dlv (trace ++ [self]) mx)
               follow_mx) (links nd) s) as [s1 ->]; [|simpl; eauto].
  intros t [k o] _. unfold link_step. destruct (_ && _); [eauto|].
  apply IH. lia.
Qed.

(** A node that holds the mapping keeps it. *)
Lemma set_response_component_status_keeps fuel self l is_dlv trace follow_mx s s' m :
  _set_response_component_status_fuel g fuel self l is_dlv trace follow_mx s = Ok s' →
  response_component_status (fields s m) = Some l →
  response_component_status (fields s' m) = Some l.
Proof.
  revert self is_dlv trace follow_mx s s'.
  induction fuel as [|fuel IH]; intros self is_dlv trace follow_mx s s'; [done|].
  rewrite set_response_component_status_links.
  case_decide; [by intros [= <-]|]. destruct (g !! self) as [nd|]; [|by intros [= <-]].
  intros Hrun Hm. apply bind_Ok in Hrun as (s1 & Hloop & [= <-]).
  apply (for_each_inv (λ s, response_component_status (fields s m) = Some l)) in Hloop;
    [|clear Hloop|done].
  - rewrite fields_set_fields. by case_decide; subst.
  - intros t [k o] t' _ Ht. unfold link_step. destruct (_ && _); [by intros [= <-]|].
    intros Hrec. by eapply IH.
Qed.

(** The other fields, the heaps and the log are left alone. *)
Lemma set_response_component_status_frame fuel self l is_dlv trace follow_mx s s' :
  _set_response_component_status_fuel g fuel self l is_dlv trace follow_mx s = Ok s' →
  st_sets s' = st_sets s ∧ st_dicts s' = st_dicts s ∧ st_log s' = st_log s
  ∧ ∀ m, fields s' m = fields s m
         ∨ fields s' m = set_response_component_status (Some l) (fields s m).
Proof.
  revert self is_dlv trace follow_mx s s'.
  induction fuel as [|fuel IH]; intros self is_dlv trace follow_mx s s'; [done|].
  rewrite set_response_component_status_links.
  case_decide; [intros [= <-]; by eauto|].
  destruct (g !! self) as [nd|]; [|intros [= <-]; by eauto].
  intros Hrun. apply bind_Ok in Hrun as (s1 & Hloop & [= <-]).
  apply (for_each_inv (λ t,
      st_sets t = st_sets s ∧ st_dicts t = st_dicts s ∧ st_log t = st_log s
      ∧ ∀ m, fields t m = fields s m
             ∨ fields t m = set_response_component_status (Some l) (fields s m)))
    in Hloop; [|clear Hloop|by eauto].
  - destruct Hloop as (?&?&?&Hm). do 3 (split; [done|]).
    intros m. rewrite fields_set_fields. case_decide; subst; [|done].
    right. by destruct (Hm m) as [-> | ->].
  - intros t [k o] t' _ (?&?&?&Hm). unfold link_step.
    destruct (_ && _); [intros [= <-]; by eauto|].
    intros Hrec. apply IH in Hrec as (?&?&?&Hm').
    do 3 (split; [congruence|]).
    intros m. destruct (Hm' m) as [-> | ->]; [done|].
    right. by destruct (Hm m) as [-> | ->].
Qed.

(** Every node that the traversal can enter gets the mapping. *)
Lemma set_response_component_status_visits trace follow_mx n m l :
  visits g trace follow_mx n m →
  ∀ fuel is_dlv s s',
    _set_response_component_status_fuel g fuel n l is_dlv trace follow_mx s = Ok s' →
    response_component_status (fields s' m) = Some l.
Proof.
  induction 1 as [trace follow_mx n nd Hnd Htrace
                 |trace follow_mx n nd k o m Hnd Htrace Hlink Hmx Hvisits IH];
    intros [|fuel] is_dlv s s'; try done.
  all: rewrite set_response_component_status_links, decide_False, Hnd by done.
  all: intros Hrun; apply bind_Ok in Hrun as (s1 & Hloop & [= <-]).
  - by rewrite fields_set_fields_eq.
  - assert (response_component_status (fields s1 m) = Some l) as Hm.
    { eapply (for_each_establish
                (λ s, response_component_status (fields s m) = Some l)) in Hloop;
        [done|done|..]; clear Hloop.
      - intros t t'. unfold link_step. simpl.
        destruct (bool_decide (k = mx_link)) eqn:Hk.
        + apply bool_decide_eq_true in Hk. rewrite (Hmx Hk). simpl. apply IH.
        + simpl. apply IH.
      - intros t [k' o'] t' _ Ht. unfold link_step.
        destruct (_ && _); [by intros [= <-]|].
        intros Hrec. by eapply set_response_component_status_keeps. }
    rewrite fields_set_fields. by destruct (decide (n = m)).
Qed.
(** Only the nodes that the traversal can enter are assigned. *)
Lemma set_response_component_status_only fuel self l is_dlv trace follow_mx s s' m :
  _set_response_component_status_fuel g fuel self l is_dlv trace follow_mx s = Ok s' →
  response_component_status (fields s' m) ≠ response_component_status (fields s m) →
  visits g trace follow_mx self m.
Proof.
  revert self is_dlv trace follow_mx s s'.
  induction fuel as [|fuel IH]; intros self is_dlv trace follow_mx s s'; [done|].
  rewrite set_response_component_status_links.
  case_decide as Htrace; [by intros [= <-]|].
  destruct (g !! self) as [nd|] eqn:Hnd; [|by intros [= <-]].
  intros Hrun. apply bind_Ok in Hrun as (s1 & Hloop & [= <-]).
  rewrite fields_set_fields.
  destruct (decide (self = m)) as [<-|Hne]; [intros _; by eapply visits_here|].
  intros Hs1.
  refine (for_each_inv (λ t,
      response_component_status (fields t m) ≠ response_component_status (fields s m) →
      visits g trace follow_mx self m) _ (links nd) s s1 _ _ Hloop Hs1); [|done].
  clear Hloop Hs1. intros t [k o] t' Hin Ht. unfold link_step. simpl.
  destruct (bool_decide (k = mx_link) && negb follow_mx) eqn:Hskip;
    [by intros [= <-]|].
  intros Hrec Hm.
  destruct (decide (response_component_status (fields t m)
                    = response_component_status (fields s m))) as [Heq|]; [|by auto].
  eapply visits_link; [done|done|by apply Hin| |].
  - intros ->. by destruct follow_mx.
  - eapply IH; [done|]. by rewrite Heq.
Qed.
End set_response_component_status.

Section component_status_theorems.
Context {P : Type} (g : graph).
Implicit Types (s : state P) (self m : node_id).

(** C10 (as the code has it).  After
    [populate_response_component_status(G)] has run on a node, one new
    mapping object is held by that node and by every node that can be
    reached from it along a path which repeats no node and never
    leaves through an MX link a node that it entered through an MX
    link; the other nodes keep what they held.  The mapping has a
    status for every DNSKEYMeta, RRsetInfo, NSECSet and
    NegativeResponseInfo that [G] indexes, whichever node it belongs
    to. *)
Theorem populate_response_component_status_shared G self s s' :
  populate_response_component_status g G self s = Ok s' →
  ∃ l rcs,
    st_dicts s !! l = None ∧ st_dicts s' !! l = Some rcs
    ∧ (∀ m, visits g [] true self m →
            response_component_status (fields s' m) = Some l)
    ∧ (∀ m, ¬ visits g [] true self m →
            response_component_status (fields s' m)
            = response_component_status (fields s m))
    ∧ (∀ obj_ node_str,
         (obj_, node_str) ∈ node_reverse_mapping G → (∀ id, obj_ ≠ other_obj id) →
         is_Some (rcs !! key_of obj_)).
Proof.
  unfold populate_response_component_status. intros Hrun.
  apply bind_Ok in Hrun as (rcs & Hrcs & Hrun).
  apply bind_Ok in Hrun as (s1 & Hset & [= <-]).
  exists (fresh (dom (st_dicts s))), rcs.
  split; [apply not_elem_of_dom, is_fresh|].
  pose proof (set_response_component_status_frame g _ _ _ _ _ _ _ _ Hset)
    as (_ & Hdicts & _ & _).
  split; [rewrite Hdicts; simpl; apply lookup_insert_eq|].
  split; [|split].
  - intros m Hm. by eapply set_response_component_status_visits.
  - intros m Hm.
    destruct (decide (response_component_status (fields s1 m)
                      = response_component_status (fields s m))) as [|Hne]; [done|].
    destruct Hm. by eapply set_response_component_status_only.
  - intros obj_ node_str. by apply component_status_complete.
Qed.
End component_status_theorems.

(** The mapping reaches the MX target of [example.] and stops there. *)
Lemma populate_response_component_status_shared_mx_chain :
  ∃ s' l, populate_response_component_status examples.mx_chain examples.trust 0
            examples.initial = Ok s'
        ∧ response_component_status (fields s' 0) = Some l
        ∧ response_component_status (fields s' 1) = Some l
        ∧ response_component_status (fields s' 2) = None
        ∧ (st_dicts s' !! l) ≫= (.!! rrset_info_key examples.soa_info)
          = Some RRSET_STATUS_SECURE.
Proof.
  set (run := populate_response_component_status examples.mx_chain examples.trust 0
                examples.initial).
  set (s' := match run with Ok s => s | _ => examples.initial end).
  assert (run = Ok s') as Hrun by (by vm_compute).
  destruct (populate_response_component_status_shared _ _ _ _ _ Hrun)
    as (l & rcs & _ & Hl & Hvisits & _ & _).
  exists s', l. split; [done|].
  split; [|split; [|split]].
  - apply Hvisits. eapply visits_here; [done|apply not_elem_of_nil].
  - apply Hvisits.
    eapply (visits_link _ [] true 0 _ mx_link 1); [done|apply not_elem_of_nil| |done|].
    + vm_compute. left.
    + eapply visits_here; [done|]. simpl. intros Hin.
      apply list_elem_of_singleton in Hin. discriminate.
  - by vm_compute.
  - assert (Some l = Some 0) as [= ->].
    { rewrite <-(Hvisits 0); [by vm_compute|].
      eapply visits_here; [done|apply not_elem_of_nil]. }
    by vm_compute.
Defined.

(** C10 (as specified) fails: [relay.example.] is reachable from
    [example.] through MX targets and does not get the mapping. *)
Lemma response_component_status_misses_mx_of_mx :
  ¬ ∀ (g : graph) (G : trust_graph) (self : node_id) (s s' : state unit),
      populate_response_component_status g G self s = Ok s' →
      ∃ l, ∀ m, reachable g self m → response_component_status (fields s' m) = Some l.
Proof.
  intros Hclaim.
  set (run := populate_response_component_status examples.mx_chain examples.trust 0
                examples.initial).
  set (s' := match run with Ok s => s | _ => examples.initial end).
  destruct (Hclaim examples.mx_chain examples.trust 0 examples.initial s') as [l Hl];
    [by vm_compute|].
  assert (reachable examples.mx_chain 0 2) as Hreach.
  { eapply (reachable_step _ 0 _ mx_link 1); [done|vm_compute; left|].
    eapply (reachable_step _ 1 _ mx_link 2); [done|vm_compute; left|].
    by eapply reachable_refl. }
  apply Hl in Hreach. revert Hreach. by vm_compute.
Qed.

(** ** RRSIG bindings *)
Section alist_lemmas.
Context {K V : Type} `{EqDecision K}.
Implicit Types (d : list (K * V)).

Lemma alist_get_set k k' v d :
  alist_get k' (alist_set k v d) = if decide (k = k') then Some v else alist_get k' d.
Proof.
  induction d as [|[k0 v0] d IH]; simpl.
  - by case_decide.
  - destruct (decide (k0 = k)) as [->|Hne]; simpl.
    + by destruct (decide (k = k')).
    + rewrite IH. destruct (decide (k0 = k')) as [->|]; [|done].
      by rewrite decide_False by congruence.
Qed.

Lemma alist_get_del k k' d :
  alist_get k' (alist_del k d) = if decide (k = k') then None else alist_get k' d.
Proof.
  unfold alist_del. induction d as [|[k0 v0] d IH]; simpl.
  - by case_decide.
  - rewrite filter_cons. simpl. destruct (decide (k0 ≠ k)) as [Hne|Heq]; simpl.
    + rewrite IH. destruct (decide (k0 = k')) as [->|]; [|done].
      by rewrite decide_False by congruence.
    + apply dec_stable in Heq as ->. rewrite IH.
      by destruct (decide (k = k')).
Qed.

Lemma alist_get_Some_elem k v d : alist_get k d = Some v → (k, v) ∈ d.
Proof.
  induction d as [|[k0 v0] d IH]; simpl; [done|].
  case_decide; [intros [= <-]; subst; left|intros; right; auto].
Qed.
End alist_lemmas.

Section index_lemmas.
Context `{Validator}.

Lemma index_dnskey_rdata_indexed dnskey_info dnskeys_ k :
  (∀ k' d, alist_get k' dnskeys_ = Some d → indexed d) →
  ∀ k' d, alist_get k' (index_dnskey_rdata dnskey_info dnskeys_ k) = Some d → indexed d.
Proof.
  intros Hall k' d. unfold index_dnskey_rdata. rewrite alist_get_set.
  case_decide; [|by apply Hall]. intros [= <-].
  destruct (alist_get k dnskeys_) as [m|] eqn:Hm; simpl; [|done].
  apply (Hall k) in Hm. exact Hm.
Qed.

Lemma _index_dnskeys_of_indexed nd k d :
  alist_get k (_index_dnskeys_of nd).2 = Some d → indexed d.
Proof.
  unfold _index_dnskeys_of.
  destruct (alist_get _ (queries nd)) as [query_|]; [|done].
  revert k d. generalize (answer_info query_). intros l.
  assert (∀ k d, alist_get k (([], []) : dnskey_index).2 = Some d → indexed d) as Hinit
    by done.
  revert Hinit. generalize (([], []) : dnskey_index).
  induction l as [|info l IH]; intros acc Hacc; simpl; [done|].
  apply IH. destruct (negb _); [done|]. simpl.
  generalize (dnskeys_of (ri.rrset info)). intros keys. revert Hacc.
  generalize acc.2. clear. intros dnskeys_.
  revert dnskeys_. induction keys as [|k keys IH]; intros dnskeys_ Hall; simpl; [done|].
  apply IH. by apply index_dnskey_rdata_indexed.
Qed.

(** The candidates of [get_dnskey_sets] carry the key tags of their
    DNSKEYs. *)
Lemma get_dnskey_sets_indexed nd dnskey_set dnskey_info d :
  (dnskey_set, dnskey_info) ∈ get_dnskey_sets nd → d ∈ dnskey_set → indexed d.
Proof.
  unfold get_dnskey_sets.
  pose proof (_index_dnskeys_of_indexed nd) as Hidx.
  destruct (_index_dnskeys_of nd) as [sets dnskeys_]. simpl in Hidx.
  intros Hin Hd. apply list_elem_of_fmap in Hin as ([keys info] & [= -> ->] & _).
  apply list_elem_of_omap in Hd as (k & _ & Hk). by eapply Hidx.
Qed.
End index_lemmas.

Section rrsig_binding_lemmas.
Context `{Collector} `{Validator} (g : graph) (P : nat → Prop).
Implicit Types (st : ev.t) (self : node_id) (rs : RRSIGStatus).

Lemma rrsig_matches_dnskey_spec rrsig_ d :
  rrsig_matches_dnskey rrsig_ d = true ↔
  protocol (dnskey_rdata d) = 3%Z
  ∧ rrsig_algorithm rrsig_ = algorithm (dnskey_rdata d)
  ∧ (rrsig_key_tag rrsig_ = key_tag d ∨ rrsig_key_tag rrsig_ = key_tag_no_revoke d).
Proof.
  unfold rrsig_matches_dnskey.
  rewrite !andb_true_iff, orb_true_iff, !bool_decide_eq_true. tauto.
Qed.

Lemma record_rrsig_status_match rs st st' :
  record_rrsig_status rs st = Ok st' →
  built_for (rrsig_status_rrsig rs) rs →
  bindings_match P (ev.rrsig_status st) → bindings_match P (ev.rrsig_status st').
Proof.
  unfold record_rrsig_status. intros Hrun [_ Hrs] Hst.
  apply bind_Ok in Hrun as (by_rrsig & Hi & Hrun).
  unfold dict_get in Hi.
  destruct (ev.rrsig_status st !! _) as [x|] eqn:Hx; [injection Hi as ->|done].
  destruct (alist_get _ by_rrsig) as [by_dnskey|] eqn:Hr; [|done].
  injection Hrun as <-. simpl.
  intros i by_rrsig' rrsig' by_dnskey' k rs' HP. rewrite lookup_insert.
  case_decide; [|by intros; eapply Hst]. intros [= <-]. subst i. rewrite alist_get_set.
  case_decide; [|by intros; eapply Hst]. subst rrsig'. intros [= <-]. rewrite alist_get_set.
  case_decide; [|by intros; eapply Hst]. by intros [= <-]; subst.
Qed.

Lemma record_rrsig_status_frame rs st st' :
  record_rrsig_status rs st = Ok st' →
  ev.rrset_errors st' = ev.rrset_errors st ∧ ev.rrset_warnings st' = ev.rrset_warnings st.
Proof.
  unfold record_rrsig_status. intros Hrun.
  apply bind_Ok in Hrun as (by_rrsig & _ & Hrun).
  destruct (alist_get _ by_rrsig); [|done]. by injection Hrun as <-.
Qed.

Lemma rrsig_try_dnskey_built nd rrset_info_ rrsig_ self_sig zn algs acc d :
  indexed d →
  (∀ rs, rs ∈ vsm_True acc.2 ++ vsm_False acc.2 ++ vsm_None acc.2 → built_for rrsig_ rs) →
  ∀ rs, rs ∈ vsm_True (rrsig_try_dnskey nd rrset_info_ rrsig_ self_sig zn algs acc d).2
             ++ vsm_False (rrsig_try_dnskey nd rrset_info_ rrsig_ self_sig zn algs acc d).2
             ++ vsm_None (rrsig_try_dnskey nd rrset_info_ rrsig_ self_sig zn algs acc d).2 →
        built_for rrsig_ rs.
Proof.
  intros Hd Hacc rs. destruct acc as [checked vsm]. unfold rrsig_try_dnskey.
  destruct (bool_decide (_ ∈ checked)); [by apply Hacc|].
  destruct (_ && negb _); [by apply Hacc|].
  destruct (rrsig_matches_dnskey rrsig_ d) eqn:Hmatch; simpl; [|by apply Hacc].
  apply rrsig_matches_dnskey_spec in Hmatch as (?&?&?).
  set (new := new_RRSIGStatus _ _ _ _ _ _).
  assert (built_for rrsig_ new) as Hnew
    by (unfold new, new_RRSIGStatus, built_for, binding_ok; simpl; by destruct Hd).
  unfold vsm_add. destruct (signature_valid new) as [[]|]; simpl.
  all: rewrite !elem_of_app, ?list_elem_of_singleton.
  all: intros Hin; simpl in Hacc; setoid_rewrite elem_of_app in Hacc.
  all: setoid_rewrite elem_of_app in Hacc.
  all: destruct Hin as [Hin|[Hin|Hin]]; try (apply Hacc; tauto).
  all: try (destruct Hin as [Hin| ->]; [apply Hacc; tauto|done]).
Qed.

Lemma vsm_selected_built rrsig_ (m : validation_status_mapping) rs :
  (∀ rs, rs ∈ vsm_True m ++ vsm_False m ++ vsm_None m → built_for rrsig_ rs) →
  rs ∈ vsm_selected m → built_for rrsig_ rs.
Proof.
  intros Hm. unfold vsm_selected.
  repeat case_bool_decide; intros Hin; apply Hm; rewrite !elem_of_app; tauto.
Qed.

Lemma rrsig_record_selected_match nd rrset_info_ rs st st' :
  rrsig_record_selected nd rrset_info_ st rs = Ok st' →
  built_for (rrsig_status_rrsig rs) rs →
  bindings_match P (ev.rrsig_status st) → bindings_match P (ev.rrsig_status st').
Proof.
  unfold rrsig_record_selected. intros Hrun Hrs Hst.
  apply bind_Ok in Hrun as (st1 & H1 & Hrun).
  apply record_rrsig_status_match in H1; [|done..].
  destruct (_ && _); [|by injection Hrun as <-].
  destruct (rrsig_status_dnskey rs); [|by injection Hrun as <-].
  case_decide; by injection Hrun as <-.
Qed.

Lemma rrsig_try_dnskey_set_match nd rrset_info_ rrsig_ self_sig zn algs acc item acc' :
  (∀ d, d ∈ item.1 → indexed d) →
  rrsig_try_dnskey_set nd rrset_info_ rrsig_ self_sig zn algs acc item = Ok acc' →
  bindings_match P (ev.rrsig_status acc.2) → bindings_match P (ev.rrsig_status acc'.2).
Proof.
  intros Hidx. unfold rrsig_try_dnskey_set. destruct acc as [checked st]. simpl.
  assert (∀ l acc0,
    (∀ d, d ∈ l → indexed d) →
    (∀ rs, rs ∈ vsm_True acc0.2 ++ vsm_False acc0.2 ++ vsm_None acc0.2 →
           built_for rrsig_ rs) →
    ∀ rs, rs ∈ vsm_selected
                 (foldl (rrsig_try_dnskey nd rrset_info_ rrsig_ self_sig zn algs) acc0 l).2 →
          built_for rrsig_ rs) as Hfold.
  { induction l as [|d l IH]; intros acc0 Hl Hacc0 rs; simpl.
    - by apply vsm_selected_built.
    - apply IH; [intros; apply Hl; by right|].
      apply rrsig_try_dnskey_built; [apply Hl; by left|done]. }
  specialize (Hfold item.1 (checked, mkVSM [] [] []) Hidx).
  destruct (foldl _ _ _) as [checked' vsm]. simpl in Hfold.
  intros Hrun Hst. apply bind_Ok in Hrun as (st1 & Hloop & [= <-]). simpl.
  eapply (for_each_inv (λ st, bindings_match P (ev.rrsig_status st))) in Hloop; [done| |done].
  intros t rs t' Hrs Ht Hstep.
  assert (built_for rrsig_ rs) as Hb.
  { apply Hfold; [|done]. simpl. intros ? Hin. by apply not_elem_of_nil in Hin. }
  eapply rrsig_record_selected_match; [done| |done].
  pose proof Hb as [Heq _]. by rewrite Heq.
Qed.

Lemma rrsig_no_dnskey_match nd rrset_info_ rrsig_ algs st st' :
  rrsig_no_dnskey g nd rrset_info_ rrsig_ algs st = Ok st' →
  bindings_match P (ev.rrsig_status st) → bindings_match P (ev.rrsig_status st').
Proof.
  unfold rrsig_no_dnskey. intros Hr Hst.
  apply bind_Ok in Hr as (by_dnskey & _ & Hr).
  destruct (bool_decide _); [|by injection Hr as <-].
  apply bind_Ok in Hr as (z & _ & Hr).
  eapply record_rrsig_status_match; [done| |done]. by split.
Qed.

Lemma rrsig_status_step_match self nd rrset_info_ zn in_dnskey in_ds in_dlv algs acc item acc' :
  rrsig_status_step g self nd rrset_info_ zn in_dnskey in_ds in_dlv algs acc item = Ok acc' →
  bindings_match P (ev.rrsig_status acc.2) → bindings_match P (ev.rrsig_status acc'.2).
Proof.
  unfold rrsig_status_step. destruct acc as [a st], item as [rrsig_ sc]. simpl.
  intros Hrun Hst. apply bind_Ok in Hrun as (by_rrsig & Hi & Hrun).
  unfold dict_get in Hi.
  destruct (ev.rrsig_status st !! _) as [x|] eqn:Hx; [injection Hi as ->|done].
  set (st0 := ev.set_rrsig_status _ st) in Hrun.
  assert (bindings_match P (ev.rrsig_status st0)) as Hst0.
  { clear Hrun. intros i by_rrsig' rrsig' by_dnskey k rs HP. unfold st0. simpl.
    rewrite lookup_insert. case_decide; [|by intros; eapply Hst]. intros [= <-].
    subst i. rewrite alist_get_set. case_decide; [by intros [= <-]|by intros; eapply Hst]. }
  clearbody st0.
  destruct (obj g _) as [signer|].
  2: { apply bind_Ok in Hrun as (st1 & Hno & [= <-]). simpl.
       by eapply rrsig_no_dnskey_match. }
  destruct (stub signer); [by injection Hrun as <-|].
  apply bind_Ok in Hrun as ([checked st1] & Hloop & Hrun).
  apply bind_Ok in Hrun as (st2 & Hno & [= <-]). simpl in *.
  eapply rrsig_no_dnskey_match; [done|].
  eapply (for_each_inv (λ acc, bindings_match P (ev.rrsig_status acc.2))) in Hloop;
    [done| |done].
  intros t [dnskey_set info] t' Hin Ht Hstep.
  eapply rrsig_try_dnskey_set_match; [|done..].
  intros d Hd. eapply get_dnskey_sets_indexed; [apply Hin|done].
Qed.

Lemma _initialize_rrset_status_match r st :
  bindings_match P (ev.rrsig_status st) →
  bindings_match P (ev.rrsig_status (_initialize_rrset_status r st)).
Proof.
  intros Hst i by_rrsig rrsig_ by_dnskey k rs HP. simpl. rewrite lookup_insert.
  case_decide; [by intros [= <-]|by intros; eapply Hst].
Qed.

Lemma rrset_error_rrsig_status r e t st st' :
  rrset_error r e t st = Ok st' → ev.rrsig_status st' = ev.rrsig_status st.
Proof.
  unfold rrset_error. intros Hr. by apply bind_Ok in Hr as (? & _ & [= <-]).
Qed.

Lemma rrset_errors_rrsig_status {A} r (e : A → error) t (l : list A) st st' :
  for_each (λ st a, rrset_error r (e a) t st) l st = Ok st' →
  ev.rrsig_status st' = ev.rrsig_status st.
Proof.
  intros Hr.
  eapply (for_each_inv (λ s, ev.rrsig_status s = ev.rrsig_status st)) in Hr; [done| |done].
  intros s a s' _ Hs Hstep. apply rrset_error_rrsig_status in Hstep. congruence.
Qed.

Lemma missing_rrsig_errors_rrsig_status r qname_obj in_dnskey in_ds in_dlv algs st st' :
  missing_rrsig_errors g r qname_obj in_dnskey in_ds in_dlv algs st = Ok st' →
  ev.rrsig_status st' = ev.rrsig_status st.
Proof.
  unfold missing_rrsig_errors. intros Hr.
  eapply (for_each_inv (λ s, ev.rrsig_status s = ev.rrsig_status st)) in Hr; [done| |done].
  clear Hr. intros s [t seen] s' _ Hs Hstep. rewrite <- Hs. clear Hs.
  destruct (bool_decide (seen = ∅)).
  - destruct (dnssec_requested t.2); [by eapply rrset_error_rrsig_status|].
    destruct qname_obj as [o|]; [|by injection Hstep as <-].
    apply bind_Ok in Hstep as (nd & _ & Hstep).
    apply bind_Ok in Hstep as (z & _ & Hstep).
    destruct (server_responsive_with_do _ _ _ _ _);
      [by eapply rrset_error_rrsig_status|by injection Hstep as <-].
  - apply bind_Ok in Hstep as (s1 & H1 & Hstep).
    apply bind_Ok in Hstep as (s2 & H2 & H3).
    apply rrset_errors_rrsig_status in H1, H2, H3. congruence.
Qed.

Lemma rrset_response_errors_rrsig_status r qname_obj st st' :
  rrset_response_errors g r qname_obj st = Ok st' →
  ev.rrsig_status st' = ev.rrsig_status st.
Proof.
  unfold rrset_response_errors. intros Hr.
  eapply (for_each_inv (λ s, ev.rrsig_status s = ev.rrsig_status st)) in Hr; [done| |done].
  clear Hr. intros s t s' _ Hs Hstep. rewrite <- Hs.
  apply bind_Ok in Hstep as (w & _ & Hstep).
  apply bind_Ok in Hstep as (e & _ & Hstep).
  by apply bind_Ok in Hstep as (x & _ & [= <-]).
Qed.

Lemma nested_in_depth inner outer :
  nested_in inner outer → wildcard_depth inner < wildcard_depth outer.
Proof.
  intros (w & n & e & Hw & Hn & He & <-). destruct outer; simpl in *.
  apply Nat.lt_succ_r.
  etrans; [|apply max_list_elem_of_le, list_elem_of_fmap; eexists; split; [done|apply Hw]].
  etrans; [|apply max_list_elem_of_le, list_elem_of_fmap; eexists; split; [done|apply Hn]].
  apply max_list_elem_of_le, list_elem_of_fmap. by eexists.
Qed.

Lemma _populate_wildcard_status_match validate r qname_obj st st' :
  (∀ r' s s', nested_in r' r → validate r' s = Ok s' →
     bindings_match P (ev.rrsig_status s) → bindings_match P (ev.rrsig_status s')) →
  _populate_wildcard_status g validate r qname_obj st = Ok st' →
  bindings_match P (ev.rrsig_status st) → bindings_match P (ev.rrsig_status st').
Proof.
  intros Hval Hrun Hst. unfold _populate_wildcard_status in Hrun.
  eapply (for_each_inv (λ s, bindings_match P (ev.rrsig_status s))) in Hrun; [done| |done].
  clear Hrun. intros s [wildcard_name w] s' Hw Hs Hstep.
  apply bind_Ok in Hstep as (zn & _ & Hstep).
  apply bind_Ok in Hstep as ([tr s1] & Hloop & Hstep).
  eapply (for_each_inv (λ acc : nsec_tracking * ev.t, bindings_match P (ev.rrsig_status acc.2)))
    in Hloop; [| |done].
  - eapply (for_each_inv (λ s, bindings_match P (ev.rrsig_status s))) in Hstep; [done| |done].
    intros s2 t s2' _ Hs2 Herr. apply rrset_error_rrsig_status in Herr. by rewrite Herr.
  - intros [tr0 s0] n [tr0' s0'] Hn Hs0 Hbody. simpl in *.
    apply bind_Ok in Hbody as (s2 & Hrrsets & [= _ <-]).
    eapply (for_each_inv (λ s, bindings_match P (ev.rrsig_status s))) in Hrrsets; [done| |done].
    intros s3 e s3' He. intros; eapply Hval; [|done..].
    by exists (wildcard_name, w), n, e.
Qed.

Lemma _populate_rrsig_status_with_initialized validate self nd query_ r qname_obj algs pre
    st st' :
  (∀ r' s s', nested_in r' r → validate r' s = Ok s' →
     bindings_match P (ev.rrsig_status s) → bindings_match P (ev.rrsig_status s')) →
  _populate_rrsig_status_with g validate self nd query_ r qname_obj algs pre st = Ok st' →
  bindings_match P (ev.rrsig_status (_initialize_rrset_status r st)) →
  bindings_match P (ev.rrsig_status st').
Proof.
  intros Hval Hrun Hst. unfold _populate_rrsig_status_with in Hrun.
  revert Hrun Hst. generalize (_initialize_rrset_status r st). clear st. intros st Hrun Hst.
  apply bind_Ok in Hrun as (zn & _ & Hrun).
  apply bind_Ok in Hrun as ([[in_dnskey in_ds] in_dlv] & _ & Hrun).
  apply bind_Ok in Hrun as ([has_dname st1] & Hdname & Hrun).
  assert (ev.rrsig_status st1 = ev.rrsig_status st) as Hst1.
  { clear Hrun. destruct (decide _); [|by injection Hdname as _ <-].
    apply bind_Ok in Hdname as ([l o] & _ & Hdname).
    destruct l; [by injection Hdname as _ <-|].
    destruct o; by injection Hdname as _ <-. }
  rewrite <- Hst1 in Hst. clear Hst1 Hdname.
  apply bind_Ok in Hrun as ([algs' st2] & Hloop & Hrun).
  eapply (for_each_inv (λ acc : algs_signing * ev.t, bindings_match P (ev.rrsig_status acc.2)))
    in Hloop; [| |exact Hst].
  2: { intros acc item acc' _ Hacc Hstep. by eapply rrsig_status_step_match. }
  simpl in Hloop.
  apply bind_Ok in Hrun as (st3 & Hmissing & Hrun).
  apply missing_rrsig_errors_rrsig_status in Hmissing. rewrite <- Hmissing in Hloop.
  apply bind_Ok in Hrun as (st4 & Hwild & Hrun).
  eapply _populate_wildcard_status_match in Hwild; [|done..].
  destruct pre; [|by injection Hrun as <-].
  apply rrset_response_errors_rrsig_status in Hrun. by rewrite Hrun.
Qed.

Lemma _populate_rrsig_status_with_match validate self nd query_ r qname_obj algs pre st st' :
  (∀ r' s s', nested_in r' r → validate r' s = Ok s' →
     bindings_match P (ev.rrsig_status s) → bindings_match P (ev.rrsig_status s')) →
  _populate_rrsig_status_with g validate self nd query_ r qname_obj algs pre st = Ok st' →
  bindings_match P (ev.rrsig_status st) → bindings_match P (ev.rrsig_status st').
Proof.
  intros Hval Hrun Hst. eapply _populate_rrsig_status_with_initialized; [done..|].
  by apply _initialize_rrset_status_match.
Qed.

Lemma _populate_rrsig_status_unfold self nd query_ r qname_obj algs pre st :
  _populate_rrsig_status g self nd query_ r qname_obj algs pre st =
  _populate_rrsig_status_with g
    (λ r' s, _populate_rrsig_status g self nd query_ r' qname_obj algs true s)
    self nd query_ r qname_obj algs pre st.
Proof. by destruct r. Qed.

Lemma _populate_rrsig_status_match self nd query_ r qname_obj algs pre st st' :
  _populate_rrsig_status g self nd query_ r qname_obj algs pre st = Ok st' →
  bindings_match P (ev.rrsig_status st) → bindings_match P (ev.rrsig_status st').
Proof.
  remember (wildcard_depth r) as n eqn:Hn. revert r Hn pre st st'.
  induction (lt_wf n) as [n _ IH]. intros r -> pre st st'.
  rewrite _populate_rrsig_status_unfold.
  apply _populate_rrsig_status_with_match.
  intros r' s s' Hnested. eapply IH; [|done]. by apply nested_in_depth.
Qed.
End rrsig_binding_lemmas.

Section rrsig_bindings_of_rrset.
Context `{Collector} `{Validator} (g : graph).

(** After [_populate_rrsig_status] on an RRset, all the entries of
    [rrsig_status] for this RRset are entries "no DNSKEY" or entries
    of DNSKEYs that passed the three conditions, whatever the
    evaluator held before. *)
Lemma _populate_rrsig_status_bindings self nd query_ r qname_obj algs pre st st' :
  _populate_rrsig_status g self nd query_ r qname_obj algs pre st = Ok st' →
  bindings_match (λ i, i = ri.id r) (ev.rrsig_status st').
Proof.
  rewrite _populate_rrsig_status_unfold. intros Hrun.
  eapply _populate_rrsig_status_with_initialized; [|done|].
  - intros r' s s' _. apply _populate_rrsig_status_match.
  - intros i by_rrsig rrsig_ by_dnskey k rs ->. simpl. rewrite lookup_insert_eq.
    by intros [= <-].
Qed.

(** C2. For an RRSIG of the RRset that [_populate_rrsig_status] was run
    on: an entry of a DNSKEY in [rrsig_status[rrset_info][rrsig]] is
    the status of a DNSKEY with protocol 3, the algorithm of the RRSIG
    and one of its two key tags equal to the key tag of the RRSIG; and
    a candidate DNSKEY of a DNSKEY set (of any name) that fails one of
    the three conditions has no entry there. *)
Theorem rrsig_status_bindings self nd query_ r qname_obj algs pre st st'
    rrsig_ by_rrsig by_dnskey :
  _populate_rrsig_status g self nd query_ r qname_obj algs pre st = Ok st' →
  ev.rrsig_status st' !! ri.id r = Some by_rrsig →
  alist_get rrsig_ by_rrsig = Some by_dnskey →
  (∀ k rs, alist_get (Some k) by_dnskey = Some rs →
     ∃ d, rrsig_status_dnskey rs = Some d ∧ k = key_of_dnskey d
          ∧ protocol (dnskey_rdata d) = 3%Z
          ∧ rrsig_algorithm rrsig_ = algorithm (dnskey_rdata d)
          ∧ (rrsig_key_tag rrsig_ = key_tag d ∨ rrsig_key_tag rrsig_ = key_tag_no_revoke d))
  ∧ (∀ signer dnskey_set dnskey_info d,
       (dnskey_set, dnskey_info) ∈ get_dnskey_sets signer → d ∈ dnskey_set →
       ¬ (protocol (dnskey_rdata d) = 3%Z
          ∧ rrsig_algorithm rrsig_ = algorithm (dnskey_rdata d)
          ∧ (rrsig_key_tag rrsig_ = key_tag d ∨ rrsig_key_tag rrsig_ = key_tag_no_revoke d)) →
       alist_get (Some (key_of_dnskey d)) by_dnskey = None).
Proof.
  intros Hrun Hi Hsig. apply _populate_rrsig_status_bindings in Hrun.
  assert (∀ k rs, alist_get (Some k) by_dnskey = Some rs →
            ∃ d, rrsig_status_dnskey rs = Some d ∧ k = key_of_dnskey d ∧ indexed d
                 ∧ protocol (dnskey_rdata d) = 3%Z
                 ∧ rrsig_algorithm rrsig_ = algorithm (dnskey_rdata d)
                 ∧ (rrsig_key_tag rrsig_ = key_tag d
                    ∨ rrsig_key_tag rrsig_ = key_tag_no_revoke d)) as Hentry.
  { intros k rs Hk. pose proof (Hrun _ _ _ _ _ _ eq_refl Hi Hsig Hk) as Hok.
    unfold binding_ok in Hok. destruct (rrsig_status_dnskey rs) as [d|]; [|done].
    destruct Hok as ([= ->] & ? & ? & ? & ?). by exists d. }
  split.
  - intros k rs Hk. destruct (Hentry k rs Hk) as (d & ? & ? & _ & ?). by exists d.
  - intros signer dnskey_set dnskey_info d Hset Hd Hfails.
    destruct (alist_get (Some (key_of_dnskey d)) by_dnskey) as [rs|] eqn:Hk; [|done].
    destruct (Hentry _ rs Hk) as (d' & _ & [= _ Hrdata] & [Htag Htag'] & ? & ? & ?).
    destruct Hfails. pose proof (get_dnskey_sets_indexed _ _ _ _ Hset Hd) as [Hd1 Hd2].
    rewrite Hd1, Hd2, Hrdata, <- Htag, <- Htag'. done.
Qed.
End rrsig_bindings_of_rrset.

(** The RRSIG of the A RRset of [example.] is bound to the DNSKEY of
    algorithm 8 and not to the DNSKEY of algorithm 13. *)
Lemma rrsig_status_bindings_signed_zone :
  ∃ st' by_rrsig by_dnskey,
    @_populate_rrsig_status examples.collector examples.validator examples.signed_graph 0
      examples.signed_zone examples.a_query examples.a_info (Some 0) {[8%Z; 13%Z]} true
      ev.empty = Ok st'
    ∧ ev.rrsig_status st' !! 4 = Some by_rrsig
    ∧ alist_get examples.sig8 by_rrsig = Some by_dnskey
    ∧ is_Some (alist_get (Some ("example.", examples.zsk8)) by_dnskey)
    ∧ alist_get (Some ("example.", examples.zsk13)) by_dnskey = None.
Proof.
  set (run := @_populate_rrsig_status examples.collector examples.validator
                examples.signed_graph 0 examples.signed_zone examples.a_query
                examples.a_info (Some 0) {[8%Z; 13%Z]} true ev.empty).
  set (st' := match run with Ok s => s | _ => ev.empty end).
  set (by_rrsig := default [] (ev.rrsig_status st' !! 4)).
  set (by_dnskey := default [] (alist_get examples.sig8 by_rrsig)).
  assert (run = Ok st') as Hrun by (by vm_compute).
  assert (ev.rrsig_status st' !! 4 = Some by_rrsig) as Hi by (by vm_compute).
  assert (alist_get examples.sig8 by_rrsig = Some by_dnskey) as Hsig by (by vm_compute).
  exists st', by_rrsig, by_dnskey. do 3 (split; [done|]).
  split; [vm_compute; by eexists|].
  destruct (@rrsig_status_bindings examples.collector examples.validator
              examples.signed_graph 0 examples.signed_zone examples.a_query
              examples.a_info (Some 0) {[8%Z; 13%Z]} true ev.empty st'
              examples.sig8 by_rrsig by_dnskey Hrun Hi Hsig) as [_ Hskipped].
  apply (Hskipped examples.signed_zone
           [mkDNSKEYMeta 0 "example." examples.zsk8 3600 260 260
              [examples.dnskey_info] [(("192.0.2.1", "192.0.2.100"), [examples.response1])];
            mkDNSKEYMeta 1 "example." examples.zsk13 3600 261 261
              [examples.dnskey_info] [(("192.0.2.1", "192.0.2.100"), [examples.response1])]]
           examples.dnskey_info
           (mkDNSKEYMeta 1 "example." examples.zsk13 3600 261 261
              [examples.dnskey_info] [(("192.0.2.1", "192.0.2.100"), [examples.response1])])).
  - apply (list_elem_of_lookup_2 _ 0). by vm_compute.
  - apply (list_elem_of_lookup_2 _ 1). done.
  - simpl. intros (_ & [=] & _).
Defined.

(** ** The wildcard evaluator without an object for the query name *)
Section wildcard_without_qname_obj.
Context `{Collector} `{Validator} (g : graph).

(** The first iteration of the loop over the wildcard bundles reads
    the unbound name. *)
Lemma wildcard_status_name_error validate (r : rrset_info) (st : ev.t) w l :
  ri.wildcard_info r = w :: l →
  _populate_wildcard_status g validate r None st = Raise (NameError "wildcard_info").
Proof.
  unfold _populate_wildcard_status. intros ->. by destruct w.
Qed.

(** C8 (as the code has it). When [qname_obj] is [None] and the RRset
    has at least one wildcard bundle, [_populate_wildcard_status] does
    not complete: the branch that derives the zone name reads the
    name [wildcard_info], which is not bound, and the call ends with
    [NameError] before any status is recorded. *)
Theorem _populate_wildcard_status_raises validate (r : rrset_info) (st : ev.t) :
  ri.wildcard_info r ≠ [] →
  _populate_wildcard_status g validate r None st = Raise (NameError "wildcard_info").
Proof.
  destruct (ri.wildcard_info r) as [|w l] eqn:Hw; [done|]. intros _.
  by eapply wildcard_status_name_error.
Qed.

(** The same for [_populate_rrsig_status], which ends with the call of
    [_populate_wildcard_status]: it does not return. *)
Lemma _populate_rrsig_status_raises self nd query_ r algs pre (st : ev.t) st' :
  ri.wildcard_info r ≠ [] →
  _populate_rrsig_status g self nd query_ r None algs pre st ≠ Ok st'.
Proof.
  intros Hw. rewrite _populate_rrsig_status_unfold. unfold _populate_rrsig_status_with.
  intros Hrun.
  apply bind_Ok in Hrun as (zn & _ & Hrun).
  apply bind_Ok in Hrun as ([[in_dnskey in_ds] in_dlv] & _ & Hrun).
  apply bind_Ok in Hrun as ([has_dname st1] & _ & Hrun).
  apply bind_Ok in Hrun as ([algs' st2] & _ & Hrun).
  apply bind_Ok in Hrun as (st3 & _ & Hrun).
  apply bind_Ok in Hrun as (st4 & Hwild & _).
  destruct (ri.wildcard_info r) as [|w l] eqn:Hinfo; [done|].
  by rewrite (wildcard_status_name_error _ _ _ _ _ Hinfo) in Hwild.
Qed.
End wildcard_without_qname_obj.

(** The wildcard-synthesized A RRset of [w.example.], evaluated
    without an object for its name. *)
Lemma _populate_wildcard_status_raises_example :
  @_populate_wildcard_status examples.validator examples.signed_graph
    (λ _ st, Ok st) examples.wildcard_a_info None ev.empty
  = Raise (NameError "wildcard_info").
Proof.
  apply (@_populate_wildcard_status_raises examples.validator
           examples.signed_graph (λ _ st, Ok st) examples.wildcard_a_info ev.empty).
  done.
Defined.

(** ** The statuses of a negative response *)
Section alist_keys.
Context {K V : Type} `{EqDecision K}.
Implicit Types (d : list (K * V)).

Lemma alist_set_keys_elem k v d k1 : k1 ∈ (alist_set k v d).*1 → k1 = k ∨ k1 ∈ d.*1.
Proof.
  induction d as [|[k0 v0] d IH]; simpl.
  - rewrite list_elem_of_singleton. by left.
  - destruct (decide (k0 = k)) as [->|Hne]; simpl; rewrite !elem_of_cons; [tauto|].
    intros [->|Hin]; [tauto|]. destruct (IH Hin); tauto.
Qed.

Lemma alist_set_keys k v d : NoDup d.*1 → NoDup (alist_set k v d).*1.
Proof.
  induction d as [|[k0 v0] d IH]; simpl; [intros; apply NoDup_singleton|].
  rewrite !NoDup_cons. intros [Hk0 Hd]. destruct (decide (k0 = k)) as [->|Hne]; simpl.
  - by rewrite NoDup_cons.
  - rewrite NoDup_cons. split; [|by apply IH].
    intros [->|Hin]%alist_set_keys_elem; done.
Qed.

Lemma alist_del_keys k d : NoDup d.*1 → NoDup (alist_del k d).*1.
Proof.
  unfold alist_del. induction d as [|[k0 v0] d IH]; simpl; [done|].
  rewrite NoDup_cons. intros [Hk0 Hd]. rewrite filter_cons. simpl.
  destruct (decide (k0 ≠ k)); [|by apply IH]. simpl. rewrite NoDup_cons.
  split; [|by apply IH]. intros Hin. apply Hk0.
  apply list_elem_of_fmap in Hin as (p & -> & Hin). apply list_elem_of_filter in Hin as [_ Hin].
  apply list_elem_of_fmap. by exists p.
Qed.

Lemma alist_get_elem k v d : NoDup d.*1 → (k, v) ∈ d → alist_get k d = Some v.
Proof.
  induction d as [|[k0 v0] d IH]; simpl; [by intros _ ?%not_elem_of_nil|].
  rewrite NoDup_cons. intros [Hk0 Hd] Hin. apply elem_of_cons in Hin as [[= <- <-]|Hin].
  - by rewrite decide_True.
  - rewrite decide_False; [by apply IH|]. intros ->. apply Hk0.
    apply list_elem_of_fmap. by exists (k, v).
Qed.
End alist_keys.

Lemma valid_statuses_valid computed s :
  s ∈ valid_statuses computed → nsec_validation_status s = NSEC_STATUS_VALID.
Proof.
  induction computed as [|p computed IH] using rev_ind; [by intros ?%not_elem_of_nil|].
  unfold valid_statuses. rewrite foldl_snoc. fold (valid_statuses computed).
  destruct (decide _) as [Hv|]; [|done]. unfold set_add.
  destruct (decide _); [done|]. rewrite elem_of_app, list_elem_of_singleton.
  intros [?| ->]; auto.
Qed.

Lemma set_add_NoDup {A} `{EqDecision A} (x : A) l : NoDup l → NoDup (set_add x l).
Proof.
  intros Hl. unfold set_add. destruct (decide _); [done|].
  apply NoDup_app. split; [done|]. split; [|apply NoDup_singleton].
  by intros y Hy ->%list_elem_of_singleton.
Qed.

Lemma valid_statuses_NoDup computed : NoDup (valid_statuses computed).
Proof.
  induction computed as [|p computed IH] using rev_ind; [apply NoDup_nil_2|].
  unfold valid_statuses. rewrite foldl_snoc. fold (valid_statuses computed).
  destruct (decide _); [by apply set_add_NoDup|done].
Qed.

(** The statuses that [final_statuses] appends. *)
Lemma final_statuses_appended (l0 : list NSECStatus) (d : list (triple * NSECStatus)) :
  NoDup l0 →
  ∃ rest, foldl (λ l (p : triple * NSECStatus), set_add p.2 l) l0 d = l0 ++ rest
          ∧ NoDup (l0 ++ rest)
          ∧ ∀ s, s ∈ rest ↔ ((s ∉ l0) ∧ ∃ t, (t, s) ∈ d).
Proof.
  revert l0. induction d as [|[t0 s0] d IH]; intros l0 Hl0; simpl.
  - exists []. rewrite app_nil_r. split; [done|]. split; [done|].
    intros s. split; [by intros ?%not_elem_of_nil|]. by intros (_ & ? & ?%not_elem_of_nil).
  - destruct (IH (set_add s0 l0) (set_add_NoDup _ _ Hl0)) as (rest & Heq & Hnd & Hrest).
    unfold set_add in *. destruct (decide (s0 ∈ l0)) as [Hin|Hin].
    + exists rest. split; [done|]. split; [done|]. intros s. rewrite Hrest.
      split; [intros (? & t & ?); split; [done|]; exists t; by right|].
      intros (Hs & t & [[= -> ->]|?]%elem_of_cons); [done|]. split; [done|]. by exists t.
    + exists (s0 :: rest). rewrite <- app_assoc in Heq, Hnd. simpl in *.
      split; [done|]. split; [done|]. intros s. rewrite elem_of_cons, Hrest, elem_of_app.
      rewrite list_elem_of_singleton. split.
      * intros [->|(Hs & t & ?)]; [split; [done|]; exists t0; by left|].
        split; [tauto|]. exists t. by right.
      * intros (Hs & t & [[= -> ->]|?]%elem_of_cons); [by left|].
        destruct (decide (s = s0)) as [->|]; [by left|]. right.
        split; [tauto|]. by exists t.
Qed.
Section tracking.
Context (retained : triple → bool).
Implicit Types (tr : nsec_tracking) (s : NSECStatus) (n : nsec_set) (t : triple).

Lemma track_responses_statuses s ts tr :
  statuses (foldl (track_response retained s) tr ts) = statuses tr.
Proof. revert tr. induction ts as [|t ts IH]; intros tr; simpl; [done|]. by rewrite IH. Qed.

Lemma track_responses_keys s ts tr :
  NoDup (status_by_response tr).*1 →
  NoDup (status_by_response (foldl (track_response retained s) tr ts)).*1.
Proof.
  revert tr. induction ts as [|t ts IH]; intros tr Htr; simpl; [done|].
  apply IH. unfold track_response. simpl.
  destruct (decide _); [by apply alist_del_keys|].
  destruct (retained t); [by apply alist_set_keys|done].
Qed.

Lemma track_responses_get s ts tr t :
  alist_get t (status_by_response (foldl (track_response retained s) tr ts)) =
  if decide (t ∈ ts) then
    if decide (nsec_validation_status s = NSEC_STATUS_VALID) then None
    else if retained t then Some s else alist_get t (status_by_response tr)
  else alist_get t (status_by_response tr).
Proof.
  revert tr. induction ts as [|t0 ts IH]; intros tr; simpl.
  - done.
  - rewrite IH. unfold track_response. simpl.
    destruct (decide (t ∈ ts)) as [Hin|Hin].
    + rewrite (decide_True (P:=t ∈ t0 :: ts)) by by right.
      destruct (decide (nsec_validation_status s = _)); [done|].
      destruct (retained t) eqn:Ht; [done|].
      destruct (retained t0) eqn:Ht0; [|done].
      rewrite alist_get_set. rewrite decide_False; [done|]. intros ->. congruence.
    + destruct (decide (t0 = t)) as [->|Hne].
      * rewrite (decide_True (P:=t ∈ t :: ts)) by by left.
        destruct (decide (nsec_validation_status s = _)).
        -- rewrite alist_get_del. by rewrite decide_True.
        -- destruct (retained t); [|done]. rewrite alist_get_set. by rewrite decide_True.
      * rewrite (decide_False (P:=t ∈ t0 :: ts))
          by (rewrite elem_of_cons; intros [?|?]; congruence).
        destruct (decide (nsec_validation_status s = _)).
        -- rewrite alist_get_del. by rewrite decide_False.
        -- destruct (retained t0); [|done]. rewrite alist_get_set. by rewrite decide_False.
Qed.

Lemma track_all_snoc computed p tr :
  track_all retained (computed ++ [p]) tr
  = track_nsec_set retained p.1 p.2 (track_all retained computed tr).
Proof. unfold track_all. by rewrite foldl_snoc. Qed.

Lemma track_all_statuses computed tr :
  statuses tr = [] →
  statuses (track_all retained computed tr) = valid_statuses computed.
Proof.
  intros Htr. induction computed as [|p computed IH] using rev_ind; [done|].
  rewrite track_all_snoc. unfold valid_statuses. rewrite foldl_snoc.
  fold (valid_statuses computed). unfold track_nsec_set.
  rewrite track_responses_statuses. simpl. by rewrite IH.
Qed.

Lemma track_all_keys computed tr :
  NoDup (status_by_response tr).*1 →
  NoDup (status_by_response (track_all retained computed tr)).*1.
Proof.
  intros Htr. induction computed as [|p computed IH] using rev_ind; [done|].
  rewrite track_all_snoc. by apply track_responses_keys.
Qed.

Lemma retained_status_not_retained t computed :
  retained t = false → retained_status retained t computed = None.
Proof.
  intros Ht. unfold retained_status. destruct (last_status_for t computed); simpl; [|done].
  destruct (decide _); [done|]. by rewrite Ht.
Qed.

Lemma retained_status_snoc t computed (p : NSECStatus * nsec_set) :
  retained_status retained t (computed ++ [p]) =
  if decide (t ∈ triples (nsec.servers_clients p.2)) then
    if decide (nsec_validation_status p.1 = NSEC_STATUS_VALID) then None
    else if retained t then Some p.1 else None
  else retained_status retained t computed.
Proof.
  unfold retained_status, last_status_for. rewrite foldl_snoc.
  by destruct (decide (t ∈ _)).
Qed.

(** What the loop holds for a response after the NSEC sets. *)
Lemma track_all_get computed tr t :
  status_by_response tr = [] →
  alist_get t (status_by_response (track_all retained computed tr))
  = retained_status retained t computed.
Proof.
  intros Htr. induction computed as [|p computed IH] using rev_ind.
  - simpl. by rewrite Htr.
  - rewrite track_all_snoc, retained_status_snoc. unfold track_nsec_set.
    rewrite track_responses_get. simpl. rewrite IH.
    destruct (decide (t ∈ _)); [|done].
    destruct (decide _); [done|].
    destruct (retained t) eqn:Ht; [done|]. by apply retained_status_not_retained.
Qed.

End tracking.

(** The last NSEC set that came with a response. *)
Lemma last_status_for_snoc t computed (p : NSECStatus * nsec_set) :
  last_status_for t (computed ++ [p])
  = if decide (t ∈ triples (nsec.servers_clients p.2)) then Some p.1
    else last_status_for t computed.
Proof. unfold last_status_for. by rewrite foldl_snoc. Qed.

Lemma last_status_for_split t computed s :
  last_status_for t computed = Some s →
  ∃ l1 q l2, computed = l1 ++ q :: l2 ∧ q.1 = s
             ∧ t ∈ triples (nsec.servers_clients q.2)
             ∧ ∀ r, r ∈ l2 → t ∉ triples (nsec.servers_clients r.2).
Proof.
  induction computed as [|p computed IH] using rev_ind; [done|].
  rewrite last_status_for_snoc. destruct (decide _) as [Hin|Hout].
  - intros [= <-]. exists computed, p, []. do 3 (split; [done|]).
    by intros r ?%not_elem_of_nil.
  - intros (l1 & q & l2 & -> & Hq & Hin & Hlater)%IH.
    exists l1, q, (l2 ++ [p]). split; [by rewrite <- app_assoc|]. do 2 (split; [done|]).
    intros r [?| ->%list_elem_of_singleton]%elem_of_app; [by apply Hlater|done].
Qed.

Lemma retained_status_Some (retained : triple → bool) t computed s :
  retained_status retained t computed = Some s →
  last_status_for t computed = Some s
  ∧ nsec_validation_status s ≠ NSEC_STATUS_VALID ∧ retained t = true.
Proof.
  unfold retained_status. destruct (last_status_for t computed) as [s'|]; simpl; [|done].
  destruct (decide _); [done|]. destruct (retained t); [|done]. by intros [= <-].
Qed.

(** Unless a status that is not valid followed a valid one, a response
    whose last status is not valid got no valid status at all. *)
Lemma last_invalid_no_valid t computed s :
  ¬ invalid_after_valid t computed →
  last_status_for t computed = Some s →
  nsec_validation_status s ≠ NSEC_STATUS_VALID →
  ¬ has_valid t computed.
Proof.
  intros Hslip (l1 & q & l2 & -> & <- & Hq & Hlater)%last_status_for_split Hv
    (p & Hp & Hin & Hvalid).
  apply elem_of_app in Hp as [Hp|Hp]; [|apply elem_of_cons in Hp as [->|Hp]].
  - apply list_elem_of_split in Hp as (a & b & ->). apply Hslip.
    exists a, p, (b ++ q :: l2), q. rewrite <- app_assoc. split; [done|].
    split; [|done]. rewrite elem_of_app, elem_of_cons. auto.
  - done.
  - by apply Hlater in Hp.
Qed.

Section negative_response_status_theorems.
Context `{Collector} `{Validator} (g : graph).

Lemma nsec_set_loop_computed self nd query_ neg_response_info_ cls cls3 qname_obj owners algs
    l tr0 st0 vars0 tr st vars :
  for_each (nsec_set_step g self nd query_ neg_response_info_ cls cls3 qname_obj owners algs)
    l (tr0, st0, vars0) = Ok (tr, st, vars) →
  ∃ computed,
    computed.*2 = l
    ∧ (∀ p, p ∈ computed →
         ∃ origin, p.1 = nsec_set_status query_ neg_response_info_ cls cls3 origin p.2)
    ∧ tr = track_all (for_query_name query_ neg_response_info_) computed tr0.
Proof.
  revert tr0 st0 vars0. induction l as [|n l IH]; intros tr0 st0 vars0 Hrun; simpl in Hrun.
  - injection Hrun as <- <- <-. exists []. split; [done|].
    split; [by intros ? ?%not_elem_of_nil|done].
  - apply bind_Ok in Hrun as ([[tr1 st1] vars1] & Hstep & Hrun).
    apply IH in Hrun as (computed & Hl & Hstatus & ->).
    apply bind_Ok in Hstep as (t & _ & Hstep).
    apply bind_Ok in Hstep as (zone_name_ & _ & Hstep).
    apply bind_Ok in Hstep as (st2 & _ & [= <- _ _]).
    eexists ((_, n) :: computed). split; [by rewrite fmap_cons, Hl|].
    split; [|done]. intros p [->|Hp]%elem_of_cons; [by eexists|by apply Hstatus].
Qed.

(** What the loop over the NSEC sets returns: the valid statuses,
    each once, followed by the statuses that [status_by_response]
    holds after the loop. *)
Lemma negative_response_statuses_tracked self nd query_ neg_response_info_ bad_soa missing_soa upward
    missing_nsec cls cls3 warnings errors algs st statuses_ warnings' errors' st' :
  _populate_negative_response_status g self nd query_ neg_response_info_ bad_soa missing_soa
    upward missing_nsec cls cls3 warnings errors algs st
  = Ok (statuses_, warnings', errors', st') →
  ∃ computed invalid_,
    computed.*2 = neg.nsec_set_info neg_response_info_
    ∧ (∀ p, p ∈ computed →
         ∃ origin, p.1 = nsec_set_status query_ neg_response_info_ cls cls3 origin p.2)
    ∧ statuses_ = valid_statuses computed ++ invalid_
    ∧ NoDup statuses_
    ∧ ∀ s, s ∈ invalid_ ↔
           ∃ t, retained_status (for_query_name query_ neg_response_info_) t computed = Some s.
Proof.
  unfold _populate_negative_response_status. intros Hrun.
  apply bind_Ok in Hrun as (qname_obj & _ & Hrun).
  apply bind_Ok in Hrun as ([warnings1 errors1] & _ & Hrun).
  apply bind_Ok in Hrun as (acc & _ & Hrun).
  apply bind_Ok in Hrun as (errors2 & _ & Hrun).
  destruct (_ ≫= _) as [upward_sc|].
  all: apply bind_Ok in Hrun as ([[tr st1] vars1] & Hloop & Hrun).
  all: apply bind_Ok in Hrun as (errors3 & _ & [= <- _ _ _]).
  all: apply nsec_set_loop_computed in Hloop as (computed & Hsets & Hstatus & ->).
  all: set (R := for_query_name query_ neg_response_info_).
  all: set (tr0 := mkTracking [] [] _).
  all: unfold final_statuses; rewrite (track_all_statuses R computed tr0 eq_refl).
  all: destruct (final_statuses_appended (valid_statuses computed)
                   (status_by_response (track_all R computed tr0))
                   (valid_statuses_NoDup computed)) as (rest & -> & Hnd & Hrest).
  all: exists computed, rest; do 4 (split; [done|]).
  all: intros s; rewrite Hrest; split.
  all: try (intros (_ & t & Hin); exists t; rewrite <- (track_all_get R computed tr0 t eq_refl);
            apply alist_get_elem; [by apply track_all_keys; apply NoDup_nil_2|done]).
  all: intros (t & Ht); split;
    [intros Hv%valid_statuses_valid; unfold retained_status in Ht;
     destruct (last_status_for t computed) as [s'|]; simpl in Ht; [|done];
     destruct (decide _); [done|]; destruct (R t); by simplify_eq|].
  all: exists t; apply alist_get_Some_elem; by rewrite (track_all_get R computed tr0 t eq_refl).
Qed.

(** C3 (as the code has it).  The statuses returned for a negative
    response are the valid statuses of its NSEC sets, each once, in
    the order of the sets, followed by retained statuses that are not
    valid, each once.  For a response that no NSEC set gave a valid
    status, the status of the last NSEC set that came with it is
    retained and returned, provided the negative response is for the
    query name or the response has recursion desired and available
    (the test of line 1593); no status is retained for it otherwise.
    When no response gets a status that is not valid after a valid
    one, the retained statuses are exactly these. *)
Theorem negative_response_statuses self nd query_ neg_response_info_ bad_soa missing_soa upward
    missing_nsec cls cls3 warnings errors algs st statuses_ warnings' errors' st' :
  _populate_negative_response_status g self nd query_ neg_response_info_ bad_soa missing_soa
    upward missing_nsec cls cls3 warnings errors algs st
  = Ok (statuses_, warnings', errors', st') →
  ∃ computed invalid_,
    computed.*2 = neg.nsec_set_info neg_response_info_
    ∧ (∀ p, p ∈ computed →
         ∃ origin, p.1 = nsec_set_status query_ neg_response_info_ cls cls3 origin p.2)
    ∧ statuses_ = valid_statuses computed ++ invalid_
    ∧ NoDup statuses_
    ∧ (∀ s, s ∈ invalid_ → nsec_validation_status s ≠ NSEC_STATUS_VALID)
    ∧ (∀ t s, for_query_name query_ neg_response_info_ t = true →
              ¬ has_valid t computed → last_status_for t computed = Some s →
              s ∈ invalid_)
    ∧ ((∀ t, ¬ invalid_after_valid t computed) →
       ∀ s, s ∈ invalid_ ↔
            ∃ t, for_query_name query_ neg_response_info_ t = true
                 ∧ ¬ has_valid t computed ∧ last_status_for t computed = Some s).
Proof.
  intros Hrun.
  apply negative_response_statuses_tracked in Hrun
    as (computed & invalid_ & Hsets & Hstatus & -> & Hnd & Hinv).
  set (R := for_query_name query_ neg_response_info_) in *.
  assert (∀ t s, R t = true → ¬ has_valid t computed →
                 last_status_for t computed = Some s → s ∈ invalid_) as Hkept.
  { intros t s Ht Hnone Hlast. apply Hinv. exists t.
    unfold retained_status. rewrite Hlast. simpl.
    destruct (decide _) as [Hv|]; [|by rewrite Ht].
    destruct Hnone. apply last_status_for_split in Hlast as (l1 & q & l2 & -> & <- & ? & _).
    exists q. split; [|done]. rewrite elem_of_app, elem_of_cons. auto. }
  exists computed, invalid_. do 4 (split; [done|]).
  split; [|split; [done|]].
  - intros s (t & Ht)%Hinv. by apply retained_status_Some in Ht as (_ & ? & _).
  - intros Hslip s. split; [|by intros (t & ? & ? & ?); eapply Hkept].
    intros (t & Ht)%Hinv. exists t.
    apply retained_status_Some in Ht as (Hlast & Hv & Ht).
    split; [done|]. split; [|done].
    exact (last_invalid_no_valid t computed s (Hslip t) Hlast Hv).
Qed.
End negative_response_status_theorems.

(** The NXDOMAIN response for [nx.example.] with two NSEC sets.
    Response 1 got a status that is not valid from the first set and a
    valid one from the second; response 2 got the status of the first
    set only.  The valid status is returned, followed by the status
    retained for response 2. *)
Lemma negative_response_statuses_two_sets :
  ∃ statuses_ warnings errors st',
    @_populate_negative_response_status examples.collector examples.validator
      examples.signed_graph 0 examples.signed_zone examples.nx_two_sets_query
      examples.nx_two_sets_info
      SOAOwnerNotZoneForNXDOMAIN MissingSOAForNXDOMAIN None MissingNSECForNXDOMAIN
      NSECStatusNXDOMAIN NSEC3StatusNXDOMAIN [] [] {[8%Z]} ev.empty
    = Ok (statuses_, warnings, errors, st')
    ∧ nsec_status_nsec_set_info <$> statuses_ = [22; 21]
    ∧ nsec_validation_status <$> statuses_ = [NSEC_STATUS_VALID; NSEC_STATUS_INVALID]
    ∧ ∃ computed invalid_,
        computed.*2 = [examples.bare_nsec_set; examples.covering_nsec_set]
        ∧ statuses_ = valid_statuses computed ++ invalid_
        ∧ ∀ s, s ∈ invalid_ ↔
               ∃ t, for_query_name examples.nx_two_sets_query examples.nx_two_sets_info t
                    = true
                    ∧ ¬ has_valid t computed ∧ last_status_for t computed = Some s.
Proof.
  set (run := @_populate_negative_response_status examples.collector examples.validator
      examples.signed_graph 0 examples.signed_zone examples.nx_two_sets_query
      examples.nx_two_sets_info
      SOAOwnerNotZoneForNXDOMAIN MissingSOAForNXDOMAIN None MissingNSECForNXDOMAIN
      NSECStatusNXDOMAIN NSEC3StatusNXDOMAIN [] [] {[8%Z]} ev.empty).
  set (r := match run with Ok r => r | _ => ([], [], [], ev.empty) end).
  assert (run = Ok (r.1.1.1, r.1.1.2, r.1.2, r.2)) as Hrun by (by vm_compute).
  exists r.1.1.1, r.1.1.2, r.1.2, r.2. split; [done|].
  split; [by vm_compute|]. split; [by vm_compute|].
  destruct (@negative_response_statuses examples.collector examples.validator
              examples.signed_graph 0 examples.signed_zone examples.nx_two_sets_query
              examples.nx_two_sets_info SOAOwnerNotZoneForNXDOMAIN MissingSOAForNXDOMAIN None
              MissingNSECForNXDOMAIN NSECStatusNXDOMAIN NSEC3StatusNXDOMAIN [] [] {[8%Z]}
              ev.empty _ _ _ _ Hrun)
    as (computed & invalid_ & Hsets & Hstatus & Heq & _ & _ & _ & Hexact).
  exists computed, invalid_. do 2 (split; [done|]).
  apply Hexact. intros t (l1 & p & l2 & q & Hsplit & Hq & _ & Hp & _ & _).
  destruct computed as [|p1 [|p2 [|] ] ]; try done.
  injection Hsets as Hp1 Hp2.
  destruct (Hstatus p1) as (origin & Hs1); [by left|].
  destruct l1 as [|? [|? [|] ] ]; simplify_eq/=.
  - rewrite Hs1, Hp1 in Hp. discriminate Hp.
  - by apply not_elem_of_nil in Hq.
Defined.

(** C3 (as specified) fails: the NXDOMAIN response for [nx.example.]
    to the query for [www.example.], without recursion available, has one
    NSEC set, whose status is not valid; no status is returned for
    it. *)
Lemma negative_response_first_valid_fails :
  ¬ ∀ (C : Collector) (V : Validator) g self nd query_ neg_response_info_ bad_soa missing_soa
      upward missing_nsec cls cls3 warnings errors algs st statuses_ warnings' errors' st',
      _populate_negative_response_status g self nd query_ neg_response_info_ bad_soa
        missing_soa upward missing_nsec cls cls3 warnings errors algs st
      = Ok (statuses_, warnings', errors', st') →
      ∃ computed,
        computed.*2 = neg.nsec_set_info neg_response_info_
        ∧ (∀ p, p ∈ computed →
             ∃ origin, p.1 = nsec_set_status query_ neg_response_info_ cls cls3 origin p.2)
        ∧ ∀ s, s ∈ statuses_ ↔
               (s ∈ valid_statuses computed
                ∨ (nsec_validation_status s ≠ NSEC_STATUS_VALID
                   ∧ ∃ t, t ∈ triples (neg.servers_clients neg_response_info_)
                          ∧ status_by_first_valid t computed = Some s)).
Proof.
  intros Hclaim.
  destruct (Hclaim examples.collector examples.validator
              examples.signed_graph 0 examples.signed_zone examples.www_query
              examples.nx_target_info SOAOwnerNotZoneForNXDOMAIN MissingSOAForNXDOMAIN None
              MissingNSECForNXDOMAIN NSECStatusNXDOMAIN NSEC3StatusNXDOMAIN [] [] {[8%Z]}
              ev.empty [] [] [] ev.empty)
    as (computed & Hsets & Hstatus & Hiff); [by vm_compute|].
  destruct computed as [|[s1 n1] [|? ?]]; [done| |done].
  injection Hsets as ->.
  destruct (Hstatus (s1, examples.empty_nsec_set)) as (origin & Hs1); [by left|].
  simpl in Hs1. subst s1.
  apply (not_elem_of_nil (@nsec_set_status examples.validator examples.www_query
                            examples.nx_target_info NSECStatusNXDOMAIN NSEC3StatusNXDOMAIN
                            origin examples.empty_nsec_set)).
  apply Hiff. right. split; [done|].
  exists ("192.0.2.1", "192.0.2.100", examples.response1). split; [by left|].
  by vm_compute.
Qed.

(** ** The responses named by the diagnostics of the NXDOMAIN check *)
Section diagnostics_lemmas.
Implicit Types (e : error) (l : diagnostics) (sc : provenance) (t : triple).

Lemma alist_get_insert_error e e' l :
  alist_get e (insert_error e' l) =
  match alist_get e l with
  | Some x => Some x
  | None => if decide (e' = e) then Some [] else None
  end.
Proof.
  unfold insert_error. destruct (alist_get e' l) as [x|] eqn:He'.
  - destruct (alist_get e l) eqn:He; [done|].
    case_decide; [congruence|done].
  - induction l as [|[e0 x0] l IH]; simpl in *; [done|].
    destruct (decide (e0 = e')); [done|]. rewrite IH by done.
    by destruct (decide (e0 = e)).
Qed.

Lemma alist_get_update_error e e' f l :
  alist_get e (update_error e' f l) =
  if decide (e = e') then f <$> alist_get e l else alist_get e l.
Proof.
  unfold update_error. induction l as [|[e0 x0] l IH]; simpl; [by case_decide|].
  destruct (decide (e0 = e')) as [->|Hne]; simpl.
  - destruct (decide (e' = e)) as [->|]; [by rewrite decide_True|].
    exact IH.
  - destruct (decide (e0 = e)) as [->|]; [by rewrite decide_False|]. exact IH.
Qed.

Lemma elem_of_triples t sc :
  t ∈ triples sc ↔ ∃ responses_, ((t.1.1, t.1.2), responses_) ∈ sc ∧ t.2 ∈ responses_.
Proof.
  unfold triples. rewrite list_elem_of_bind. split.
  - intros ([k rs] & Hin & Hk). apply list_elem_of_fmap in Hin as (r & -> & Hr).
    exists rs. by destruct k.
  - intros (rs & Hk & Hr). eexists. split; [|done]. apply list_elem_of_fmap.
    exists t.2. split; [|done]. by destruct t as [[??]?].
Qed.

Lemma alist_set_elem {K V} `{EqDecision K} (k k' : K) (v v' : V) d :
  (k', v') ∈ alist_set k v d → (k' = k ∧ v' = v) ∨ (k', v') ∈ d.
Proof.
  induction d as [|[k0 v0] d IH]; simpl.
  - rewrite list_elem_of_singleton. intros [= -> ->]. by left.
  - destruct (decide (k0 = k)) as [->|]; rewrite !elem_of_cons.
    + intros [[= -> ->]|?]; tauto.
    + intros [?|Hin]; [tauto|]. destruct (IH Hin); tauto.
Qed.

Lemma add_server_client_triples t t' sc :
  t ∈ triples (add_server_client t' sc) → t = t' ∨ t ∈ triples sc.
Proof.
  destruct t' as [[server' client'] response']. unfold add_server_client.
  destruct (alist_get (server', client') sc) as [rs|] eqn:Hget; simpl.
  - apply alist_get_Some_elem in Hget.
    destruct (decide _).
    + rewrite !elem_of_triples. intros (rs' & [[Hk ->]|Hin]%alist_set_elem & Hr).
      * right. exists rs. by rewrite Hk.
      * right. by exists rs'.
    + rewrite !elem_of_triples. intros (rs' & [[Hk ->]|Hin]%alist_set_elem & Hr).
      * apply elem_of_app in Hr as [Hr|Hr%list_elem_of_singleton].
        -- right. exists rs. by rewrite Hk.
        -- left. destruct t as [[??]?]. simpl in *. congruence.
      * right. by exists rs'.
  - rewrite !elem_of_triples. intros (rs' & [[Hk ->]|Hin]%alist_set_elem & Hr).
    + apply list_elem_of_singleton in Hr. left.
      destruct t as [[??]?]. simpl in *. congruence.
    + right. by exists rs'.
Qed.

(** The responses of a diagnostic after the NXDOMAIN check has
    recorded an inconsistency. *)
Lemma record_inconsistency_triples e e' ts l t :
  t ∈ error_triples e (record_inconsistency e' ts l) →
  t ∈ error_triples e l ∨ (e = e' ∧ t ∈ ts).
Proof.
  unfold record_inconsistency.
  assert (∀ l0, t ∈ error_triples e (foldl (λ l t, update_error e' (add_server_client t) l) l0 ts)
                → t ∈ error_triples e l0 ∨ (e = e' ∧ t ∈ ts)) as Hfold.
  { induction ts as [|t0 ts IH]; intros l0; simpl; [by left|].
    intros [Hin|[-> Hin]]%IH; [|right; split; [done|by right]].
    unfold error_triples in Hin. rewrite alist_get_update_error in Hin.
    destruct (decide (e = e')) as [->|]; [|by left].
    unfold error_triples. destruct (alist_get e' l0) as [sc|]; simpl in *; [|by left].
    apply add_server_client_triples in Hin as [->|?]; [right; split; [done|by left]|by left]. }
  intros [Hin|?]%Hfold; [|by right]. left.
  unfold error_triples in *. rewrite alist_get_insert_error in Hin.
  destruct (alist_get e l); [done|]. by destruct (decide _).
Qed.

Lemma shared_triples_spec other neg_response_info_ t :
  t ∈ shared_triples other neg_response_info_ →
  (t.1.1, t.1.2) ∈ other.*1 ∧ t ∈ triples (neg.servers_clients neg_response_info_).
Proof.
  unfold shared_triples, shared_servers_clients. rewrite list_elem_of_bind.
  intros (sc & Hin & Hsc). apply list_elem_of_filter in Hsc as [_ Hsc].
  rewrite elem_of_remove_dups in Hsc.
  apply list_elem_of_fmap in Hin as (r & -> & Hr). simpl. destruct sc as [s c]. simpl.
  split; [done|]. apply elem_of_triples. simpl.
  destruct (alist_get _ _) as [rs|] eqn:Hget; simpl in Hr; [|by apply not_elem_of_nil in Hr].
  exists rs. split; [|done]. by apply alist_get_Some_elem.
Qed.
End diagnostics_lemmas.

Lemma warnings_at_field_set d k v d' i :
  field_set d k v = Ok d' →
  warnings_at d' i = if decide (k = i) then v else warnings_at d i.
Proof.
  destruct d as [d|]; [intros [= <-]|done]. unfold warnings_at. simpl.
  rewrite lookup_insert. by case_decide.
Qed.

Lemma field_get_warnings_at d k w : field_get d k = Ok w → warnings_at d k = w.
Proof.
  destruct d as [d|]; [|done]. unfold warnings_at, field_get, dict_get. simpl.
  destruct (d !! k); [by intros [= ->]|done].
Qed.


Section nxdomain_check.
Context (nd : node) (yxdomain_ : option (gset dname)) (rdtype_ : rdtype)
  (neg_response_info_ : neg_response_info).
Implicit Types (s : negative_t).

Lemma attributed_refl s : attributed nd neg_response_info_ s s.
Proof. intros i e t. repeat split; by left. Qed.

Lemma attributed_rrset s0 s e0 item rrset_info_ w1 nxw w2 :
  let ts := shared_triples (ri.servers_clients rrset_info_) neg_response_info_ in
  attributed nd neg_response_info_ s0 s →
  item ∈ queries nd → rrset_info_ ∈ answer_info item.2 →
  field_get (nxdomain_warnings s) (neg.id neg_response_info_) = Ok w1 →
  field_set (nxdomain_warnings s) (neg.id neg_response_info_)
    (record_inconsistency e0 ts w1) = Ok nxw →
  dict_get (ev.rrset_warnings (neg_ev s)) (ri.id rrset_info_) = Ok w2 →
  attributed nd neg_response_info_ s0
    (mkNegative
       (ev.set_rrset_warnings
          (<[ri.id rrset_info_ := record_inconsistency e0 ts w2]>
             (ev.rrset_warnings (neg_ev s))) (neg_ev s))
       (nodata_status_ s) (nodata_warnings s) (nodata_errors s)
       (nxdomain_status_ s) nxw (nxdomain_errors s) (neg_log s)).
Proof.
  intros ts Hs Hitem Hr Hw1 Hnxw Hw2 i e t. destruct (Hs i e t) as (H1 & H2 & H3).
  split; [|split; [done|]]; simpl.
  - rewrite lookup_insert. destruct (decide (ri.id rrset_info_ = i)) as [<-|]; [|done].
    simpl. intros [Hin|[-> Hin]]%record_inconsistency_triples.
    + apply H1. unfold dict_get in Hw2.
      destruct (ev.rrset_warnings (neg_ev s) !! _); by simplify_eq.
    + right. apply shared_triples_spec in Hin as [??]. split; [done|].
      by exists item, rrset_info_.
  - rewrite (warnings_at_field_set _ _ _ _ i Hnxw).
    destruct (decide (neg.id neg_response_info_ = i)) as [<-|]; [|done].
    intros [Hin|[-> Hin]]%record_inconsistency_triples.
    + apply H3. by rewrite (field_get_warnings_at _ _ _ Hw1).
    + right. by apply shared_triples_spec in Hin as [??].
Qed.

Lemma attributed_nodata s0 s e0 item neg_response_info2 w1 nxw w2 ndw :
  let ts := shared_triples (neg.servers_clients neg_response_info2) neg_response_info_ in
  attributed nd neg_response_info_ s0 s →
  item ∈ queries nd → neg_response_info2 ∈ nodata_info item.2 →
  field_get (nxdomain_warnings s) (neg.id neg_response_info_) = Ok w1 →
  field_set (nxdomain_warnings s) (neg.id neg_response_info_)
    (record_inconsistency e0 ts w1) = Ok nxw →
  field_get (nodata_warnings s) (neg.id neg_response_info2) = Ok w2 →
  field_set (nodata_warnings s) (neg.id neg_response_info2)
    (record_inconsistency e0 ts w2) = Ok ndw →
  attributed nd neg_response_info_ s0
    (mkNegative (neg_ev s) (nodata_status_ s) ndw (nodata_errors s)
       (nxdomain_status_ s) nxw (nxdomain_errors s) (neg_log s)).
Proof.
  intros ts Hs Hitem Hr Hw1 Hnxw Hw2 Hndw i e t. destruct (Hs i e t) as (H1 & H2 & H3).
  split; [done|]. split; simpl.
  - rewrite (warnings_at_field_set _ _ _ _ i Hndw).
    destruct (decide (neg.id neg_response_info2 = i)) as [<-|]; [|done].
    intros [Hin|[-> Hin]]%record_inconsistency_triples.
    + apply H2. by rewrite (field_get_warnings_at _ _ _ Hw2).
    + right. apply shared_triples_spec in Hin as [??]. split; [done|].
      by exists item, neg_response_info2.
  - rewrite (warnings_at_field_set _ _ _ _ i Hnxw).
    destruct (decide (neg.id neg_response_info_ = i)) as [<-|]; [|done].
    intros [Hin|[-> Hin]]%record_inconsistency_triples.
    + apply H3. by rewrite (field_get_warnings_at _ _ _ Hw1).
    + right. by apply shared_triples_spec in Hin as [??].
Qed.

(** Where the responses of the diagnostics of the check come from:
    every response that the check for NOERROR/NXDOMAIN
    inconsistencies adds to a diagnostic - of the NXDOMAIN response,
    of an RRset or of a NODATA response - is taken from the NXDOMAIN
    response, for a server and a client that the component of the
    diagnostic has a response from as well. *)
Lemma nxdomain_inconsistencies_attributed s s' :
  nxdomain_inconsistencies nd yxdomain_ rdtype_ neg_response_info_ s = Ok s' →
  attributed nd neg_response_info_ s s'.
Proof.
  unfold nxdomain_inconsistencies. intros Hrun.
  apply bind_Ok in Hrun as (yx & _ & Hrun).
  destruct (negb _); [injection Hrun as <-; apply attributed_refl|].
  eapply (for_each_inv (attributed nd neg_response_info_ s)) in Hrun;
    [done| |apply attributed_refl].
  clear Hrun. intros s1 [[qname2 rdtype2] query2] s2 Hitem Hs1 Hstep.
  destruct (_ || _); [by injection Hstep as <-|].
  apply bind_Ok in Hstep as (s3 & Hrrsets & Hnodata).
  eapply (for_each_inv (attributed nd neg_response_info_ s)) in Hnodata; [done| |].
  - clear Hnodata. intros s4 neg_response_info2 s5 [_ Hin]%list_elem_of_filter Hs4 Hbody.
    destruct (bool_decide _); [by injection Hbody as <-|].
    apply bind_Ok in Hbody as (w1 & Hw1 & Hbody).
    apply bind_Ok in Hbody as (nxw & Hnxw & Hbody).
    apply bind_Ok in Hbody as (w2 & Hw2 & Hbody).
    apply bind_Ok in Hbody as (ndw & Hndw & [= <-]).
    by eapply attributed_nodata.
  - eapply (for_each_inv (attributed nd neg_response_info_ s)) in Hrrsets; [done| |done].
    clear Hrrsets. intros s4 rrset_info_ s5 [_ Hin]%list_elem_of_filter Hs4 Hbody.
    destruct (bool_decide _); [by injection Hbody as <-|].
    apply bind_Ok in Hbody as (w1 & Hw1 & Hbody).
    apply bind_Ok in Hbody as (nxw & Hnxw & Hbody).
    apply bind_Ok in Hbody as (w2 & Hw2 & [= <-]).
    by eapply attributed_rrset.
Qed.
End nxdomain_check.

(** The check for the NXDOMAIN response of [example.]: the warning of
    the A RRset names response 1. *)
Lemma nxdomain_inconsistencies_attributed_example :
  let s := mkNegative (neg_ev examples.before_nxdomain) (Some ∅) (Some ∅) (Some ∅)
             (Some {[11 := []]}) (Some {[11 := []]}) (Some {[11 := []]}) [] in
  ∃ s', nxdomain_inconsistencies examples.inconsistent_zone (Some {["example."]})
          rdatatype.AAAA examples.own_nx_info s = Ok s'
        ∧ ("192.0.2.1", "192.0.2.100", examples.response1)
            ∈ error_triples (InconsistentNXDOMAIN "example." rdatatype.AAAA rdatatype.A)
                (default [] (ev.rrset_warnings (neg_ev s') !! 10))
        ∧ attributed examples.inconsistent_zone examples.own_nx_info s s'.
Proof.
  intros s.
  set (run := nxdomain_inconsistencies examples.inconsistent_zone (Some {["example."]})
                rdatatype.AAAA examples.own_nx_info s).
  set (s' := match run with Ok s' => s' | _ => s end).
  assert (run = Ok s') as Hrun by (by vm_compute).
  exists s'. split; [done|]. split; [vm_compute; by left|].
  exact (nxdomain_inconsistencies_attributed examples.inconsistent_zone
           (Some {["example."]}) rdatatype.AAAA examples.own_nx_info s s' Hrun).
Defined.

(** The attribution of the diagnostics to the responses of their own
    component does not hold of [_populate_nxdomain_status]: on
    [example.] the warning attached to the A RRset names response 1,
    which is the NXDOMAIN response and not a response with the
    RRset. *)
Lemma nxdomain_warning_outside_provenance :
  ¬ ∀ (C : Collector) (V : Validator) g self nd yxdomain_ algs s s',
      (∀ item rrset_info_ e t,
         item ∈ queries nd → rrset_info_ ∈ answer_info item.2 →
         t ∈ error_triples e
               (default [] (ev.rrset_warnings (neg_ev s) !! ri.id rrset_info_)) →
         t ∈ triples (ri.servers_clients rrset_info_)) →
      negative._populate_nxdomain_status g self nd yxdomain_ algs s = Ok s' →
      ∀ item rrset_info_ e t,
        item ∈ queries nd → rrset_info_ ∈ answer_info item.2 →
        t ∈ error_triples e
              (default [] (ev.rrset_warnings (neg_ev s') !! ri.id rrset_info_)) →
        t ∈ triples (ri.servers_clients rrset_info_).
Proof.
  intros Hclaim.
  set (run := @negative._populate_nxdomain_status examples.collector examples.validator
                [examples.inconsistent_zone] 0 examples.inconsistent_zone
                (Some {["example."]}) {[8%Z]} examples.before_nxdomain).
  set (s' := match run with Ok s' => s' | _ => examples.before_nxdomain end).
  assert (run = Ok s') as Hrun by (by vm_compute).
  assert (∀ i e, error_triples e
                   (default [] (ev.rrset_warnings (neg_ev examples.before_nxdomain) !! i))
                 = []) as Hbefore.
  { intros i e. simpl. rewrite lookup_singleton. by case_decide. }
  assert (("192.0.2.1", "192.0.2.100", examples.response1)
            ∈ triples (ri.servers_clients examples.own_a_info)) as Hin.
  { eapply (Hclaim _ _ _ _ _ _ _ examples.before_nxdomain s');
      [|exact Hrun| | |].
    - intros item r e t _ _ Hin'. rewrite Hbefore in Hin'.
      by apply not_elem_of_nil in Hin'.
    - by left.
    - by left.
    - instantiate (1 := InconsistentNXDOMAIN "example." rdatatype.AAAA rdatatype.A).
      vm_compute. by left. }
  apply list_elem_of_singleton in Hin. discriminate Hin.
Qed.

(** C6.  [_populate_nxdomain_status] on [example.], whose server
    answered the A query in response 2 and denied the name in
    response 1, to the AAAA query.  The check for NOERROR/NXDOMAIN
    inconsistencies attaches an InconsistentNXDOMAIN warning to the
    NXDOMAIN response and one to the A RRset, and records response 1
    in both.  Response 1 is in the provenance of the NXDOMAIN
    response; it is not in the provenance of the A RRset, which
    response 2 alone returned. *)
Theorem nxdomain_warning_names_foreign_response :
  let e := InconsistentNXDOMAIN "example." rdatatype.AAAA rdatatype.A in
  let t : triple := ("192.0.2.1", "192.0.2.100", examples.response1) in
  ∃ s', @negative._populate_nxdomain_status examples.collector examples.validator
          [examples.inconsistent_zone] 0 examples.inconsistent_zone
          (Some {["example."]}) {[8%Z]} examples.before_nxdomain = Ok s'
        ∧ error_triples e (warnings_at (nxdomain_warnings s') (neg.id examples.own_nx_info))
          = [t]
        ∧ t ∈ triples (neg.servers_clients examples.own_nx_info)
        ∧ error_triples e
            (default [] (ev.rrset_warnings (neg_ev s') !! ri.id examples.own_a_info))
          = [t]
        ∧ t ∉ triples (ri.servers_clients examples.own_a_info)
        ∧ triples (ri.servers_clients examples.own_a_info)
          = [("192.0.2.1", "192.0.2.100", examples.response2)].
Proof.
  intros e t.
  set (run := @negative._populate_nxdomain_status examples.collector examples.validator
                [examples.inconsistent_zone] 0 examples.inconsistent_zone
                (Some {["example."]}) {[8%Z]} examples.before_nxdomain).
  set (s' := match run with Ok s' => s' | _ => examples.before_nxdomain end).
  assert (run = Ok s') as Hrun by (by vm_compute).
  exists s'. split; [done|]. split; [by vm_compute|].
  split; [by left|]. split; [by vm_compute|]. split; [|done].
  by intros [=]%list_elem_of_singleton.
Qed.

(** ** The [ValueError]s of [_populate_ds_status] *)
Lemma nve_Ok {A} (a : A) : no_value_error (Ok a).
Proof. by intros msg. Qed.

Lemma nve_bind {A B} (m : result A) (k : A → result B) :
  no_value_error m → (∀ a, no_value_error (k a)) → no_value_error (m ≫= k).
Proof.
  intros Hm Hk msg. destruct m as [a|e|]; simpl; [apply Hk| |done].
  intros [= ->]. by apply (Hm msg).
Qed.

Lemma nve_for_each {A S} (body : S → A → result S) l s :
  (∀ s x, no_value_error (body s x)) → no_value_error (for_each body l s).
Proof.
  intros Hbody. revert s. induction l as [|x l IH]; intros s; simpl; [apply nve_Ok|].
  apply nve_bind; [apply Hbody|apply IH].
Qed.

Lemma nve_deref {A} (o : option A) : no_value_error (deref o).
Proof. by destruct o. Qed.

Lemma nve_dict_get {K V} `{Countable K} (d : gmap K V) k : no_value_error (dict_get d k).
Proof. unfold dict_get. by destruct (d !! k). Qed.

Lemma nve_field_set {K V} `{Countable K} (d : option (gmap K V)) k v :
  no_value_error (field_set d k v).
Proof. by destruct d. Qed.

Lemma nve_elim {A} (m : result A) :
  no_value_error m → ¬ ∃ msg, m = Raise (ValueError msg).
Proof. intros Hm [msg Hrun]. by apply (Hm msg). Qed.

Ltac nve_step :=
  match goal with
  | |- no_value_error (Ok _) => apply nve_Ok
  | |- no_value_error (Raise KeyError) => by intros ?
  | |- no_value_error (Raise TypeError) => by intros ?
  | |- no_value_error (_ ≫= _) => apply nve_bind; [|intros ?]
  | |- no_value_error (for_each _ _ _) => apply nve_for_each; intros ? ?
  | |- no_value_error (deref _) => apply nve_deref
  | |- no_value_error (dict_get _ _) => apply nve_dict_get
  | |- no_value_error (field_set _ _ _) => apply nve_field_set
  | |- no_value_error (match ?x with _ => _ end) => destruct x
  end.

Section ds_value_error.
Context `{Collector} `{Validator} `{Servers} (g : graph).

Lemma nve_sep_step st ds_algs dnskey_info dnskey ds_status_ acc item :
  no_value_error (sep_step st ds_algs dnskey_info dnskey ds_status_ acc item).
Proof. unfold sep_step, rrsig_status_of. destruct item. repeat nve_step. Qed.

Lemma nve_try_dnskey st nd ds_rdata_ ds_rrset_info dnskey_info ds_algs dalgs acc k :
  no_value_error (try_dnskey st nd ds_rdata_ ds_rrset_info dnskey_info ds_algs dalgs acc k).
Proof. unfold try_dnskey. repeat first [apply nve_sep_step|nve_step]. Qed.

Lemma nve_record_ds_status acc ds_status_ : no_value_error (record_ds_status acc ds_status_).
Proof. unfold record_ds_status. repeat nve_step. Qed.

Lemma nve_ds_rdata_step st nd ds_rrset_info dnskey_multiquery ds_algs dalgs acc ds_rdata_ :
  no_value_error
    (ds_rdata_step st nd ds_rrset_info dnskey_multiquery ds_algs dalgs acc ds_rdata_).
Proof.
  unfold ds_rdata_step. repeat first [apply nve_try_dnskey|apply nve_record_ds_status|nve_step].
Qed.

Lemma nve_ds_rrset_step st nd rdtype_ name_ dnskey_multiquery responses_ algs dalgs acc r :
  no_value_error
    (ds_rrset_step st nd rdtype_ name_ dnskey_multiquery responses_ algs dalgs acc r).
Proof. unfold ds_rrset_step. repeat first [apply nve_ds_rdata_step|nve_step]. Qed.

Lemma nve_ds_nsec_status_lists name_ infos field :
  no_value_error (ds_nsec_status_lists name_ infos field).
Proof. unfold ds_nsec_status_lists. repeat nve_step. Qed.

(** C7 (as the code has it). [_populate_ds_status] raises [ValueError]
    exactly when it is called with an rdtype other than DS and DLV, or
    with rdtype DLV on a node that has a parent and no DLV name.  On
    a node without parent it returns at once, also for DLV without a
    DLV name. *)
Theorem _populate_ds_status_value_error self nd rdtype_ algs dalgs st ns s :
  (∃ msg, _populate_ds_status g self nd rdtype_ algs dalgs st ns s = Raise (ValueError msg))
  ↔ (rdtype_ ≠ rdatatype.DS ∧ rdtype_ ≠ rdatatype.DLV)
    ∨ (parent nd ≠ None ∧ rdtype_ = rdatatype.DLV ∧ dlv_name nd = None).
Proof.
  unfold _populate_ds_status.
  destruct (bool_decide (rdtype_ = rdatatype.DS)) eqn:Hds;
    [apply bool_decide_eq_true in Hds|apply bool_decide_eq_false in Hds].
  all: destruct (bool_decide (rdtype_ = rdatatype.DLV)) eqn:Hdlv;
    [apply bool_decide_eq_true in Hdlv|apply bool_decide_eq_false in Hdlv]; simpl.
  4: { split; [by left|by eexists]. }
  all: destruct (parent nd) as [parent_|] eqn:Hparent;
    [|split; [by intros [? ?]|intros [[??]|[??]]; done]].
  all: destruct (decide (rdtype_ = rdatatype.DLV)) as [Hdlv'|Hdlv']; try done.
  all: try (destruct (dlv_name nd) as [dlv_name_|] eqn:Hname; simpl;
            [|split; [by right|by eexists]]).
  all: split; [intros Hex; exfalso; revert Hex; apply nve_elim
              |intros [[??]|(?&?&?)]; done].
  all: repeat first [apply nve_ds_rrset_step|apply nve_ds_nsec_status_lists|nve_step].
Qed.
End ds_value_error.

(** C7 (as specified) fails: asked for DLV on a node that has neither
    a parent nor a DLV name, [_populate_ds_status] returns without
    raising. *)
Lemma ds_status_dlv_without_parent :
  ¬ ∀ (C : Collector) (V : Validator) (S : Servers) g self nd rdtype_ algs dalgs st ns s,
      (∃ msg, _populate_ds_status g self nd rdtype_ algs dalgs st ns s
              = Raise (ValueError msg))
      ↔ (rdtype_ ≠ rdatatype.DS ∧ rdtype_ ≠ rdatatype.DLV)
        ∨ (rdtype_ = rdatatype.DLV ∧ dlv_name nd = None).
Proof.
  intros Hclaim.
  destruct (proj2 (Hclaim examples.collector examples.validator examples.servers
                     [examples.leaf "example." []] 0 (examples.leaf "example." [])
                     rdatatype.DLV ∅ ∅ ev.empty
                     (mkNegative ev.empty None None None None None None [])
                     examples.no_delegation))
    as [msg Hrun]; [by right|].
  discriminate Hrun.
Qed.

(** * Responsiveness of a server *)
Section responsive_theorems.
Context `{ResponseAttributes}.
Import responsive.

Lemma existsb_elem {A} (f : A → bool) (l : list A) :
  existsb f l = true ↔ ∃ x, x ∈ l ∧ f x = true.
Proof.
  rewrite existsb_exists. by setoid_rewrite list_elem_of_In.
Qed.

Lemma existsb_none {A} (f : A → bool) (l : list A) :
  (∀ x, x ∈ l → f x = false) → existsb f l = false.
Proof.
  intros Hf. destruct (existsb f l) eqn:E; [|done].
  apply existsb_elem in E as (x & Hx & Hfx). by rewrite Hf in Hfx.
Qed.

Lemma tcp_filter_selected (tcp : option bool) (x : response) :
  (if tcp is Some tcp_
   then (tcp_ && negb (effective_tcp x)) || (negb tcp_ && effective_tcp x)
   else false) = false ↔ transport_selected tcp x.
Proof.
  unfold transport_selected. destruct tcp as [[]|], (effective_tcp x); simpl;
    split; try done; try (by intros _ b [= <-]); intros Hb;
    by (specialize (Hb _ eq_refl)).
Qed.

Lemma server_responsive_with_condition_iff nd server_ client_ tcp response_test :
  _server_responsive_with_condition nd server_ client_ tcp response_test = true ↔
  ∃ c item query1_ x,
    client_ = Some c ∧ item ∈ queries nd ∧ query1_ ∈ q_queries item.2
    ∧ response_of query1_ server_ c = Some x
    ∧ transport_selected tcp x ∧ response_test x = true.
Proof.
  unfold _server_responsive_with_condition, response_of. rewrite existsb_elem. split.
  - intros (item & Hitem & Hq). apply existsb_elem in Hq as (query1_ & Hq1 & Hc).
    destruct client_ as [c|]; simpl in Hc.
    + rewrite orb_false_r in Hc.
      destruct (alist_get server_ (responses query1_)) as [by_client|] eqn:Es; [|done].
      simpl in Hc. destruct (alist_get c by_client) as [x|] eqn:Ec; [|done].
      exists c, item, query1_, x. split_and!; try done.
      * by rewrite Es.
      * apply tcp_filter_selected. by destruct (if tcp is Some _ then _ else _).
      * by destruct (if tcp is Some _ then _ else _).
    + destruct (alist_get server_ (responses query1_)) as [by_client|]; [|done].
      simpl in Hc. by rewrite existsb_none in Hc.
  - intros (c & item & query1_ & x & -> & Hitem & Hq1 & Hx & Htcp & Htest).
    exists item. split; [done|]. apply existsb_elem. exists query1_. split; [done|].
    simpl. rewrite orb_false_r.
    destruct (alist_get server_ (responses query1_)) as [by_client|]; [|done].
    simpl in *. rewrite Hx. apply tcp_filter_selected in Htcp. by rewrite Htcp.
Qed.

(** X1. [_server_responsive_with_condition] called with [client=None]
    (all the clients of the server) answers [False] whatever the
    responses are and whatever the test is: the loop over the clients
    looks every response up under [client], not under the client of
    the iteration, and skips the [KeyError]. *)
Theorem server_responsive_with_condition_no_client nd server_ tcp response_test :
  _server_responsive_with_condition nd server_ None tcp response_test = false.
Proof.
  destruct (_server_responsive_with_condition _ _ _ _ _) eqn:E; [|done].
  by apply server_responsive_with_condition_iff in E as (c & ? & ? & ? & ? & _).
Qed.

(** X2. For a given client, [_server_responsive_with_condition]
    answers [True] exactly when some retry of some query of the node
    holds a response of the server to that client which passes the
    test and, when [tcp] is given, was ultimately sent over that
    transport. *)
Theorem server_responsive_with_condition_spec nd server_ client_ tcp response_test :
  _server_responsive_with_condition nd server_ (Some client_) tcp response_test = true ↔
  ∃ qname rdtype_ query_ query1_ by_client x,
    alist_get server_ (responses query1_) = Some by_client
    ∧ alist_get client_ by_client = Some x
    ∧ ((qname, rdtype_), query_) ∈ queries nd ∧ query1_ ∈ q_queries query_
    ∧ (∀ b, tcp = Some b → effective_tcp x = b) ∧ response_test x = true.
Proof.
  rewrite server_responsive_with_condition_iff. unfold response_of. split.
  - intros (c & [[qname rdtype_] query_] & query1_ & x & [= <-] & Hitem & Hq1 & Hx
            & Htcp & Htest).
    destruct (alist_get server_ (responses query1_)) as [by_client|] eqn:Es; [|done].
    by exists qname, rdtype_, query_, query1_, by_client, x.
  - intros (qname & rdtype_ & query_ & query1_ & by_client & x
            & Es & Ec & Hitem & Hq1 & Htcp & Htest).
    exists client_, ((qname, rdtype_), query_), query1_, x. split_and!; try done.
    by rewrite Es.
Qed.

Lemma server_responsive_with_condition_mono nd server_ client_ tcp tcp' test test' :
  (∀ x, test x = true → test' x = true) →
  (tcp' = tcp ∨ tcp' = None) →
  _server_responsive_with_condition nd server_ client_ tcp test = true →
  _server_responsive_with_condition nd server_ client_ tcp' test' = true.
Proof.
  intros Htest Htcp. rewrite !server_responsive_with_condition_iff.
  intros (c & item & query1_ & x & ? & ? & ? & ? & Hsel & ?).
  exists c, item, query1_, x. split_and!; try done; [|by apply Htest].
  destruct Htcp as [->| ->]; [done|]. by intros b.
Qed.

(** X3. The six tests are ordered: a server that gave a valid
    response with an EDNS flag (for instance DO) also counts as
    responsive with that flag, as responsive with a valid response
    with EDNS, and as responsive with EDNS, on the same transport and
    on any transport. *)
Theorem server_responsive_valid_with_edns_flag_implies nd server_ client_ tcp f :
  server_responsive_valid_with_edns_flag nd server_ client_ tcp f = true →
  server_responsive_with_edns_flag nd server_ client_ tcp f = true
  ∧ server_responsive_valid_with_edns nd server_ client_ tcp = true
  ∧ server_responsive_with_edns nd server_ client_ tcp = true
  ∧ server_responsive_with_edns nd server_ client_ None = true.
Proof.
  intros Hv. split_and!;
    (eapply server_responsive_with_condition_mono; [| |exact Hv]; [|by auto]);
    intros x; rewrite !andb_true_iff; tauto.
Qed.

End responsive_theorems.

Lemma server_responsive_valid_with_edns_flag_implies_queried :
  let nd := samples.queried in
  @responsive.server_responsive_valid_with_do samples.attributes nd
    "192.0.2.1" (Some "192.0.2.100") (Some false) = true
  ∧ @responsive.server_responsive_with_edns samples.attributes nd
      "192.0.2.1" (Some "192.0.2.100") None = true.
Proof.
  intros nd.
  assert (Hv : @responsive.server_responsive_valid_with_edns_flag samples.attributes nd
                 "192.0.2.1" (Some "192.0.2.100") (Some false) DO = true)
    by (by vm_compute).
  split; [exact Hv|].
  exact (proj2 (proj2 (proj2
    (@server_responsive_valid_with_edns_flag_implies samples.attributes nd
       "192.0.2.1" (Some "192.0.2.100") (Some false) DO Hv)))).
Defined.

(** * Collection of the answers *)
Section collect_theorems.
Context `{collect.Online}.
Import collect.

Lemma handle_soa_response_latest seen rrset_ c c' :
  soa_latest seen c → _handle_soa_response rrset_ c = inr c' →
  soa_latest (seen ++ [rrset_]) c'.
Proof.
  unfold soa_latest, _handle_soa_response. intros Hinv Hc.
  destruct (rrset_rdata rrset_) as [|r0 rest] eqn:Erd; [done|].
  destruct (soa_of r0) as [soa|] eqn:Esoa; [|done].
  assert (Hfirst : first_soa rrset_ = Some soa) by (unfold first_soa; by rewrite Erd).
  destruct (serial c) as [v|] eqn:Es.
  - destruct Hinv as ((r & soa' & Hr & Hr0 & -> & Hrn & Hmn) & Hhas & Hmax).
    case_bool_decide as Hlt; simplify_eq/=.
    + split_and!; [|done|].
      * exists rrset_, soa. split_and!; try done. set_solver.
      * intros r' soa'' [Hr'| ->%list_elem_of_singleton]%elem_of_app Hs.
        -- specialize (Hmax _ _ Hr' Hs). lia.
        -- rewrite Hfirst in Hs. injection Hs as <-. lia.
    + split_and!; [|done|].
      * exists r, soa'. split_and!; try done. set_solver.
      * intros r' soa'' [Hr'| ->%list_elem_of_singleton]%elem_of_app Hs.
        -- by apply (Hmax _ _ Hr' Hs).
        -- rewrite Hfirst in Hs. injection Hs as <-. lia.
  - subst seen. simplify_eq/=. split_and!; [|done|].
    + exists rrset_, soa. split_and!; try done. set_solver.
    + intros r' soa'' ->%list_elem_of_singleton Hs.
      rewrite Hfirst in Hs. injection Hs as <-. lia.
Qed.

Lemma handle_each_soa_latest rrsets seen c c' :
  soa_latest seen c → handle_each _handle_soa_response rrsets c = inr c' →
  soa_latest (seen ++ rrsets) c'.
Proof.
  revert seen c. induction rrsets as [|r rrsets IH]; intros seen c Hinv Hc; simpl in Hc.
  - rewrite app_nil_r. by simplify_eq.
  - destruct (_handle_soa_response r c) as [|c1] eqn:E1; [done|].
    replace (seen ++ r :: rrsets) with ((seen ++ [r]) ++ rrsets) by by rewrite <-app_assoc.
    eapply IH; [|done]. by eapply handle_soa_response_latest.
Qed.

(** X4. After [_handle_soa_response] has handled one or more SOA
    RRsets, starting from the fields of [__init__], the fields
    [serial], [rname] and [mname] are those of the first record of one
    and the same handled RRset, no handled RRset begins with a record
    of a higher serial, and [has_soa] is set. *)
Theorem handle_soa_response_keeps_latest rrsets c c' :
  rrsets ≠ [] →
  handle_each _handle_soa_response rrsets (init c) = inr c' →
  has_soa c' = true
  ∧ ∃ r soa, r ∈ rrsets ∧ first_soa r = Some soa
      ∧ serial c' = Some (soa_serial soa) ∧ rname c' = Some (soa_rname soa)
      ∧ mname c' = Some (soa_mname soa)
      ∧ ∀ r' soa', r' ∈ rrsets → first_soa r' = Some soa' →
                   (soa_serial soa' ≤ soa_serial soa)%Z.
Proof.
  intros Hne Hc. apply (handle_each_soa_latest _ []) in Hc; [|done].
  unfold soa_latest in Hc. simpl in Hc. destruct (serial c') as [v|]; [|done].
  destruct Hc as ((r & soa & Hr & Hfirst & -> & Hrn & Hmn) & Hhas & Hmax).
  split; [done|]. by exists r, soa.
Qed.

Lemma for_records_ds_match rdatas algs digests algs' digests' :
  digests_match algs digests →
  for_records (λ (acc : gset Z * gset (Z * Z)) ds_,
      alg ← rdata_algorithm ds_;
      digest_type_ ← rdata_digest_type ds_;
      Some (acc.1 ∪ {[alg]}, acc.2 ∪ {[(alg, digest_type_)]}))
    rdatas (algs, digests) = inr (algs', digests') →
  digests_match algs' digests'
  ∧ algs ⊆ algs' ∧ digests ⊆ digests'
  ∧ (∀ alg, alg ∈ algs' → alg ∈ algs ∨ Some alg ∈ rdata_algorithm <$> rdatas)
  ∧ (∀ d, d ∈ rdatas → ∃ alg, rdata_algorithm d = Some alg ∧ alg ∈ algs').
Proof.
  revert algs digests. induction rdatas as [|d rdatas IH]; intros algs digests Hm Hr;
    simpl in Hr.
  - simplify_eq. split_and!; try done; [by left|]. by intros d ?%elem_of_nil.
  - destruct (rdata_algorithm d) as [alg|] eqn:Ealg; [|done]. simpl in Hr.
    destruct (rdata_digest_type d) as [dt|] eqn:Edt; [|done]. simpl in Hr.
    apply IH in Hr as (Hm' & Hsub & Hsubd & Hfrom & Hall).
    + split_and!; [done|set_solver|set_solver| |].
      * intros a Ha. destruct (Hfrom _ Ha) as [Hin|Hin].
        -- apply elem_of_union in Hin as [?| ->%elem_of_singleton]; [by left|].
           right. rewrite fmap_cons, Ealg. set_solver.
        -- right. rewrite fmap_cons. set_solver.
      * intros d' [->|Hd']%elem_of_cons.
        -- exists alg. split; [done|]. set_solver.
        -- by apply Hall.
    + intros a. rewrite elem_of_union, elem_of_singleton, (Hm a). split.
      * intros [[x Hx]| ->]; [exists x|exists dt]; set_solver.
      * intros [x [Hx|[= -> ->]%elem_of_singleton]%elem_of_union]; [left; by exists x|by right].
Qed.

(** X5. [_handle_ds_response] keeps the sets of algorithms in step
    with the sets of (algorithm, digest type) pairs: if, for DS and
    for DLV, the algorithms seen are exactly the first components of
    the pairs seen, the same holds after the call.  A DS RRset changes
    neither the DLV sets nor the algorithms of the DNSKEYs, and an
    RRset of any other type changes neither the DS sets nor the
    algorithms of the DNSKEYs. *)
Theorem handle_ds_response_digests_match rrset_ c c' :
  digests_match (dnssec_algorithms_in_ds (nd c)) (dnssec_algorithms_digest_in_ds c) →
  digests_match (dnssec_algorithms_in_dlv (nd c)) (dnssec_algorithms_digest_in_dlv c) →
  _handle_ds_response rrset_ c = inr c' →
  digests_match (dnssec_algorithms_in_ds (nd c')) (dnssec_algorithms_digest_in_ds c')
  ∧ digests_match (dnssec_algorithms_in_dlv (nd c')) (dnssec_algorithms_digest_in_dlv c')
  ∧ dnssec_algorithms_in_dnskey (nd c') = dnssec_algorithms_in_dnskey (nd c)
  ∧ (if decide (rrset_rdtype rrset_ = rdatatype.DS)
     then dnssec_algorithms_in_dlv (nd c') = dnssec_algorithms_in_dlv (nd c)
          ∧ dnssec_algorithms_digest_in_dlv c' = dnssec_algorithms_digest_in_dlv c
     else dnssec_algorithms_in_ds (nd c') = dnssec_algorithms_in_ds (nd c)
          ∧ dnssec_algorithms_digest_in_ds c' = dnssec_algorithms_digest_in_ds c).
Proof.
  intros Hds Hdlv. unfold _handle_ds_response, ds_records.
  destruct (decide (rrset_rdtype rrset_ = rdatatype.DS)) as [Hty|Hty].
  - destruct (for_records _ _ _) as [|[algs' digests']] eqn:E; [done|].
    intros [= <-]. simpl. by apply for_records_ds_match in E as (? & _).
  - destruct (for_records _ _ _) as [|[algs' digests']] eqn:E; [done|].
    intros [= <-]. simpl. by apply for_records_ds_match in E as (? & _).
Qed.

Lemma for_records_algorithms rdatas (algs algs' : gset Z) :
  for_records (λ (algs : gset Z) dnskey,
                 alg ← rdata_algorithm dnskey; Some (algs ∪ {[alg]}))
    rdatas algs = inr algs' →
  algs ⊆ algs' ∧ (rdatas = [] → algs' = algs) ∧ (rdatas ≠ [] → algs' ≠ ∅).
Proof.
  revert algs. induction rdatas as [|d rdatas IH]; intros algs Hr; simpl in Hr.
  - by simplify_eq.
  - destruct (rdata_algorithm d) as [alg|] eqn:Ealg; [|done]. simpl in Hr.
    apply IH in Hr as (Hsub & _ & _). split_and!; [set_solver|done|]. set_solver.
Qed.

Lemma signed_with_algorithms in_dnskey in_ds in_dlv n :
  signed (with_algorithms in_dnskey in_ds in_dlv n)
  = negb (bool_decide (in_dnskey = ∅) && bool_decide (in_ds = ∅)
          && bool_decide (in_dlv = ∅)).
Proof. done. Qed.

Lemma signed_grows in_dnskey in_ds in_dlv n (grown : bool) :
  dnssec_algorithms_in_dnskey n ⊆ in_dnskey →
  dnssec_algorithms_in_ds n ⊆ in_ds →
  dnssec_algorithms_in_dlv n ⊆ in_dlv →
  (grown = true → in_dnskey ≠ ∅ ∨ in_ds ≠ ∅ ∨ in_dlv ≠ ∅) →
  (grown = false → in_dnskey = dnssec_algorithms_in_dnskey n
                   ∧ in_ds = dnssec_algorithms_in_ds n
                   ∧ in_dlv = dnssec_algorithms_in_dlv n) →
  signed (with_algorithms in_dnskey in_ds in_dlv n) = signed n || grown.
Proof.
  intros H1 H2 H3 Ht Hf. rewrite signed_with_algorithms. unfold signed.
  destruct grown.
  - rewrite orb_true_r. destruct (Ht eq_refl) as [?|[?|?]];
      repeat case_bool_decide; try done; simpl; try done.
  - destruct (Hf eq_refl) as (-> & -> & ->). by rewrite orb_false_r.
Qed.

(** X6. When [_process_response_answer_rrset] returns, the node is
    [signed] exactly if it was after the part of the base class, or
    if the RRset answers a query for the name of the node or for its
    DLV name, is of type DNSKEY, DS or DLV, and holds at least one
    record.  SOA RRsets and RRsets of other types or of other query
    names never make a node signed. *)
Theorem process_response_answer_rrset_signed rrset_ query_ response_ c c' :
  _process_response_answer_rrset rrset_ query_ response_ c = inr c' →
  let c1 := super_process_response_answer_rrset c rrset_ query_ response_ in
  signed (nd c') =
    signed (nd c1)
    || ((bool_decide (q_qname query_ = name (nd c1))
         || bool_decide (Some (q_qname query_) = dlv_name (nd c1)))
        && bool_decide (rrset_rdtype rrset_ ∈ [rdatatype.DNSKEY; rdatatype.DS; rdatatype.DLV])
        && bool_decide (rrset_rdata rrset_ ≠ [])).
Proof.
  intros Hc c1. unfold _process_response_answer_rrset in Hc. fold c1 in Hc. simpl in Hc.
  destruct (bool_decide (q_qname query_ = name (nd c1))
            || bool_decide (Some (q_qname query_) = dlv_name (nd c1))); simpl;
    [|simplify_eq; by rewrite orb_false_r].
  destruct (decide (rrset_rdtype rrset_ = rdatatype.SOA)) as [Hsoa|Hsoa].
  { rewrite bool_decide_eq_false_2; [|rewrite Hsoa; set_solver]. simpl.
    rewrite orb_false_r. unfold _handle_soa_response in Hc.
    destruct (rrset_rdata rrset_); [done|]. destruct (soa_of _); [|done].
    by destruct (if serial c1 is Some _ then _ else _); simplify_eq. }
  destruct (decide (rrset_rdtype rrset_ = rdatatype.DNSKEY)) as [Hkey|Hkey].
  { rewrite bool_decide_eq_true_2; [|rewrite Hkey; set_solver]. simpl.
    unfold _handle_dnskey_response in Hc.
    destruct (for_records _ _ _) as [|algs] eqn:E; [done|]. simplify_eq/=.
    apply for_records_algorithms in E as (Hsub & Hnil & Hcons).
    apply signed_grows; try done.
    - intros Hne%bool_decide_eq_true;
        first [left; by apply Hcons|right; left; by apply Hcons|right; right; by apply Hcons].
    - intros Hne%bool_decide_eq_false. split; [|done].
      apply Hnil. destruct (rrset_rdata rrset_); [done|]. by destruct Hne. }
  destruct (bool_decide (rrset_rdtype rrset_ = rdatatype.DS)
            || bool_decide (rrset_rdtype rrset_ = rdatatype.DLV)) eqn:Eds; simpl in Hc.
  - rewrite bool_decide_eq_true_2;
      [|apply orb_true_iff in Eds as [->%bool_decide_eq_true| ->%bool_decide_eq_true];
        set_solver]. simpl.
    assert (Hrec : ∀ algs digests algs' digests',
      ds_records rrset_ algs digests = inr (algs', digests') →
      algs ⊆ algs' ∧ (rrset_rdata rrset_ = [] → algs' = algs)
      ∧ (rrset_rdata rrset_ ≠ [] → algs' ≠ ∅)).
    { unfold ds_records. intros algs digests algs' digests'.
      generalize (rrset_rdata rrset_). intros l. revert algs digests.
      induction l as [|d l IH]; intros algs digests Hr; simpl in Hr; [by simplify_eq|].
      destruct (rdata_algorithm d) as [alg|]; [|done]. simpl in Hr.
      destruct (rdata_digest_type d) as [dt|]; [|done]. simpl in Hr.
      apply IH in Hr as (? & _ & _). split_and!; [set_solver|done|set_solver]. }
    unfold _handle_ds_response in Hc. destruct (decide (rrset_rdtype rrset_ = rdatatype.DS)).
    + destruct (ds_records _ _ _) as [|[algs' digests']] eqn:E; [done|]. simplify_eq/=.
      apply Hrec in E as (Hsub & Hnil & Hcons).
      apply signed_grows; try done.
      * intros Hne%bool_decide_eq_true;
        first [left; by apply Hcons|right; left; by apply Hcons|right; right; by apply Hcons].
      * intros Hne%bool_decide_eq_false. split_and!; try done.
        apply Hnil. destruct (rrset_rdata rrset_); [done|]. by destruct Hne.
    + destruct (ds_records _ _ _) as [|[algs' digests']] eqn:E; [done|]. simplify_eq/=.
      apply Hrec in E as (Hsub & Hnil & Hcons).
      apply signed_grows; try done.
      * intros Hne%bool_decide_eq_true;
        first [left; by apply Hcons|right; left; by apply Hcons|right; right; by apply Hcons].
      * intros Hne%bool_decide_eq_false. split_and!; try done.
        apply Hnil. destruct (rrset_rdata rrset_); [done|]. by destruct Hne.
  - simplify_eq. apply orb_false_iff in Eds as [Hds%bool_decide_eq_false Hdlv%bool_decide_eq_false].
    rewrite bool_decide_eq_false_2; [by rewrite orb_false_r|]. set_solver.
Qed.
End collect_theorems.

Lemma handle_soa_response_keeps_latest_two_rrsets :
  ∃ c', @collect.handle_each (@collect._handle_soa_response samples.online)
          [samples.soa_rrset_new; samples.soa_rrset_old] (collect.init samples.collecting)
        = inr c'
        ∧ collect.has_soa c' = true.
Proof.
  eexists. split; [vm_compute; reflexivity|].
  refine (proj1 (@handle_soa_response_keeps_latest samples.online
                   [samples.soa_rrset_new; samples.soa_rrset_old] samples.collecting _ _ _));
    [done|vm_compute; reflexivity].
Defined.

Lemma handle_ds_response_digests_match_ds_rrset :
  ∃ c', @collect._handle_ds_response samples.ds_rrset samples.collecting = inr c'
        ∧ collect.digests_match (dnssec_algorithms_in_ds (collect.nd c'))
            (collect.dnssec_algorithms_digest_in_ds c').
Proof.
  eexists. split; [vm_compute; reflexivity|].
  refine (proj1 (handle_ds_response_digests_match samples.ds_rrset samples.collecting _ _ _ _)).
  - intros alg. split; [by intros ?%elem_of_empty|by intros [? ?%elem_of_empty]].
  - intros alg. split; [by intros ?%elem_of_empty|by intros [? ?%elem_of_empty]].
  - vm_compute; reflexivity.
Defined.

Lemma process_response_answer_rrset_signed_ds_rrset :
  ∃ c', @collect._process_response_answer_rrset samples.online samples.ds_rrset
          (Query "example." rdatatype.DS [] [] [] []) examples.response1 samples.collecting
        = inr c'
        ∧ signed (collect.nd c') = true.
Proof.
  set (run := @collect._process_response_answer_rrset samples.online samples.ds_rrset
                (Query "example." rdatatype.DS [] [] [] []) examples.response1
                samples.collecting).
  set (c' := match run with inr c => c | inl _ => samples.collecting end).
  assert (Hrun : run = inr c') by (by vm_compute).
  exists c'. split; [done|].
  by rewrite (@process_response_answer_rrset_signed samples.online samples.ds_rrset
                (Query "example." rdatatype.DS [] [] [] []) examples.response1
                samples.collecting c' Hrun).
Defined.

(** * Key roles *)
Section key_role_theorems.
Context `{Collector} `{Validator} `{QueryAttributes} (g : graph).
Import keys.

Lemma potential_trusted_keys_fields k l :
  potential_trusted_keys k = Ok l →
  ∃ ksks_ zsks_ revoked,
    ksks k = Some ksks_ ∧ zsks k = Some zsks_ ∧ revoked_keys k = Some revoked
    ∧ l = (if bool_decide (list_difference (list_difference ksks_ zsks_) revoked ≠ [])
           then list_difference (list_difference ksks_ zsks_) revoked
           else list_difference ksks_ revoked).
Proof.
  unfold potential_trusted_keys.
  destruct (ksks k) as [ksks_|]; [|done].
  destruct (zsks k) as [zsks_|]; [|done].
  destruct (revoked_keys k) as [revoked|]; [|done]. simpl.
  intros Hl. exists ksks_, zsks_, revoked. split_and!; try done.
  by case_bool_decide; simplify_eq.
Qed.

(** X7. When [potential_trusted_keys] returns, it returns KSKs only
    and no revoked key.  If some KSK is neither revoked nor a ZSK, the
    result consists of exactly the KSKs that are neither revoked nor
    ZSKs; if every KSK that is not revoked is also a ZSK, the result
    consists of all the KSKs that are not revoked. *)
Theorem potential_trusted_keys_spec k l :
  potential_trusted_keys k = Ok l →
  ∃ ksks_ zsks_ revoked,
    ksks k = Some ksks_ ∧ zsks k = Some zsks_ ∧ revoked_keys k = Some revoked
    ∧ (∀ x, x ∈ l → x ∈ ksks_ ∧ x ∉ revoked)
    ∧ ((∃ x, x ∈ ksks_ ∧ x ∉ revoked ∧ x ∉ zsks_) →
       ∀ y, y ∈ l ↔ y ∈ ksks_ ∧ y ∉ zsks_ ∧ y ∉ revoked)
    ∧ ((∀ x, x ∈ ksks_ → x ∉ revoked → x ∈ zsks_) →
       ∀ y, y ∈ l ↔ y ∈ ksks_ ∧ y ∉ revoked).
Proof.
  intros (ksks_ & zsks_ & revoked & Hk & Hz & Hr & ->)%potential_trusted_keys_fields.
  exists ksks_, zsks_, revoked. split_and!; try done.
  - intros x. case_bool_decide; rewrite !list_elem_of_difference; tauto.
  - intros (x & Hx & Hxr & Hxz) y. rewrite bool_decide_eq_true_2.
    + rewrite !list_elem_of_difference. tauto.
    + intros Hnil. assert (x ∈ list_difference (list_difference ksks_ zsks_) revoked) as Hin
        by (by rewrite !list_elem_of_difference).
      rewrite Hnil in Hin. by apply not_elem_of_nil in Hin.
  - intros Hall y. rewrite bool_decide_eq_false_2; [by rewrite list_elem_of_difference|].
    intros Hne. apply Hne. apply elem_of_nil_inv. intros x.
    rewrite !list_elem_of_difference. intros [[Hx Hxz] Hxr]. by apply Hxz, Hall.
Qed.

Lemma elem_of_dnskey_keys nd key :
  key ∈ dnskey_keys nd ↔ ∃ d, d ∈ get_dnskeys nd ∧ key = key_of_dnskey d.
Proof.
  unfold dnskey_keys. rewrite elem_of_remove_dups, list_elem_of_fmap. naive_solver.
Qed.

(** X8. On a zone, [_finalize_key_roles] keeps [zsks] and [ksks] and
    assigns [published_keys] and [revoked_keys] such that a DNSKEY of
    the zone is published exactly if it is neither a ZSK nor a KSK,
    and revoked exactly if the REVOKE bit of its flags is set; both
    sets hold DNSKEYs of the zone only. *)
Theorem finalize_key_roles_partition nd k k' :
  is_zone nd = true →
  _finalize_key_roles nd k = Ok k' →
  ∃ zsks_ ksks_ published revoked,
    zsks k = Some zsks_ ∧ ksks k = Some ksks_
    ∧ zsks k' = Some zsks_ ∧ ksks k' = Some ksks_
    ∧ published_keys k' = Some published ∧ revoked_keys k' = Some revoked
    ∧ (∀ d, d ∈ get_dnskeys nd →
         (key_of_dnskey d ∈ published
          ↔ key_of_dnskey d ∉ zsks_ ∧ key_of_dnskey d ∉ ksks_)
         ∧ (key_of_dnskey d ∈ revoked
            ↔ Z.land (flags (dnskey_rdata d)) DNSKEY_FLAGS_revoke ≠ 0%Z))
    ∧ (∀ key, key ∈ published ∨ key ∈ revoked →
         ∃ d, d ∈ get_dnskeys nd ∧ key = key_of_dnskey d).
Proof.
  unfold _finalize_key_roles. intros ->.
  destruct (zsks k) as [zsks_|] eqn:Hz; [|done].
  destruct (ksks k) as [ksks_|] eqn:Hk; [|done]. simpl. intros [= <-]. simpl.
  eexists zsks_, ksks_, _, _. split_and!; try done.
  - intros d Hd. rewrite list_elem_of_difference, list_elem_of_union, list_elem_of_filter,
      !elem_of_dnskey_keys. unfold revoke_flag. simpl.
    rewrite bool_decide_spec. naive_solver.
  - intros key. rewrite list_elem_of_difference, list_elem_of_filter, !elem_of_dnskey_keys.
    naive_solver.
Qed.

(** X9. On a zone, a key that [potential_trusted_keys] returns after
    [_finalize_key_roles] is a KSK, and if it is one of the DNSKEYs of
    the zone the REVOKE bit of its flags is clear. *)
Theorem potential_trusted_keys_after_finalize nd k k' l :
  is_zone nd = true →
  _finalize_key_roles nd k = Ok k' →
  potential_trusted_keys k' = Ok l →
  ∀ d, key_of_dnskey d ∈ l →
    (∃ ksks_, ksks k = Some ksks_ ∧ key_of_dnskey d ∈ ksks_)
    ∧ (d ∈ get_dnskeys nd → Z.land (flags (dnskey_rdata d)) DNSKEY_FLAGS_revoke = 0%Z).
Proof.
  unfold _finalize_key_roles. intros ->.
  destruct (zsks k) as [zsks_|] eqn:Hz; [|done].
  destruct (ksks k) as [ksks_|] eqn:Hk; [|done]. simpl. intros [= <-].
  intros (? & ? & revoked & [= <-] & _ & [= <-] & ->)%potential_trusted_keys_fields d Hd.
  assert (key_of_dnskey d ∈ ksks_
          ∧ key_of_dnskey d ∉ filter (λ key : dnskey_key, revoke_flag key.2) (dnskey_keys nd))
    as [Hin Hrev].
  { revert Hd. case_bool_decide; rewrite !list_elem_of_difference; tauto. }
  split; [by exists ksks_|]. intros Hdn.
  destruct (decide (Z.land (flags (dnskey_rdata d)) DNSKEY_FLAGS_revoke = 0%Z)) as [|Hne];
    [done|].
  destruct Hrev. apply list_elem_of_filter. split.
  - unfold revoke_flag. simpl. by apply bool_decide_spec.
  - apply elem_of_dnskey_keys. by exists d.
Qed.
End key_role_theorems.

Lemma potential_trusted_keys_spec_roles :
  ∃ l, keys.potential_trusted_keys
         (keys.mk (Some [samples.key8]) (Some [samples.key13]) None (Some []) None [] [])
       = Ok l
       ∧ ∀ x, x ∈ l → x ∈ [samples.key13].
Proof.
  set (k := keys.mk (Some [samples.key8]) (Some [samples.key13]) None (Some []) None [] []).
  exists [samples.key13].
  assert (Hrun : keys.potential_trusted_keys k = Ok [samples.key13]) by (by vm_compute).
  split; [done|]. intros x Hx.
  destruct (potential_trusted_keys_spec k _ Hrun)
    as (ksks_ & zsks_ & revoked & Hk & _ & _ & Hin & _).
  injection Hk as <-. by apply Hin.
Defined.

Lemma finalize_key_roles_partition_keyed_zone :
  ∃ k', @keys._finalize_key_roles examples.validator samples.keyed_zone samples.roles = Ok k'
        ∧ keys.zsks k' = Some [samples.key8].
Proof.
  set (run := @keys._finalize_key_roles examples.validator samples.keyed_zone samples.roles).
  set (k' := match run with Ok k => k | _ => samples.roles end).
  assert (Hrun : run = Ok k') by (by vm_compute).
  exists k'. split; [done|].
  destruct (@finalize_key_roles_partition examples.validator samples.keyed_zone
              samples.roles k' eq_refl Hrun)
    as (zsks_ & ksks_ & published & revoked & Hz & _ & Hz' & _).
  rewrite Hz'. by rewrite <-Hz.
Defined.

Lemma potential_trusted_keys_after_finalize_keyed_zone :
  ∃ ksks_, keys.ksks samples.roles = Some ksks_ ∧ samples.key13 ∈ ksks_.
Proof.
  set (run := @keys._finalize_key_roles examples.validator samples.keyed_zone samples.roles).
  set (k' := match run with Ok k => k | _ => samples.roles end).
  assert (Hrun : run = Ok k') by (by vm_compute).
  assert (Hl : keys.potential_trusted_keys k' = Ok [samples.key13]) by (by vm_compute).
  refine (proj1 (@potential_trusted_keys_after_finalize examples.validator
                   samples.keyed_zone samples.roles k' [samples.key13] eq_refl Hrun Hl
                   (mkDNSKEYMeta 1 "example." examples.zsk13 3600 0 0 [] []) _)).
  by left.
Defined.

(** * The DNSKEY index *)
Section index_theorems.
Context `{Validator}.

Lemma alist_get_fst_elem {K V} `{EqDecision K} (k : K) (d : list (K * V)) :
  is_Some (alist_get k d) ↔ k ∈ d.*1.
Proof.
  induction d as [|[k0 v0] d IH]; simpl.
  - split; [by intros [? ?]|by intros ?%not_elem_of_nil].
  - destruct (decide (k0 = k)) as [->|Hne].
    + split; [intros _; by left|by eexists].
    + rewrite IH, elem_of_cons. naive_solver.
Qed.

Lemma index_inv_proper nd carried carried' dnskeys_ :
  (∀ i k, carried i k ↔ carried' i k) →
  index_inv nd carried dnskeys_ → index_inv nd carried' dnskeys_.
Proof.
  intros Heq [Hnd Hk]. split; [done|]. intros k. specialize (Hk k).
  destruct (alist_get k dnskeys_) as [m|].
  - destruct Hk as (? & ? & Hi). split_and!; try done.
    intros i. by rewrite <-Heq.
  - intros i. by rewrite <-Heq.
Qed.

Lemma index_dnskey_rdata_inv nd carried info dnskeys_ k :
  rrset_name (ri.rrset info) = name nd →
  index_inv nd carried dnskeys_ →
  index_inv nd (λ i k', carried i k' ∨ (i = info ∧ k' = k))
    (index_dnskey_rdata info dnskeys_ k).
Proof.
  intros Hname [Hnd Hk]. unfold index_dnskey_rdata. split; [by apply alist_set_keys|].
  intros k'. rewrite alist_get_set. destruct (decide (k = k')) as [<-|Hne].
  - specialize (Hk k). destruct (alist_get k dnskeys_) as [m|]; simpl.
    + destruct Hk as (? & ? & Hi). split_and!; try done.
      intros i. rewrite elem_of_app, list_elem_of_singleton, Hi. naive_solver.
    + split_and!; try done.
      intros i. rewrite list_elem_of_singleton. naive_solver.
  - specialize (Hk k'). destruct (alist_get k' dnskeys_) as [m|].
    + destruct Hk as (? & ? & Hi). split_and!; try done.
      intros i. rewrite Hi. naive_solver.
    + intros i [?|[_ ?]]; [by eapply Hk|done].
Qed.

Lemma index_dnskeys_inv nd query_ :
  alist_get (name nd, rdatatype.DNSKEY) (queries nd) = Some query_ →
  index_inv nd (λ i k, indexed_rrset nd i ∧ k ∈ dnskeys_of (ri.rrset i))
    (_index_dnskeys_of nd).2.
Proof.
  intros Hq. unfold _index_dnskeys_of. rewrite Hq.
  set (seen_carried (seen : list rrset_info) (i : rrset_info) (k : DNSKEY) :=
         i ∈ seen ∧ rrset_name (ri.rrset i) = name nd
         ∧ rrset_rdtype (ri.rrset i) = rdatatype.DNSKEY ∧ k ∈ dnskeys_of (ri.rrset i)).
  assert (∀ l seen (acc : dnskey_index),
    index_inv nd (seen_carried seen) acc.2 →
    index_inv nd (seen_carried (seen ++ l))
      (foldl (λ (acc : dnskey_index) dnskey_info,
          if negb (bool_decide (rrset_name (ri.rrset dnskey_info) = name nd)
                   && bool_decide (rrset_rdtype (ri.rrset dnskey_info) = rdatatype.DNSKEY))
          then acc
          else
            let keys := dnskeys_of (ri.rrset dnskey_info) in
            (acc.1 ++ [(remove_dups keys, dnskey_info)],
             foldl (index_dnskey_rdata dnskey_info) acc.2 keys))
        acc l).2) as Hfold.
  { induction l as [|info l IH]; intros seen acc Hacc; simpl.
    - by rewrite app_nil_r.
    - replace (seen ++ info :: l) with ((seen ++ [info]) ++ l) by by rewrite <-app_assoc.
      apply IH.
      destruct (bool_decide (rrset_name (ri.rrset info) = name nd)) eqn:En; simpl.
      + destruct (bool_decide (rrset_rdtype (ri.rrset info) = rdatatype.DNSKEY)) eqn:Et;
          simpl.
        * apply bool_decide_eq_true in En, Et.
          assert (∀ keys done_ dnskeys_,
            index_inv nd (λ i k, seen_carried seen i k ∨ (i = info ∧ k ∈ done_)) dnskeys_ →
            index_inv nd (λ i k, seen_carried seen i k ∨ (i = info ∧ k ∈ done_ ++ keys))
              (foldl (index_dnskey_rdata info) dnskeys_ keys)) as Hinner.
          { induction keys as [|k keys IHk]; intros done_ dnskeys_ Hd; simpl.
            - by rewrite app_nil_r.
            - replace (done_ ++ k :: keys) with ((done_ ++ [k]) ++ keys)
                by by rewrite <-app_assoc.
              apply IHk. eapply index_inv_proper;
                [|by apply (index_dnskey_rdata_inv nd _ info _ k En Hd)].
              intros i k'. simpl. rewrite elem_of_app, list_elem_of_singleton.
              naive_solver. }
          eapply index_inv_proper; [|apply (Hinner _ [])].
          -- intros i k. unfold seen_carried. simpl.
             rewrite elem_of_app, list_elem_of_singleton. naive_solver.
          -- eapply index_inv_proper; [|exact Hacc].
             intros i k. rewrite elem_of_nil. naive_solver.
        * apply bool_decide_eq_false in Et. eapply index_inv_proper; [|exact Hacc].
          intros i k. unfold seen_carried. rewrite elem_of_app, list_elem_of_singleton.
          naive_solver.
      + apply bool_decide_eq_false in En. eapply index_inv_proper; [|exact Hacc].
        intros i k. unfold seen_carried. rewrite elem_of_app, list_elem_of_singleton.
        naive_solver. }
  eapply index_inv_proper; [|apply (Hfold (answer_info query_) [] ([], []))].
  - intros i k. unfold seen_carried, indexed_rrset. simpl. rewrite Hq. naive_solver.
  - split; [apply NoDup_nil_2|]. intros k i. unfold seen_carried. rewrite elem_of_nil.
    naive_solver.
Qed.

Lemma get_dnskeys_lookup nd d :
  d ∈ get_dnskeys nd ↔ ∃ k, alist_get k (_index_dnskeys_of nd).2 = Some d.
Proof.
  unfold get_dnskeys.
  assert (NoDup (_index_dnskeys_of nd).2.*1) as Hnd.
  { destruct (alist_get (name nd, rdatatype.DNSKEY) (queries nd)) as [query_|] eqn:Hq.
    - by destruct (index_dnskeys_inv nd query_ Hq).
    - unfold _index_dnskeys_of. rewrite Hq. apply NoDup_nil_2. }
  rewrite list_elem_of_fmap. split.
  - intros ([k m] & -> & Hin). exists k. by apply alist_get_elem.
  - intros (k & Hk). exists (k, d). split; [done|]. by apply alist_get_Some_elem.
Qed.

(** X10. [get_dnskeys] returns exactly one DNSKEYMeta object for each
    distinct DNSKEY record of the DNSKEY RRsets at the name of the
    node among the answers to its DNSKEY query.  The object carries
    the name of the node and the key tags computed from the record,
    and its [rrset_info] lists exactly the indexed RRsets that hold
    the record. *)
Theorem get_dnskeys_spec nd :
  NoDup (dnskey_rdata <$> get_dnskeys nd)
  ∧ (∀ d, d ∈ get_dnskeys nd →
       dnskey_name d = name nd
       ∧ key_tag d = calc_key_tag (dnskey_rdata d)
       ∧ key_tag_no_revoke d = calc_key_tag_no_revoke (dnskey_rdata d)
       ∧ ∀ info, info ∈ dnskey_rrset_info d
                 ↔ indexed_rrset nd info ∧ dnskey_rdata d ∈ dnskeys_of (ri.rrset info))
  ∧ (∀ info k, indexed_rrset nd info → k ∈ dnskeys_of (ri.rrset info) →
       ∃ d, d ∈ get_dnskeys nd ∧ dnskey_rdata d = k).
Proof.
  destruct (alist_get (name nd, rdatatype.DNSKEY) (queries nd)) as [query_|] eqn:Hq.
  - pose proof (index_dnskeys_inv nd query_ Hq) as [Hnd Hk]. split_and!.
    + unfold get_dnskeys.
      assert ((_index_dnskeys_of nd).2.*1 = dnskey_rdata <$> (_index_dnskeys_of nd).2.*2)
        as <-; [|done].
      rewrite <-!list_fmap_compose. apply Forall_fmap_ext, Forall_forall.
      intros [k m] Hin. simpl.
      apply (alist_get_elem _ _ _ Hnd) in Hin. specialize (Hk k). rewrite Hin in Hk.
      by destruct Hk as (-> & _).
    + intros d (k & Hd)%get_dnskeys_lookup. pose proof (_index_dnskeys_of_indexed _ _ _ Hd)
        as [Htag Htag']. specialize (Hk k). rewrite Hd in Hk.
      destruct Hk as (<- & Hname & Hi). by split_and!.
    + intros info k Hinfo Hin. specialize (Hk k).
      destruct (alist_get k (_index_dnskeys_of nd).2) as [m|] eqn:Hm.
      * exists m. split; [apply get_dnskeys_lookup; by exists k|]. by destruct Hk.
      * by destruct (Hk info).
  - unfold get_dnskeys, _index_dnskeys_of, indexed_rrset. rewrite Hq. simpl. split_and!.
    + apply NoDup_nil_2.
    + by intros d ?%not_elem_of_nil.
    + by intros info k (? & ? & _).
Qed.

Lemma get_dnskeys_key_inj nd d d' :
  d ∈ get_dnskeys nd → d' ∈ get_dnskeys nd →
  key_of_dnskey d = key_of_dnskey d' → d = d'.
Proof.
  intros (k & Hd)%get_dnskeys_lookup (k' & Hd')%get_dnskeys_lookup [= _ Hrd].
  destruct (alist_get (name nd, rdatatype.DNSKEY) (queries nd)) as [query_|] eqn:Hq.
  - pose proof (index_dnskeys_inv nd query_ Hq) as [_ Hk].
    pose proof (Hk k) as H1. pose proof (Hk k') as H2. rewrite Hd in H1. rewrite Hd' in H2.
    destruct H1 as (<- & _), H2 as (<- & _). rewrite Hrd in Hd. congruence.
  - unfold _index_dnskeys_of in Hd. by rewrite Hq in Hd.
Qed.
End index_theorems.

(** * The status of the DNSKEYs *)
Lemma for_each_inv_prefix {A S} (I : list A → S → Prop) (body : S → A → result S) l s s' :
  (∀ done_ x rest s s',
     l = done_ ++ x :: rest → I done_ s → body s x = Ok s' → I (done_ ++ [x]) s') →
  I [] s → for_each body l s = Ok s' → I l s'.
Proof.
  intros Hstep.
  assert (∀ rest done_ s, l = done_ ++ rest → I done_ s →
                          for_each body rest s = Ok s' → I l s') as Hgen.
  { induction rest as [|x rest IH]; intros done_ s0 Hl Hs Hrun; simpl in Hrun.
    - rewrite app_nil_r in Hl. by simplify_eq.
    - apply bind_Ok in Hrun as (s1 & H1 & H2).
      apply (IH (done_ ++ [x]) s1); [by rewrite <-app_assoc| |done]. by eapply Hstep. }
  intros. by eapply (Hgen l []).
Qed.

Lemma or_exists_snoc {A} (P : Prop) (Q : A → Prop) (done_ : list A) (x : A) :
  (P ∨ (∃ d, d ∈ done_ ∧ Q d)) ∨ Q x ↔ P ∨ ∃ d, d ∈ done_ ++ [x] ∧ Q d.
Proof.
  split.
  - intros [[?|(d & ? & ?)]|?]; [by left|right; exists d|right; exists x];
      (split; [|done]); apply elem_of_app; [by left|right; by left].
  - intros [?|(d & [?| ->%list_elem_of_singleton]%elem_of_app & ?)];
      [by left; left|left; right; by exists d|by right].
Qed.

Lemma alist_set_elem_same {K V} `{EqDecision K} (k : K) (v : V) d :
  (k, v) ∈ alist_set k v d.
Proof.
  induction d as [|[k0 v0] d IH]; simpl; [by left|].
  destruct (decide (k0 = k)); [by left|by right].
Qed.

Lemma alist_set_elem_other {K V} `{EqDecision K} (k k' : K) (v v' : V) d :
  k' ≠ k → (k', v') ∈ d → (k', v') ∈ alist_set k v d.
Proof.
  intros Hne. induction d as [|[k0 v0] d IH]; simpl; [by intros ?%not_elem_of_nil|].
  rewrite elem_of_cons. intros [[= <- <-]|Hin].
  - rewrite decide_False by done. by left.
  - destruct (decide (k0 = k)); right; auto.
Qed.

Lemma alist_set_elem_first {K V} `{EqDecision K} (k : K) (v v0 v' : V) d :
  alist_get k d = Some v0 → (k, v') ∈ d → v' = v0 ∨ (k, v') ∈ alist_set k v d.
Proof.
  induction d as [|[k0 v1] d IH]; simpl; [done|].
  destruct (decide (k0 = k)) as [->|Hne].
  - intros [= ->]. rewrite elem_of_cons. intros [[= ->]|Hin]; [by left|].
    right. by right.
  - intros Hget. rewrite elem_of_cons. intros [[= -> ->]|Hin]; [done|].
    destruct (IH Hget Hin); [by left|]. right. by right.
Qed.

Section dnskey_status_theorems.
Context `{Collector} `{Validator} `{QueryAttributes} (g : graph).
Import keys.
Implicit Types (k : t) (d : DNSKEYMeta) (key : dnskey_key).

Lemma elem_of_errors_of_add_error key key' e sc k x :
  x ∈ errors_of key (add_error key' e sc k)
  ↔ x ∈ errors_of key k ∨ (key = key' ∧ x = (e, sc)).
Proof.
  unfold errors_of, add_error, append_notice; simpl. rewrite alist_get_set.
  destruct (decide (key' = key)) as [->|]; simpl.
  - rewrite elem_of_app, list_elem_of_singleton. naive_solver.
  - naive_solver.
Qed.

Lemma elem_of_warnings_of_add_warning key key' e sc k x :
  x ∈ warnings_of key (add_warning key' e sc k)
  ↔ x ∈ warnings_of key k ∨ (key = key' ∧ x = (e, sc)).
Proof.
  unfold warnings_of, add_warning, append_notice; simpl. rewrite alist_get_set.
  destruct (decide (key' = key)) as [->|]; simpl.
  - rewrite elem_of_app, list_elem_of_singleton. naive_solver.
  - naive_solver.
Qed.

Lemma elem_of_trusted_rdata nd (trusted_keys : list (dname * rdata)) r :
  r ∈ omap (λ zk : dname * rdata, if decide (zk.1 = name nd) then Some zk.2 else None)
        trusted_keys
  ↔ (name nd, r) ∈ trusted_keys.
Proof.
  rewrite list_elem_of_omap. split.
  - intros ([z r'] & Hin & Hf). simpl in Hf. case_decide; by simplify_eq.
  - intros Hin. exists (name nd, r). split; [done|]. simpl. by rewrite decide_True.
Qed.

Lemma member_Ok key field (b : bool) :
  member key field = Ok b → ∃ l, field = Some l ∧ b = bool_decide (key ∈ l).
Proof. destruct field as [l|]; [|done]. intros [= <-]. by exists l. Qed.

Lemma member_true key field :
  member key field = Ok true ↔ ∃ l, field = Some l ∧ key ∈ l.
Proof.
  split.
  - intros (l & -> & Hb)%member_Ok. exists l. split; [done|].
    symmetry in Hb. by apply bool_decide_eq_true_1 in Hb.
  - intros (l & -> & Hin). simpl. by rewrite bool_decide_eq_true_2.
Qed.

Lemma member_false key field :
  member key field = Ok false ↔ ∃ l, field = Some l ∧ key ∉ l.
Proof.
  split.
  - intros (l & -> & Hb)%member_Ok. exists l. split; [done|].
    symmetry in Hb. by apply bool_decide_eq_false_1 in Hb.
  - intros (l & -> & Hin). simpl. by rewrite bool_decide_eq_false_2.
Qed.

Section step.
Context (nd : node) (trusted_keys : list (dname * rdata)) (servers_responsive : list triple)
  (k0 : t) (done_ rest : list DNSKEYMeta) (x : DNSKEYMeta).
Hypothesis Hall : get_dnskeys nd = done_ ++ x :: rest.

Lemma done_key_inj d : d ∈ done_ → key_of_dnskey d = key_of_dnskey x → d = x.
Proof.
  intros Hd. apply get_dnskeys_key_inj with nd; rewrite Hall; set_solver.
Qed.

Lemma note_trusted_inv k existing nss existing' nss' :
  ksks k = ksks k0 →
  (∀ key, key ∈ existing
          ↔ ∃ d, d ∈ done_ ∧ key = key_of_dnskey d ∧ trusted_key nd trusted_keys d) →
  (∀ d, d ∈ nss ↔ d ∈ done_ ∧ trusted_key nd trusted_keys d ∧ not_in_set (ksks k0) d) →
  note_trusted nd
    (omap (λ zk : dname * rdata, if decide (zk.1 = name nd) then Some zk.2 else None)
       trusted_keys) k (existing, nss) x = Ok (existing', nss') →
  (∀ key, key ∈ existing'
          ↔ ∃ d, d ∈ done_ ++ [x] ∧ key = key_of_dnskey d ∧ trusted_key nd trusted_keys d)
  ∧ (∀ d, d ∈ nss'
          ↔ d ∈ done_ ++ [x] ∧ trusted_key nd trusted_keys d ∧ not_in_set (ksks k0) d)
  ∧ (key_of_dnskey x ∈ existing' ↔ trusted_key nd trusted_keys x).
Proof.
  intros Hk Hex Hnss. unfold note_trusted. rewrite Hk.
  case_bool_decide as Ht; rewrite elem_of_trusted_rdata in Ht.
  - intros (in_ksks & Hm & [= <- <-])%bind_Ok.
    assert (∀ key, key ∈ set_add (key_of_dnskey x) existing
                   ↔ key ∈ existing ∨ key = key_of_dnskey x) as Hadd.
    { intros key. unfold set_add. case_decide; [naive_solver|].
      rewrite elem_of_app, list_elem_of_singleton. naive_solver. }
    split_and!.
    + intros key. rewrite Hadd, Hex. setoid_rewrite elem_of_app.
      setoid_rewrite list_elem_of_singleton. naive_solver.
    + intros d. destruct in_ksks.
      * apply member_true in Hm as (l & Hl & Hin). rewrite Hnss, elem_of_app,
          list_elem_of_singleton. unfold not_in_set. naive_solver.
      * apply member_false in Hm as (l & Hl & Hin).
        assert (not_in_set (ksks k0) x) by (by exists l).
        case_bool_decide as Hkey.
        -- apply list_elem_of_fmap in Hkey as (d' & Hkd & Hd').
           assert (d' = x) as ->
             by (apply done_key_inj; [by apply Hnss in Hd' as (? & _)|done]).
           rewrite Hnss, elem_of_app, list_elem_of_singleton. apply Hnss in Hd'.
           naive_solver.
        -- rewrite !elem_of_app, list_elem_of_singleton, Hnss. naive_solver.
    + rewrite Hadd. naive_solver.
  - intros [= <- <-]. split_and!.
    + intros key. rewrite Hex. setoid_rewrite elem_of_app.
      setoid_rewrite list_elem_of_singleton. unfold trusted_key in *. naive_solver.
    + intros d. rewrite Hnss, elem_of_app, list_elem_of_singleton.
      unfold trusted_key in *. naive_solver.
    + rewrite Hex. split; [|done]. intros (d & Hd & Hkey & Htd).
      assert (d = x) as -> by (by apply done_key_inj). done.
Qed.

Lemma note_revoked_inv k k' :
  note_revoked x k = Ok k' →
  (zsks k' = zsks k ∧ ksks k' = ksks k ∧ published_keys k' = published_keys k
   ∧ revoked_keys k' = revoked_keys k ∧ dnskey_with_ds k' = dnskey_with_ds k)
  ∧ (∀ key, warnings_of key k' = warnings_of key k)
  ∧ (∀ key e sc, (e, sc) ∈ errors_of key k'
       ↔ (e, sc) ∈ errors_of key k
         ∨ (key = key_of_dnskey x ∧ e = RevokedNotSigning
            ∧ sc = dnskey_servers_clients x
            ∧ in_set (revoked_keys k) x ∧ not_in_set (ksks k) x)).
Proof.
  unfold note_revoked. intros (revoked & Hr & Hk)%bind_Ok. destruct revoked.
  - apply member_true in Hr. apply bind_Ok in Hk as (in_ksks & Hm & Hk).
    destruct in_ksks; simplify_eq.
    + apply member_true in Hm as (l & Hl & Hin). split_and!; try done.
      intros key e sc. unfold not_in_set. naive_solver.
    + apply member_false in Hm. split_and!; try done.
      intros key e sc. rewrite elem_of_errors_of_add_error.
      split; [intros [?|[-> [= -> ->]]]; [by left|right; by split_and!]
             |intros [?|(-> & -> & -> & _)]; [by left|by right]].
  - apply member_false in Hr as (l & Hl & Hin). simplify_eq. split_and!; try done.
    intros key e sc. unfold in_set. naive_solver.
Qed.

Lemma note_not_at_zone_apex_inv k k' :
  note_not_at_zone_apex g nd x k = Ok k' →
  (zsks k' = zsks k ∧ ksks k' = ksks k ∧ published_keys k' = published_keys k
   ∧ revoked_keys k' = revoked_keys k ∧ dnskey_with_ds k' = dnskey_with_ds k)
  ∧ (∀ key, warnings_of key k' = warnings_of key k)
  ∧ (∀ key e sc, (e, sc) ∈ errors_of key k'
       ↔ (e, sc) ∈ errors_of key k
         ∨ (key = key_of_dnskey x ∧ is_zone nd = false
            ∧ sc = dnskey_servers_clients x
            ∧ ∃ z, obj g (zone nd) = Some z
                   ∧ e = DNSKEYNotAtZoneApex (name z) (name nd))).
Proof.
  unfold note_not_at_zone_apex. destruct (is_zone nd).
  - intros [= <-]. split_and!; try done. naive_solver.
  - intros (z & Hz & [= <-])%bind_Ok. destruct (obj g (zone nd)) as [z'|]; [|done].
    simpl in Hz. simplify_eq. split_and!; try done.
    intros key e sc. rewrite elem_of_errors_of_add_error. naive_solver.
Qed.

Lemma signing_or_anchored_Ok k existing (b : bool) :
  (key_of_dnskey x ∈ existing ↔ trusted_key nd trusted_keys x) →
  signing_or_anchored (key_of_dnskey x) existing k = Ok b →
  b = true ↔ signing_or_anchor nd trusted_keys k x.
Proof.
  intros Hex. unfold signing_or_anchored, signing_or_anchor.
  intros (in_zsks & Hz & Hb)%bind_Ok. destruct in_zsks.
  - apply member_true in Hz. simplify_eq. unfold in_set. naive_solver.
  - apply member_false in Hz as (lz & Hlz & Hz).
    apply bind_Ok in Hb as (with_ds & Hw & Hb). destruct with_ds.
    + apply member_true in Hw. simplify_eq. unfold in_set. naive_solver.
    + apply member_false in Hw as (lw & Hlw & Hw). simplify_eq.
      rewrite bool_decide_eq_true, Hex. unfold in_set. naive_solver.
Qed.

Lemma note_missing_from_servers_inv k k' existing :
  (key_of_dnskey x ∈ existing ↔ trusted_key nd trusted_keys x) →
  note_missing_from_servers servers_responsive existing x k = Ok k' →
  (zsks k' = zsks k ∧ ksks k' = ksks k ∧ published_keys k' = published_keys k
   ∧ revoked_keys k' = revoked_keys k ∧ dnskey_with_ds k' = dnskey_with_ds k)
  ∧ (∀ key e sc, (e, sc) ∈ errors_of key k'
       ↔ (e, sc) ∈ errors_of key k
         ∨ (key = key_of_dnskey x ∧ e = DNSKEYMissingFromServers
            ∧ missing_from servers_responsive x ≠ []
            ∧ sc = missing_servers_clients servers_responsive x
            ∧ signing_or_anchor nd trusted_keys k x))
  ∧ (∀ key e sc, (e, sc) ∈ warnings_of key k'
       ↔ (e, sc) ∈ warnings_of key k
         ∨ (key = key_of_dnskey x ∧ e = DNSKEYMissingFromServers
            ∧ missing_from servers_responsive x ≠ []
            ∧ sc = missing_servers_clients servers_responsive x
            ∧ ¬ signing_or_anchor nd trusted_keys k x)).
Proof.
  intros Hex. unfold note_missing_from_servers.
  fold (missing_from servers_responsive x).
  fold (missing_servers_clients servers_responsive x).
  case_bool_decide as Hm.
  - intros (b & Hb & Hk)%bind_Ok. apply (signing_or_anchored_Ok _ _ _ Hex) in Hb.
    destruct b; simplify_eq.
    + assert (signing_or_anchor nd trusted_keys k x) by (by apply Hb).
      split_and!; try done.
      * intros key e sc. rewrite elem_of_errors_of_add_error. naive_solver.
      * intros key e sc. naive_solver.
    + assert (¬ signing_or_anchor nd trusted_keys k x) by (by intros ?%Hb).
      split_and!; try done.
      * intros key e sc. naive_solver.
      * intros key e sc. rewrite elem_of_warnings_of_add_warning. naive_solver.
  - intros [= <-]. split_and!; try done; naive_solver.
Qed.

Lemma dnskey_status_step_inv acc acc' :
  dnskey_loop_inv g nd trusted_keys servers_responsive k0 done_ acc →
  dnskey_status_step g nd
    (omap (λ zk : dname * rdata, if decide (zk.1 = name nd) then Some zk.2 else None)
       trusted_keys) servers_responsive acc x = Ok acc' →
  dnskey_loop_inv g nd trusted_keys servers_responsive k0 (done_ ++ [x]) acc'.
Proof.
  destruct acc as [[existing nss] k]. unfold dnskey_loop_inv at 1, dnskey_status_step.
  intros ((Hz & Hk & Hp & Hr & Hw) & Hex & Hnss & He & Hwn).
  intros ([existing' nss'] & Ht & Hstep)%bind_Ok.
  apply bind_Ok in Hstep as (k1 & Hs1 & Hstep).
  apply bind_Ok in Hstep as (k2 & Hs2 & Hstep).
  apply bind_Ok in Hstep as (k3 & Hs3 & Hstep). simpl in *. simplify_eq.
  apply (note_trusted_inv _ _ _ _ _ Hk Hex Hnss) in Ht as (Hex' & Hnss' & Hx).
  apply note_revoked_inv in Hs1 as ((Hz1 & Hk1 & Hp1 & Hr1 & Hw1) & Hwn1 & He1).
  apply note_not_at_zone_apex_inv in Hs2 as ((Hz2 & Hk2 & Hp2 & Hr2 & Hw2) & Hwn2 & He2).
  apply (note_missing_from_servers_inv _ _ _ Hx) in Hs3
    as ((Hz3 & Hk3 & Hp3 & Hr3 & Hw3) & He3 & Hwn3).
  unfold dnskey_loop_inv. split_and!; try congruence; try done.
  - intros key e sc. rewrite He3, He2, He1, He.
    rewrite <-(or_exists_snoc ((e, sc) ∈ errors_of key k0)
                 (λ d, key = key_of_dnskey d
                       ∧ loop_error g nd trusted_keys servers_responsive k0 d e sc)).
    unfold loop_error, signing_or_anchor.
    rewrite Hr, Hk, Hz2, Hz1, Hz, Hw2, Hw1, Hw. tauto.
  - intros key e sc. rewrite Hwn3, Hwn2, Hwn1, Hwn.
    rewrite <-(or_exists_snoc ((e, sc) ∈ warnings_of key k0)
                 (λ d, key = key_of_dnskey d
                       ∧ loop_warning nd trusted_keys servers_responsive k0 d e sc)).
    unfold loop_warning, signing_or_anchor.
    rewrite Hz2, Hz1, Hz, Hw2, Hw1, Hw. tauto.
Qed.
End step.

Lemma dnskey_status_loop nd trusted_keys servers_responsive k acc :
  for_each (dnskey_status_step g nd
              (omap (λ zk : dname * rdata,
                       if decide (zk.1 = name nd) then Some zk.2 else None) trusted_keys)
              servers_responsive)
    (get_dnskeys nd) ([], [], k) = Ok acc →
  dnskey_loop_inv g nd trusted_keys servers_responsive k (get_dnskeys nd) acc.
Proof.
  apply (for_each_inv_prefix
           (dnskey_loop_inv g nd trusted_keys servers_responsive k)).
  - intros done_ x rest s s' Hall. by apply dnskey_status_step_inv with rest.
  - unfold dnskey_loop_inv. split_and!; try done.
    + intros key. split; [by intros ?%not_elem_of_nil|by intros (d & ?%not_elem_of_nil & _)].
    + intros d. split; [by intros ?%not_elem_of_nil|by intros (?%not_elem_of_nil & _)].
    + intros key e sc. split; [by left|by intros [?|(d & ?%not_elem_of_nil & _)]].
    + intros key e sc. split; [by left|by intros [?|(d & ?%not_elem_of_nil & _)]].
Qed.

Lemma loop_error_not_trust_anchor nd trusted_keys servers_responsive k d sc :
  ¬ loop_error g nd trusted_keys servers_responsive k d TrustAnchorNotSigning sc.
Proof. unfold loop_error. naive_solver. Qed.

Lemma elem_of_errors_of_trust_anchors key e sc k (nss : list DNSKEYMeta) :
  (e, sc) ∈ errors_of key
              (foldl (λ k dnskey,
                        add_error (key_of_dnskey dnskey) TrustAnchorNotSigning
                          (dnskey_servers_clients dnskey) k) k nss)
  ↔ (e, sc) ∈ errors_of key k
    ∨ ∃ d, d ∈ nss ∧ key = key_of_dnskey d ∧ e = TrustAnchorNotSigning
           ∧ sc = dnskey_servers_clients d.
Proof.
  revert k. induction nss as [|d nss IH]; intros k; simpl.
  - setoid_rewrite elem_of_nil. naive_solver.
  - rewrite IH, elem_of_errors_of_add_error. setoid_rewrite elem_of_cons. naive_solver.
Qed.

Lemma warnings_of_trust_anchors key k (nss : list DNSKEYMeta) :
  warnings_of key
    (foldl (λ k dnskey,
              add_error (key_of_dnskey dnskey) TrustAnchorNotSigning
                (dnskey_servers_clients dnskey) k) k nss)
  = warnings_of key k.
Proof. revert k. induction nss as [|d nss IH]; intros k; simpl; [done|]. by rewrite IH. Qed.

(** What [_populate_dnskey_status] has done when it returns, for a
    node with a DNSKEY query. *)
Lemma populate_dnskey_status_Ok self nd trusted_keys query_ k k' :
  alist_get (name nd, rdatatype.DNSKEY) (queries nd) = Some query_ →
  _populate_dnskey_status g self nd trusted_keys k = Ok k' →
  ∃ servers_responsive existing nss k1,
    servers_responsive_of g self query_ = Ok servers_responsive
    ∧ dnskey_loop_inv g nd trusted_keys servers_responsive k (get_dnskeys nd)
        (existing, nss, k1)
    ∧ k' = (if bool_decide (list_difference existing (key_of_dnskey <$> nss) = [])
            then foldl (λ k dnskey,
                          add_error (key_of_dnskey dnskey) TrustAnchorNotSigning
                            (dnskey_servers_clients dnskey) k) k1 nss
            else k1).
Proof.
  unfold _populate_dnskey_status. intros ->.
  intros (servers_responsive & Hsr & Hrun)%bind_Ok.
  apply bind_Ok in Hrun as ([[existing nss] k1] & Hloop & Hk').
  apply dnskey_status_loop in Hloop.
  exists servers_responsive, existing, nss, k1. split_and!; try done.
  by case_bool_decide; simplify_eq.
Qed.

(** X11. On a node whose [revoked_keys] is still [None], as
    [_finalize_key_roles] leaves it on a name that is not a zone,
    [_populate_dnskey_status] raises [TypeError] as soon as the node
    has a DNSKEY: the test [dnskey in self.revoked_keys] precedes the
    report of [DNSKEYNotAtZoneApex], which is therefore never made
    for such a node. *)
Theorem populate_dnskey_status_not_zone self nd trusted_keys query_ servers_responsive k :
  is_zone nd = false →
  revoked_keys k = None →
  alist_get (name nd, rdatatype.DNSKEY) (queries nd) = Some query_ →
  servers_responsive_of g self query_ = Ok servers_responsive →
  get_dnskeys nd ≠ [] →
  (k1 ← _finalize_key_roles nd k;
   _populate_dnskey_status g self nd trusted_keys k1) = Raise TypeError.
Proof.
  intros Hzone Hrev Hq Hsr Hne. unfold _finalize_key_roles. rewrite Hzone. simpl.
  unfold _populate_dnskey_status. rewrite Hq, Hsr. simpl.
  destruct (get_dnskeys nd) as [|d l]; [done|]. simpl.
  unfold note_trusted, note_revoked. rewrite Hrev.
  case_bool_decide; [|done].
  by destruct (ksks k).
Qed.

(** X12. When [_populate_dnskey_status] returns, a DNSKEY of the node
    has the error [TrustAnchorNotSigning] exactly if it is a trust
    anchor and no trust anchor among the DNSKEYs of the node is a KSK
    (provided the DNSKEYs had no such error before the call).  So as
    soon as one trust anchor signs the DNSKEY RRset, the other trust
    anchors are not reported. *)
Theorem populate_dnskey_status_trust_anchor self nd trusted_keys k k' :
  (∀ key, TrustAnchorNotSigning ∉ (errors_of key k).*1) →
  _populate_dnskey_status g self nd trusted_keys k = Ok k' →
  ∀ d, d ∈ get_dnskeys nd →
    TrustAnchorNotSigning ∈ (errors_of (key_of_dnskey d) k').*1
    ↔ trusted_key nd trusted_keys d
      ∧ ∀ d', d' ∈ get_dnskeys nd → trusted_key nd trusted_keys d' →
              not_in_set (ksks k) d'.
Proof.
  intros Hnone Hrun d Hd.
  destruct (alist_get (name nd, rdatatype.DNSKEY) (queries nd)) as [query_|] eqn:Hq;
    [|unfold get_dnskeys, _index_dnskeys_of in Hd; rewrite Hq in Hd;
      by apply not_elem_of_nil in Hd].
  apply (populate_dnskey_status_Ok _ _ _ _ _ _ Hq) in Hrun
    as (sr & existing & nss & k1 & _ & (_ & Hex & Hnss & He & _) & ->).
  assert (∀ key sc, (TrustAnchorNotSigning, sc) ∉ errors_of key k1) as Hk1.
  { intros key sc [Hin|(d0 & _ & _ & Hl)]%He.
    - apply (Hnone key). apply list_elem_of_fmap. by exists (TrustAnchorNotSigning, sc).
    - by apply loop_error_not_trust_anchor in Hl. }
  assert (list_difference existing (key_of_dnskey <$> nss) = []
          ↔ ∀ d', d' ∈ get_dnskeys nd → trusted_key nd trusted_keys d' →
                  not_in_set (ksks k) d') as Hcond.
  { split.
    - intros Hnil d' Hd' Ht.
      assert (key_of_dnskey d' ∈ key_of_dnskey <$> nss) as (d2 & Hkey & Hd2)%list_elem_of_fmap.
      { destruct (decide (key_of_dnskey d' ∈ key_of_dnskey <$> nss)) as [|Hnot]; [done|].
        assert (key_of_dnskey d' ∈ list_difference existing (key_of_dnskey <$> nss)) as Hin.
        { apply list_elem_of_difference. split; [|done]. apply Hex. by exists d'. }
        rewrite Hnil in Hin. by apply not_elem_of_nil in Hin. }
      apply Hnss in Hd2 as (Hd2 & _ & Hksk).
      by rewrite (get_dnskeys_key_inj nd d' d2 Hd' Hd2 Hkey).
    - intros Hall. apply elem_of_nil_inv. intros key.
      rewrite list_elem_of_difference. intros [(d' & Hd' & -> & Ht)%Hex Hnot].
      apply Hnot. apply list_elem_of_fmap. exists d'. split; [done|].
      apply Hnss. split_and!; try done. by apply Hall. }
  rewrite list_elem_of_fmap. case_bool_decide as Hnil.
  - split.
    + intros ([e sc] & Heq & Hin). simpl in Heq. subst e.
      apply elem_of_errors_of_trust_anchors in Hin as [Hin|(d0 & Hd0 & Hkey & _)];
        [by apply Hk1 in Hin|].
      apply Hnss in Hd0 as (Hd0 & Ht & _).
      rewrite (get_dnskeys_key_inj nd d d0 Hd Hd0 Hkey). split; [done|]. by apply Hcond.
    + intros [Ht Hall]. exists (TrustAnchorNotSigning, dnskey_servers_clients d).
      split; [done|]. apply elem_of_errors_of_trust_anchors. right. exists d.
      split_and!; try done. apply Hnss. split_and!; try done. by apply Hall.
  - split.
    + intros ([e sc] & Heq & Hin). simpl in Heq. subst e. by apply Hk1 in Hin.
    + intros [_ Hall]. by apply Hcond in Hall.
Qed.

Lemma add_server_client_elem (t : triple) sc : t ∈ triples (add_server_client t sc).
Proof.
  destruct t as [[server_ client_] response_]. unfold add_server_client.
  apply elem_of_triples. simpl.
  destruct (alist_get (server_, client_) sc) as [rs|]; simpl.
  - destruct (decide (response_ ∈ rs)).
    + exists rs. split; [apply alist_set_elem_same|done].
    + exists (rs ++ [response_]). split; [apply alist_set_elem_same|set_solver].
  - exists [response_]. split; [apply alist_set_elem_same|set_solver].
Qed.

Lemma add_server_client_keeps (t t' : triple) sc :
  t ∈ triples sc → t ∈ triples (add_server_client t' sc).
Proof.
  destruct t' as [[server' client'] response']. unfold add_server_client.
  rewrite !elem_of_triples. intros (rs & Hin & Hr).
  destruct (decide ((t.1.1, t.1.2) = (server', client'))) as [Heq|Hne].
  - rewrite Heq in Hin.
    destruct (alist_get (server', client') sc) as [rs0|] eqn:Hget; simpl.
    + destruct (decide (response' ∈ rs0)).
      * destruct (alist_set_elem_first _ rs0 _ _ _ Hget Hin) as [->|Hin'].
        -- exists rs0. rewrite Heq. split; [apply alist_set_elem_same|done].
        -- exists rs. rewrite Heq. by split.
      * destruct (alist_set_elem_first _ (rs0 ++ [response']) _ _ _ Hget Hin) as [->|Hin'].
        -- exists (rs0 ++ [response']). rewrite Heq.
           split; [apply alist_set_elem_same|set_solver].
        -- exists rs. rewrite Heq. by split.
    + assert (is_Some (alist_get (server', client') sc)) as [? Hsome]; [|congruence].
      apply alist_get_fst_elem. apply list_elem_of_fmap. by exists ((server', client'), rs).
  - exists rs. split; [|done]. destruct (alist_get (server', client') sc) as [rs0|]; simpl.
    + destruct (decide _); by apply alist_set_elem_other.
    + by apply alist_set_elem_other.
Qed.

Lemma elem_of_triples_add_all (l : list triple) sc t :
  t ∈ triples (foldl (λ sc t, add_server_client t sc) sc l) ↔ t ∈ triples sc ∨ t ∈ l.
Proof.
  revert sc. induction l as [|t0 l IH]; intros sc; simpl.
  - rewrite elem_of_nil. naive_solver.
  - rewrite IH, elem_of_cons. split.
    + intros [[->|?]%add_server_client_triples|?]; auto.
    + intros [?|[->|?]]; auto using add_server_client_keeps, add_server_client_elem.
Qed.

(** X13. When [_populate_dnskey_status] returns, a DNSKEY of the node
    is reported as [DNSKEYMissingFromServers] exactly if some server
    that gave a valid and complete response to the DNSKEY query did
    not return it: as an error if the key is a ZSK, has a DS record
    or is a trust anchor, and as a warning otherwise, never as both.
    The report names exactly the responses of those servers. *)
Theorem populate_dnskey_status_missing self nd trusted_keys query_ servers_responsive k k' :
  alist_get (name nd, rdatatype.DNSKEY) (queries nd) = Some query_ →
  servers_responsive_of g self query_ = Ok servers_responsive →
  (∀ key, DNSKEYMissingFromServers ∉ (errors_of key k).*1
          ∧ DNSKEYMissingFromServers ∉ (warnings_of key k).*1) →
  _populate_dnskey_status g self nd trusted_keys k = Ok k' →
  ∀ d, d ∈ get_dnskeys nd →
    let missing := list_difference servers_responsive (triples (dnskey_servers_clients d)) in
    (∀ sc, (DNSKEYMissingFromServers, sc) ∈ errors_of (key_of_dnskey d) k'
           ↔ missing ≠ [] ∧ sc = missing_servers_clients servers_responsive d
             ∧ signing_or_anchor nd trusted_keys k d)
    ∧ (∀ sc, (DNSKEYMissingFromServers, sc) ∈ warnings_of (key_of_dnskey d) k'
             ↔ missing ≠ [] ∧ sc = missing_servers_clients servers_responsive d
               ∧ ¬ signing_or_anchor nd trusted_keys k d)
    ∧ (∀ t, t ∈ triples (missing_servers_clients servers_responsive d) ↔ t ∈ missing).
Proof.
  intros Hq Hsr Hnone Hrun d Hd missing.
  apply (populate_dnskey_status_Ok _ _ _ _ _ _ Hq) in Hrun
    as (sr & existing & nss & k1 & Hsr' & (_ & _ & _ & He & Hw) & ->).
  rewrite Hsr in Hsr'. injection Hsr' as <-.
  assert (∀ sc, (DNSKEYMissingFromServers, sc) ∈ errors_of (key_of_dnskey d) k1
                ↔ missing ≠ [] ∧ sc = missing_servers_clients servers_responsive d
                  ∧ signing_or_anchor nd trusted_keys k d) as He1.
  { intros sc. rewrite He. split.
    - intros [Hin|(d0 & Hd0 & Hkey & Hl)].
      + destruct (Hnone (key_of_dnskey d)) as [Hn _]. destruct Hn.
        apply list_elem_of_fmap. by exists (DNSKEYMissingFromServers, sc).
      + assert (d0 = d) as -> by (symmetry; by apply (get_dnskeys_key_inj nd)).
        destruct Hl as [(? & _)|[(_ & _ & z & _ & ?)|(_ & ? & ? & ?)]]; done.
    - intros (? & ? & ?). right. exists d. split_and!; try done.
      right. right. by split_and!. }
  split_and!.
  - intros sc. rewrite <-He1. case_bool_decide; [|done].
    rewrite elem_of_errors_of_trust_anchors.
    split; [intros [?|(d0 & _ & _ & ? & _)]; done|by left].
  - intros sc.
    assert (warnings_of (key_of_dnskey d)
              (if bool_decide (list_difference existing (key_of_dnskey <$> nss) = [])
               then foldl (λ k dnskey,
                             add_error (key_of_dnskey dnskey) TrustAnchorNotSigning
                               (dnskey_servers_clients dnskey) k) k1 nss
               else k1) = warnings_of (key_of_dnskey d) k1) as ->
      by (case_bool_decide; [apply warnings_of_trust_anchors|done]).
    rewrite Hw. split.
    + intros [Hin|(d0 & Hd0 & Hkey & Hl)].
      * destruct (Hnone (key_of_dnskey d)) as [_ Hn]. destruct Hn.
        apply list_elem_of_fmap. by exists (DNSKEYMissingFromServers, sc).
      * assert (d0 = d) as -> by (symmetry; by apply (get_dnskeys_key_inj nd)).
        by destruct Hl as (_ & ? & ? & ?).
    + intros (? & ? & ?). right. exists d. by split_and!.
  - intros t. unfold missing_servers_clients. rewrite elem_of_triples_add_all.
    split; [by intros [?%not_elem_of_nil|?]|by right].
Qed.
End dnskey_status_theorems.

Lemma populate_dnskey_status_not_zone_keyed_name :
  (k1 ← @keys._finalize_key_roles examples.validator samples.keyed_name_with_query
          samples.no_roles;
   @keys._populate_dnskey_status examples.collector examples.validator
     samples.query_attributes [samples.keyed_name_with_query] 0
     samples.keyed_name_with_query [] k1) = Raise TypeError.
Proof.
  eapply (@populate_dnskey_status_not_zone examples.collector examples.validator
            samples.query_attributes [samples.keyed_name_with_query] 0
            samples.keyed_name_with_query [] _ _ samples.no_roles);
    [done|done|by vm_compute|by vm_compute|by vm_compute].
Defined.

Lemma populate_dnskey_status_trust_anchor_keyed_zone :
  keys.trusted_key samples.keyed_zone [("example.", DNSKEY_rdata examples.zsk8)]
    samples.meta8.
Proof.
  set (trusted := [("example.", DNSKEY_rdata examples.zsk8)]).
  set (k := keys.mk (Some [samples.key8]) (Some [samples.key13]) (Some []) (Some [])
              (Some []) [] []).
  set (run := @keys._populate_dnskey_status examples.collector examples.validator
                samples.query_attributes [samples.keyed_zone] 0 samples.keyed_zone
                trusted k).
  set (k' := match run with Ok k => k | _ => k end).
  assert (Hrun : run = Ok k') by (by vm_compute).
  assert (Hd : samples.meta8 ∈ @get_dnskeys examples.validator samples.keyed_zone)
    by (vm_compute; by left).
  refine (proj1 (proj1 (@populate_dnskey_status_trust_anchor examples.collector
                          examples.validator samples.query_attributes
                          [samples.keyed_zone] 0 samples.keyed_zone trusted k k' _ Hrun
                          samples.meta8 Hd) _)).
  - by intros key ?%not_elem_of_nil.
  - apply (bool_decide_unpack _). by vm_compute.
Defined.

Lemma populate_dnskey_status_missing_keyed_zone :
  ("192.0.2.2", "192.0.2.100", examples.response2)
  ∈ triples (keys.missing_servers_clients
               [("192.0.2.1", "192.0.2.100", examples.response1);
                ("192.0.2.2", "192.0.2.100", examples.response2)] samples.meta8).
Proof.
  set (sr := [("192.0.2.1", "192.0.2.100", examples.response1);
              ("192.0.2.2", "192.0.2.100", examples.response2)]).
  set (k := keys.mk (Some [samples.key8]) (Some [samples.key13]) (Some []) (Some [])
              (Some []) [] []).
  set (run := @keys._populate_dnskey_status examples.collector examples.validator
                samples.query_attributes [samples.keyed_zone] 0 samples.keyed_zone [] k).
  set (k' := match run with Ok k => k | _ => k end).
  assert (Hrun : run = Ok k') by (by vm_compute).
  assert (Hd : samples.meta8 ∈ @get_dnskeys examples.validator samples.keyed_zone)
    by (vm_compute; by left).
  apply (proj2 (proj2 (@populate_dnskey_status_missing examples.collector
                         examples.validator samples.query_attributes
                         [samples.keyed_zone] 0 samples.keyed_zone [] _ sr k k'
                         eq_refl ltac:(by vm_compute)
                         ltac:(by intros key; split; intros ?%not_elem_of_nil) Hrun
                         samples.meta8 Hd))).
  apply (bool_decide_unpack _). by vm_compute.
Defined.

(** * The name status once more *)
Section name_status_settles.
Context `{Collector} {P : Type} (g : graph).
Implicit Types (s : state P) (self : node_id).

(** X14. [_populate_name_status] never recurses without end, whatever
    the CNAME targets are; when it returns it has changed nothing but
    the fields [status], [yxdomain], [yxrrset] and [nxrrset] of nodes
    (the sets, the status mappings, the log and every other field of
    every node are as before), and a second call returns the state
    that the first one left. *)
Theorem populate_name_status_settles self s s1 :
  _populate_name_status g self [] s = Ok s1 →
  _populate_name_status g self [] s1 = Ok s1
  ∧ st_sets s1 = st_sets s ∧ st_dicts s1 = st_dicts s ∧ st_log s1 = st_log s
  ∧ (∀ m, evaluation (fields s1 m) = evaluation (fields s m))
  ∧ ∀ trace (t : state P), _populate_name_status g self trace t ≠ OutOfFuel.
Proof.
  intros Hrun. split; [by apply (_populate_name_status_idempotent g self s)|].
  destruct (_populate_name_status_frame g self [] s s1 Hrun) as (? & ? & ? & ?).
  split_and!; try done. intros trace t. apply _populate_name_status_terminates.
Qed.
End name_status_settles.

Lemma populate_name_status_settles_cname_loop :
  ∃ s1, @_populate_name_status examples.collector unit examples.cname_loop 0 []
          examples.initial = Ok s1
        ∧ @_populate_name_status examples.collector unit examples.cname_loop 0 [] s1 = Ok s1.
Proof.
  set (run := @_populate_name_status examples.collector unit examples.cname_loop 0 []
                examples.initial).
  set (s1 := match run with Ok s => s | _ => examples.initial end).
  assert (run = Ok s1) as Hrun by (by vm_compute).
  exists s1. split; [done|].
  exact (proj1 (@populate_name_status_settles examples.collector unit examples.cname_loop
                  0 examples.initial s1 Hrun)).
Defined.
